(** * ada-mobile: HTML normalization pipeline, catalog and client state.

    Shallow embedding of the server transforms (chapter catalog, cleaner,
    margin-table flattener, image normalizer, reference-file validation) and
    of the client functions (href normalization, link classification,
    snippet matcher, overlay stack), followed by the chapter handler, the
    page state around the overlay, the link wiring and the first version of
    the flattener. *)

From Stdlib Require Import List String Ascii Arith Bool Lia PeanoNat Permutation.
From Stdlib Require DecimalString.
Import ListNotations.
Open Scope string_scope.
Open Scope nat_scope.

(** ** JavaScript string primitives

    A string of the model stands for a JavaScript string, well formed (no
    lone surrogate), in UTF-8: an ASCII character is one character of the
    model and stands for itself, and no other character of the text
    contains one.  Under this reading the functions below that search for an
    ASCII character, compare with an ASCII text, concatenate, or cut at a
    position that was found, are the JavaScript ones.  The methods whose
    result depends on the other characters ([trim], [toLowerCase], the
    replacement of [\s+], [length]) and the names that every object inherits
    belong to the platform, [JsPlatform]: a property stated for every
    platform holds of the JavaScript methods, whatever they do with
    characters outside ASCII.  [asciiText] is the platform on ASCII text,
    where the methods are the ASCII functions below.  A regular expression
    with the flag [i] and without the flag [u] takes only the ASCII letters
    of its pattern for one another, so the tests of the code are written
    with [asciiLower]. *)

Module JsString.

Definition isSpace (c : ascii) : bool :=
  let n := nat_of_ascii c in
  ((9 <=? n) && (n <=? 13)) || (n =? 32).

Definition isDigit (c : ascii) : bool :=
  let n := nat_of_ascii c in (48 <=? n) && (n <=? 57).

Definition isUpper (c : ascii) : bool :=
  let n := nat_of_ascii c in (65 <=? n) && (n <=? 90).

Definition isLower (c : ascii) : bool :=
  let n := nat_of_ascii c in (97 <=? n) && (n <=? 122).

Definition lowerChar (c : ascii) : ascii :=
  if isUpper c then ascii_of_nat (nat_of_ascii c + 32) else c.

(** The string with its ASCII letters in lower case. *)
Fixpoint asciiLower (s : string) : string :=
  match s with
  | EmptyString => EmptyString
  | String c r => String (lowerChar c) (asciiLower r)
  end.

Fixpoint trimStart (s : string) : string :=
  match s with
  | EmptyString => EmptyString
  | String c r => if isSpace c then trimStart r else s
  end.

(** Drops trailing white space: a character is kept when it is not white
    space or when something is kept after it. *)
Fixpoint trimEnd (s : string) : string :=
  match s with
  | EmptyString => EmptyString
  | String c r =>
      match trimEnd r with
      | EmptyString => if isSpace c then EmptyString else String c EmptyString
      | r' => String c r'
      end
  end.

(** The string without the ASCII white space at its ends. *)
Definition asciiTrim (s : string) : string := trimEnd (trimStart s).

Definition isEmpty (s : string) : bool :=
  match s with EmptyString => true | _ => false end.

(** [s.startsWith(p)] *)
Fixpoint startsWith (p s : string) : bool :=
  match p, s with
  | EmptyString, _ => true
  | String a p', String b s' => Ascii.eqb a b && startsWith p' s'
  | String _ _, EmptyString => false
  end.

(** Case-insensitive prefix test, for a lower-case pattern [p]. *)
Definition startsWithCI (p s : string) : bool := startsWith p (asciiLower s).

(** [s.indexOf(c)] for a one-character needle; [None] is JavaScript's -1. *)
Fixpoint indexOfChar (c : ascii) (s : string) : option nat :=
  match s with
  | EmptyString => None
  | String a r =>
      if Ascii.eqb a c then Some 0
      else match indexOfChar c r with
           | Some i => Some (S i)
           | None => None
           end
  end.

(** [s.slice(0, n)] for [0 <= n <= s.length]. *)
Fixpoint sliceTo (n : nat) (s : string) : string :=
  match n, s with
  | 0, _ => EmptyString
  | S n', String a r => String a (sliceTo n' r)
  | S _, EmptyString => EmptyString
  end.

(** [s.indexOf(needle) !== -1] *)
Fixpoint includes (needle s : string) : bool :=
  startsWith needle s ||
  match s with
  | EmptyString => false
  | String _ r => includes needle r
  end.

(** [s.split(sep).pop()]: the part after the last occurrence of [sep]
    (the whole string when [sep] does not occur). *)
Fixpoint splitPop (sep : ascii) (s : string) : string :=
  match s with
  | EmptyString => EmptyString
  | String a r =>
      match indexOfChar sep s with
      | None => s
      | Some _ => splitPop sep r
      end
  end.

Fixpoint dropWhile (p : ascii -> bool) (s : string) : string :=
  match s with
  | EmptyString => EmptyString
  | String c r => if p c then dropWhile p r else s
  end.

Fixpoint drop (n : nat) (s : string) : string :=
  match n, s with
  | 0, _ => s
  | S n', String _ r => drop n' r
  | S _, EmptyString => EmptyString
  end.

(** Every run of ASCII white space replaced by one space; [inRun] tells
    that the previous character was white space, already replaced. *)
Fixpoint collapseWs (inRun : bool) (s : string) : string :=
  match s with
  | EmptyString => EmptyString
  | String c r =>
      if isSpace c
      then (if inRun then collapseWs true r else String " " (collapseWs true r))
      else String c (collapseWs false r)
  end.

(** The names that an object made by [{}] inherits, each with the string
    that its value is converted to. *)
Definition objectPrototype : list (string * string) :=
  [("constructor", "function Object() { [native code] }");
   ("__proto__", "[object Object]");
   ("hasOwnProperty", "function hasOwnProperty() { [native code] }");
   ("isPrototypeOf", "function isPrototypeOf() { [native code] }");
   ("propertyIsEnumerable", "function propertyIsEnumerable() { [native code] }");
   ("toLocaleString", "function toLocaleString() { [native code] }");
   ("toString", "function toString() { [native code] }");
   ("valueOf", "function valueOf() { [native code] }");
   ("__defineGetter__", "function __defineGetter__() { [native code] }");
   ("__defineSetter__", "function __defineSetter__() { [native code] }");
   ("__lookupGetter__", "function __lookupGetter__() { [native code] }");
   ("__lookupSetter__", "function __lookupSetter__() { [native code] }")].

Fixpoint assoc (k : string) (l : list (string * string)) : option string :=
  match l with
  | [] => None
  | (k', v) :: r => if String.eqb k' k then Some v else assoc k r
  end.

(** The text has ASCII characters only. *)
Definition isAsciiChar (c : ascii) : bool := nat_of_ascii c <? 128.

Fixpoint isAscii (s : string) : bool :=
  match s with
  | EmptyString => true
  | String c r => isAsciiChar c && isAscii r
  end.

(** What the code takes from the platform. *)
Class JsPlatform := {
  (** [s.trim()] *)
  trim : string -> string;
  (** [s.toLowerCase()] *)
  toLowerCase : string -> string;
  (** [s.replace(/\s+/g, ' ')] *)
  replaceSpaces : string -> string;
  (** [s.length] *)
  jsLength : string -> nat;
  (** [String(({})[name])] for a name that an object made by [{}] inherits;
      [None] for a name it does not inherit.  The value inherited is an
      object or a function, which is truthy. *)
  inheritedProperty : string -> option string
}.

(** The platform on ASCII text. *)
Definition asciiText : JsPlatform :=
  {| trim := asciiTrim;
     toLowerCase := asciiLower;
     replaceSpaces := collapseWs false;
     jsLength := String.length;
     inheritedProperty := fun name => assoc name objectPrototype |}.

(** What the properties below use of the platform's methods: on ASCII text
    they are the ASCII functions; trimming keeps a first character that is
    an ASCII character other than white space; only the empty string has an
    empty lower-case form. *)
Class JsLaws (platform : JsPlatform) : Prop := {
  trim_ascii : forall s, isAscii s = true -> trim s = asciiTrim s;
  toLowerCase_ascii : forall s, isAscii s = true -> toLowerCase s = asciiLower s;
  replaceSpaces_ascii :
    forall s, isAscii s = true -> replaceSpaces s = collapseWs false s;
  jsLength_ascii : forall s, isAscii s = true -> jsLength s = String.length s;
  trim_head :
    forall c r, isAsciiChar c = true -> isSpace c = false ->
      exists r', trim (String c r) = String c r';
  toLowerCase_empty : forall s, toLowerCase s = "" -> s = ""
}.

End JsString.

(** ** Chapter catalog (server) *)

Module Catalog.

(** [PART_CHAPTER_COUNTS]: chapter counts per part; a key that is absent
    yields [undefined], for which the inner loop does not run (count 0). *)
Definition PART_CHAPTER_COUNTS (part : nat) : nat :=
  match part with
  | 1 => 43
  | 2 => 11
  | 3 => 8
  | 4 => 1
  | 5 => 6
  | _ => 0
  end.

Definition hasAnnotationPage (part chapter : nat) : bool :=
  if (part =? 1) && (1 <=? chapter) && (chapter <=? 43) then true
  else if (part =? 2) && (1 <=? chapter) && (chapter <=? 11) then true
  else if (part =? 3) && (1 <=? chapter) && (chapter <=? 2) then true
  else false.

(** Template-literal rendering of a number. *)
Definition num (n : nat) : string := DecimalString.NilZero.string_of_uint (Nat.to_uint n).

Record chapter := mkChapter {
  id : string;
  part : nat;
  chapterNo : nat;
  textUrl : string;
  notesUrl : option string;
  title : string
}.

Definition textId (part ch : nat) : string :=
  if part =? 4 then "4" else num part ++ num ch.

Definition descriptor (part ch : nat) : chapter :=
  let tid := textId part ch in
  {| id := "p" ++ num part ++ "c" ++ num ch;
     part := part;
     chapterNo := ch;
     textUrl := "https://www.ada.auckland.ac.nz/ada" ++ tid ++ ".htm";
     notesUrl := if hasAnnotationPage part ch
                 then Some ("https://www.ada.auckland.ac.nz/ada" ++ tid ++ "ann.htm")
                 else None;
     title := if part =? 4 then "Part 4"
              else "Part " ++ num part ++ ", Chapter " ++ num ch |}.

(** The two nested [for] loops: parts 1..5, chapters 1..maxCh. *)
Definition chaptersOfPart (part : nat) : list chapter :=
  map (descriptor part) (seq 1 (PART_CHAPTER_COUNTS part)).

Definition buildChapters : list chapter :=
  flat_map chaptersOfPart (seq 1 5).

Definition CHAPTERS : list chapter := buildChapters.

End Catalog.

(** ** Document trees

    A DOM node is a text node or an element; every node carries an identity
    [nid], which is what a JavaScript reference to the node denotes.  Tag and
    attribute names are stored in lower case, as the HTML parser produces
    them.  Operations that the code performs through a reference are
    operations addressed by identity.

    The trees are the trees that selectors search.  The contents of a
    [template] element are not among its child nodes: they are a document
    fragment of their own, which [querySelectorAll] does not reach, which
    no function of the code visits, and which [innerHTML] writes out as
    they came.  A property of all descendants of a root therefore says
    nothing about the contents of templates. *)

Module Dom.

#[warnings="-register-all"]
Inductive node : Type :=
| Text (nid : nat) (data : string)
| Elem (nid : nat) (tag : string) (attrs : list (string * string))
       (kids : list node).

Definition nodeId (n : node) : nat :=
  match n with Text i _ => i | Elem i _ _ _ => i end.

Definition isElem (n : node) : bool :=
  match n with Elem _ _ _ _ => true | Text _ _ => false end.

Definition hasTag (t : string) (n : node) : bool :=
  match n with Elem _ t' _ _ => String.eqb t' t | Text _ _ => false end.

Definition childNodes (n : node) : list node :=
  match n with Elem _ _ _ ks => ks | Text _ _ => [] end.

(** [el.children]: the element children. *)
Definition children (n : node) : list node := filter isElem (childNodes n).

Definition attrsOf (n : node) : list (string * string) :=
  match n with Elem _ _ a _ => a | Text _ _ => [] end.

(** [el.getAttribute(name)] *)
Fixpoint getAttribute (name : string) (a : list (string * string))
  : option string :=
  match a with
  | [] => None
  | (k, v) :: r => if String.eqb k name then Some v else getAttribute name r
  end.

Definition hasAttribute (name : string) (n : node) : bool :=
  match getAttribute name (attrsOf n) with Some _ => true | None => false end.

(** [el.removeAttribute(name)] *)
Definition removeAttribute (name : string) (a : list (string * string))
  : list (string * string) :=
  filter (fun kv => negb (String.eqb (fst kv) name)) a.

(** [el.setAttribute(name, v)]: overwrites in place or appends. *)
Fixpoint setAttribute (name v : string) (a : list (string * string))
  : list (string * string) :=
  match a with
  | [] => [(name, v)]
  | (k, w) :: r => if String.eqb k name then (k, v) :: r
                   else (k, w) :: setAttribute name v r
  end.

(** Proper descendants in document order. *)
Fixpoint descendants (n : node) : list node :=
  match n with
  | Text _ _ => []
  | Elem _ _ _ ks => flat_map (fun k => k :: descendants k) ks
  end.

Definition subtree (n : node) : list node := n :: descendants n.

(** Identities of a node and of all its descendants. *)
Definition ids (n : node) : list nat := map nodeId (subtree n).

Definition idsF (ns : list node) : list nat := flat_map ids ns.

(** [root.querySelectorAll(sel)] for a selector decided by [p]. *)
Definition querySelectorAll (p : node -> bool) (n : node) : list node :=
  filter p (descendants n).

(** [node.textContent] *)
Fixpoint textContent (n : node) : string :=
  match n with
  | Text _ s => s
  | Elem _ _ _ ks => fold_right (fun k acc => textContent k ++ acc) "" ks
  end.

(** The node a reference [i] denotes, looked up below [n]. *)
Definition findBelow (i : nat) (n : node) : option node :=
  find (fun k => nodeId k =? i) (descendants n).

(** The node a reference [i] denotes, looked up in a forest. *)
Definition findIn (i : nat) (ns : list node) : option node :=
  find (fun k => nodeId k =? i) (flat_map subtree ns).

(** Replaces every proper descendant of [n] that has identity [i] by the
    nodes [f] makes of it. *)
Fixpoint rewriteAt (i : nat) (f : node -> list node) (n : node) : node :=
  match n with
  | Text _ _ => n
  | Elem j t a ks =>
      Elem j t a
        (flat_map (fun k => if nodeId k =? i then f k else [rewriteAt i f k]) ks)
  end.

(** The same over a forest, whose roots can be addressed too. *)
Definition rewriteIn (i : nat) (f : node -> list node) (ns : list node)
  : list node :=
  flat_map (fun k => if nodeId k =? i then f k else [rewriteAt i f k]) ns.

(** [el.remove()] *)
Definition removeNode (i : nat) (n : node) : node :=
  rewriteAt i (fun _ => []) n.

(** [el.replaceWith(w)] *)
Definition replaceWith (i : nat) (w : node) (n : node) : node :=
  rewriteAt i (fun _ => [w]) n.

Definition mapAttrs (g : list (string * string) -> list (string * string))
  (n : node) : node :=
  match n with
  | Text _ _ => n
  | Elem j t a ks => Elem j t (g a) ks
  end.

(** An attribute update through a reference. *)
Definition updateAttrs (i : nat)
  (g : list (string * string) -> list (string * string)) (n : node) : node :=
  rewriteAt i (fun k => [mapAttrs g k]) n.

Definition clearKids (n : node) : node :=
  match n with
  | Text _ _ => n
  | Elem j t a _ => Elem j t a []
  end.

End Dom.

(** ** Server transforms *)

Module Server.
Import JsString Dom.

(** A document under transformation: its root and the next unused identity,
    from which [createElement] and [createTextNode] draw.  Each transform
    returns at once on a missing root; the model is of a root that exists. *)
Record docState := mkDoc { root : node; fresh : nat }.

Definition isStyleOrLink (n : node) : bool := hasTag "style" n || hasTag "link" n.

(** [stripLegacyStyling]: both [forEach] loops run over the static list the
    selector returned. *)
Definition stripLegacyStyling (r : node) : node :=
  let r1 := fold_left (fun d i => removeNode i d)
              (map nodeId (querySelectorAll isStyleOrLink r)) r in
  fold_left (fun d i => updateAttrs i (removeAttribute "style") d)
    (map nodeId (querySelectorAll (hasAttribute "style") r1)) r1.

Definition stripLineBreaks (r : node) : node :=
  fold_left (fun d i => removeNode i d)
    (map nodeId (querySelectorAll (hasTag "br") r)) r.

(** [/^https?:\/\//i.test(s)] *)
Definition isHttpUrl (s : string) : bool :=
  startsWithCI "http://" s || startsWithCI "https://" s.

(** [img.style.prop = v]: the declaration is written into the inline style
    attribute (the serialisation of the declaration block is approximated by
    appending the declaration). *)
Definition setStyleProperty (prop v : string) (a : list (string * string))
  : list (string * string) :=
  let old := match getAttribute "style" a with
             | Some s => if isEmpty s then "" else s ++ " "
             | None => ""
             end in
  setAttribute "style" (old ++ prop ++ ": " ++ v ++ ";") a.

Section Images.

(** [new URL(src, base).toString()]; [None] when the constructor throws. *)
Variable resolveUrl : string -> string -> option string.

Definition fixImage (baseUrl : string) (a : list (string * string))
  : list (string * string) :=
  let src := match getAttribute "src" a with Some s => s | None => "" end in
  if isEmpty src then a
  else
    let a1 := if negb (isHttpUrl src)
              then match resolveUrl src baseUrl with
                   | Some abs => setAttribute "src" abs a
                   | None => a
                   end
              else a in
    let a2 := removeAttribute "height" (removeAttribute "width" a1) in
    setStyleProperty "margin" "12px auto"
      (setStyleProperty "display" "block"
         (setStyleProperty "height" "auto"
            (setStyleProperty "max-width" "100%" a2))).

Definition isImgWithSrc (n : node) : bool := hasTag "img" n && hasAttribute "src" n.

Definition fixImages (baseUrl : string) (r : node) : node :=
  fold_left (fun d i => updateAttrs i (fixImage baseUrl) d)
    (map nodeId (querySelectorAll isImgWithSrc r)) r.

End Images.

(** *** Margin-table flattener *)

Section Platform.
Context {platform : JsPlatform}.

(** The row test of [allTwoCols]. *)
Definition twoCols (tr : node) : bool :=
  match children tr with
  | [c0; c1] => hasTag "td" c0 && hasTag "td" c1
  | _ => false
  end.

(** State of the row loop: the table being read, the children appended to
    the wrapper so far, the nodes held by fragments that were never appended,
    and the next unused identity. *)
Record rowState := mkRow {
  tbl : node;
  wrapped : list node;
  limbo : list node;
  nextId : nat
}.

Definition forest (s : rowState) : list node := tbl s :: wrapped s ++ limbo s.

(** One iteration of [trs.forEach((tr, idx) => ...)] for the row [rid]. *)
Definition flattenRow (s : rowState) (rid idx : nat) : rowState :=
  match findIn rid (forest s) with
  | None => s
  | Some tr =>
      match querySelectorAll (hasTag "td") tr with
      | marginCell :: contentCell :: _ =>
          let m := nodeId marginCell in
          let c := nodeId contentCell in
          let hasMarker := negb (isEmpty (trim (textContent marginCell))) in
          (* while (marginCell.firstChild) markerFrag.appendChild(...) *)
          let markerFrag := childNodes marginCell in
          let clear := fun k => [clearKids k] in
          let tbl1 := rewriteAt m clear (tbl s) in
          let wr1 := rewriteIn m clear (wrapped s) in
          let li1 := rewriteIn m clear (limbo s) in
          (* while (contentCell.firstChild) contentFrag.appendChild(...) *)
          let contentFrag :=
            match findIn c (tbl1 :: wr1 ++ li1 ++ markerFrag) with
            | Some cc => childNodes cc
            | None => []
            end in
          let tbl2 := rewriteAt c clear tbl1 in
          let wr2 := rewriteIn c clear wr1 in
          let li2 := rewriteIn c clear li1 in
          let markerFrag2 := rewriteIn c clear markerFrag in
          let n := nextId s in
          if idx =? 0 then
            if hasMarker then
              mkRow tbl2 (wr2 ++ markerFrag2 ++ [Elem n "br" [] []] ++ contentFrag)
                    li2 (S n)
            else
              mkRow tbl2 (wr2 ++ contentFrag) (li2 ++ markerFrag2) n
          else if hasMarker then
            mkRow tbl2
                  (wr2 ++ [Elem n "br" [] []] ++ markerFrag2
                       ++ [Elem (S n) "br" [] []] ++ contentFrag)
                  li2 (S (S n))
          else
            mkRow tbl2 (wr2 ++ [Text n " "] ++ contentFrag) (li2 ++ markerFrag2) (S n)
      | _ => s
      end
  end.

(** [trs.forEach] with its running index. *)
Fixpoint flattenRows (s : rowState) (rids : list nat) (idx : nat) : rowState :=
  match rids with
  | [] => s
  | rid :: rest => flattenRows (flattenRow s rid idx) rest (S idx)
  end.

(** The body of [tables.forEach(table => ...)] for the table [tid].  A table
    that is no longer below the root was discarded with an enclosing table;
    what happens to it cannot be seen from the root. *)
Definition flattenTable (d : docState) (tid : nat) : docState :=
  match findBelow tid (root d) with
  | None => d
  | Some table =>
      let trs := querySelectorAll (hasTag "tr") table in
      match trs with
      | [] => d
      | _ :: _ =>
          if negb (forallb twoCols trs) then d
          else
            let w := fresh d in
            let s := flattenRows (mkRow table [] [] (S w)) (map nodeId trs) 0 in
            mkDoc (replaceWith tid (Elem w "p" [] (wrapped s)) (root d))
                  (nextId s)
      end
  end.

Definition flattenMarginTables (d : docState) : docState :=
  fold_left flattenTable
    (map nodeId (querySelectorAll (hasTag "table") (root d))) d.

Section Pipeline.

Variable resolveUrl : string -> string -> option string.

(** The four calls of the chapter handler on one located root. *)
Definition normalizeRoot (baseUrl : string) (d : docState) : docState :=
  let r1 := stripLegacyStyling (root d) in
  let r2 := stripLineBreaks r1 in
  let d3 := flattenMarginTables (mkDoc r2 (fresh d)) in
  mkDoc (fixImages resolveUrl baseUrl (root d3)) (fresh d3).

End Pipeline.

(** *** Auxiliary reference pages *)

(** The character class [[0-9A-Za-z_-]]. *)
Definition isRefChar (c : ascii) : bool :=
  isDigit c || isUpper c || isLower c || Ascii.eqb c "_" || Ascii.eqb c "-".

(** [/^[0-9A-Za-z_-]+\.htm$/i.test(file)]: the class cannot match the dot, so
    the run of class characters is the longest one. *)
Definition safeRefFile (file : string) : bool :=
  let rest := dropWhile isRefChar file in
  (String.length rest <? String.length file)
  && String.eqb (asciiLower rest) ".htm".

Inductive response : Type :=
| ErrorResponse (status : nat) (error : string)
| RefPage (title html : string).

Definition statusOf (r : response) : nat :=
  match r with
  | ErrorResponse st _ => st
  | RefPage _ _ => 200
  end.

Section RefHandler.

Variable resolveUrl : string -> string -> option string.
(** [fetch(url)]: [None] when the request throws, else [resp.ok] and the
    body text. *)
Variable fetchPage : string -> option (bool * string).
(** The parsed page with its [body] (or document element) as root. *)
Variable parsePage : string -> docState.
(** The text of the page's [title] element, empty when there is none. *)
Variable pageTitle : string -> string.
Variable innerHTML : node -> string.

(** The handler of [GET /api/ref/:file]: the upstream requests it issues and
    its response. *)
Definition refHandler (file : string) : list string * response :=
  if negb (safeRefFile file)
  then ([], ErrorResponse 400 "Invalid reference file")
  else
    let url := "https://www.ada.auckland.ac.nz/" ++ file in
    match fetchPage url with
    | None => ([url], ErrorResponse 500 "Server error")
    | Some (false, _) => ([url], ErrorResponse 502 "Failed to fetch reference page")
    | Some (true, page) =>
        let d := normalizeRoot resolveUrl url (parsePage page) in
        let t := pageTitle page in
        ([url], RefPage (if isEmpty t then file else t) (innerHTML (root d)))
    end.

End RefHandler.

End Platform.

End Server.

(** ** Client: link classification, snippet matcher, overlay *)

Module Client.
Import JsString Dom.

Definition ADA_BASE : string := "https://www.ada.auckland.ac.nz/".

Section Platform.
Context {platform : JsPlatform}.

(** [/^https?:\/\//i.test(s)] *)
Definition isHttpUrl (s : string) : bool :=
  startsWithCI "http://" s || startsWithCI "https://" s.

(** An unanchored regular expression matches when it matches at some
    position. *)
Fixpoint matchesSomewhere (at_ : string -> bool) (s : string) : bool :=
  at_ s ||
  match s with
  | EmptyString => false
  | String _ r => matchesSomewhere at_ r
  end.

(** [ada\d+ann\.htm] at the head of a lower-cased string. *)
Definition annAt (s : string) : bool :=
  startsWith "ada" s &&
  (let r := drop 3 s in
   let r' := dropWhile isDigit r in
   (String.length r' <? String.length r) && startsWith "ann.htm" r').

(** [\.htm(\?|#|$)] at the head of a lower-cased string. *)
Definition htmAt (s : string) : bool :=
  startsWith ".htm" s &&
  (match drop 4 s with
   | EmptyString => true
   | String c _ => Ascii.eqb c "?" || Ascii.eqb c "#"
   end).

Definition isAdaNoteHref (href : string) : bool :=
  if isEmpty href then true
  else
    let href := trim href in
    if String.eqb href "" || String.eqb href "#" then true
    else if startsWith "#" href then true
    else if matchesSomewhere annAt (asciiLower href) then true
    else false.

Definition isRelativeAdaDoc (href : string) : bool :=
  if isEmpty href then false
  else if isHttpUrl href then
    startsWithCI "http://www.ada.auckland.ac.nz" href
    || startsWithCI "https://www.ada.auckland.ac.nz" href
  else matchesSomewhere htmAt (asciiLower href).

Definition makeAdaAbsolute (href : string) : string :=
  if isEmpty href then ADA_BASE
  else if isHttpUrl href then href
  else ADA_BASE ++ dropWhile (fun c => Ascii.eqb c "/") href.

(** [Math.min] over the positions that were found. *)
Definition cutAt (len : nat) (hashIdx qIdx : option nat) : nat :=
  let cut := len in
  let cut := match hashIdx with Some h => Nat.min cut h | None => cut end in
  match qIdx with Some q => Nat.min cut q | None => cut end.

(** What [/api/chapters] sends for one chapter. *)
Record chapterMeta := mkMeta { id : string; title : string; textUrl : string }.

Section Urls.

(** [new URL(s).pathname]; [None] when the constructor throws. *)
Variable urlPathname : string -> option string.

(** [normalizeAdaHref]; [None] is [null]. *)
Definition normalizeAdaHref (href : string) : option string :=
  if isEmpty href then None
  else
    let s := trim href in
    if isEmpty s then None
    else
      let cut := cutAt (String.length s) (indexOfChar "#" s) (indexOfChar "?" s) in
      let s := sliceTo cut s in
      if isEmpty s then None
      else
        let s := if isHttpUrl s
                 then match urlPathname s with
                      | Some p => splitPop "/" p
                      | None => s
                      end
                 else splitPop "/" s in
        let r := toLowerCase s in
        if isEmpty r then None else Some r.

(** The object used as a map, made by [{}]: its own keys with their values,
    the latest write for a key first.  The names it inherits are those of
    the platform. *)
Definition hrefMap := list (string * string).

(** The value of the own property [k]. *)
Fixpoint ownGet (m : hrefMap) (k : string) : option string :=
  match m with
  | [] => None
  | (k', v) :: r => if String.eqb k' k then Some v else ownGet r k
  end.

(** [m[k]], as a string: the own property, else the inherited one; [None]
    is [undefined]. *)
Definition mapGet (m : hrefMap) (k : string) : option string :=
  match ownGet m k with
  | Some v => Some v
  | None => inheritedProperty k
  end.

(** [m[k] = v] for a string [v]: an own property, except for the name
    [__proto__], whose inherited setter leaves the object as it is when the
    value is a string. *)
Definition mapSet (m : hrefMap) (k v : string) : hrefMap :=
  if String.eqb k "__proto__" then m else (k, v) :: m.

Definition buildChapterHrefMap (chapters : list chapterMeta) : hrefMap :=
  fold_left (fun m ch =>
    if isEmpty (textUrl ch) then m
    else match urlPathname (textUrl ch) with
         | Some p =>
             let file := toLowerCase (splitPop "/" p) in
             if isEmpty file then m else mapSet m file (id ch)
         | None => m
         end) chapters [].

(** [chapterHrefMap[key] || null]: an own id that is empty is falsy, an
    inherited value is truthy; the result is given as the string it is
    converted to where it is used. *)
Definition lookupChapterIdForHref (chapterHrefMap : hrefMap) (href : string)
  : option string :=
  match normalizeAdaHref href with
  | None => None
  | Some key =>
      match ownGet chapterHrefMap key with
      | Some v => if isEmpty v then None else Some v
      | None => inheritedProperty key
      end
  end.

(** What [wireTextLinks] does with one anchor. *)
Inductive disposition : Type :=
| NoteLink
| ChapterNav (chapterId : string)
| AdaDoc (absHref : string)
| GenericLink.

(** The body of [links.forEach] in [wireTextLinks], for the value of the
    anchor's [href] attribute ([None] when it has none). *)
Definition classifyLink (chapterHrefMap : hrefMap) (hrefAttr : option string)
  : disposition :=
  let rawHref := match hrefAttr with Some h => h | None => "" end in
  if isAdaNoteHref rawHref then NoteLink
  else match lookupChapterIdForHref chapterHrefMap rawHref with
       | Some chapterId => ChapterNav chapterId
       | None =>
           if isRelativeAdaDoc rawHref then AdaDoc (makeAdaAbsolute rawHref)
           else GenericLink
       end.

End Urls.

(** *** Annotation snippet matcher *)

Definition normalize (str : string) : string :=
  toLowerCase (trim (replaceSpaces str)).

Definition isCandidate (n : node) : bool :=
  hasTag "p" n || hasTag "div" n || hasTag "li" n || hasTag "dd" n.

Fixpoint afterId (i : nat) (ks : list node) : option (list node) :=
  match ks with
  | [] => None
  | k :: r => if nodeId k =? i then Some r else afterId i r
  end.

(** The siblings that follow the node [i] under its parent, looked up
    below [n]. *)
Fixpoint siblingsAfter (i : nat) (n : node) : option (list node) :=
  match n with
  | Text _ _ => None
  | Elem _ _ _ ks =>
      match afterId i ks with
      | Some r => Some r
      | None =>
          fold_right (fun k acc =>
                        match siblingsAfter i k with
                        | Some r => Some r
                        | None => acc
                        end) None ks
      end
  end.

(** The chain of [nextElementSibling] from the node [i]. *)
Definition nextElementSiblings (i : nat) (n : node) : list node :=
  match siblingsAfter i n with
  | Some r => filter isElem r
  | None => []
  end.

(** The [while (next && buf.length < 4)] loop; [room] is what is left of
    the four places of [buf]. *)
Fixpoint trailingContext (room : nat) (sibs : list node) : list node :=
  match room, sibs with
  | S room', next :: rest =>
      if isEmpty (normalize (textContent next)) then []
      else next :: trailingContext room' rest
  | _, _ => []
  end.

(** One iteration of [for (const el of candidates)]: [best] with [bestLen];
    [None] for the length is [Infinity]. *)
Definition betterCandidate (normPhrase : string)
  (acc : option node * option nat) (el : node) : option node * option nat :=
  let text := normalize (textContent el) in
  if isEmpty text then acc
  else if includes normPhrase text
          && (match snd acc with
              | Some bestLen => jsLength text <? bestLen
              | None => true
              end)
       then (Some el, Some (jsLength text))
       else acc.

Definition bestCandidate (normPhrase : string) (candidates : list node)
  : option node :=
  fst (fold_left (betterCandidate normPhrase) candidates (None, None)).

(** [buf.join(sep)] *)
Fixpoint join (sep : string) (buf : list string) : string :=
  match buf with
  | [] => ""
  | [x] => x
  | x :: r => x ++ sep ++ join sep r
  end.

Definition newline : string := String (ascii_of_nat 10) EmptyString.

Section Snippets.

(** [el.outerHTML], the serialisation of a node by the DOM. *)
Variable outerHTML : node -> string.

Definition snippetBlocks (notesDom : node) (best : node) : list node :=
  best :: trailingContext 3 (nextElementSiblings (nodeId best) notesDom).

Definition findNoteSnippet (notesDom : option node) (phrase : string) : string :=
  let normPhrase := normalize phrase in
  match notesDom with
  | None => ""
  | Some dom =>
      if isEmpty normPhrase then ""
      else
        match bestCandidate normPhrase (querySelectorAll isCandidate dom) with
        | Some best => join newline (map outerHTML (snippetBlocks dom best))
        | None => ""
        end
  end.

End Snippets.

End Platform.

(** *** Overlay stack *)

Record overlayEntry := mkEntry { html : string; entryTitle : string }.

(** The overlay stack (top last) with the parts of the page the overlay
    functions write: the [visible] and [has-stack] classes of the overlay,
    the [modal-open] class of the body, and the overlay's content and
    title. *)
Record overlayState := mkOverlay {
  overlayStack : list overlayEntry;
  visible : bool;
  hasStack : bool;
  modalOpen : bool;
  overlayContent : string;
  overlayTitle : string
}.

Definition orElse (s dflt : string) : string := if isEmpty s then dflt else s.

Definition closeOverlayCompletely (s : overlayState) : overlayState :=
  mkOverlay [] false false false "" (overlayTitle s).

Definition renderOverlay (s : overlayState) : overlayState :=
  match List.rev (overlayStack s) with
  | [] => closeOverlayCompletely s
  | top :: _ =>
      mkOverlay (overlayStack s) true
                (1 <? List.length (overlayStack s)) true
                (html top) (orElse (entryTitle top) "Commentary")
  end.

Definition pushOverlay (s : overlayState) (h t : string) : overlayState :=
  let e := mkEntry (orElse h "<p>No commentary found.</p>") t in
  renderOverlay (mkOverlay (overlayStack s ++ [e]) (visible s) (hasStack s)
                           (modalOpen s) (overlayContent s) (overlayTitle s)).

Definition popOverlay (s : overlayState) : overlayState :=
  if 1 <? List.length (overlayStack s)
  then renderOverlay (mkOverlay (removelast (overlayStack s)) (visible s)
                                (hasStack s) (modalOpen s)
                                (overlayContent s) (overlayTitle s))
  else closeOverlayCompletely s.

(** The page as it is loaded: no entry, overlay not shown. *)
Definition initialOverlay : overlayState := mkOverlay [] false false false "" "".

(** What the user can do to the overlay. *)
Inductive overlayEvent : Type :=
| Push (h t : string)
| Pop
| CloseCompletely.

Definition overlayStep (s : overlayState) (e : overlayEvent) : overlayState :=
  match e with
  | Push h t => pushOverlay s h t
  | Pop => popOverlay s
  | CloseCompletely => closeOverlayCompletely s
  end.


Definition depth (s : overlayState) : nat := List.length (overlayStack s).

End Client.

(** ** Server: chapter lookup and the chapter handler *)

Module Handlers.
Import JsString Dom Catalog Server.

(** [CHAPTERS.find(ch => ch.id === id)]; [None] is [undefined]. *)
Definition getChapter (id : string) : option chapter :=
  find (fun ch => String.eqb (Catalog.id ch) id) CHAPTERS.

(** The body of the response of [GET /api/chapters]. *)
Definition chaptersHandler : list Client.chapterMeta :=
  map (fun ch => Client.mkMeta (Catalog.id ch) (Catalog.title ch) (Catalog.textUrl ch))
      CHAPTERS.

Inductive chapterResponse : Type :=
| ChapterError (status : nat) (error : string)
| ChapterPage (id title textHtml notesHtml : string).

Definition chapterStatus (r : chapterResponse) : nat :=
  match r with
  | ChapterError st _ => st
  | ChapterPage _ _ _ _ => 200
  end.

Section ChapterHandler.
Context {platform : JsPlatform}.

Variable resolveUrl : string -> string -> option string.
(** [fetch(url)]: [None] when the request or the reading of the body throws,
    else [resp.ok] and the body text. *)
Variable fetchPage : string -> option (bool * string).
(** The parsed text page with its [#text] element, or else its [body], as
    root; [None] when the page has neither (a page of frames), where
    [querySelector] gives [null]. *)
Variable parseText : string -> option docState.
(** The parsed notes page with its [#annotations] element, or else its
    [body], as root; [None] when the page has neither. *)
Variable parseNotes : string -> option docState.
Variable innerHTML : node -> string.

(** The handler of [GET /api/chapter/:id]: the upstream requests it issues,
    in order, and its response.  Both pages are fetched before either is
    parsed.  On a root that is [null] the transforms return at once and the
    reading of [innerHTML] throws, which the handler answers with 500.  On
    a root that exists the parser and the transforms are taken not to
    throw. *)
Definition chapterHandler (id : string) : list string * chapterResponse :=
  match getChapter id with
  | None => ([], ChapterError 404 "Unknown chapter id")
  | Some chapter =>
      let textUrl := Catalog.textUrl chapter in
      match fetchPage textUrl with
      | None => ([textUrl], ChapterError 500 "Server error")
      | Some (false, _) => ([textUrl], ChapterError 502 "Failed to fetch text page")
      | Some (true, textHtml) =>
          let page (notesUrl notesHtmlRaw : string) :=
            match parseText textHtml with
            | None => ChapterError 500 "Server error"
            | Some textDoc =>
                let textRoot := normalizeRoot resolveUrl textUrl textDoc in
                let send (notesHtml : string) :=
                  ChapterPage (Catalog.id chapter) (Catalog.title chapter)
                              (innerHTML (root textRoot)) notesHtml in
                if isEmpty notesHtmlRaw then send ""
                else match parseNotes notesHtmlRaw with
                     | None => ChapterError 500 "Server error"
                     | Some notesDoc =>
                         send (innerHTML
                                 (root (normalizeRoot resolveUrl notesUrl notesDoc)))
                     end
            end in
          let notesUrl := match Catalog.notesUrl chapter with
                          | Some u => u
                          | None => ""
                          end in
          if isEmpty notesUrl then ([textUrl], page notesUrl "")
          else
            match fetchPage notesUrl with
            | None => ([textUrl; notesUrl], ChapterError 500 "Server error")
            | Some (false, _) =>
                ([textUrl; notesUrl], ChapterError 502 "Failed to fetch notes page")
            | Some (true, notesHtmlRaw) =>
                ([textUrl; notesUrl], page notesUrl notesHtmlRaw)
            end
      end
  end.

End ChapterHandler.

End Handlers.

(** ** Client: the page around the overlay *)

Module Pages.
Import JsString Dom Client.

(** What [GET /api/chapter/:id] sends, as the client reads it; a field that
    is missing reads as the empty string under [|| '']. *)
Record chapterData := mkData {
  dataTitle : string;
  dataTextHtml : string;
  dataNotesHtml : string
}.

(** The variables of the page that the note functions read and write, with
    the overlay. *)
Record page := mkPage {
  notesDom : option node;
  notesHtml : string;
  overlay : overlayState
}.

(** The page as the script starts: [notesDom = null], [notesHtml = ''],
    [overlayStack = []]. *)
Definition initialPage : page := mkPage None "" initialOverlay.

Section Notes.
Context {platform : JsPlatform}.

Variable outerHTML : node -> string.
(** [fetchJSON('/api/chapter/' + encodeURIComponent(id))]; [None] when it
    throws. *)
Variable fetchChapter : string -> option chapterData.
(** The element [notes-root] of the document parsed from the notes markup
    wrapped in [<div id="notes-root">]; [None] is [null]. *)
Variable parseNotesRoot : string -> option node.

Definition openNoteForPhrase (p : page) (phrase : string) : page :=
  match notesDom p with
  | None =>
      mkPage (notesDom p) (notesHtml p)
             (pushOverlay (overlay p) (notesHtml p) "Commentary")
  | Some _ =>
      let snippet := if isEmpty phrase then ""
                     else findNoteSnippet outerHTML (notesDom p) phrase in
      let html := orElse snippet (notesHtml p) in
      let title := orElse phrase "Commentary" in
      mkPage (notesDom p) (notesHtml p) (pushOverlay (overlay p) html title)
  end.

(** [onNoteClick] and [onOverlayNoteClick], for the text of the anchor. *)
Definition onNoteClick (p : page) (anchorText : string) : page :=
  openNoteForPhrase p (trim anchorText).

(** [loadChapter]: when the request throws, what follows it is not run.
    The request is taken to be answered before the next event on the page. *)
Definition loadChapter (p : page) (id : string) : page :=
  let o := closeOverlayCompletely (overlay p) in
  match fetchChapter id with
  | None => mkPage (notesDom p) (notesHtml p) o
  | Some data =>
      let notesHtml := dataNotesHtml data in
      mkPage (if isEmpty notesHtml then None else parseNotesRoot notesHtml)
             notesHtml o
  end.

(** What happens on the page: a chapter is chosen in the list or through a
    link of the text, a note link is clicked in the text or in the overlay, a
    chapter link is clicked in the overlay, the back button, the close
    button. *)
Inductive pageEvent : Type :=
| SelectChapter (id : string)
| NoteClick (anchorText : string)
| OverlayChapterLink (id : string)
| Back
| Close.

Definition pageStep (p : page) (e : pageEvent) : page :=
  match e with
  | SelectChapter id => loadChapter p id
  | NoteClick t => onNoteClick p t
  | OverlayChapterLink id =>
      loadChapter (mkPage (notesDom p) (notesHtml p)
                          (closeOverlayCompletely (overlay p))) id
  | Back => mkPage (notesDom p) (notesHtml p) (popOverlay (overlay p))
  | Close => mkPage (notesDom p) (notesHtml p) (closeOverlayCompletely (overlay p))
  end.

Definition runPage (p : page) (es : list pageEvent) : page :=
  fold_left pageStep es p.

End Notes.

End Pages.

(** ** The flattener of [src/server.js]

    The first version of the margin-table flattener keeps the content cells
    only. *)

Module ServerJs.
Import JsString Dom Server.

(** One iteration of [trs.forEach((tr, idx) => ...)] for the row [rid]: a
    space after the first row, then the children of the second cell, moved
    one by one to the end of the wrapper. *)
Definition flattenRow (s : rowState) (rid idx : nat) : rowState :=
  match findIn rid (forest s) with
  | None => s
  | Some tr =>
      match querySelectorAll (hasTag "td") tr with
      | _ :: contentCell :: _ =>
          let c := nodeId contentCell in
          let n := nextId s in
          let clear := fun k => [clearKids k] in
          let wr := if idx =? 0 then wrapped s else (wrapped s ++ [Text n " "])%list in
          mkRow (rewriteAt c clear (tbl s))
                (rewriteIn c clear wr ++ childNodes contentCell)
                (rewriteIn c clear (limbo s))
                (if idx =? 0 then n else S n)
      | _ => s
      end
  end.

Fixpoint flattenRows (s : rowState) (rids : list nat) (idx : nat) : rowState :=
  match rids with
  | [] => s
  | rid :: rest => flattenRows (flattenRow s rid idx) rest (S idx)
  end.

(** The body of [tables.forEach(table => ...)] for the table [tid]. *)
Definition flattenTable (d : docState) (tid : nat) : docState :=
  match findBelow tid (root d) with
  | None => d
  | Some table =>
      let trs := querySelectorAll (hasTag "tr") table in
      match trs with
      | [] => d
      | _ :: _ =>
          if negb (forallb twoCols trs) then d
          else
            let w := fresh d in
            let s := flattenRows (mkRow table [] [] (S w)) (map nodeId trs) 0 in
            mkDoc (replaceWith tid (Elem w "p" [] (wrapped s)) (root d))
                  (nextId s)
      end
  end.

Definition flattenMarginTables (d : docState) : docState :=
  fold_left flattenTable
    (map nodeId (querySelectorAll (hasTag "table") (root d))) d.

End ServerJs.

(** ** Client: what the link wiring writes into the anchors *)

Module Anchors.
Import JsString Dom Client.

(** ASCII white space, on which the value of a [class] attribute is split:
    TAB, LF, FF, CR and SPACE. *)
Definition isAsciiWhitespace (c : ascii) : bool :=
  let n := nat_of_ascii c in
  (n =? 9) || (n =? 10) || (n =? 12) || (n =? 13) || (n =? 32).

(** The maximal runs of characters that are no white space; [cur] is the
    run being read. *)
Fixpoint splitOnWhitespace (cur s : string) : list string :=
  match s with
  | EmptyString => if isEmpty cur then [] else [cur]
  | String c r =>
      if isAsciiWhitespace c
      then (if isEmpty cur then splitOnWhitespace "" r
            else cur :: splitOnWhitespace "" r)
      else splitOnWhitespace (cur ++ String c "") r
  end.

(** The ordered set of the tokens: the first occurrence of each, in order. *)
Definition orderedSet (l : list string) : list string :=
  fold_left (fun acc t => if existsb (String.eqb t) acc then acc
                          else (acc ++ [t])%list) l [].

(** [el.classList.add(token)] for a token that is a valid class name: the
    token joins the set of the tokens of the [class] attribute, and the
    attribute is written back as the tokens separated by single spaces. *)
Definition classListAdd (token : string) (a : list (string * string))
  : list (string * string) :=
  let value := match getAttribute "class" a with Some v => v | None => "" end in
  let tokens := orderedSet (splitOnWhitespace "" value) in
  let tokens := if existsb (String.eqb token) tokens then tokens
                else (tokens ++ [token])%list in
  setAttribute "class" (join " " tokens) a.

(** [a.target = '_blank'; a.rel = 'noopener noreferrer'] *)
Definition openInNewTab (a : list (string * string)) : list (string * string) :=
  setAttribute "rel" "noopener noreferrer" (setAttribute "target" "_blank" a).

Section Wiring.
Context {platform : JsPlatform}.

Variable urlPathname : string -> option string.

(** What the body of [links.forEach] in [wireTextLinks] writes into the
    attributes of one anchor. *)
Definition wireTextLink (chapterHrefMap : hrefMap) (a : list (string * string))
  : list (string * string) :=
  let rawHref := match getAttribute "href" a with Some h => h | None => "" end in
  match classifyLink urlPathname chapterHrefMap (getAttribute "href" a) with
  | NoteLink => classListAdd "note-link" a
  | ChapterNav _ => a
  | AdaDoc abs => openInNewTab (setAttribute "href" abs a)
  | GenericLink =>
      openInNewTab
        (if negb (isEmpty rawHref) && negb (isHttpUrl rawHref)
         then setAttribute "href" rawHref a
         else a)
  end.

(** The same for [wireOverlayLinks], which marks no note link. *)
Definition wireOverlayLink (chapterHrefMap : hrefMap) (a : list (string * string))
  : list (string * string) :=
  let rawHref := match getAttribute "href" a with Some h => h | None => "" end in
  match classifyLink urlPathname chapterHrefMap (getAttribute "href" a) with
  | NoteLink => a
  | ChapterNav _ => a
  | AdaDoc abs => openInNewTab (setAttribute "href" abs a)
  | GenericLink =>
      openInNewTab
        (if negb (isEmpty rawHref) && negb (isHttpUrl rawHref)
         then setAttribute "href" rawHref a
         else a)
  end.

(** [wireTextLinks(root)], as far as it changes the tree. *)
Definition wireTextLinks (chapterHrefMap : hrefMap) (r : node) : node :=
  fold_left (fun d i => updateAttrs i (wireTextLink chapterHrefMap) d)
    (map nodeId (querySelectorAll (hasTag "a") r)) r.

End Wiring.

End Anchors.

(** ** Vocabulary of the statements *)

Module CatalogSpec.
Import Catalog.

Fixpoint nodupb (l : list string) : bool :=
  match l with
  | [] => true
  | x :: r => negb (existsb (String.eqb x) r) && nodupb r
  end.

(** The source filename token of a descriptor, as the spec words it. *)
Definition tokenOf (c : chapter) : string :=
  if part c =? 4 then "4" else num (part c) ++ num (chapterNo c).

Definition descriptorOk (c : chapter) : bool :=
  String.eqb (id c) ("p" ++ num (part c) ++ "c" ++ num (chapterNo c))
  && String.eqb (textUrl c)
                ("https://www.ada.auckland.ac.nz/ada" ++ tokenOf c ++ ".htm")
  && match notesUrl c with
     | Some u =>
         hasAnnotationPage (part c) (chapterNo c)
         && String.eqb u ("https://www.ada.auckland.ac.nz/ada" ++ tokenOf c ++ "ann.htm")
     | None => negb (hasAnnotationPage (part c) (chapterNo c))
     end.

End CatalogSpec.

Module OverlaySpec.
Import Client.

(** What every state reached from the loaded page satisfies. *)
Definition overlayInv (s : overlayState) : Prop :=
  visible s = (1 <=? depth s)
  /\ hasStack s = (1 <? depth s)
  /\ modalOpen s = visible s.

End OverlaySpec.

Module RefSpec.
Import JsString.

(** Alphanumerics, underscore and hyphen. *)
Definition isSafeChar (c : ascii) : bool :=
  isDigit c || isUpper c || isLower c || Ascii.eqb c "_" || Ascii.eqb c "-".

Fixpoint allChars (p : ascii -> bool) (s : string) : bool :=
  match s with
  | EmptyString => true
  | String c r => p c && allChars p r
  end.

Fixpoint takeWhile (p : ascii -> bool) (s : string) : string :=
  match s with
  | EmptyString => EmptyString
  | String c r => if p c then String c (takeWhile p r) else EmptyString
  end.

(** One or more safe characters followed by the extension .htm, whose
    letters may be in either case. *)
Definition safePattern (file : string) : Prop :=
  exists stem ext,
    file = stem ++ ext
    /\ stem <> ""
    /\ allChars isSafeChar stem = true
    /\ asciiLower ext = ".htm".

(** One or more safe characters followed by the extension .htm as
    written, in lower case. *)
Definition strictPattern (file : string) : Prop :=
  exists stem,
    file = stem ++ ".htm"
    /\ stem <> ""
    /\ allChars isSafeChar stem = true.

End RefSpec.

Module HrefSpec.
Import JsString RefSpec.

(** The string has no occurrence of the character. *)
Definition lacks (c : ascii) (s : string) : Prop :=
  allChars (fun x => negb (Ascii.eqb x c)) s = true.

(** [rest] is empty or begins a query string or a fragment. *)
Definition startsQueryOrFragment (rest : string) : Prop :=
  rest = "" \/ exists x r, rest = String x r /\ (x = "#"%char \/ x = "?"%char).

(** [seg] is the last segment of [path]: what follows its last slash. *)
Definition lastSegment (path seg : string) : Prop :=
  exists pre, path = pre ++ seg
    /\ (pre = "" \/ exists q, pre = q ++ "/")
    /\ lacks "/" seg.

(** Position of the first [#] or [?], or the length. *)
Fixpoint firstQF (s : string) : nat :=
  match s with
  | EmptyString => 0
  | String a r =>
      if Ascii.eqb a "#" || Ascii.eqb a "?" then 0 else S (firstQF r)
  end.

Definition nonEmpty (s : string) : option string :=
  if isEmpty s then None else Some s.

(** A URL parser that knows the source site only; it instantiates the
    parser in examples. *)
Definition sitePathname (s : string) : option string :=
  if startsWith "https://www.ada.auckland.ac.nz/" s
  then Some (drop 30 s)
  else None.

End HrefSpec.

Module IndexSpec.
Import JsString Catalog CatalogSpec Client HrefSpec.

(** The response of [GET /api/chapters], as the client receives it. *)
Definition chapterList : list chapterMeta :=
  map (fun c => mkMeta (Catalog.id c) (Catalog.title c) (Catalog.textUrl c)) CHAPTERS.

(** The source file name of a chapter. *)
Definition fileOf (c : chapter) : string := "ada" ++ tokenOf c ++ ".htm".

Definition optEqb (a b : option string) : bool :=
  match a, b with
  | Some x, Some y => String.eqb x y
  | None, None => true
  | _, _ => false
  end.

Section Cut.
Context {platform : JsPlatform}.

(** The part of an href that is left after trimming and cutting the query
    string and the fragment. *)
Definition cutPart (href : string) : string :=
  let s := trim href in
  sliceTo (cutAt (String.length s) (indexOfChar "#" s) (indexOfChar "?" s)) s.

End Cut.

Section Checks.
#[local] Existing Instance asciiText.

(** The checks of the index, for the parser of the source site, on the
    ASCII platform. *)
Definition indexCheck (c : chapter) : bool :=
  let m := buildChapterHrefMap sitePathname chapterList in
  optEqb (sitePathname (Catalog.textUrl c)) (Some ("/" ++ fileOf c))
  && String.eqb (cutPart (Catalog.textUrl c)) (Catalog.textUrl c)
  && String.eqb (toLowerCase (splitPop "/" ("/" ++ fileOf c))) (fileOf c)
  && optEqb (mapGet m (fileOf c)) (Some (Catalog.id c))
  && optEqb (lookupChapterIdForHref sitePathname m (Catalog.textUrl c))
            (Some (Catalog.id c))
  && optEqb (lookupChapterIdForHref sitePathname m (fileOf c))
            (Some (Catalog.id c)).

End Checks.

End IndexSpec.

Module SnippetSpec.
Import JsString Dom Client.

Section Texts.
Context {platform : JsPlatform}.

(** The normalized text of a block. *)
Definition normText (el : node) : string := normalize (textContent el).

(** The block's normalized text contains the normalized phrase. *)
Definition containsPhrase (p : string) (el : node) : Prop :=
  includes p (normText el) = true.

(** [ctx] is what the snippet takes of the element siblings [sibs] that
    follow the selected block: at most [room] of them, from the first on,
    stopping before the first one whose normalized text is empty. *)
Definition contextOf (room : nat) (sibs ctx : list node) : Prop :=
  exists rest,
    sibs = (ctx ++ rest)%list
    /\ List.length ctx <= room
    /\ (forall n, In n ctx -> normText n <> "")
    /\ (List.length ctx = room \/ rest = []
        \/ exists n r, rest = n :: r /\ normText n = "").

End Texts.

(** A serialiser without attributes or escaping; it instantiates
    [outerHTML] in examples. *)
Fixpoint markup (n : node) : string :=
  match n with
  | Text _ s => s
  | Elem _ t _ ks =>
      "<" ++ t ++ ">" ++ fold_right (fun k acc => markup k ++ acc) "" ks
          ++ "</" ++ t ++ ">"
  end.

Section Selection.
Context {platform : JsPlatform}.

Variable outerHTML : node -> string.

(** The selection rule: when some candidate block contains the normalized
    phrase, the snippet is the markup of a shortest such candidate and of its
    trailing context, joined by line feeds. *)
Definition selectsShortest (dom : node) (phrase : string) : Prop :=
  let p := normalize phrase in
  let cands := querySelectorAll isCandidate dom in
  (exists el, In el cands /\ containsPhrase p el) ->
  exists best ctx,
    In best cands /\ containsPhrase p best
    /\ (forall el, In el cands -> containsPhrase p el ->
          jsLength (normText best) <= jsLength (normText el))
    /\ contextOf 3 (nextElementSiblings (nodeId best) dom) ctx
    /\ findNoteSnippet outerHTML (Some dom) phrase
       = join newline (map outerHTML (best :: ctx)).

(** When no candidate block contains the normalized phrase, the snippet is
    empty. *)
Definition emptyWithoutMatch (dom : node) (phrase : string) : Prop :=
  let p := normalize phrase in
  let cands := querySelectorAll isCandidate dom in
  (forall el, In el cands -> ~ containsPhrase p el) ->
  findNoteSnippet outerHTML (Some dom) phrase = "".

End Selection.

(** A notes tree with the single block [<p>abc</p>]. *)
Definition oneBlockNotes : node :=
  Elem 0 "div" [("id", "notes-root")] [Elem 1 "p" [] [Text 2 "abc"]].

Section Loop.
Context {platform : JsPlatform}.

(** Invariant of the candidate loop after the candidates [seen]. *)
Definition loopInv (p : string) (seen : list node)
  (acc : option node * option nat) : Prop :=
  match fst acc with
  | Some b =>
      In b seen /\ containsPhrase p b
      /\ snd acc = Some (jsLength (normText b))
      /\ forall el, In el seen -> containsPhrase p el ->
           jsLength (normText b) <= jsLength (normText el)
  | None =>
      snd acc = None /\ forall el, In el seen -> ~ containsPhrase p el
  end.

End Loop.

End SnippetSpec.

Module DomSpec.
Import JsString Dom Server.

(** The nodes of a forest, in document order. *)
Definition subtreesF (F : list node) : list node := flat_map subtree F.

(** What a node is apart from its children: its tag and attributes. *)
Definition shapeOf (n : node) : option (string * list (string * string)) :=
  match n with
  | Text _ _ => None
  | Elem _ t a _ => Some (t, a)
  end.

(** A node's identity with its shape. *)
Definition sigOf (n : node) : nat * option (string * list (string * string)) :=
  (nodeId n, shapeOf n).

(** Identities are pairwise distinct and below the next unused one. *)
Definition wellFormed (F : list node) (next : nat) : Prop :=
  NoDup (idsF F) /\ forall i, In i (idsF F) -> i < next.

End DomSpec.

Module TableSpec.
Import JsString Dom Server DomSpec.

(** The test [flattenMarginTables] makes of a table: it has a row, and every
    row has exactly two element children, both [td]. *)
Definition qualifies (t : node) : bool :=
  match querySelectorAll (hasTag "tr") t with
  | [] => false
  | trs => forallb twoCols trs
  end.

(** The node is a row, or holds one outside every cell and nested table. *)
Fixpoint hasOwnRowN (n : node) : bool :=
  match n with
  | Text _ _ => false
  | Elem _ t _ ks =>
      if String.eqb t "tr" then true
      else if String.eqb t "td" || String.eqb t "table" then false
      else existsb hasOwnRowN ks
  end.

(** The table has a row of its own: one that lies neither in a cell nor in
    a nested table. *)
Definition ownsRow (t : node) : bool := existsb hasOwnRowN (childNodes t).

(** Every row of the forest has exactly two cells. *)
Definition rowsOk (F : list node) : Prop :=
  forall k, In k (subtreesF F) -> hasTag "tr" k = true -> twoCols k = true.

Definition tableOk (t : node) : Prop :=
  ownsRow t = true /\ rowsOk (childNodes t).

(** Every table of the forest has a row of its own and two cells in every
    row. *)
Definition tablesOk (F : list node) : Prop :=
  forall k, In k (subtreesF F) -> hasTag "table" k = true -> tableOk k.

(** All nodes that the reference [c] denotes in the forest are cells. *)
Definition cellAt (F : list node) (c : nat) : Prop :=
  forall k, In k (subtreesF F) -> nodeId k = c -> hasTag "td" k = true.

Definition clear (k : node) : list node := [clearKids k].

End TableSpec.

Module FlattenSpec.
Import JsString Dom Server DomSpec TableSpec.

(** The nodes a reference can reach during the row loop: the children of
    the table, what the wrapper holds, and what discarded fragments hold. *)
Definition inner (s : rowState) : list node :=
  (childNodes (tbl s) ++ wrapped s ++ limbo s)%list.

(** A node the flattener made: a text node, a line break or a paragraph,
    with an identity drawn from [lo] up to [hi]. *)
Definition madeNode (lo hi : nat) (k : node) : Prop :=
  (shapeOf k = None \/ shapeOf k = Some ("br", []) \/ shapeOf k = Some ("p", []))
  /\ lo <= nodeId k < hi.

(** The node was among [old], up to its children, or was made. *)
Definition comesFrom (old : list node) (lo hi : nat) (k : node) : Prop :=
  (exists k0, In k0 old /\ sigOf k0 = sigOf k) \/ madeNode lo hi k.

Definition originOk (old : list node) (lo hi : nat) (X : list node) : Prop :=
  forall k, In k (subtreesF X) -> comesFrom old lo hi k.

(** The invariant of the row loop on the nodes in reach, for the table
    [tid] and the next unused identity [next]; its part on rows and tables
    is kept when [tb] holds. *)
Definition forestOk (tb : Prop) (tid next : nat) (X : list node) : Prop :=
  NoDup (tid :: idsF X)
  /\ (forall i, In i (tid :: idsF X) -> i < next)
  /\ (tb -> rowsOk X /\ tablesOk X).

End FlattenSpec.

Module DocSpec.
Import JsString Dom Server DomSpec TableSpec FlattenSpec.

(** The identities of the document are pairwise distinct and below the
    next unused one. *)
Definition docOk (d : docState) : Prop :=
  NoDup (ids (root d)) /\ forall i, In i (ids (root d)) -> i < fresh d.

(** All nodes that the reference [i] denotes in the forest are tables. *)
Definition tableAt (F : list node) (i : nat) : Prop :=
  forall k, In k (subtreesF F) -> nodeId k = i -> hasTag "table" k = true.

(** The wrapper that replaces a table. *)
Definition wrapperOf (w : nat) (ks : list node) : node := Elem w "p" [] ks.

Section Rows.
Context {platform : JsPlatform}.

(** The state of the row loop when it ends, for a table that passes the
    test. *)
Definition rowsDone (d : docState) (table : node) : rowState :=
  flattenRows (mkRow table [] [] (S (fresh d)))
    (map nodeId (querySelectorAll (hasTag "tr") table)) 0.

End Rows.

End DocSpec.

Module IdemSpec.
Import JsString Dom Server DomSpec TableSpec FlattenSpec DocSpec.

Definition tablesOf (r : node) : list node := querySelectorAll (hasTag "table") r.

(** The invariant of the table loop when every table passes the test and
    owns a row: [rest] holds the references still to be visited. *)
Definition loopOk (d : docState) (rest : list nat) : Prop :=
  docOk d
  /\ tablesOk (childNodes (root d))
  /\ (forall i, In i rest -> i < fresh d)
  /\ (forall k, In k (descendants (root d)) -> In (nodeId k) rest ->
        hasTag "table" k = true)
  /\ (forall k, In k (descendants (root d)) -> hasTag "table" k = true ->
        In (nodeId k) rest).

(** The nodes of the forest that [Z] denotes hold no row. *)
Definition rowless (Z : nat -> Prop) (F : list node) : Prop :=
  forall k, In k (subtreesF F) -> Z (nodeId k) ->
    querySelectorAll (hasTag "tr") k = [].

(** The invariant of the table loop on every document: a table below the
    root is still to be visited, or fails the test. *)
Definition settled (d : docState) (rest : list nat) : Prop :=
  docOk d
  /\ (forall i, In i rest -> i < fresh d)
  /\ (forall k, In k (descendants (root d)) -> In (nodeId k) rest ->
        hasTag "table" k = true)
  /\ (forall t, In t (tablesOf (root d)) ->
        In (nodeId t) rest \/ qualifies t = false).

(** A table whose only row lies in a cell that is not a cell of a row of
    the table (here a cell of a foreign element in the caption), nested in
    the marker cell of a two-column table. *)
Definition strayCellDoc : docState :=
  mkDoc
    (Elem 0 "div" []
       [Elem 1 "table" []
          [Elem 2 "tr" []
             [Elem 3 "td" []
                [Elem 4 "table" []
                   [Elem 5 "caption" []
                      [Text 6 "m";
                       Elem 7 "svg" []
                         [Elem 8 "td" []
                            [Elem 9 "tr" []
                               [Elem 10 "td" [] [Text 11 "x"];
                                Elem 12 "td" [] [Text 13 "y"]]]]]]];
              Elem 14 "td" [] [Text 15 "b"]]]])
    16.

(** The two-row margin table of the comment on [flattenMarginTables]. *)
Definition marginDoc : docState :=
  mkDoc
    (Elem 0 "div" []
       [Elem 1 "table" []
          [Elem 2 "tbody" []
             [Elem 3 "tr" []
                [Elem 4 "td" [] []; Elem 5 "td" [] [Text 6 "...Mount Tabor"]];
              Elem 7 "tr" []
                [Elem 8 "td" [] [Text 9 "3.05"];
                 Elem 10 "td" [] [Text 11 "Ltd., 1880). That pronouncement..."]]]]])
    12.

End IdemSpec.

Module MarginSpec.
Import JsString Dom Server DomSpec TableSpec.

(** A two-cell row whose marker cell holds a nested two-cell table:
    the markup
    [<table><tr><td><table><tr><td>a</td><td>b</td></tr></table></td>
    <td>c</td></tr></table>] without the implied [tbody] elements. *)
Definition nestedMarkerRow : node :=
  Elem 2 "tr" []
    [Elem 3 "td" []
       [Elem 4 "table" []
          [Elem 5 "tr" []
             [Elem 6 "td" [] [Text 7 "a"]; Elem 8 "td" [] [Text 9 "b"]]]];
     Elem 10 "td" [] [Text 11 "c"]].

Definition nestedMarkerDoc : docState :=
  mkDoc (Elem 0 "div" [] [Elem 1 "table" [] [nestedMarkerRow]]) 12.

Section Blocks.
Context {platform : JsPlatform}.

(** The part of the flowing block that the spec describes for the row of
    index [idx] with marker cell [mc] and content cell [cc]; [n] is the next
    unused identity. *)
Definition rowBlock (idx n : nat) (mc cc : node) : list node * nat :=
  let hasMarker := negb (isEmpty (trim (textContent mc))) in
  if idx =? 0 then
    if hasMarker
    then ((childNodes mc ++ [Elem n "br" [] []] ++ childNodes cc)%list, S n)
    else (childNodes cc, n)
  else if hasMarker
  then (([Elem n "br" [] []] ++ childNodes mc
           ++ [Elem (S n) "br" [] []] ++ childNodes cc)%list, S (S n))
  else (([Text n " "] ++ childNodes cc)%list, S n).

(** The flowing block of the spec for the rows of a table, each taken
    with its first and second cell. *)
Fixpoint tableBlock (rows : list node) (idx n : nat) : list node * nat :=
  match rows with
  | [] => ([], n)
  | tr :: rest =>
      match children tr with
      | [mc; cc] =>
          let b := rowBlock idx n mc cc in
          let r := tableBlock rest (S idx) (snd b) in
          ((fst b ++ fst r)%list, snd r)
      | _ => tableBlock rest (S idx) n
      end
  end.

End Blocks.

(** The row has two cells, its only [td] descendants, and they hold no
    [td]. *)
Definition plainRow (tr : node) : Prop :=
  exists mc cc,
    children tr = [mc; cc]
    /\ querySelectorAll (hasTag "td") tr = [mc; cc]
    /\ querySelectorAll (hasTag "td") mc = []
    /\ querySelectorAll (hasTag "td") cc = [].

(** Tables in which the first row has a marker and a later one has none. *)
Definition plainDoc : docState :=
  mkDoc
    (Elem 0 "div" []
       [Elem 1 "table" []
          [Elem 2 "tr" [] [Elem 3 "td" [] [Text 4 "1.01"];
                           Elem 5 "td" [] [Text 6 "first"]];
           Elem 7 "tr" [] [Elem 8 "td" [] [Text 9 "  "];
                           Elem 10 "td" [] [Text 11 "second"]]]])
    12.

End MarginSpec.

Module CleanSpec.
Import JsString Dom Server DomSpec.

(** The node is no [style] or [link] element and carries no inline style. *)
Definition cleanNode (k : node) : Prop :=
  isStyleOrLink k = false /\ hasAttribute "style" k = false.

(** The fragment below [r] has no [style] or [link] element and no inline
    style attribute. *)
Definition cleanFragment (r : node) : Prop :=
  forall k, In k (descendants r) -> cleanNode k.



(** A URL resolver that always fails; it instantiates the resolver in
    examples. *)
Definition noResolve (src base : string) : option string := None.

End CleanSpec.

Module DetectSpec.
Import JsString Dom Server DomSpec TableSpec FlattenSpec DocSpec IdemSpec.

(** Every row of the table has exactly two element children, both [td]:
    the condition in the words of the spec. *)
Definition everyRowTwoCells (t : node) : bool :=
  forallb twoCols (querySelectorAll (hasTag "tr") t).

(** No node of the output has the table's identity: the table was replaced. *)
Definition replacedIn (out : node) (t : node) : Prop :=
  forall k, In k (descendants out) -> nodeId k <> nodeId t.

(** The table is in the output as it was: same node, same subtree. *)
Definition keptIn (out : node) (t : node) : Prop := In t (descendants out).

(** No table of the document lies in another table. *)
Definition tablesApart (r : node) : Prop :=
  forall t, In t (tablesOf r) -> tablesOf t = [].

(** The invariant of the table loop when tables are apart: the tables
    still to be visited, and those visited. *)
Definition apartInv (d : docState) (visited rest : list node) : Prop :=
  docOk d
  /\ (forall t, In t rest -> keptIn (root d) t)
  /\ (forall t, In t visited ->
        nodeId t < fresh d
        /\ (qualifies t = true -> replacedIn (root d) t)
        /\ (qualifies t = false -> keptIn (root d) t)).

(** A table without rows, beside a paragraph. *)
Definition emptyTableDoc : docState :=
  mkDoc
    (Elem 0 "div" []
       [Elem 1 "table" [("class", "layout")] [Elem 2 "caption" [] [Text 3 "Plates"]];
        Elem 4 "p" [] [Text 5 "text"]])
    6.

End DetectSpec.

Module HandlerSpec.
Import JsString Catalog RefSpec Server Handlers.

(** An upstream that answers every request with the same page. *)
Definition alwaysOk (url : string) : option (bool * string) := Some (true, "<p>x</p>").

Definition emptyPage (html : string) : docState := mkDoc (Dom.Elem 0 "body" [] []) 1.

(** A parser that finds the empty body as root in every page. *)
Definition emptyRoot (html : string) : option docState := Some (emptyPage html).

Definition noMarkup (n : Dom.node) : string := "".

Definition noTitle (page : string) : string := "".

(** The prefix of the upstream's chapter pages. *)
Definition UPSTREAM : string := "https://www.ada.auckland.ac.nz/ada".

(** The URLs of a descriptor are pages of the upstream, and a notes URL is
    not the empty string. *)
Definition upstreamUrls (ch : chapter) : bool :=
  startsWith UPSTREAM (Catalog.textUrl ch)
  && match Catalog.notesUrl ch with
     | Some nu => startsWith UPSTREAM nu && negb (isEmpty nu)
     | None => true
     end.

(** The characters of a file name that passes the reference test. *)
Definition isFileChar (c : ascii) : bool := isSafeChar c || Ascii.eqb c ".".

End HandlerSpec.

Module LinkSpec.
Import JsString Catalog RefSpec HrefSpec Client.

(** The string begins, in either case, with the scheme and host name of the
    source site. *)
Definition hasSitePrefix (s : string) : bool :=
  startsWithCI "http://www.ada.auckland.ac.nz" s
  || startsWithCI "https://www.ada.auckland.ac.nz" s.

(** The string holds [.htm] at its end, or before a query string or a
    fragment. *)
Definition namesHtmFile (s : string) : Prop :=
  exists pre post, s = pre ++ ".htm" ++ post /\ startsQueryOrFragment post.

Section Keys.
Context {platform : JsPlatform}.

Variable urlPathname : string -> option string.

(** The key under which [buildChapterHrefMap] enters a chapter, when it
    enters it: the lower-cased file name of its text page, unless that is
    empty or the name [__proto__]. *)
Definition fileKey (ch : chapterMeta) : option string :=
  if isEmpty (textUrl ch) then None
  else match urlPathname (textUrl ch) with
       | Some p =>
           let file := toLowerCase (splitPop "/" p) in
           if isEmpty file || String.eqb file "__proto__" then None else Some file
       | None => None
       end.

End Keys.

(** The file name of the notes page of a chapter. *)
Definition notesFileOf (c : chapter) : string := "ada" ++ CatalogSpec.tokenOf c ++ "ann.htm".

Section Checks.
#[local] Existing Instance asciiText.

(** The classification of the links to a chapter of the catalog, for the
    parser of the source site, on the ASCII platform. *)
Definition linkCheck (c : chapter) : bool :=
  let m := buildChapterHrefMap sitePathname IndexSpec.chapterList in
  negb (isAdaNoteHref (IndexSpec.fileOf c))
  && negb (isAdaNoteHref (Catalog.textUrl c))
  && isAdaNoteHref (notesFileOf c)
  && match Catalog.notesUrl c with
     | Some nu => isAdaNoteHref nu
     | None => true
     end.

End Checks.

End LinkSpec.

Module TextSpec.
Import JsString.

(** Every white-space character of the string is a space that follows no
    white space; [inRun] tells that white space precedes the string. *)
Fixpoint singleSpaced (inRun : bool) (s : string) : bool :=
  match s with
  | EmptyString => true
  | String c r =>
      if isSpace c
      then negb inRun && Ascii.eqb c " " && singleSpaced true r
      else singleSpaced false r
  end.

End TextSpec.

Module PageSpec.
Import JsString Dom Client OverlaySpec Pages.

(** The text shown when there is nothing else to show. *)
Definition PLACEHOLDER : string := "<p>No commentary found.</p>".

(** A visible overlay shows the entry on top of the stack. *)
Definition showsTop (o : overlayState) : Prop :=
  visible o = true ->
  exists front top,
    overlayStack o = (front ++ [top])%list
    /\ overlayContent o = html top
    /\ overlayTitle o = orElse (entryTitle top) "Commentary".

(** What every page reached from the initial one satisfies. *)
Definition pageInv (p : page) : Prop :=
  overlayInv (overlay p)
  /\ (notesHtml p = "" -> notesDom p = None)
  /\ (forall e, In e (overlayStack (overlay p)) -> html e <> "")
  /\ showsTop (overlay p).

(** A chapter service that knows no chapter, and a notes parser that gives
    the one-block notes; they instantiate the parameters in examples. *)
Definition noChapter (id : string) : option chapterData := None.

Definition oneBlockParser (notesHtml : string) : option node :=
  Some SnippetSpec.oneBlockNotes.

End PageSpec.

Module TransformSpec.
Import JsString Dom Server DomSpec.

(** The text of a list of nodes, one after the other. *)
Definition textF (ks : list node) : string :=
  fold_right (fun k acc => textContent k ++ acc) "" ks.

(** A shape with its attributes changed by [g]. *)
Definition mapShape (g : list (string * string) -> list (string * string))
  (sh : option (string * list (string * string)))
  : option (string * list (string * string)) :=
  match sh with
  | Some (t, a) => Some (t, g a)
  | None => None
  end.

(** The effect of one attribute update on an identity with its shape. *)
Definition updSig (i : nat) (g : list (string * string) -> list (string * string))
  (x : nat * option (string * list (string * string)))
  : nat * option (string * list (string * string)) :=
  (fst x, if fst x =? i then mapShape g (snd x) else snd x).

(** The effect of the attribute updates for the references [S]. *)
Definition updSigs (S : list nat) (g : list (string * string) -> list (string * string))
  (x : nat * option (string * list (string * string)))
  : nat * option (string * list (string * string)) :=
  (fst x, if existsb (Nat.eqb (fst x)) S then mapShape g (snd x) else snd x).

(** A fragment with two images, a line break and an inline style. *)
Definition pictureDoc : docState :=
  mkDoc
    (Elem 0 "div" []
       [Elem 1 "p" [("style", "color: red")] [Text 2 "a"; Elem 3 "br" [] []; Text 4 "b"];
        Elem 5 "img" [("src", "pict/map.jpg"); ("width", "400")] [];
        Elem 6 "img" [("alt", "no source")] []])
    7.

End TransformSpec.

Module ServerJsSpec.
Import JsString Dom Server.

(** What the row of index [idx] with content cell [cc] adds to the
    paragraph; [n] is the next unused identity. *)
Definition contentPart (idx n : nat) (cc : node) : list node * nat :=
  if idx =? 0 then (childNodes cc, n)
  else (([Text n " "] ++ childNodes cc)%list, S n).

(** The children of the paragraph for the rows of a table, each taken with
    its second cell. *)
Fixpoint contentBlock (rows : list node) (idx n : nat) : list node * nat :=
  match rows with
  | [] => ([], n)
  | tr :: rest =>
      match children tr with
      | [_; cc] =>
          let b := contentPart idx n cc in
          let r := contentBlock rest (S idx) (snd b) in
          ((fst b ++ fst r)%list, snd r)
      | _ => contentBlock rest (S idx) n
      end
  end.

(** The texts of the second cells of the rows. *)
Definition contentTexts (rows : list node) : list string :=
  flat_map (fun tr => match children tr with
                      | [_; cc] => [textContent cc]
                      | _ => []
                      end) rows.

(** The table of [MarginSpec.plainDoc]. *)
Definition plainTable : node :=
  Elem 1 "table" []
    [Elem 2 "tr" [] [Elem 3 "td" [] [Text 4 "1.01"];
                     Elem 5 "td" [] [Text 6 "first"]];
     Elem 7 "tr" [] [Elem 8 "td" [] [Text 9 "  "];
                     Elem 10 "td" [] [Text 11 "second"]]].

(** The strings, each after a space. *)
Definition spaced (l : list string) : string :=
  fold_right (fun t acc => " " ++ t ++ acc) "" l.

End ServerJsSpec.

Module NoteSpec.
Import JsString Catalog RefSpec Client.

(** The string holds the name of a notes file: [ada], one or more digits,
    [ann.htm]. *)
Definition namesNotesFile (s : string) : Prop :=
  exists pre digits post,
    s = pre ++ "ada" ++ digits ++ "ann.htm" ++ post
    /\ digits <> "" /\ allChars isDigit digits = true.

(** The catalog has a chapter [ch] of the part [p] with a notes URL. *)
Definition hasNotes (p ch : nat) (c : chapter) : bool :=
  (part c =? p) && (chapterNo c =? ch)
  && match notesUrl c with Some _ => true | None => false end.

(** The pairs the rule accepts are chapters of the catalog with a notes URL,
    for the parts up to [3] and the chapters up to [43]. *)
Definition ruleInCatalog : bool :=
  forallb (fun p =>
    forallb (fun ch =>
      implb (hasAnnotationPage p ch) (existsb (hasNotes p ch) CHAPTERS))
      (seq 0 44))
    (seq 0 4).

End NoteSpec.

Module AnchorSpec.
Import JsString Dom Client.

(** The anchor opens in a new tab, without access to the opening page. *)
Definition opensApart (a : list (string * string)) : Prop :=
  getAttribute "target" a = Some "_blank"
  /\ getAttribute "rel" a = Some "noopener noreferrer".

(** A text with a note link, a link to a page of the source site and a link
    to another site. *)
Definition linksDoc : node :=
  Elem 0 "div" []
    [Elem 1 "a" [("href", "#n1"); ("class", "x  y")] [Text 2 "note"];
     Elem 3 "a" [("href", "pict/map.htm")] [Text 4 "map"];
     Elem 5 "a" [("href", "https://example.org/")] [Text 6 "out"]].

End AnchorSpec.

(** * Properties *)

(** ** The platform on ASCII text *)

Section AsciiPlatform.
Import JsString.

Lemma trimEnd_cons (c : ascii) (r : string) :
  trimEnd (String c r)
  = match trimEnd r with
    | EmptyString => if isSpace c then EmptyString else String c EmptyString
    | r' => String c r'
    end.
Proof. reflexivity. Qed.

Lemma asciiTrim_head (c : ascii) (r : string) :
  isSpace c = false -> exists r', asciiTrim (String c r) = String c r'.
Proof.
  intro E. unfold asciiTrim. cbn [trimStart]. rewrite E, trimEnd_cons, E.
  destruct (trimEnd r); eexists; reflexivity.
Qed.

Lemma asciiLower_empty (s : string) : asciiLower s = "" -> s = "".
Proof. destruct s; [reflexivity | discriminate]. Qed.

(** The ASCII functions are a platform of the kind the properties use. *)
Lemma asciiText_laws : JsLaws asciiText.
Proof.
  constructor; try reflexivity.
  - intros c r _ E. now apply asciiTrim_head.
  - exact asciiLower_empty.
Qed.

End AsciiPlatform.

(** ** Chapter catalog *)

Section CatalogFacts.
Context {platform : JsString.JsPlatform}.
Import Catalog CatalogSpec.

Lemma nodupb_NoDup (l : list string) : nodupb l = true -> NoDup l.
Proof.
  induction l as [|x r IH]; simpl; intro H.
  - constructor.
  - apply andb_true_iff in H as [Hx Hr].
    constructor; [|now apply IH].
    intro Hin. apply negb_true_iff in Hx.
    assert (existsb (String.eqb x) r = true) as E.
    { apply existsb_exists. exists x. split; [exact Hin | apply String.eqb_refl]. }
    congruence.
Qed.

(** C6. [buildChapters()] returns 69 = 43+11+8+1+6 descriptors, parts in
    order and chapters in order within each part; the ids are pairwise
    distinct and of the form p{part}c{chapter}; the filename token is "4" for
    part 4 and part number followed by chapter number otherwise; [notesUrl] is
    present exactly for the pairs [hasAnnotationPage] accepts; part 4 has one
    descriptor, with text URL ending in ada4.htm, no notes URL and title
    "Part 4". *)
Theorem C6_catalog :
  List.length buildChapters = 69
  /\ 43 + 11 + 8 + 1 + 6 = 69
  /\ map (fun c => (part c, chapterNo c)) buildChapters
     = (map (pair 1) (seq 1 43) ++ map (pair 2) (seq 1 11)
        ++ map (pair 3) (seq 1 8) ++ map (pair 4) (seq 1 1)
        ++ map (pair 5) (seq 1 6))%list
  /\ NoDup (map id buildChapters)
  /\ (forall c, In c buildChapters ->
        id c = "p" ++ num (part c) ++ "c" ++ num (chapterNo c)
        /\ textUrl c = "https://www.ada.auckland.ac.nz/ada" ++ tokenOf c ++ ".htm"
        /\ (notesUrl c <> None <-> hasAnnotationPage (part c) (chapterNo c) = true)
        /\ (forall u, notesUrl c = Some u ->
              u = "https://www.ada.auckland.ac.nz/ada" ++ tokenOf c ++ "ann.htm"))
  /\ (exists d, filter (fun c => part c =? 4) buildChapters = [d]
        /\ textUrl d = "https://www.ada.auckland.ac.nz/" ++ "ada4.htm"
        /\ notesUrl d = None
        /\ title d = "Part 4").
Proof.
  split; [reflexivity|]. split; [reflexivity|]. split; [reflexivity|].
  split; [apply nodupb_NoDup; vm_compute; reflexivity|].
  split.
  - assert (forallb descriptorOk buildChapters = true) as H by (vm_compute; reflexivity).
    intros c Hc. rewrite forallb_forall in H. specialize (H c Hc).
    unfold descriptorOk in H.
    apply andb_true_iff in H as [H Hn]. apply andb_true_iff in H as [Hi Ht].
    apply String.eqb_eq in Hi. apply String.eqb_eq in Ht.
    split; [exact Hi|]. split; [exact Ht|].
    destruct (notesUrl c) as [u|].
    + apply andb_true_iff in Hn as [Ha Hu]. apply String.eqb_eq in Hu.
      split; [split; [intros _; exact Ha | intros _; discriminate]|].
      intros u' E. injection E as <-. exact Hu.
    + apply negb_true_iff in Hn.
      split; [split; [intro F; now elim F | intro F; congruence]|].
      intros u' E. discriminate.
  - eexists. split; [vm_compute; reflexivity|].
    repeat split; reflexivity.
Qed.

End CatalogFacts.

(** ** Overlay state machine *)

Section OverlayFacts.
Context {platform : JsString.JsPlatform}.
Import Client OverlaySpec.

Lemma render_nonempty (s : overlayState) :
  overlayStack s <> [] ->
  renderOverlay s
  = mkOverlay (overlayStack s) true (1 <? List.length (overlayStack s)) true
      (html (List.last (overlayStack s) (mkEntry "" "")))
      (orElse (entryTitle (List.last (overlayStack s) (mkEntry "" ""))) "Commentary").
Proof.
  intro Hne. unfold renderOverlay.
  destruct (exists_last Hne) as [front [top E]]. rewrite E.
  rewrite rev_app_distr. simpl. rewrite last_last. reflexivity.
Qed.

Lemma push_state (s : overlayState) (h t : string) :
  pushOverlay s h t
  = mkOverlay (overlayStack s ++ [mkEntry (orElse h "<p>No commentary found.</p>") t])
      true (1 <? S (depth s)) true
      (orElse h "<p>No commentary found.</p>") (orElse t "Commentary").
Proof.
  unfold pushOverlay. rewrite render_nonempty.
  - simpl. rewrite last_last, length_app. simpl.
    unfold depth. rewrite Nat.add_1_r. reflexivity.
  - simpl. intro E. symmetry in E. now apply app_cons_not_nil in E.
Qed.

Lemma length_removelast_lt {A} (l : list A) :
  1 < List.length l -> removelast l <> [] /\ List.length (removelast l) = List.length l - 1.
Proof.
  intro H. destruct (exists_last (l := l)) as [front [top E]].
  { intro E; rewrite E in H; simpl in H; lia. }
  subst l. rewrite removelast_last. rewrite length_app in *. simpl in *.
  split; [|lia].
  destruct front; [simpl in H; lia | discriminate].
Qed.

Lemma pop_deep (s : overlayState) :
  1 < depth s ->
  popOverlay s
  = mkOverlay (removelast (overlayStack s)) true (1 <? depth s - 1) true
      (html (List.last (removelast (overlayStack s)) (mkEntry "" "")))
      (orElse (entryTitle (List.last (removelast (overlayStack s)) (mkEntry "" "")))
              "Commentary").
Proof.
  intro H. unfold popOverlay, depth in *.
  destruct (Nat.ltb_spec 1 (List.length (overlayStack s))) as [_|C]; [|lia].
  destruct (length_removelast_lt _ H) as [Hne Hlen].
  rewrite render_nonempty by exact Hne. simpl. now rewrite Hlen.
Qed.

Lemma pop_shallow (s : overlayState) :
  depth s <= 1 -> popOverlay s = closeOverlayCompletely s.
Proof.
  intro H. unfold popOverlay, depth in *.
  destruct (Nat.ltb_spec 1 (List.length (overlayStack s))) as [C|_]; [lia|reflexivity].
Qed.

Lemma overlayInv_step (s : overlayState) (e : overlayEvent) :
  overlayInv s -> overlayInv (overlayStep s e).
Proof.
  intros _. destruct e as [h t| |]; simpl.
  - rewrite push_state. unfold overlayInv, depth. simpl.
    rewrite length_app. simpl.
    replace (List.length (overlayStack s) + 1) with (S (List.length (overlayStack s))) by lia.
    repeat split.
  - destruct (Nat.lt_ge_cases 1 (depth s)) as [H|H].
    + rewrite (pop_deep _ H). unfold overlayInv, depth in *.
      cbn [visible hasStack modalOpen overlayStack].
      destruct (length_removelast_lt _ H) as [_ ->].
      repeat split.
      symmetry. apply Nat.leb_le. lia.
    + rewrite (pop_shallow _ H). repeat split.
  - repeat split.
Qed.



End OverlayFacts.

(** ** Reference-file validation *)

Section RefFacts.
Context {platform : JsString.JsPlatform}.
Import JsString Dom Server RefSpec.

Lemma take_drop_while (p : ascii -> bool) (s : string) :
  s = takeWhile p s ++ dropWhile p s.
Proof.
  induction s as [|c r IH]; simpl; [reflexivity|].
  destruct (p c); simpl; [now rewrite <- IH | reflexivity].
Qed.

Lemma allChars_takeWhile (p : ascii -> bool) (s : string) :
  allChars p (takeWhile p s) = true.
Proof.
  induction s as [|c r IH]; simpl; [reflexivity|].
  destruct (p c) eqn:E; simpl; [now rewrite E | reflexivity].
Qed.

Lemma dropWhile_length (p : ascii -> bool) (s : string) :
  String.length (dropWhile p s) <= String.length s.
Proof.
  induction s as [|c r IH]; simpl; [lia|].
  destruct (p c); simpl; lia.
Qed.

Lemma takeWhile_nonempty (p : ascii -> bool) (s : string) :
  String.length (dropWhile p s) < String.length s -> takeWhile p s <> "".
Proof.
  destruct s as [|c r]; simpl; [lia|].
  destruct (p c); simpl; [discriminate | lia].
Qed.

Lemma dropWhile_app (p : ascii -> bool) (stem ext : string) :
  allChars p stem = true ->
  (forall c r, ext = String c r -> p c = false) ->
  dropWhile p (stem ++ ext) = ext.
Proof.
  intros Hs He. induction stem as [|c r IH]; simpl in *.
  - destruct ext as [|c r]; [reflexivity|]. simpl. now rewrite (He c r eq_refl).
  - apply andb_true_iff in Hs as [Hc Hr]. rewrite Hc. now apply IH.
Qed.

Lemma lower_dot_unsafe (c : ascii) : lowerChar c = "."%char -> isSafeChar c = false.
Proof.
  destruct c as [[] [] [] [] [] [] [] []]; vm_compute; congruence.
Qed.

Lemma length_append (a b : string) :
  String.length (a ++ b) = String.length a + String.length b.
Proof. induction a as [|c r IH]; simpl; [reflexivity | now rewrite IH]. Qed.

Lemma safeRefFile_spec (file : string) :
  safeRefFile file = true <-> safePattern file.
Proof.
  unfold safeRefFile, safePattern. split.
  - intro H. apply andb_true_iff in H as [Hl He].
    apply Nat.ltb_lt in Hl. apply String.eqb_eq in He.
    exists (takeWhile isRefChar file), (dropWhile isRefChar file).
    split; [apply take_drop_while|].
    split; [now apply takeWhile_nonempty|].
    split; [apply (allChars_takeWhile isRefChar) | exact He].
  - intros [stem [ext [E [Hne [Hall Hext]]]]]. subst file.
    rewrite (dropWhile_app isRefChar) ; [| exact Hall |].
    + apply andb_true_iff. split; [|now apply String.eqb_eq].
      apply Nat.ltb_lt. rewrite length_append.
      destruct stem; [now elim Hne | simpl; lia].
    + intros c r ->. simpl in Hext. injection Hext as Hc _.
      now apply lower_dot_unsafe.
Qed.

Variable resolveUrl : string -> string -> option string.
Variable fetchPage : string -> option (bool * string).
Variable parsePage : string -> docState.
Variable pageTitle : string -> string.
Variable innerHTML : node -> string.

Let handler := refHandler resolveUrl fetchPage parsePage pageTitle innerHTML.

(** C7 (amended). The reference operation answers 400 exactly when the file
    name is not one or more characters among alphanumerics, underscore and
    hyphen followed by the extension .htm with its letters in either case;
    a rejected name causes no upstream request; the names ../../etc and x.php
    are rejected with 400. *)
Theorem C7_ref_validation :
  (forall file, statusOf (snd (handler file)) = 400 <-> ~ safePattern file)
  /\ (forall file, ~ safePattern file -> fst (handler file) = [])
  /\ statusOf (snd (handler "../../etc")) = 400
  /\ statusOf (snd (handler "x.php")) = 400
  /\ fst (handler "../../etc") = [] /\ fst (handler "x.php") = [].
Proof.
  assert (forall file, safeRefFile file = false ->
            handler file = ([], ErrorResponse 400 "Invalid reference file")) as Hrej.
  { intros file H. unfold handler, refHandler. now rewrite H. }
  assert (forall file, safeRefFile file = true ->
            statusOf (snd (handler file)) <> 400) as Hacc.
  { intros file H. unfold handler, refHandler. rewrite H. simpl.
    destruct (fetchPage _) as [[[] page]|]; simpl; discriminate. }
  split.
  { intro file. rewrite <- safeRefFile_spec.
    destruct (safeRefFile file) eqn:E.
    - split; [intro H; now elim (Hacc file E) | intro H; now elim H].
    - rewrite (Hrej file E). simpl. split; [intros _; discriminate | reflexivity]. }
  split.
  { intros file H. rewrite <- safeRefFile_spec in H.
    destruct (safeRefFile file) eqn:E; [now elim H|]. now rewrite (Hrej file E). }
  rewrite !Hrej by reflexivity. repeat split.
Qed.

End RefFacts.

Section RefExamples.
#[local] Existing Instance JsString.asciiText.
Import JsString Server RefSpec.

(** C7, the claim as stated: the name a.HTM is not a run of safe characters
    followed by the extension .htm, yet the operation does not answer 400:
    the name passes the test, which ignores case, and the page is requested
    upstream. *)
Lemma C7_upper_case_extension_counterexample :
  ~ strictPattern "a.HTM"
  /\ safeRefFile "a.HTM" = true
  /\ statusOf (snd (refHandler CleanSpec.noResolve HandlerSpec.alwaysOk
                      HandlerSpec.emptyPage HandlerSpec.noTitle
                      HandlerSpec.noMarkup "a.HTM")) = 200
  /\ fst (refHandler CleanSpec.noResolve HandlerSpec.alwaysOk
            HandlerSpec.emptyPage HandlerSpec.noTitle HandlerSpec.noMarkup "a.HTM")
     = ["https://www.ada.auckland.ac.nz/a.HTM"].
Proof.
  split; [|split; [reflexivity | split; reflexivity]].
  intros [stem [E _]].
  assert (String.length stem = 1) as L.
  { apply (f_equal String.length) in E. rewrite length_append in E. simpl in E. lia. }
  destruct stem as [|c [|c' r]]; discriminate.
Qed.

End RefExamples.

(** ** Href normalization and rule 1 of the link classifier *)

Section HrefFacts.
Context {platform : JsString.JsPlatform} {laws : JsString.JsLaws platform}.
Import JsString RefSpec Client HrefSpec.

Lemma indexOfChar_none_lacks (c : ascii) (s : string) :
  indexOfChar c s = None <-> lacks c s.
Proof.
  unfold lacks. induction s as [|a r IH]; simpl.
  - split; reflexivity.
  - destruct (Ascii.eqb a c); simpl.
    + split; discriminate.
    + destruct (indexOfChar c r).
      * split; [discriminate|]. intro H. apply IH in H. discriminate.
      * split; [intros _; now apply IH | reflexivity].
Qed.

Lemma cutAt_firstQF (s : string) :
  cutAt (String.length s) (indexOfChar "#" s) (indexOfChar "?" s) = firstQF s.
Proof.
  induction s as [|a r IH]; [reflexivity|]. simpl.
  destruct (Ascii.eqb a "#") eqn:Eh; destruct (Ascii.eqb a "?") eqn:Eq; simpl.
  - unfold cutAt. lia.
  - unfold cutAt. destruct (indexOfChar "?" r); lia.
  - unfold cutAt. destruct (indexOfChar "#" r); lia.
  - rewrite <- IH. unfold cutAt.
    destruct (indexOfChar "#" r), (indexOfChar "?" r); lia.
Qed.

Lemma slice_firstQF (s : string) :
  exists rest,
    s = sliceTo (firstQF s) s ++ rest
    /\ lacks "#" (sliceTo (firstQF s) s)
    /\ lacks "?" (sliceTo (firstQF s) s)
    /\ startsQueryOrFragment rest.
Proof.
  unfold lacks, startsQueryOrFragment.
  induction s as [|a r [rest [E [Hh [Hq Hr]]]]]; simpl.
  - exists "". repeat split. now left.
  - destruct (Ascii.eqb a "#") eqn:Eh; [|destruct (Ascii.eqb a "?") eqn:Eq]; simpl.
    + exists (String a r). repeat split. right. exists a, r.
      apply Ascii.eqb_eq in Eh. auto.
    + exists (String a r). repeat split. right. exists a, r.
      apply Ascii.eqb_eq in Eq. auto.
    + exists rest. rewrite Eh, Eq. simpl. rewrite <- E. auto.
Qed.

Lemma splitPop_lastSegment (s : string) : lastSegment s (splitPop "/" s).
Proof.
  unfold lastSegment. induction s as [|a r [pre [E [Hp Hl]]]].
  - exists "". repeat split. now left.
  - cbn [splitPop]. destruct (indexOfChar "/" (String a r)) eqn:Ei.
    + exists (String a pre). split; [simpl; now rewrite <- E|]. split; [|exact Hl].
      right. destruct Hp as [->|[q ->]].
      * exists "". simpl in E. rewrite <- E in Hl.
        apply indexOfChar_none_lacks in Hl. simpl in Ei. rewrite Hl in Ei.
        destruct (Ascii.eqb a "/") eqn:Ea; [|discriminate].
        apply Ascii.eqb_eq in Ea. now subst a.
      * now exists (String a q).
    + exists "". split; [reflexivity|]. split; [now left|].
      now apply indexOfChar_none_lacks.
Qed.

Lemma lowerChar_slash (c : ascii) : lowerChar c = "/"%char -> c = "/"%char.
Proof.
  destruct c as [[] [] [] [] [] [] [] []]; vm_compute; congruence.
Qed.

Lemma lacks_asciiLower (s : string) :
  lacks "/" s -> lacks "/" (asciiLower s).
Proof.
  unfold lacks. induction s as [|c s IH]; simpl; [reflexivity|].
  intro H. apply andb_true_iff in H as [Hc Hs]. rewrite (IH Hs), andb_true_r.
  apply negb_true_iff. apply negb_true_iff in Hc.
  destruct (Ascii.eqb_spec (lowerChar c) "/") as [E|_]; [|reflexivity].
  apply lowerChar_slash in E. subst c. discriminate.
Qed.

Variable urlPathname : string -> option string.

(** C5. Href normalization cuts the trimmed href before its query string
    and fragment and lower-cases a part of what is left: for a relative
    href its last segment, for an absolute URL that the URL parser accepts
    the last segment of the URL path, and for an absolute URL that the
    parser refuses all of it; the two examples normalize to ada12.htm and
    ada21.htm; an anchor whose href is absent, empty, or starts with the
    fragment sign is an annotation reference by rule 1, never chapter
    navigation. *)
Theorem C5_href_normalization :
  (forall href,
     exists c rest,
       trim href = c ++ rest
       /\ lacks "#" c /\ lacks "?" c /\ startsQueryOrFragment rest
       /\ (c = "" -> normalizeAdaHref urlPathname href = None)
       /\ (c <> "" -> isHttpUrl c = false ->
             exists seg, lastSegment c seg
               /\ normalizeAdaHref urlPathname href = nonEmpty (toLowerCase seg))
       /\ (c <> "" -> isHttpUrl c = true ->
             forall path, urlPathname c = Some path ->
               exists seg, lastSegment path seg
                 /\ normalizeAdaHref urlPathname href = nonEmpty (toLowerCase seg))
       /\ (c <> "" -> isHttpUrl c = true -> urlPathname c = None ->
             normalizeAdaHref urlPathname href = Some (toLowerCase c)))
  /\ normalizeAdaHref urlPathname "ADA12.HTM?x=1#y" = Some "ada12.htm"
  /\ (urlPathname "https://www.ada.auckland.ac.nz/ADA21.htm" = Some "/ADA21.htm" ->
        normalizeAdaHref urlPathname "https://www.ada.auckland.ac.nz/ADA21.htm"
        = Some "ada21.htm")
  /\ (forall chapterHrefMap hrefAttr,
        hrefAttr = None \/ hrefAttr = Some "" \/ hrefAttr = Some "#"
          \/ (exists r, hrefAttr = Some (String "#" r)) ->
        classifyLink urlPathname chapterHrefMap hrefAttr = NoteLink
        /\ forall i, classifyLink urlPathname chapterHrefMap hrefAttr <> ChapterNav i).
Proof.
  split.
  { intro href.
    destruct (slice_firstQF (trim href)) as [rest [E [Hh [Hq Hr]]]].
    set (c := sliceTo (firstQF (trim href)) (trim href)) in *.
    exists c, rest. split; [exact E|]. split; [exact Hh|]. split; [exact Hq|].
    split; [exact Hr|].
    assert (normalizeAdaHref urlPathname href
            = if isEmpty c then None
              else
                let s := if isHttpUrl c
                         then match urlPathname c with
                              | Some p => splitPop "/" p
                              | None => c
                              end
                         else splitPop "/" c in
                nonEmpty (toLowerCase s)) as N.
    { unfold normalizeAdaHref. rewrite cutAt_firstQF. fold c.
      destruct href as [|a r]; simpl isEmpty at 1.
      - subst c. now rewrite (trim_ascii "") by reflexivity.
      - destruct (isEmpty (trim (String a r))) eqn:Et.
        + destruct (trim (String a r)); [|discriminate]. now subst c.
        + reflexivity. }
    split; [|split; [|split]].
    - intros ->. rewrite N. reflexivity.
    - intros Hne Hrel. exists (splitPop "/" c). split; [apply splitPop_lastSegment|].
      rewrite N. destruct c; [now elim Hne|]. simpl isEmpty. cbv zeta.
      now rewrite Hrel.
    - intros Hne Habs path Hp. exists (splitPop "/" path).
      split; [apply splitPop_lastSegment|].
      rewrite N. destruct c; [now elim Hne|]. simpl isEmpty. cbv zeta.
      now rewrite Habs, Hp.
    - intros Hne Habs Hp. rewrite N.
      destruct c as [|a c']; [now elim Hne|]. simpl isEmpty. cbv zeta.
      rewrite Habs, Hp. unfold nonEmpty.
      destruct (toLowerCase (String a c')) eqn:El; [|reflexivity].
      apply toLowerCase_empty in El. discriminate. }
  split.
  { unfold normalizeAdaHref. rewrite (trim_ascii "ADA12.HTM?x=1#y") by reflexivity.
    change (nonEmpty (toLowerCase "ADA12.HTM") = Some "ada12.htm").
    now rewrite toLowerCase_ascii. }
  split.
  { intro H. unfold normalizeAdaHref.
    rewrite (trim_ascii "https://www.ada.auckland.ac.nz/ADA21.htm") by reflexivity.
    change (nonEmpty (toLowerCase
                        (match urlPathname "https://www.ada.auckland.ac.nz/ADA21.htm" with
                         | Some p => splitPop "/" p
                         | None => "https://www.ada.auckland.ac.nz/ADA21.htm"
                         end)) = Some "ada21.htm").
    rewrite H. change (splitPop "/" "/ADA21.htm") with "ADA21.htm".
    now rewrite toLowerCase_ascii. }
  intros m hrefAttr H.
  assert (classifyLink urlPathname m hrefAttr = NoteLink) as C.
  { unfold classifyLink.
    destruct H as [->|[->|H]]; [reflexivity | reflexivity |].
    assert (exists r, hrefAttr = Some (String "#" r)) as [r ->]
      by (destruct H as [->|H]; [now exists "" | exact H]).
    assert (isAdaNoteHref (String "#" r) = true) as ->; [|reflexivity].
    unfold isAdaNoteHref. simpl isEmpty. cbv iota.
    destruct (trim_head "#" r eq_refl eq_refl) as [r' ->].
    destruct (_ || _); reflexivity. }
  split; [exact C | intro i; rewrite C; discriminate].
Qed.

End HrefFacts.

(** The hypothesis on the URL parser holds of the parser for the source
    site, on the ASCII platform. *)
Lemma C5_href_normalization_witness :
  @Client.normalizeAdaHref JsString.asciiText HrefSpec.sitePathname
    "https://www.ada.auckland.ac.nz/ADA21.htm"
  = Some "ada21.htm".
Proof.
  apply (@C5_href_normalization JsString.asciiText asciiText_laws). reflexivity.
Defined.

(** The claim's final path segment fails for an absolute URL that the URL
    parser refuses: the href [http://] normalizes to itself, which is the
    lower-cased last segment of no path. *)
Lemma C5_refused_url_counterexample :
  HrefSpec.sitePathname "http://" = None
  /\ @Client.normalizeAdaHref JsString.asciiText HrefSpec.sitePathname "http://"
     = Some "http://"
  /\ forall path seg,
       HrefSpec.lastSegment path seg ->
       HrefSpec.nonEmpty (JsString.asciiLower seg) <> Some "http://".
Proof.
  split; [reflexivity|]. split; [reflexivity|].
  intros path seg [pre [_ [_ L]]] E.
  apply lacks_asciiLower in L. unfold HrefSpec.nonEmpty in E.
  destruct (JsString.isEmpty _); [discriminate|].
  injection E as E. rewrite E in L. discriminate.
Qed.

(** ** The chapter href index *)

Section IndexFacts.
#[local] Existing Instance JsString.asciiText.
Import JsString Catalog CatalogSpec Client HrefSpec IndexSpec.

Lemma optEqb_eq (a b : option string) : optEqb a b = true -> a = b.
Proof.
  destruct a, b; simpl; intro H; try discriminate; [|reflexivity].
  apply String.eqb_eq in H. now subst.
Qed.

Lemma buildChapterHrefMap_ext (u1 u2 : string -> option string)
  (l : list chapterMeta) :
  (forall ch, In ch l -> u1 (Client.textUrl ch) = u2 (Client.textUrl ch)) ->
  buildChapterHrefMap u1 l = buildChapterHrefMap u2 l.
Proof.
  unfold buildChapterHrefMap. generalize (@nil (string * string)).
  induction l as [|ch l IH]; intros acc H; [reflexivity|].
  simpl. rewrite (H ch (or_introl eq_refl)).
  apply IH. intros ch' Hin. apply H. now right.
Qed.

Lemma normalizeAdaHref_ext (u1 u2 : string -> option string) (href : string) :
  u1 (cutPart href) = u2 (cutPart href) ->
  normalizeAdaHref u1 href = normalizeAdaHref u2 href.
Proof.
  unfold normalizeAdaHref, cutPart. cbv zeta. intros ->. reflexivity.
Qed.

Lemma lookup_ext (u1 u2 : string -> option string) (m : hrefMap) (href : string) :
  u1 (cutPart href) = u2 (cutPart href) ->
  lookupChapterIdForHref u1 m href = lookupChapterIdForHref u2 m href.
Proof.
  intro H. unfold lookupChapterIdForHref.
  now rewrite (normalizeAdaHref_ext u1 u2 href H).
Qed.

Lemma indexCheck_all : forallb indexCheck buildChapters = true.
Proof. vm_compute. reflexivity. Qed.

Lemma sitePathname_catalog (c : chapter) :
  In c buildChapters -> sitePathname (Catalog.textUrl c) = Some ("/" ++ fileOf c).
Proof.
  intro Hc. pose proof indexCheck_all as H.
  rewrite forallb_forall in H. specialize (H c Hc).
  unfold indexCheck in H. repeat (apply andb_true_iff in H as [H ?]).
  now apply optEqb_eq.
Qed.

Lemma fileOf_relative (c : chapter) :
  In c buildChapters -> cutPart (fileOf c) = fileOf c /\ isHttpUrl (fileOf c) = false.
Proof.
  intro Hc.
  assert (forallb (fun c => String.eqb (cutPart (fileOf c)) (fileOf c)
                            && negb (isHttpUrl (fileOf c))) buildChapters = true) as H
    by (vm_compute; reflexivity).
  rewrite forallb_forall in H. specialize (H c Hc).
  apply andb_true_iff in H as [H1 H2].
  apply String.eqb_eq in H1. apply negb_true_iff in H2. now split.
Qed.

Variable urlPathname : string -> option string.

(** C10. When the URL parser gives each chapter's text URL its path, the
    lower-cased last path segment of every descriptor's text URL is a key of
    the client's href index and maps to that descriptor's id; the keys of the
    69 chapters are pairwise distinct; looking up a chapter's own source file
    name, or its text URL, gives that chapter's id and no other.  The names
    and URLs of the catalog are ASCII text, and the index is computed on the
    platform for ASCII text. *)
Theorem C10_href_index :
  (forall c, In c buildChapters ->
     urlPathname (Catalog.textUrl c) = Some ("/" ++ fileOf c)) ->
  let m := buildChapterHrefMap urlPathname chapterList in
  (forall c, In c buildChapters ->
     toLowerCase (splitPop "/" ("/" ++ fileOf c)) = fileOf c
     /\ mapGet m (fileOf c) = Some (Catalog.id c)
     /\ lookupChapterIdForHref urlPathname m (fileOf c) = Some (Catalog.id c)
     /\ lookupChapterIdForHref urlPathname m (Catalog.textUrl c) = Some (Catalog.id c))
  /\ NoDup (map fileOf buildChapters)
  /\ List.length (map fileOf buildChapters) = 69
  /\ (forall c c', In c buildChapters -> In c' buildChapters ->
        lookupChapterIdForHref urlPathname m (fileOf c) = Some (Catalog.id c') ->
        c = c').
Proof.
  intros Hp m.
  assert (m = buildChapterHrefMap sitePathname chapterList) as Em.
  { apply buildChapterHrefMap_ext. intros ch Hin.
    unfold chapterList in Hin. apply in_map_iff in Hin as [c [<- Hc]]. simpl.
    rewrite (Hp c Hc). symmetry. now apply sitePathname_catalog. }
  assert (forall c, In c buildChapters ->
            toLowerCase (splitPop "/" ("/" ++ fileOf c)) = fileOf c
            /\ mapGet m (fileOf c) = Some (Catalog.id c)
            /\ lookupChapterIdForHref urlPathname m (fileOf c) = Some (Catalog.id c)
            /\ lookupChapterIdForHref urlPathname m (Catalog.textUrl c)
               = Some (Catalog.id c)) as Hall.
  { intros c Hc. pose proof indexCheck_all as H.
    rewrite forallb_forall in H. specialize (H c Hc).
    unfold indexCheck in H.
    apply andb_true_iff in H as [H H6]. apply andb_true_iff in H as [H H5].
    apply andb_true_iff in H as [H H4]. apply andb_true_iff in H as [H H3].
    apply andb_true_iff in H as [H1 H2].
    apply String.eqb_eq in H2, H3.
    apply optEqb_eq in H1, H4, H5, H6.
    rewrite <- Em in H4, H5, H6.
    split; [exact H3|]. split; [exact H4|]. split.
    - rewrite <- H6. unfold lookupChapterIdForHref, normalizeAdaHref.
      destruct (fileOf_relative c Hc) as [Ec Er]. unfold cutPart in Ec.
      cbv zeta. rewrite Ec, Er. reflexivity.
    - rewrite <- H5. apply lookup_ext. rewrite H2, (Hp c Hc).
      symmetry. now apply sitePathname_catalog. }
  split; [exact Hall|].
  split; [apply nodupb_NoDup; vm_compute; reflexivity|].
  split; [reflexivity|].
  intros c c' Hc Hc' E.
  destruct (Hall c Hc) as [_ [_ [L _]]]. rewrite L in E. injection E as E.
  assert (forall a b, In a buildChapters -> In b buildChapters ->
            Catalog.id a = Catalog.id b -> a = b) as Inj.
  { assert (NoDup (map Catalog.id buildChapters)) as ND
      by (apply nodupb_NoDup; vm_compute; reflexivity).
    clear -ND. induction buildChapters as [|x l IH]; intros a b Ha Hb Eab.
    - now elim Ha.
    - simpl in ND. inversion ND as [|? ? Hx Hl]; subst.
      destruct Ha as [->|Ha], Hb as [->|Hb].
      + reflexivity.
      + elim Hx. rewrite Eab. now apply in_map.
      + elim Hx. rewrite <- Eab. now apply in_map.
      + now apply IH. }
  now apply Inj.
Qed.

End IndexFacts.

(** The parser of the source site gives every text URL its path. *)
Lemma C10_href_index_witness :
  NoDup (map IndexSpec.fileOf Catalog.buildChapters).
Proof.
  apply (C10_href_index HrefSpec.sitePathname sitePathname_catalog).
Defined.

(** ** Annotation snippet matcher *)

Section SnippetFacts.
Context {platform : JsString.JsPlatform}.
Import JsString Dom Client SnippetSpec.

Lemma includes_in_empty (p : string) : includes p "" = true -> p = "".
Proof. destruct p; simpl; [reflexivity | discriminate]. Qed.

Lemma isEmpty_true (s : string) : isEmpty s = true <-> s = "".
Proof. destruct s; simpl; split; congruence. Qed.

Lemma isEmpty_false (s : string) : isEmpty s = false <-> s <> "".
Proof. destruct s; simpl; split; congruence. Qed.

Lemma loopInv_step (p : string) (seen : list node)
  (acc : option node * option nat) (el : node) :
  p <> "" -> loopInv p seen acc ->
  loopInv p (seen ++ [el]) (betterCandidate p acc el).
Proof.
  intros Hp Inv. unfold betterCandidate. fold (normText el).
  assert (forall x, In x (seen ++ [el]) <-> In x seen \/ x = el) as Hin.
  { intro x. rewrite in_app_iff. simpl. intuition. }
  destruct (isEmpty (normText el)) eqn:Ee.
  { (* a block without text cannot contain the phrase *)
    apply isEmpty_true in Ee.
    assert (~ containsPhrase p el) as Hno.
    { unfold containsPhrase. rewrite Ee. intro H. now apply includes_in_empty in H. }
    unfold loopInv in *. destruct (fst acc) as [b|].
    - destruct Inv as [Hb [Hc [Hl Hmin]]].
      split; [apply Hin; now left|]. split; [exact Hc|]. split; [exact Hl|].
      intros x Hx Hcx. apply Hin in Hx as [Hx | ->]; [now apply Hmin | now elim Hno].
    - destruct Inv as [Hl Hnone]. split; [exact Hl|].
      intros x Hx. apply Hin in Hx as [Hx | ->]; [now apply Hnone | exact Hno]. }
  destruct (includes p (normText el)) eqn:Ei; simpl.
  - unfold loopInv in *. destruct acc as [[b|] bl]; simpl in *.
    + destruct Inv as [Hb [Hc [Hl Hmin]]]. subst bl.
      destruct (Nat.ltb_spec (jsLength (normText el)) (jsLength (normText b)))
        as [Hlt|Hge]; simpl.
      * split; [apply Hin; now right|]. split; [exact Ei|]. split; [reflexivity|].
        intros x Hx Hcx. apply Hin in Hx as [Hx | ->]; [|lia].
        specialize (Hmin x Hx Hcx). lia.
      * split; [apply Hin; now left|]. split; [exact Hc|]. split; [reflexivity|].
        intros x Hx Hcx. apply Hin in Hx as [Hx | ->]; [now apply Hmin | exact Hge].
    + destruct Inv as [Hl Hnone]. subst bl. simpl.
      split; [apply Hin; now right|]. split; [exact Ei|]. split; [reflexivity|].
      intros x Hx Hcx. apply Hin in Hx as [Hx | ->]; [now elim (Hnone x Hx) | lia].
  - assert (~ containsPhrase p el) as Hno by (unfold containsPhrase; congruence).
    unfold loopInv in *. destruct (fst acc) as [b|].
    + destruct Inv as [Hb [Hc [Hl Hmin]]].
      split; [apply Hin; now left|]. split; [exact Hc|]. split; [exact Hl|].
      intros x Hx Hcx. apply Hin in Hx as [Hx | ->]; [now apply Hmin | now elim Hno].
    + destruct Inv as [Hl Hnone]. split; [exact Hl|].
      intros x Hx. apply Hin in Hx as [Hx | ->]; [now apply Hnone | exact Hno].
Qed.

Lemma loopInv_fold (p : string) (cands seen : list node)
  (acc : option node * option nat) :
  p <> "" -> loopInv p seen acc ->
  loopInv p (seen ++ cands) (fold_left (betterCandidate p) cands acc).
Proof.
  intro Hp. revert seen acc.
  induction cands as [|el cands IH]; intros seen acc Inv; simpl.
  - now rewrite app_nil_r.
  - replace (seen ++ el :: cands)%list with ((seen ++ [el]) ++ cands)%list
      by (rewrite <- app_assoc; reflexivity).
    apply IH. now apply loopInv_step.
Qed.

Lemma bestCandidate_spec (p : string) (cands : list node) :
  p <> "" -> loopInv p cands (bestCandidate p cands, None) \/
             exists b, bestCandidate p cands = Some b
               /\ In b cands /\ containsPhrase p b
               /\ forall el, In el cands -> containsPhrase p el ->
                    jsLength (normText b) <= jsLength (normText el).
Proof.
  intro Hp.
  pose proof (loopInv_fold p cands [] (None, None) Hp) as H.
  simpl in H. specialize (H (conj eq_refl (fun el F _ => F))).
  unfold bestCandidate, loopInv in *.
  destruct (fst (fold_left (betterCandidate p) cands (None, None))) as [b|].
  - right. exists b. destruct H as [Hb [Hc [_ Hmin]]]. auto.
  - left. simpl. destruct H as [_ Hnone]. auto.
Qed.

Lemma trailingContext_spec (room : nat) (sibs : list node) :
  contextOf room sibs (trailingContext room sibs).
Proof.
  unfold contextOf. revert sibs.
  induction room as [|room IH]; intro sibs.
  - exists sibs. simpl. repeat split; auto; try (now intros n []).
  - destruct sibs as [|next rest]; simpl.
    + exists []. repeat split; auto; try lia; try (now intros n []).
    + fold (normText next). destruct (isEmpty (normText next)) eqn:Ee.
      * exists (next :: rest). simpl.
        split; [reflexivity|]. split; [lia|]. split; [now intros n []|].
        right. right. exists next, rest. split; [reflexivity|].
        now apply isEmpty_true.
      * destruct (IH rest) as [tail [E [Hlen [Hall Hstop]]]].
        exists tail. simpl. split; [now rewrite <- E|]. split; [lia|]. split.
        -- intros n [<-|Hn]; [now apply isEmpty_false | now apply Hall].
        -- destruct Hstop as [H|[H|H]]; [left; lia | right; now left | right; now right].
Qed.

Variable outerHTML : node -> string.

(** C4 (amended). For a phrase whose normalized form is not empty: when
    some candidate block contains the normalized phrase, the matcher selects
    a candidate containing it whose normalized text is no longer than that of
    any other such candidate, and the snippet is the markup of that block and
    of at most three element siblings that follow it, stopping before the
    first sibling whose normalized text is empty, joined by line feeds; when
    no candidate contains the phrase the snippet is empty.  A phrase whose
    normalized form is empty, or a missing annotations tree, gives the empty
    snippet. *)
Theorem C4_snippet_matcher (dom : node) (phrase : string) :
  (normalize phrase <> "" ->
     selectsShortest outerHTML dom phrase /\ emptyWithoutMatch outerHTML dom phrase)
  /\ (normalize phrase = "" -> findNoteSnippet outerHTML (Some dom) phrase = "")
  /\ findNoteSnippet outerHTML None phrase = "".
Proof.
  unfold selectsShortest, emptyWithoutMatch.
  set (p := normalize phrase). set (cands := querySelectorAll isCandidate dom).
  cbv zeta. split; [|split].
  - intro Hp. unfold findNoteSnippet. fold p. fold cands.
    assert (isEmpty p = false) as -> by now apply isEmpty_false.
    destruct (bestCandidate_spec p cands Hp) as [Hnone | [b [Eb [Hb [Hc Hmin]]]]].
    + unfold loopInv in Hnone. simpl in Hnone.
      destruct (bestCandidate p cands) as [b|] eqn:Eb.
      * destruct Hnone as [_ [_ [F _]]]. discriminate.
      * destruct Hnone as [_ Hnone]. split; [|reflexivity].
        intros [el [Hel Hce]]. now elim (Hnone el Hel).
    + rewrite Eb. split.
      * intros _. exists b, (trailingContext 3 (nextElementSiblings (nodeId b) dom)).
        split; [exact Hb|]. split; [exact Hc|]. split; [exact Hmin|].
        split; [apply trailingContext_spec | reflexivity].
      * intro Hnone. now elim (Hnone b Hb).
  - intro Hp. unfold findNoteSnippet. fold p. now rewrite Hp.
  - unfold findNoteSnippet. reflexivity.
Qed.

End SnippetFacts.

Section SnippetExamples.
#[local] Existing Instance JsString.asciiText.

(** C4, the claim as stated: for the empty phrase every candidate contains
    the normalized phrase, and the matcher returns no snippet instead of the
    markup of a shortest candidate. *)
Lemma C4_empty_phrase_counterexample :
  (exists el,
      In el (Dom.querySelectorAll Client.isCandidate SnippetSpec.oneBlockNotes)
      /\ SnippetSpec.containsPhrase (Client.normalize "") el)
  /\ Client.findNoteSnippet SnippetSpec.markup (Some SnippetSpec.oneBlockNotes) "" = ""
  /\ ~ SnippetSpec.selectsShortest SnippetSpec.markup SnippetSpec.oneBlockNotes "".
Proof.
  assert (exists el,
      In el (Dom.querySelectorAll Client.isCandidate SnippetSpec.oneBlockNotes)
      /\ SnippetSpec.containsPhrase (Client.normalize "") el) as Hex.
  { exists (Dom.Elem 1 "p" [] [Dom.Text 2 "abc"]). split; [now left | reflexivity]. }
  split; [exact Hex|]. split; [reflexivity|].
  intro H. destruct (H Hex) as [best [ctx [Hin [_ [_ [_ E]]]]]].
  destruct Hin as [<-|[]].
  destruct ctx; vm_compute in E; discriminate.
Qed.

(** The amended statement at the phrase "abc" and the one-block tree. *)
Lemma C4_snippet_matcher_witness :
  SnippetSpec.selectsShortest SnippetSpec.markup SnippetSpec.oneBlockNotes "abc".
Proof.
  apply (C4_snippet_matcher SnippetSpec.markup SnippetSpec.oneBlockNotes "abc").
  vm_compute. discriminate.
Defined.

End SnippetExamples.

(** ** Document trees: identities and rewriting *)

Section ForestFacts.
Context {platform : JsString.JsPlatform}.
Import JsString Dom Server DomSpec.

(** Induction over a node and the forest of its children together. *)
Lemma node_forest_ind (P : node -> Prop) (Q : list node -> Prop) :
  (forall i s, P (Text i s)) ->
  (forall j t a ks, Q ks -> P (Elem j t a ks)) ->
  Q [] ->
  (forall n F, P n -> Q F -> Q (n :: F)) ->
  forall n, P n.
Proof.
  intros Ht He Hn Hc. fix IH 1. intros [i s | j t a ks].
  - apply Ht.
  - apply He.
    exact ((fix aux (l : list node) : Q l :=
              match l with
              | [] => Hn
              | k :: r => Hc k r (IH k) (aux r)
              end) ks).
Qed.

(** Induction over forests, children before siblings. *)
Lemma forest_ind (P : list node -> Prop) :
  P [] ->
  (forall i s F, P F -> P (Text i s :: F)) ->
  (forall j t a ks F, P ks -> P F -> P (Elem j t a ks :: F)) ->
  forall F, P F.
Proof.
  intros H0 Ht He.
  assert (forall n F, P F -> P (n :: F)) as Hnode.
  { apply (node_forest_ind (fun n => forall F, P F -> P (n :: F)) P).
    - exact Ht.
    - intros j t a ks Hks F HF. now apply He.
    - exact H0.
    - intros n F Hn HF. now apply Hn. }
  induction F as [|n F IH]; [exact H0 | now apply Hnode].
Qed.

Lemma subtreesF_cons (n : node) (F : list node) :
  subtreesF (n :: F) = (n :: descendants n ++ subtreesF F)%list.
Proof. reflexivity. Qed.

Lemma descendants_elem j t a ks : descendants (Elem j t a ks) = subtreesF ks.
Proof. reflexivity. Qed.

Lemma subtreesF_app (F G : list node) :
  subtreesF (F ++ G) = (subtreesF F ++ subtreesF G)%list.
Proof. unfold subtreesF. apply flat_map_app. Qed.

Lemma idsF_subtreesF (F : list node) : idsF F = map nodeId (subtreesF F).
Proof.
  unfold idsF, subtreesF, ids. induction F as [|n F IH]; [reflexivity|].
  simpl. rewrite map_app, <- IH. reflexivity.
Qed.

Lemma idsF_app (F G : list node) : idsF (F ++ G) = (idsF F ++ idsF G)%list.
Proof. unfold idsF. apply flat_map_app. Qed.

Lemma idsF_cons_elem j t a ks F :
  idsF (Elem j t a ks :: F) = (j :: idsF ks ++ idsF F)%list.
Proof.
  rewrite !idsF_subtreesF, subtreesF_cons, descendants_elem.
  simpl. now rewrite map_app.
Qed.

Lemma idsF_cons_text i s F : idsF (Text i s :: F) = i :: idsF F.
Proof. reflexivity. Qed.

Lemma rewriteIn_cons i f n F :
  rewriteIn i f (n :: F)
  = ((if nodeId n =? i then f n else [rewriteAt i f n]) ++ rewriteIn i f F)%list.
Proof. reflexivity. Qed.

Lemma rewriteAt_elem i f j t a ks :
  rewriteAt i f (Elem j t a ks) = Elem j t a (rewriteIn i f ks).
Proof. reflexivity. Qed.

(** A reference that denotes nothing in the forest changes nothing. *)
Lemma rewriteIn_absent i f (F : list node) :
  ~ In i (idsF F) -> rewriteIn i f F = F.
Proof.
  induction F as [|i' s F IH | j t a ks F IHk IHF] using forest_ind; intro H.
  - reflexivity.
  - rewrite rewriteIn_cons. rewrite idsF_cons_text in H. simpl in H.
    cbn [nodeId]. destruct (Nat.eqb_spec i' i) as [->|_]; [elim H; now left|].
    simpl. rewrite IH; [reflexivity | intro; apply H; now right].
  - rewrite rewriteIn_cons. rewrite idsF_cons_elem in H. simpl in H.
    cbn [nodeId]. destruct (Nat.eqb_spec j i) as [->|_]; [elim H; now left|].
    rewrite rewriteAt_elem. simpl.
    rewrite IHk, IHF; [reflexivity | |]; intro Hin; apply H; right;
      apply in_or_app; [now right | now left].
Qed.

Lemma rewriteAt_absent i f (n : node) :
  ~ In i (map nodeId (descendants n)) -> rewriteAt i f n = n.
Proof.
  destruct n as [i' s | j t a ks]; [reflexivity|].
  rewrite descendants_elem, <- idsF_subtreesF, rewriteAt_elem.
  intro H. now rewrite rewriteIn_absent.
Qed.

(** In a well-formed forest a reference denotes one node. *)
Lemma node_unique (F : list node) (k1 k2 : node) :
  NoDup (idsF F) -> In k1 (subtreesF F) -> In k2 (subtreesF F) ->
  nodeId k1 = nodeId k2 -> k1 = k2.
Proof.
  rewrite idsF_subtreesF. generalize (subtreesF F) as l.
  induction l as [|x l IH]; intros ND H1 H2 E; [now elim H1|].
  simpl in ND. inversion ND as [|? ? Hx Hl]; subst.
  destruct H1 as [->|H1], H2 as [->|H2].
  - reflexivity.
  - elim Hx. rewrite E. now apply in_map.
  - elim Hx. rewrite <- E. now apply in_map.
  - now apply IH.
Qed.

(** Descendants of a node of the forest are nodes of the forest. *)
Lemma subtreesF_descendants (F : list node) (k c : node) :
  In k (subtreesF F) -> In c (descendants k) -> In c (subtreesF F).
Proof.
  revert k c.
  induction F as [|i' s F IH | j t a ks F IHk IHF] using forest_ind; intros k c Hk Hc.
  - now elim Hk.
  - rewrite subtreesF_cons in *. simpl in *. destruct Hk as [<-|Hk]; [now elim Hc|].
    right. now apply (IH k).
  - rewrite subtreesF_cons, descendants_elem in *. simpl in *.
    destruct Hk as [<-|Hk].
    + right. apply in_or_app. left. exact Hc.
    + right. apply in_app_or in Hk as [Hk|Hk]; apply in_or_app.
      * left. now apply (IHk k).
      * right. now apply (IHF k).
Qed.

End ForestFacts.

(** ** Rewriting through a reference *)

Section RewriteFacts.
Context {platform : JsString.JsPlatform}.
Import JsString Dom Server DomSpec.

Lemma ids_elem j t a ks : ids (Elem j t a ks) = j :: idsF ks.
Proof. unfold ids, subtree. rewrite descendants_elem, idsF_subtreesF. reflexivity. Qed.

Lemma ids_childNodes (n : node) : ids n = nodeId n :: idsF (childNodes n).
Proof. destruct n; [reflexivity | apply ids_elem]. Qed.

Lemma descendants_childNodes (n : node) : descendants n = subtreesF (childNodes n).
Proof. destruct n; reflexivity. Qed.

Lemma rewriteAt_childNodes i f (n : node) :
  childNodes (rewriteAt i f n) = rewriteIn i f (childNodes n).
Proof. destruct n; reflexivity. Qed.

Lemma rewriteAt_sig i f (n : node) : sigOf (rewriteAt i f n) = sigOf n.
Proof. destruct n; reflexivity. Qed.

Lemma subtreesF_single (n : node) : subtreesF [n] = subtree n.
Proof. unfold subtreesF. simpl. now rewrite app_nil_r. Qed.

Lemma idsF_single (n : node) : idsF [n] = ids n.
Proof. unfold idsF. simpl. now rewrite app_nil_r. Qed.

(** Every node of the rewritten forest is the rewritten form of a node of
    the old one, or was made by [f]. *)
Lemma rewriteIn_nodes i f (F : list node) (k' : node) :
  In k' (subtreesF (rewriteIn i f F)) ->
  (exists k, In k (subtreesF F) /\ nodeId k <> i /\ k' = rewriteAt i f k)
  \/ (exists k, In k (subtreesF F) /\ nodeId k = i /\ In k' (subtreesF (f k))).
Proof.
  revert k'.
  induction F as [|i' s F IH | j t a ks F IHk IHF] using forest_ind; intros k' H.
  - now elim H.
  - rewrite rewriteIn_cons, subtreesF_app in H. cbn [nodeId] in H.
    apply in_app_or in H as [H|H].
    + destruct (Nat.eqb_spec i' i) as [E|E].
      * right. exists (Text i' s). split; [now left|]. now split.
      * left. exists (Text i' s). destruct H as [<-|[]].
        split; [now left|]. now split.
    + destruct (IH k' H) as [[k [Hk Hs]]|[k [Hk Hs]]]; [left|right];
        exists k; (split; [rewrite subtreesF_cons; right; now apply in_or_app, or_intror | exact Hs]).
  - rewrite rewriteIn_cons, subtreesF_app in H. cbn [nodeId] in H.
    apply in_app_or in H as [H|H].
    + destruct (Nat.eqb_spec j i) as [E|E].
      * right. exists (Elem j t a ks). split; [now left|]. now split.
      * rewrite rewriteAt_elem, subtreesF_single in H.
        unfold subtree in H. rewrite descendants_elem in H.
        destruct H as [<-|H].
        -- left. exists (Elem j t a ks). split; [now left|]. now split.
        -- destruct (IHk k' H) as [[k [Hk Hs]]|[k [Hk Hs]]]; [left|right];
             exists k; (split; [|exact Hs]);
             rewrite subtreesF_cons, descendants_elem; right;
             apply in_or_app; now left.
    + destruct (IHF k' H) as [[k [Hk Hs]]|[k [Hk Hs]]]; [left|right];
        exists k; (split; [|exact Hs]);
        rewrite subtreesF_cons; right; apply in_or_app; now right.
Qed.

Lemma NoDup_app_parts {A} (l1 l2 : list A) :
  NoDup (l1 ++ l2) ->
  NoDup l1 /\ NoDup l2 /\ (forall x, In x l1 -> ~ In x l2).
Proof.
  induction l1 as [|x l1 IH]; simpl; intro H.
  - split; [constructor|]. split; [exact H|]. intros x [].
  - inversion H as [|? ? Hx Hl]; subst. destruct (IH Hl) as [N1 [N2 D]].
    split; [constructor; [intro; apply Hx, in_or_app; now left | exact N1]|].
    split; [exact N2|].
    intros y [<-|Hy]; [intro; apply Hx, in_or_app; now right | now apply D].
Qed.

Lemma NoDup_app_join {A} (l1 l2 : list A) :
  NoDup l1 -> NoDup l2 -> (forall x, In x l1 -> ~ In x l2) -> NoDup (l1 ++ l2).
Proof.
  induction l1 as [|x l1 IH]; simpl; intros N1 N2 D; [exact N2|].
  inversion N1 as [|? ? Hx Hl]; subst. constructor.
  - intro H. apply in_app_or in H as [H|H]; [now apply Hx|]. apply (D x); auto.
  - apply IH; auto.
Qed.

(** The identities of the rewritten forest: the block of the rewritten
    node's subtree is exchanged for the identities [f] made. *)
Lemma rewriteIn_ids i f (F : list node) (k : node) :
  NoDup (idsF F) -> In k (subtreesF F) -> nodeId k = i ->
  exists l1 l2,
    idsF F = (l1 ++ ids k ++ l2)%list
    /\ idsF (rewriteIn i f F) = (l1 ++ idsF (f k) ++ l2)%list.
Proof.
  induction F as [|i' s F IH | j t a ks F IHk IHF] using forest_ind; intros ND Hk Ei.
  - now elim Hk.
  - rewrite idsF_cons_text in ND. inversion ND as [|? ? Hx Hl]; subst.
    rewrite rewriteIn_cons, idsF_app. cbn [nodeId].
    rewrite subtreesF_cons in Hk. simpl in Hk. destruct Hk as [<-|Hk].
    + simpl. rewrite Nat.eqb_refl. exists [], (idsF F). split; [reflexivity|].
      simpl. now rewrite rewriteIn_absent.
    + destruct (Nat.eqb_spec i' (nodeId k)) as [E|E].
      * elim Hx. rewrite E, idsF_subtreesF. now apply in_map.
      * destruct (IH Hl Hk eq_refl) as [l1 [l2 [E1 E2]]].
        exists (i' :: l1), l2. rewrite idsF_cons_text, E1, E2. now split.
  - rewrite idsF_cons_elem in ND. inversion ND as [|? ? Hx Hl]; subst.
    destruct (NoDup_app_parts _ _ Hl) as [Nk [NF D]].
    rewrite rewriteIn_cons, idsF_app. cbn [nodeId].
    rewrite subtreesF_cons, descendants_elem in Hk. simpl in Hk.
    destruct Hk as [<-|Hk].
    + cbn [nodeId]. rewrite Nat.eqb_refl. exists [], (idsF F).
      rewrite idsF_cons_elem, ids_elem. split; [reflexivity|].
      simpl. rewrite rewriteIn_absent; [reflexivity|].
      intro H. apply Hx, in_or_app. now right.
    + assert (In (nodeId k) (idsF ks ++ idsF F)) as Hin.
      { rewrite <- idsF_app, idsF_subtreesF, subtreesF_app. apply in_map. exact Hk. }
      destruct (Nat.eqb_spec j (nodeId k)) as [E|E]; [elim Hx; now rewrite E|].
      rewrite rewriteAt_elem, idsF_single, ids_elem.
      apply in_app_or in Hk as [Hk|Hk].
      * destruct (IHk Nk Hk eq_refl) as [l1 [l2 [E1 E2]]].
        exists (j :: l1), (l2 ++ idsF F)%list.
        rewrite idsF_cons_elem, E1, E2, rewriteIn_absent.
        -- split; simpl; rewrite <- ?app_assoc; simpl; rewrite <- ?app_assoc; reflexivity.
        -- apply D. rewrite idsF_subtreesF. now apply in_map.
      * destruct (IHF NF Hk eq_refl) as [l1 [l2 [E1 E2]]].
        exists (j :: idsF ks ++ l1)%list, l2.
        rewrite idsF_cons_elem, E1, E2, rewriteIn_absent.
        -- split; simpl; rewrite <- ?app_assoc; simpl; rewrite <- ?app_assoc; reflexivity.
        -- intro H. apply (D _ H). rewrite idsF_subtreesF. now apply in_map.
Qed.

End RewriteFacts.

(** ** Emptying a cell *)

Section ClearFacts.
Context {platform : JsString.JsPlatform}.
Import JsString Dom Server DomSpec TableSpec.

Lemma hasTag_shape t (x y : node) : shapeOf x = shapeOf y -> hasTag t x = hasTag t y.
Proof. destruct x, y; simpl; intro H; try discriminate; [reflexivity | now injection H as -> _]. Qed.

Lemma isElem_shape (x y : node) : shapeOf x = shapeOf y -> isElem x = isElem y.
Proof. destruct x, y; simpl; intro H; try discriminate; reflexivity. Qed.

Lemma sigOf_shape (x y : node) : sigOf x = sigOf y -> shapeOf x = shapeOf y.
Proof. unfold sigOf. now intros [= _ H]. Qed.

Lemma sigOf_id (x y : node) : sigOf x = sigOf y -> nodeId x = nodeId y.
Proof. unfold sigOf. now intros [= H _]. Qed.

Lemma clearKids_sig (k : node) : sigOf (clearKids k) = sigOf k.
Proof. destruct k; reflexivity. Qed.

Lemma subtreesF_clear (k : node) : subtreesF (clear k) = [clearKids k].
Proof. destruct k; reflexivity. Qed.

Lemma rewriteIn_app i f (A B : list node) :
  rewriteIn i f (A ++ B) = (rewriteIn i f A ++ rewriteIn i f B)%list.
Proof. unfold rewriteIn. apply flat_map_app. Qed.

Lemma clear_shapes m (F : list node) :
  map shapeOf (filter isElem (rewriteIn m clear F)) = map shapeOf (filter isElem F).
Proof.
  induction F as [|x F IH]; [reflexivity|].
  rewrite rewriteIn_cons.
  assert (exists x', (if nodeId x =? m then clear x else [rewriteAt m clear x]) = [x']
                     /\ sigOf x' = sigOf x) as [x' [-> Hs]].
  { destruct (nodeId x =? m); eexists; (split; [reflexivity|]);
      [apply clearKids_sig | apply rewriteAt_sig]. }
  simpl. rewrite (isElem_shape x' x (sigOf_shape _ _ Hs)).
  destruct (isElem x); simpl; [|exact IH].
  now rewrite IH, (sigOf_shape _ _ Hs).
Qed.

Lemma twoCols_shapes (a b : node) :
  map shapeOf (children a) = map shapeOf (children b) -> twoCols a = twoCols b.
Proof.
  unfold twoCols.
  destruct (children a) as [|x [|y [|z l]]], (children b) as [|x' [|y' [|z' l']]];
    simpl; intro H; try discriminate; try reflexivity.
  injection H as Hx Hy.
  now rewrite (hasTag_shape _ _ _ Hx), (hasTag_shape _ _ _ Hy).
Qed.

Lemma twoCols_clear m (k : node) : twoCols (rewriteAt m clear k) = twoCols k.
Proof.
  apply twoCols_shapes. unfold children.
  rewrite rewriteAt_childNodes. apply clear_shapes.
Qed.

Lemma hasTag_rewriteAt t i f (k : node) : hasTag t (rewriteAt i f k) = hasTag t k.
Proof. apply hasTag_shape, sigOf_shape, rewriteAt_sig. Qed.

Lemma hasTag_clearKids t (k : node) : hasTag t (clearKids k) = hasTag t k.
Proof. apply hasTag_shape, sigOf_shape, clearKids_sig. Qed.

Lemma hasTag_td_not_tr (k : node) : hasTag "td" k = true -> hasTag "tr" k = false.
Proof.
  destruct k as [|j t a ks]; simpl; [discriminate|].
  intro H. apply String.eqb_eq in H. now subst t.
Qed.

Lemma hasTag_td_not_table (k : node) : hasTag "td" k = true -> hasTag "table" k = false.
Proof.
  destruct k as [|j t a ks]; simpl; [discriminate|].
  intro H. apply String.eqb_eq in H. now subst t.
Qed.

Lemma cellAt_app (A B : list node) c : cellAt (A ++ B) c <-> cellAt A c /\ cellAt B c.
Proof.
  unfold cellAt. rewrite subtreesF_app. split.
  - intro H. split; intros k Hk; apply H; apply in_or_app; auto.
  - intros [HA HB] k Hk. apply in_app_or in Hk as [Hk|Hk]; auto.
Qed.

Lemma cellAt_cons_elem j t a ks F c :
  cellAt (Elem j t a ks :: F) c ->
  (j = c -> String.eqb t "td" = true) /\ cellAt ks c /\ cellAt F c.
Proof.
  unfold cellAt. rewrite subtreesF_cons, descendants_elem. intro H. split; [|split].
  - intro E. apply (H (Elem j t a ks)); [now left | exact E].
  - intros k Hk. apply H. right. apply in_or_app. now left.
  - intros k Hk. apply H. right. apply in_or_app. now right.
Qed.

(** Emptying cells does not change which nodes hold a row of their own. *)
Lemma hasOwnRow_clear m (F : list node) :
  cellAt F m ->
  existsb hasOwnRowN (rewriteIn m clear F) = existsb hasOwnRowN F.
Proof.
  induction F as [|i' s F IH | j t a ks F IHk IHF] using forest_ind; intro H.
  - reflexivity.
  - rewrite rewriteIn_cons, existsb_app. cbn [nodeId].
    rewrite IH.
    + destruct (i' =? m); reflexivity.
    + intros k Hk. apply H. rewrite subtreesF_cons. right. now apply in_or_app, or_intror.
  - destruct (cellAt_cons_elem _ _ _ _ _ _ H) as [Hj [Hks HF]].
    rewrite rewriteIn_cons, existsb_app. cbn [nodeId].
    rewrite (IHF HF). cbn [existsb]. f_equal.
    destruct (Nat.eqb_spec j m) as [E|E].
    + specialize (Hj E). apply String.eqb_eq in Hj. subst t. reflexivity.
    + rewrite rewriteAt_elem. cbn [existsb hasOwnRowN]. rewrite (IHk Hks).
      now rewrite orb_false_r.
Qed.

Lemma rowsOk_app (A B : list node) : rowsOk (A ++ B) <-> rowsOk A /\ rowsOk B.
Proof.
  unfold rowsOk. rewrite subtreesF_app. split.
  - intro H. split; intros k Hk; apply H; apply in_or_app; auto.
  - intros [HA HB] k Hk. apply in_app_or in Hk as [Hk|Hk]; auto.
Qed.

Lemma tablesOk_app (A B : list node) : tablesOk (A ++ B) <-> tablesOk A /\ tablesOk B.
Proof.
  unfold tablesOk. rewrite subtreesF_app. split.
  - intro H. split; intros k Hk; apply H; apply in_or_app; auto.
  - intros [HA HB] k Hk. apply in_app_or in Hk as [Hk|Hk]; auto.
Qed.

Lemma rowsOk_sub (F : list node) (k : node) :
  rowsOk F -> In k (subtreesF F) -> rowsOk (childNodes k).
Proof.
  intros H Hk x Hx. apply H. apply (subtreesF_descendants F k); [exact Hk|].
  now rewrite descendants_childNodes.
Qed.

Lemma tablesOk_sub (F : list node) (k : node) :
  tablesOk F -> In k (subtreesF F) -> tablesOk (childNodes k).
Proof.
  intros H Hk x Hx. apply H. apply (subtreesF_descendants F k); [exact Hk|].
  now rewrite descendants_childNodes.
Qed.

Lemma cellAt_sub (F : list node) (k : node) c :
  cellAt F c -> In k (subtreesF F) -> cellAt (childNodes k) c.
Proof.
  intros H Hk x Hx. apply H. apply (subtreesF_descendants F k); [exact Hk|].
  now rewrite descendants_childNodes.
Qed.

Lemma rowsOk_clear m (F : list node) :
  cellAt F m -> rowsOk F -> rowsOk (rewriteIn m clear F).
Proof.
  intros Hc H k' Hk' Htr.
  destruct (rewriteIn_nodes _ _ _ _ Hk') as [[k [Hk [Hne ->]]]|[k [Hk [He Hin]]]].
  - rewrite twoCols_clear. apply H; [exact Hk|]. now rewrite hasTag_rewriteAt in Htr.
  - rewrite subtreesF_clear in Hin. destruct Hin as [<-|[]].
    rewrite hasTag_clearKids in Htr.
    rewrite (hasTag_td_not_tr k (Hc k Hk He)) in Htr. discriminate.
Qed.

Lemma tablesOk_clear m (F : list node) :
  cellAt F m -> rowsOk F -> tablesOk F -> tablesOk (rewriteIn m clear F).
Proof.
  intros Hc Hr H k' Hk' Htb.
  destruct (rewriteIn_nodes _ _ _ _ Hk') as [[k [Hk [Hne ->]]]|[k [Hk [He Hin]]]].
  - rewrite hasTag_rewriteAt in Htb. destruct (H k Hk Htb) as [Hown Hrows].
    split.
    + unfold ownsRow. rewrite rewriteAt_childNodes, hasOwnRow_clear; [exact Hown|].
      now apply (cellAt_sub F).
    + rewrite rewriteAt_childNodes. apply rowsOk_clear; [|exact Hrows].
      now apply (cellAt_sub F).
  - rewrite subtreesF_clear in Hin. destruct Hin as [<-|[]].
    rewrite hasTag_clearKids in Htb.
    rewrite (hasTag_td_not_table k (Hc k Hk He)) in Htb. discriminate.
Qed.

End ClearFacts.

(** ** Taking the children of a cell *)

Section TakeFacts.
Context {platform : JsString.JsPlatform}.
Import JsString Dom Server DomSpec TableSpec FlattenSpec.

Lemma cellAt_unique (F : list node) (k : node) :
  NoDup (idsF F) -> In k (subtreesF F) -> hasTag "td" k = true ->
  cellAt F (nodeId k).
Proof.
  intros ND Hk Htd x Hx E.
  now rewrite (node_unique F x k ND Hx Hk E).
Qed.

Lemma cellAt_origin (F F' : list node) c :
  (forall n, In n (subtreesF F') -> exists n0, In n0 (subtreesF F) /\ sigOf n0 = sigOf n) ->
  cellAt F c -> cellAt F' c.
Proof.
  intros Ho Hc n Hn E. destruct (Ho n Hn) as [n0 [Hn0 Hs]].
  rewrite <- (hasTag_shape _ _ _ (sigOf_shape _ _ Hs)).
  apply Hc; [exact Hn0|]. now rewrite (sigOf_id _ _ Hs).
Qed.

(** Emptying the cell [k] and keeping its children beside the forest keeps
    the identities, the origin of the nodes and the table invariants. *)
Lemma take_cell (F : list node) (m : nat) (k : node) :
  NoDup (idsF F) -> cellAt F m -> In k (subtreesF F) -> nodeId k = m ->
  let F' := (rewriteIn m clear F ++ childNodes k)%list in
  Permutation (idsF F') (idsF F)
  /\ (forall n, In n (subtreesF F') ->
        exists n0, In n0 (subtreesF F) /\ sigOf n0 = sigOf n)
  /\ (rowsOk F -> rowsOk F')
  /\ (rowsOk F -> tablesOk F -> tablesOk F').
Proof.
  intros ND Hc Hk Em F'. subst F'. split; [|split; [|split]].
  - destruct (rewriteIn_ids m clear F k ND Hk Em) as [l1 [l2 [E1 E2]]].
    rewrite idsF_app, E1, E2, ids_childNodes, Em.
    assert (idsF (clear k) = [m]) as ->.
    { unfold clear. rewrite idsF_single.
      destruct k; simpl in *; now subst. }
    rewrite <- !app_assoc. apply Permutation_app_head. simpl.
    apply perm_skip. apply Permutation_app_comm.
  - intros n Hn. rewrite subtreesF_app in Hn. apply in_app_or in Hn as [Hn|Hn].
    + destruct (rewriteIn_nodes _ _ _ _ Hn) as [[k0 [Hk0 [_ ->]]]|[k0 [Hk0 [_ Hin]]]].
      * exists k0. split; [exact Hk0 | symmetry; apply rewriteAt_sig].
      * rewrite subtreesF_clear in Hin. destruct Hin as [<-|[]].
        exists k0. split; [exact Hk0 | symmetry; apply clearKids_sig].
    + exists n. split; [|reflexivity].
      apply (subtreesF_descendants F k); [exact Hk|].
      now rewrite descendants_childNodes.
  - intro Hr. apply rowsOk_app. split; [now apply rowsOk_clear | now apply (rowsOk_sub F)].
  - intros Hr Ht. apply tablesOk_app.
    split; [now apply tablesOk_clear | now apply (tablesOk_sub F)].
Qed.

(** The same for the cell that a lookup finds, if it finds one. *)
Lemma take_found (F : list node) (c : nat) :
  NoDup (idsF F) -> cellAt F c ->
  let frag := match find (fun k => nodeId k =? c) (subtreesF F) with
              | Some cc => childNodes cc
              | None => []
              end in
  let F' := (rewriteIn c clear F ++ frag)%list in
  Permutation (idsF F') (idsF F)
  /\ (forall n, In n (subtreesF F') ->
        exists n0, In n0 (subtreesF F) /\ sigOf n0 = sigOf n)
  /\ (rowsOk F -> rowsOk F')
  /\ (rowsOk F -> tablesOk F -> tablesOk F').
Proof.
  intros ND Hc. destruct (find _ _) as [cc|] eqn:Ef; cbv zeta.
  - apply find_some in Ef as [Hin E]. apply Nat.eqb_eq in E.
    now apply take_cell.
  - assert (~ In c (idsF F)) as Habs.
    { rewrite idsF_subtreesF. intro H. apply in_map_iff in H as [x [Ex Hx]].
      pose proof (find_none _ _ Ef x Hx) as Hf. simpl in Hf.
      apply Nat.eqb_neq in Hf. contradiction. }
    rewrite (rewriteIn_absent _ _ _ Habs), app_nil_r.
    split; [reflexivity|]. split; [|split; auto].
    intros n Hn. now exists n.
Qed.

Lemma Permutation_subtreesF (X Y : list node) :
  Permutation X Y -> Permutation (subtreesF X) (subtreesF Y).
Proof. intro H. unfold subtreesF. now apply Permutation_flat_map. Qed.

Lemma Permutation_idsF (X Y : list node) :
  Permutation X Y -> Permutation (idsF X) (idsF Y).
Proof. intro H. unfold idsF. now apply Permutation_flat_map. Qed.

Lemma rowsOk_perm (X Y : list node) : Permutation X Y -> rowsOk Y -> rowsOk X.
Proof.
  intros HP H k Hk. apply H.
  apply (Permutation_in k (Permutation_subtreesF _ _ HP) Hk).
Qed.

Lemma tablesOk_perm (X Y : list node) : Permutation X Y -> tablesOk Y -> tablesOk X.
Proof.
  intros HP H k Hk. apply H.
  apply (Permutation_in k (Permutation_subtreesF _ _ HP) Hk).
Qed.

Lemma forestOk_perm tb tid next (X Y : list node) :
  Permutation X Y -> forestOk tb tid next Y -> forestOk tb tid next X.
Proof.
  intros HP [ND [Hb Htb]].
  assert (Permutation (tid :: idsF Y) (tid :: idsF X)) as HPi.
  { apply perm_skip. symmetry. now apply Permutation_idsF. }
  split; [|split].
  - apply (Permutation_NoDup HPi ND).
  - intros i Hi. apply Hb. apply (Permutation_in i (Permutation_sym HPi) Hi).
  - intro T. destruct (Htb T) as [Hr Ht].
    split; [now apply (rowsOk_perm X Y) | now apply (tablesOk_perm X Y)].
Qed.

Lemma originOk_perm old lo hi (X Y : list node) :
  Permutation X Y -> originOk old lo hi Y -> originOk old lo hi X.
Proof.
  intros HP H k Hk. apply H.
  apply (Permutation_in k (Permutation_subtreesF _ _ HP) Hk).
Qed.

End TakeFacts.

(** ** One step of the row loop *)

Section RowFacts.
Context {platform : JsString.JsPlatform}.
Import JsString Dom Server DomSpec TableSpec FlattenSpec.

Lemma perm_pick0 {A} (a l post : list A) :
  Permutation l post -> Permutation (a ++ l) (a ++ post).
Proof. apply Permutation_app_head. Qed.

Lemma perm_pick1 {A} (a l x1 post : list A) :
  Permutation l (x1 ++ post) -> Permutation (a ++ l) (x1 ++ a ++ post).
Proof.
  intro H. rewrite H. apply Permutation_app_swap_app.
Qed.

Lemma perm_pick2 {A} (a l x1 x2 post : list A) :
  Permutation l (x1 ++ x2 ++ post) -> Permutation (a ++ l) (x1 ++ x2 ++ a ++ post).
Proof.
  intro H. rewrite H, (app_assoc x1 x2), (app_assoc x1 x2 (a ++ post)).
  apply Permutation_app_swap_app.
Qed.

Lemma perm_pick3 {A} (a l x1 x2 x3 post : list A) :
  Permutation l (x1 ++ x2 ++ x3 ++ post) ->
  Permutation (a ++ l) (x1 ++ x2 ++ x3 ++ a ++ post).
Proof.
  intro H. rewrite H, (app_assoc x2 x3), (app_assoc x2 x3 (a ++ post)).
  now apply perm_pick2.
Qed.

Lemma perm_pick4 {A} (a l x1 x2 x3 x4 post : list A) :
  Permutation l (x1 ++ x2 ++ x3 ++ x4 ++ post) ->
  Permutation (a ++ l) (x1 ++ x2 ++ x3 ++ x4 ++ a ++ post).
Proof.
  intro H. rewrite H, (app_assoc x3 x4), (app_assoc x3 x4 (a ++ post)).
  now apply perm_pick3.
Qed.

Lemma perm_pick5 {A} (a l x1 x2 x3 x4 x5 post : list A) :
  Permutation l (x1 ++ x2 ++ x3 ++ x4 ++ x5 ++ post) ->
  Permutation (a ++ l) (x1 ++ x2 ++ x3 ++ x4 ++ x5 ++ a ++ post).
Proof.
  intro H. rewrite H, (app_assoc x4 x5), (app_assoc x4 x5 (a ++ post)).
  now apply perm_pick4.
Qed.

Lemma perm_pick6 {A} (a l x1 x2 x3 x4 x5 x6 post : list A) :
  Permutation l (x1 ++ x2 ++ x3 ++ x4 ++ x5 ++ x6 ++ post) ->
  Permutation (a ++ l) (x1 ++ x2 ++ x3 ++ x4 ++ x5 ++ x6 ++ a ++ post).
Proof.
  intro H. rewrite H, (app_assoc x5 x6), (app_assoc x5 x6 (a ++ post)).
  now apply perm_pick5.
Qed.

(** Permutations between concatenations of the same lists. *)
Ltac perm_apps :=
  rewrite <- ?app_assoc;
  match goal with
  | |- Permutation ?l ?r =>
      rewrite <- (app_nil_r l), <- (app_nil_r r); rewrite <- ?app_assoc
  end;
  repeat first
    [ apply Permutation_refl
    | apply perm_pick0 | apply perm_pick1 | apply perm_pick2 | apply perm_pick3
    | apply perm_pick4 | apply perm_pick5 | apply perm_pick6 ].

Lemma leaves_subtreesF (N : list node) :
  (forall x, In x N -> childNodes x = []) -> subtreesF N = N /\ idsF N = map nodeId N.
Proof.
  intro H. assert (subtreesF N = N) as E.
  { induction N as [|x N IH]; [reflexivity|].
    rewrite subtreesF_cons, descendants_childNodes, (H x (or_introl eq_refl)).
    simpl. rewrite IH; [reflexivity|]. intros y Hy. apply H. now right. }
  split; [exact E|]. now rewrite idsF_subtreesF, E.
Qed.

Lemma madeNode_not_tag lo hi (k : node) t :
  madeNode lo hi k -> t <> "br" -> t <> "p" -> hasTag t k = false.
Proof.
  intros [[H|[H|H]] _] Hb Hp; destruct k as [|j t' a ks]; simpl in *;
    try reflexivity; try discriminate; injection H as -> _;
    apply String.eqb_neq; congruence.
Qed.

Lemma forestOk_made tb tid n n' (B N : list node) :
  forestOk tb tid n B -> n <= n' ->
  (forall x, In x N -> childNodes x = [] /\ madeNode n n' x) ->
  NoDup (map nodeId N) ->
  forestOk tb tid n' (B ++ N).
Proof.
  intros [ND [Hb Htb]] Hle HN NDN.
  destruct (leaves_subtreesF N) as [EN EI]; [intros x Hx; now apply HN|].
  split; [|split].
  - rewrite idsF_app, EI. change (NoDup ((tid :: idsF B) ++ map nodeId N)).
    apply NoDup_app_join; [exact ND | exact NDN|].
    intros x Hx Hin. apply in_map_iff in Hin as [y [<- Hy]].
    destruct (HN y Hy) as [_ [_ Hrange]]. specialize (Hb _ Hx). lia.
  - intros i Hi. rewrite idsF_app, EI in Hi.
    change (In i ((tid :: idsF B) ++ map nodeId N)) in Hi.
    apply in_app_or in Hi as [Hi|Hi]; [specialize (Hb _ Hi); lia|].
    apply in_map_iff in Hi as [y [<- Hy]]. destruct (HN y Hy) as [_ [_ Hrange]]. lia.
  - intro T. destruct (Htb T) as [Hr Ht]. split.
    + apply rowsOk_app. split; [exact Hr|]. intros k Hk Htr. rewrite EN in Hk.
      destruct (HN k Hk) as [_ Hm].
      rewrite (madeNode_not_tag _ _ _ "tr" Hm) in Htr; discriminate.
    + apply tablesOk_app. split; [exact Ht|]. intros k Hk Htb'. rewrite EN in Hk.
      destruct (HN k Hk) as [_ Hm].
      rewrite (madeNode_not_tag _ _ _ "table" Hm) in Htb'; discriminate.
Qed.

Lemma originOk_made old lo hi (B N : list node) :
  (forall n, In n (subtreesF B) -> exists n0, In n0 old /\ sigOf n0 = sigOf n) ->
  (forall x, In x N -> childNodes x = [] /\ madeNode lo hi x) ->
  originOk old lo hi (B ++ N).
Proof.
  intros HB HN k Hk.
  destruct (leaves_subtreesF N) as [EN _]; [intros x Hx; now apply HN|].
  rewrite subtreesF_app, EN in Hk. apply in_app_or in Hk as [Hk|Hk].
  - left. now apply HB.
  - right. now apply HN.
Qed.

Lemma forest_nodes (s : rowState) :
  flat_map subtree (forest s) = tbl s :: subtreesF (inner s).
Proof.
  unfold forest, inner.
  rewrite (subtreesF_app (childNodes (tbl s))), <- descendants_childNodes.
  reflexivity.
Qed.

Lemma findIn_below_root c (t : node) (X : list node) :
  nodeId t <> c ->
  findIn c (t :: X) = find (fun k => nodeId k =? c) (subtreesF (childNodes t ++ X)).
Proof.
  intro H. unfold findIn.
  rewrite (subtreesF_app (childNodes t)), <- descendants_childNodes.
  cbn [flat_map]. unfold subtree at 1. cbn [app find].
  apply Nat.eqb_neq in H. now rewrite H.
Qed.

Lemma rewriteAt_id i f (n : node) : nodeId (rewriteAt i f n) = nodeId n.
Proof. apply sigOf_id, rewriteAt_sig. Qed.

Lemma made_br lo hi i : lo <= i < hi ->
  childNodes (Elem i "br" [] []) = [] /\ madeNode lo hi (Elem i "br" [] []).
Proof. intro H. split; [reflexivity|]. split; [right; now left | exact H]. Qed.

Lemma made_text lo hi i s : lo <= i < hi ->
  childNodes (Text i s) = [] /\ madeNode lo hi (Text i s).
Proof. intro H. split; [reflexivity|]. split; [now left | exact H]. Qed.

(** One iteration of the row loop keeps the invariant; the nodes in reach
    afterwards are those in reach before, and the separators made. *)
Lemma flattenRow_inv tb (tid : nat) (s : rowState) (rid idx : nat) :
  nodeId (tbl s) = tid -> forestOk tb tid (nextId s) (inner s) ->
  nodeId (tbl (flattenRow s rid idx)) = tid
  /\ forestOk tb tid (nextId (flattenRow s rid idx)) (inner (flattenRow s rid idx))
  /\ nextId s <= nextId (flattenRow s rid idx)
  /\ originOk (subtreesF (inner s)) (nextId s) (nextId (flattenRow s rid idx))
       (inner (flattenRow s rid idx)).
Proof.
  intros Eid Hok.
  assert (nodeId (tbl s) = tid /\ forestOk tb tid (nextId s) (inner s)
          /\ nextId s <= nextId s
          /\ originOk (subtreesF (inner s)) (nextId s) (nextId s) (inner s)) as Hsame.
  { split; [exact Eid|]. split; [exact Hok|]. split; [lia|].
    intros k Hk. left. now exists k. }
  unfold flattenRow.
  destruct (findIn rid (forest s)) as [tr|] eqn:Ef; [|exact Hsame].
  destruct (querySelectorAll (hasTag "td") tr) as [|mc [|cc0 rest]] eqn:Eq;
    [exact Hsame | exact Hsame |].
  clear Hsame. cbv zeta.
  change (fun k : node => [clearKids k]) with clear.
  set (G := inner s) in *.
  destruct Hok as [ND [Hb Htb]].
  assert (NoDup (idsF G)) as NDG by now inversion ND.
  assert (~ In tid (idsF G)) as Htid by now inversion ND.
  (* the row and its cells are in reach *)
  assert (forall x, In x (descendants tr) -> In x (subtreesF G)) as Hdesc.
  { apply find_some in Ef as [Hin _]. rewrite forest_nodes in Hin.
    destruct Hin as [<-|Hin]; intros x Hx.
    - unfold G, inner. rewrite subtreesF_app. apply in_or_app. left.
      now rewrite <- descendants_childNodes.
    - now apply (subtreesF_descendants G tr). }
  assert (In mc (subtreesF G) /\ hasTag "td" mc = true) as [Hmc Tmc].
  { assert (In mc (querySelectorAll (hasTag "td") tr)) as H by (rewrite Eq; now left).
    apply filter_In in H as [H1 H2]. split; [now apply Hdesc | exact H2]. }
  assert (In cc0 (subtreesF G) /\ hasTag "td" cc0 = true) as [Hcc Tcc].
  { assert (In cc0 (querySelectorAll (hasTag "td") tr)) as H
      by (rewrite Eq; right; now left).
    apply filter_In in H as [H1 H2]. split; [now apply Hdesc | exact H2]. }
  set (m := nodeId mc) in *. set (c := nodeId cc0) in *.
  (* first fragment *)
  destruct (take_cell G m mc NDG (cellAt_unique G mc NDG Hmc Tmc) Hmc eq_refl)
    as [P1 [O1 [R1 T1]]].
  set (tbl1 := rewriteAt m clear (tbl s)) in *.
  set (wr1 := rewriteIn m clear (wrapped s)) in *.
  set (li1 := rewriteIn m clear (limbo s)) in *.
  set (mf := childNodes mc) in *.
  assert (rewriteIn m clear G = (childNodes tbl1 ++ wr1 ++ li1)%list) as E1.
  { unfold G, inner, tbl1, wr1, li1.
    now rewrite !rewriteIn_app, rewriteAt_childNodes. }
  rewrite E1 in P1, O1, R1, T1. rewrite <- !app_assoc in P1, O1, R1, T1.
  set (H1 := (childNodes tbl1 ++ wr1 ++ li1 ++ mf)%list) in *.
  assert (NoDup (idsF H1)) as NDH by (apply (Permutation_NoDup (Permutation_sym P1) NDG)).
  assert (cellAt H1 c) as Hc1.
  { apply (cellAt_origin G H1 c O1). now apply cellAt_unique. }
  assert (c <> tid) as Hctid.
  { intro E. apply Htid. rewrite <- E, idsF_subtreesF. now apply in_map. }
  (* second fragment *)
  rewrite findIn_below_root by (unfold tbl1; rewrite rewriteAt_id; congruence).
  fold H1.
  destruct (take_found H1 c NDH Hc1) as [P2 [O2 [R2 T2]]].
  set (cf := match find (fun k : node => nodeId k =? c) (subtreesF H1) with
             | Some cc => childNodes cc
             | None => []
             end) in *.
  set (tbl2 := rewriteAt c clear tbl1) in *.
  set (wr2 := rewriteIn c clear wr1) in *.
  set (li2 := rewriteIn c clear li1) in *.
  set (mf2 := rewriteIn c clear mf) in *.
  assert (rewriteIn c clear H1 = (childNodes tbl2 ++ wr2 ++ li2 ++ mf2)%list) as E2.
  { unfold H1, tbl2, wr2, li2, mf2.
    now rewrite !rewriteIn_app, rewriteAt_childNodes. }
  rewrite E2 in P2, O2, R2, T2.
  set (B := ((childNodes tbl2 ++ wr2 ++ li2 ++ mf2) ++ cf)%list) in *.
  assert (forestOk tb tid (nextId s) B) as HB.
  { assert (Permutation (idsF B) (idsF G)) as PB by (now rewrite P2).
    split; [|split].
    - constructor.
      + intro H. apply Htid. apply (Permutation_in _ PB H).
      + apply (Permutation_NoDup (Permutation_sym PB) NDG).
    - intros i [<-|Hi]; [apply Hb; now left|].
      apply Hb. right. apply (Permutation_in _ PB Hi).
    - intro T. destruct (Htb T) as [Hr Ht]. split.
      + apply R2, R1, Hr.
      + apply T2; [apply R1, Hr | apply T1; assumption]. }
  assert (forall n, In n (subtreesF B) ->
            exists n0, In n0 (subtreesF G) /\ sigOf n0 = sigOf n) as OB.
  { intros n Hn. destruct (O2 n Hn) as [n1 [Hn1 S1]].
    destruct (O1 n1 Hn1) as [n0 [Hn0 S0]]. exists n0. split; [exact Hn0 | congruence]. }
  assert (nodeId tbl2 = tid) as Eid2.
  { unfold tbl2, tbl1. now rewrite !rewriteAt_id. }
  clear P1 O1 R1 T1 P2 O2 R2 T2 E1 E2.
  set (n := nextId s) in *.
  assert (forall N hi, n <= hi ->
            (forall x, In x N -> childNodes x = [] /\ madeNode n hi x) ->
            NoDup (map nodeId N) ->
            forall X, Permutation X (B ++ N) ->
            nodeId tbl2 = tid /\ forestOk tb tid hi X /\ n <= hi
            /\ originOk (subtreesF G) n hi X) as Hcase.
  { intros N hi Hle HN NDN X HP. split; [exact Eid2|]. split; [|split; [exact Hle|]].
    - apply (forestOk_perm tb tid hi X (B ++ N) HP).
      now apply (forestOk_made tb tid n hi B N HB).
    - apply (originOk_perm _ _ _ X (B ++ N) HP).
      now apply originOk_made. }
  destruct (idx =? 0); [destruct (negb _) | destruct (negb _)];
    cbn [tbl nextId wrapped limbo inner]; unfold inner; cbn [tbl wrapped limbo].
  - apply (Hcase [Elem n "br" [] []] (S n)); [lia | | |unfold B; perm_apps].
    + intros x [<-|[]]. apply made_br. lia.
    + repeat constructor. intros [].
  - apply (Hcase [] n); [lia | intros x [] | constructor | unfold B; perm_apps].
  - apply (Hcase [Elem n "br" [] []; Elem (S n) "br" [] []] (S (S n)));
      [lia | | |unfold B].
    + intros x [<-|[<-|[]]]; apply made_br; lia.
    + repeat constructor; simpl; intuition lia.
    + change [Elem n "br" [] []; Elem (S n) "br" [] []]
        with ([Elem n "br" [] []] ++ [Elem (S n) "br" [] []])%list.
      perm_apps.
  - apply (Hcase [Text n " "] (S n)); [lia | | |unfold B; perm_apps].
    + intros x [<-|[]]. apply made_text. lia.
    + repeat constructor. intros [].
Qed.

(** The row loop keeps the invariant. *)
Lemma flattenRows_inv tb (tid : nat) (rids : list nat) (s : rowState) (idx : nat) :
  nodeId (tbl s) = tid -> forestOk tb tid (nextId s) (inner s) ->
  nodeId (tbl (flattenRows s rids idx)) = tid
  /\ forestOk tb tid (nextId (flattenRows s rids idx)) (inner (flattenRows s rids idx))
  /\ nextId s <= nextId (flattenRows s rids idx)
  /\ originOk (subtreesF (inner s)) (nextId s) (nextId (flattenRows s rids idx))
       (inner (flattenRows s rids idx)).
Proof.
  revert s idx. induction rids as [|rid rids IH]; intros s idx Eid Hok.
  - simpl. split; [exact Eid|]. split; [exact Hok|]. split; [lia|].
    intros k Hk. left. now exists k.
  - simpl. destruct (flattenRow_inv tb tid s rid idx Eid Hok) as [E1 [H1 [L1 O1]]].
    destruct (IH (flattenRow s rid idx) (S idx) E1 H1) as [E2 [H2 [L2 O2]]].
    split; [exact E2|]. split; [exact H2|]. split; [lia|].
    intros k Hk. destruct (O2 k Hk) as [[k1 [Hk1 S1]]|[Hs Hr]].
    + destruct (O1 k1 Hk1) as [[k0 [Hk0 S0]]|[Hs Hr]].
      * left. exists k0. split; [exact Hk0 | congruence].
      * right. split.
        -- rewrite <- (sigOf_shape _ _ S1). exact Hs.
        -- rewrite <- (sigOf_id _ _ S1). lia.
    + right. split; [exact Hs | lia].
Qed.

End RowFacts.

(** ** Replacing a table by its wrapper *)

Section ReplaceFacts.
Context {platform : JsString.JsPlatform}.
Import JsString Dom Server DomSpec TableSpec FlattenSpec DocSpec.

Lemma ids_block (F : list node) (k : node) :
  NoDup (idsF F) -> In k (subtreesF F) ->
  exists l1 l2, idsF F = (l1 ++ ids k ++ l2)%list.
Proof.
  intros ND Hk.
  destruct (rewriteIn_ids (nodeId k) (fun x => [x]) F k ND Hk eq_refl) as [l1 [l2 [E _]]].
  now exists l1, l2.
Qed.

Lemma NoDup_replace_block {A} (l1 blk l2 new : list A) :
  NoDup (l1 ++ blk ++ l2) -> NoDup new ->
  (forall x, In x new -> In x blk \/ ~ In x (l1 ++ blk ++ l2)) ->
  NoDup (l1 ++ new ++ l2).
Proof.
  intros ND NN Hnew.
  destruct (NoDup_app_parts _ _ ND) as [N1 [N23 D1]].
  destruct (NoDup_app_parts _ _ N23) as [N2 [N3 D2]].
  apply NoDup_app_join; [exact N1 | |].
  - apply NoDup_app_join; [exact NN | exact N3 |].
    intros x Hx H3. destruct (Hnew x Hx) as [Hb|Hn].
    + now apply (D2 x).
    + apply Hn. apply in_or_app. right. apply in_or_app. now right.
  - intros x H1 Hx. apply in_app_or in Hx as [Hx|Hx].
    + destruct (Hnew x Hx) as [Hb|Hn].
      * apply (D1 x H1). apply in_or_app. now left.
      * apply Hn. apply in_or_app. now left.
    + apply (D1 x H1). apply in_or_app. now right.
Qed.

Lemma findBelow_some i (n table : node) :
  findBelow i n = Some table -> In table (descendants n) /\ nodeId table = i.
Proof.
  unfold findBelow. intro H. apply find_some in H as [H1 H2].
  split; [exact H1 | now apply Nat.eqb_eq].
Qed.

Lemma findBelow_none i (n : node) :
  findBelow i n = None -> forall k, In k (descendants n) -> nodeId k <> i.
Proof.
  unfold findBelow. intros H k Hk. pose proof (find_none _ _ H k Hk) as E.
  simpl in E. now apply Nat.eqb_neq.
Qed.

Lemma rowsOk_checked (t : node) :
  forallb twoCols (querySelectorAll (hasTag "tr") t) = true <-> rowsOk (childNodes t).
Proof.
  unfold rowsOk, querySelectorAll. rewrite <- descendants_childNodes, forallb_forall.
  split.
  - intros H k Hk Htr. apply H. apply filter_In. now split.
  - intros H k Hk. apply filter_In in Hk as [Hk Htr]. now apply H.
Qed.

Lemma hasOwnRowN_row (n : node) :
  hasOwnRowN n = true -> exists x, In x (subtree n) /\ hasTag "tr" x = true.
Proof.
  induction n as [i s | j t a ks IH | | n F Hn HF]
    using node_forest_ind
    with (Q := fun F => existsb hasOwnRowN F = true ->
                        exists x, In x (subtreesF F) /\ hasTag "tr" x = true).
  - discriminate.
  - simpl. destruct (String.eqb t "tr") eqn:Et.
    + intros _. exists (Elem j t a ks). split; [now left | exact Et].
    + destruct (_ || _); [discriminate|]. intro H.
      destruct (IH H) as [x [Hx Hr]]. exists x. split; [now right | exact Hr].
  - discriminate.
  - cbn [existsb]. intro H. apply orb_true_iff in H as [H|H].
    + destruct (Hn H) as [x [Hx Hr]]. exists x. split; [|exact Hr].
      change (In x (subtree n ++ subtreesF F)). apply in_or_app. now left.
    + destruct (HF H) as [x [Hx Hr]]. exists x. split; [|exact Hr].
      change (In x (subtree n ++ subtreesF F)). apply in_or_app. now right.
Qed.

(** A table that owns a row and has two cells in every row passes the
    flattener's test. *)
Lemma tableOk_qualifies (t : node) : tableOk t -> qualifies t = true.
Proof.
  intros [Hown Hrows]. unfold qualifies.
  apply rowsOk_checked in Hrows.
  destruct (querySelectorAll (hasTag "tr") t) as [|r rs] eqn:E; [|exact Hrows].
  exfalso. unfold ownsRow in Hown.
  assert (exists x, In x (subtreesF (childNodes t)) /\ hasTag "tr" x = true) as [x [Hx Hr]].
  { clear -Hown. induction (childNodes t) as [|n F IH]; [discriminate|].
    cbn [existsb] in Hown. apply orb_true_iff in Hown as [H|H].
    - destruct (hasOwnRowN_row n H) as [x [Hx Hr]]. exists x. split; [|exact Hr].
      change (In x (subtree n ++ subtreesF F)). apply in_or_app. now left.
    - destruct (IH H) as [x [Hx Hr]]. exists x. split; [|exact Hr].
      change (In x (subtree n ++ subtreesF F)). apply in_or_app. now right. }
  assert (In x (querySelectorAll (hasTag "tr") t)) as Hin.
  { apply filter_In. split; [now rewrite descendants_childNodes | exact Hr]. }
  rewrite E in Hin. exact Hin.
Qed.

Lemma rewriteIn_roots_absent i f (F : list node) :
  (forall ch, In ch F -> nodeId ch <> i) ->
  rewriteIn i f F = map (rewriteAt i f) F.
Proof.
  induction F as [|x F IH]; intro H; [reflexivity|].
  rewrite rewriteIn_cons, IH by (intros ch Hch; apply H; now right).
  assert ((nodeId x =? i) = false) as -> by (apply Nat.eqb_neq, H; now left).
  reflexivity.
Qed.

Lemma map_rewriteAt_shapes i f (F : list node) :
  map shapeOf (filter isElem (map (rewriteAt i f) F)) = map shapeOf (filter isElem F).
Proof.
  induction F as [|x F IH]; [reflexivity|]. simpl.
  pose proof (sigOf_shape _ _ (rewriteAt_sig i f x)) as Hs.
  rewrite (isElem_shape _ _ Hs). destruct (isElem x); simpl; [|exact IH].
  now rewrite IH, Hs.
Qed.

Lemma hasTag_table_not_td (k : node) : hasTag "table" k = true -> hasTag "td" k = false.
Proof.
  destruct k as [|j t a ks]; simpl; [discriminate|].
  intro H. apply String.eqb_eq in H. now subst t.
Qed.

(** A row with two cells keeps them when a table below it is replaced. *)
Lemma twoCols_replace i f (x : node) :
  twoCols x = true ->
  (forall ch, In ch (childNodes x) -> nodeId ch = i -> hasTag "table" ch = true) ->
  twoCols (rewriteAt i f x) = true.
Proof.
  intros H2 Htab.
  assert (forall ch, In ch (childNodes x) -> nodeId ch <> i) as Habs.
  { intros ch Hch E. specialize (Htab ch Hch E).
    assert (In ch (children x)) as Hc.
    { apply filter_In. split; [exact Hch|]. destruct ch; [discriminate | reflexivity]. }
    unfold twoCols in H2.
    destruct (children x) as [|c0 [|c1 [|c2 l]]]; try discriminate.
    apply andb_true_iff in H2 as [T0 T1].
    pose proof (hasTag_table_not_td ch Htab) as Hn.
    destruct Hc as [<-|[<-|[]]]; congruence. }
  rewrite <- H2. apply twoCols_shapes. unfold children.
  rewrite rewriteAt_childNodes, (rewriteIn_roots_absent _ _ _ Habs).
  apply map_rewriteAt_shapes.
Qed.

Lemma hasTag_table_not_row (k : node) : hasTag "table" k = true -> hasOwnRowN k = false.
Proof.
  destruct k as [|j t a ks]; simpl; [reflexivity|].
  intro H. apply String.eqb_eq in H. now subst t.
Qed.

Lemma tableAt_cons_elem j t a ks F i :
  tableAt (Elem j t a ks :: F) i ->
  (j = i -> String.eqb t "table" = true) /\ tableAt ks i /\ tableAt F i.
Proof.
  unfold tableAt. rewrite subtreesF_cons, descendants_elem. intro H. split; [|split].
  - intro E. apply (H (Elem j t a ks)); [now left | exact E].
  - intros k Hk. apply H. right. apply in_or_app. now left.
  - intros k Hk. apply H. right. apply in_or_app. now right.
Qed.

(** Replacing tables keeps the rows that lie outside cells and tables. *)
Lemma hasOwnRow_replace i f (F : list node) :
  tableAt F i ->
  existsb hasOwnRowN F = true -> existsb hasOwnRowN (rewriteIn i f F) = true.
Proof.
  induction F as [|i' s F IH | j t a ks F IHk IHF] using forest_ind; intros Ht H.
  - discriminate.
  - rewrite rewriteIn_cons, existsb_app. simpl in H.
    rewrite IH; [apply orb_true_r | | exact H].
    intros k Hk. apply Ht. rewrite subtreesF_cons. right. now apply in_or_app, or_intror.
  - destruct (tableAt_cons_elem _ _ _ _ _ _ Ht) as [Hj [Hks HF]].
    rewrite rewriteIn_cons, existsb_app. cbn [nodeId].
    cbn [existsb] in H. apply orb_true_iff in H as [H|H].
    + destruct (Nat.eqb_spec j i) as [E|E].
      * specialize (Hj E). apply String.eqb_eq in Hj. subst t. discriminate.
      * rewrite rewriteAt_elem. cbn [existsb]. apply orb_true_iff. left.
        apply orb_true_iff. left. cbn [hasOwnRowN] in *.
        destruct (String.eqb t "tr"); [reflexivity|].
        destruct (_ || _); [discriminate|]. now apply IHk.
    + rewrite (IHF HF H). apply orb_true_r.
Qed.

End ReplaceFacts.

(** ** One step of the table loop *)

Section StepFacts.
Context {platform : JsString.JsPlatform}.
Import JsString Dom Server DomSpec TableSpec FlattenSpec DocSpec.

Lemma origin_ids old lo hi (X : list node) i :
  originOk old lo hi X -> In i (idsF X) ->
  In i (map nodeId old) \/ lo <= i < hi.
Proof.
  intros Ho Hi. rewrite idsF_subtreesF in Hi. apply in_map_iff in Hi as [k [<- Hk]].
  destruct (Ho k Hk) as [[k0 [Hk0 Hs]]|[_ Hr]]; [left | now right].
  rewrite <- (sigOf_id _ _ Hs). now apply in_map.
Qed.

(** The wrapper the row loop builds for a table that passes the test. *)
Lemma wrapper_explicit (tb : Prop) (d : docState) (tid : nat) (table : node) :
  docOk d ->
  findBelow tid (root d) = Some table ->
  qualifies table = true ->
  (tb -> tablesOk (childNodes (root d))) ->
  flattenTable d tid
  = mkDoc (replaceWith tid (wrapperOf (fresh d) (wrapped (rowsDone d table))) (root d))
          (nextId (rowsDone d table))
  /\ fresh d < nextId (rowsDone d table)
  /\ originOk (descendants table) (S (fresh d)) (nextId (rowsDone d table))
       (wrapped (rowsDone d table))
  /\ NoDup (idsF (wrapped (rowsDone d table)))
  /\ ~ In tid (idsF (wrapped (rowsDone d table)))
  /\ (tb -> rowsOk (wrapped (rowsDone d table)) /\ tablesOk (wrapped (rowsDone d table))).
Proof.
  intros [ND Hb] Hfind Hq Htb. unfold rowsDone.
  destruct (findBelow_some _ _ _ Hfind) as [Hin Eid].
  unfold flattenTable. rewrite Hfind. unfold qualifies in Hq.
  destruct (querySelectorAll (hasTag "tr") table) as [|r0 rs] eqn:Etr; [discriminate|].
  rewrite Hq. cbn [negb].
  set (w := fresh d) in *.
  set (s0 := mkRow table [] [] (S w)).
  set (sf := flattenRows s0 (map nodeId (r0 :: rs)) 0).
  assert (inner s0 = childNodes table) as E0.
  { unfold inner, s0. cbn [tbl wrapped limbo]. now rewrite app_nil_r. }
  rewrite ids_childNodes in ND, Hb.
  rewrite descendants_childNodes in Hin.
  set (K := childNodes (root d)) in *.
  assert (NoDup (idsF K)) as NDK by now inversion ND.
  destruct (ids_block K table NDK Hin) as [l1 [l2 EK]].
  assert (NoDup (ids table)) as NDT.
  { rewrite EK in NDK. apply NoDup_app_parts in NDK as [_ [NDK _]].
    now apply NoDup_app_parts in NDK as [NDK _]. }
  assert (forall i, In i (ids table) -> i < w) as HbT.
  { intros i Hi. apply Hb. right. rewrite EK. apply in_or_app. right.
    apply in_or_app. now left. }
  assert (forestOk tb tid (nextId s0) (inner s0)) as Hok0.
  { rewrite E0. rewrite ids_childNodes, Eid in NDT, HbT.
    split; [exact NDT|]. split.
    - intros i Hi. specialize (HbT i Hi). unfold s0. cbn [nextId]. lia.
    - intro T. split.
      + apply rowsOk_checked. now rewrite Etr.
      + apply (tablesOk_sub K); [now apply Htb | exact Hin]. }
  destruct (flattenRows_inv tb tid (map nodeId (r0 :: rs)) s0 0 Eid Hok0)
    as [_ [[NDf [Hbf Htf]] [Hle Hor]]].
  fold sf in NDf, Hbf, Htf, Hle, Hor.
  split; [reflexivity|].
  split; [unfold s0 in Hle; cbn [nextId] in Hle; lia|].
  assert (forall k, In k (subtreesF (wrapped sf)) -> In k (subtreesF (inner sf))) as Hsub.
  { intros k Hk. unfold inner. rewrite !subtreesF_app.
    apply in_or_app. right. apply in_or_app. now left. }
  assert (forall i, In i (idsF (wrapped sf)) -> In i (idsF (inner sf))) as Hsubi.
  { intros i Hi. unfold inner. rewrite !idsF_app.
    apply in_or_app. right. apply in_or_app. now left. }
  split; [|split; [|split]].
  - intros k Hk. rewrite E0, <- descendants_childNodes in Hor.
    unfold s0 in Hor. cbn [nextId] in Hor. now apply Hor, Hsub.
  - inversion NDf as [|? ? _ NDi]; subst. unfold inner in NDi.
    rewrite !idsF_app in NDi. apply NoDup_app_parts in NDi as [_ [NDi _]].
    now apply NoDup_app_parts in NDi as [NDi _].
  - intro H. inversion NDf as [|? ? Hx _]; subst. now apply Hx, Hsubi.
  - intro T. destruct (Htf T) as [Hr Ht]. unfold inner in Hr, Ht.
    apply rowsOk_app in Hr as [_ Hr]. apply rowsOk_app in Hr as [Hr _].
    apply tablesOk_app in Ht as [_ Ht]. apply tablesOk_app in Ht as [Ht _].
    now split.
Qed.

Lemma wrapper_facts (tb : Prop) (d : docState) (tid : nat) (table : node) :
  docOk d ->
  findBelow tid (root d) = Some table ->
  qualifies table = true ->
  (tb -> tablesOk (childNodes (root d))) ->
  exists wk n',
    flattenTable d tid = mkDoc (replaceWith tid (wrapperOf (fresh d) wk) (root d)) n'
    /\ fresh d < n'
    /\ originOk (descendants table) (S (fresh d)) n' wk
    /\ NoDup (idsF wk) /\ ~ In tid (idsF wk)
    /\ (tb -> rowsOk wk /\ tablesOk wk).
Proof.
  intros Hd Hfind Hq Htb.
  exists (wrapped (rowsDone d table)), (nextId (rowsDone d table)).
  now apply wrapper_explicit.
Qed.

Lemma roots_in_subtreesF (F : list node) (k : node) : In k F -> In k (subtreesF F).
Proof.
  intro H. unfold subtreesF. apply in_flat_map. exists k. split; [exact H | now left].
Qed.

Lemma subtreesF_wrapper w (wk : list node) :
  subtreesF [wrapperOf w wk] = wrapperOf w wk :: subtreesF wk.
Proof. now rewrite subtreesF_single. Qed.

(** The document after a table was replaced by its wrapper: identities. *)
Lemma replace_doc (r : node) (w n' tid : nat) (table : node) (wk : list node) :
  NoDup (ids r) -> (forall i, In i (ids r) -> i < w) -> w < n' ->
  In table (descendants r) -> nodeId table = tid ->
  originOk (descendants table) (S w) n' wk -> NoDup (idsF wk) ->
  ~ In tid (idsF wk) ->
  let r' := replaceWith tid (wrapperOf w wk) r in
  NoDup (ids r') /\ (forall i, In i (ids r') -> i < n')
  /\ originOk (descendants r) w n' (childNodes r')
  /\ (forall k', In k' (descendants r') -> nodeId k' <> tid).
Proof.
  intros ND Hb Hw Hin Eid Hor NDw Htid r'. subst r'. unfold replaceWith.
  set (f := fun _ : node => [wrapperOf w wk]).
  rewrite ids_childNodes in ND, Hb. rewrite descendants_childNodes in Hin.
  set (K := childNodes r) in *.
  assert (NoDup (idsF K)) as NDK by now inversion ND.
  destruct (rewriteIn_ids tid f K table NDK Hin Eid) as [l1 [l2 [E1 E2]]].
  assert (idsF (f table) = w :: idsF wk) as Ef.
  { unfold f, wrapperOf. now rewrite idsF_single, ids_elem. }
  rewrite Ef in E2.
  assert (forall i, In i (ids table) -> i < w) as HbT.
  { intros i Hi. apply Hb. right. rewrite E1. apply in_or_app. right.
    apply in_or_app. now left. }
  assert (forall i, In i (idsF wk) -> (In i (ids table) /\ i < w) \/ S w <= i < n') as Hwk.
  { intros i Hi. destruct (origin_ids _ _ _ _ _ Hor Hi) as [H|H]; [left | now right].
    assert (In i (ids table)) as Hi' by (unfold ids, subtree; simpl; now right).
    split; [exact Hi' | now apply HbT]. }
  assert (forall k', In k' (subtreesF (rewriteIn tid f K)) ->
            (exists k, In k (subtreesF K) /\ nodeId k <> tid /\ k' = rewriteAt tid f k)
            \/ k' = wrapperOf w wk \/ In k' (subtreesF wk)) as Hnodes.
  { intros k' Hk'.
    destruct (rewriteIn_nodes _ _ _ _ Hk') as [H|[k [_ [_ H]]]]; [now left | right].
    unfold f in H. rewrite subtreesF_wrapper in H. destruct H as [<-|H]; auto. }
  split; [|split; [|split]].
  - rewrite ids_childNodes, rewriteAt_childNodes, rewriteAt_id. fold K. rewrite E2.
    rewrite E1 in ND.
    change (NoDup ((nodeId r :: l1) ++ (w :: idsF wk) ++ l2)).
    apply (NoDup_replace_block (nodeId r :: l1) (ids table) l2); [exact ND | |].
    + constructor; [|exact NDw]. intro H. destruct (Hwk w H) as [[_ H1]|H1]; lia.
    + intros x [<-|Hx].
      * right. intro H. assert (w < w) as C; [|lia]. apply Hb.
        rewrite E1. exact H.
      * destruct (Hwk x Hx) as [[H _]|H]; [now left | right].
        intro H'. assert (x < w) as C; [|lia]. apply Hb. rewrite E1. exact H'.
  - rewrite ids_childNodes, rewriteAt_childNodes, rewriteAt_id. fold K. rewrite E2.
    intros i [<-|Hi]; [assert (nodeId r < w) by (apply Hb; now left); lia|].
    apply in_app_or in Hi as [Hi|Hi].
    + assert (i < w); [|lia]. apply Hb. right. rewrite E1. apply in_or_app. now left.
    + apply in_app_or in Hi as [[<-|Hi]|Hi]; [lia | |].
      * destruct (Hwk i Hi) as [[_ H]|H]; lia.
      * assert (i < w); [|lia]. apply Hb. right. rewrite E1.
        apply in_or_app. right. apply in_or_app. now right.
  - rewrite rewriteAt_childNodes. fold K. intros k' Hk'.
    destruct (Hnodes k' Hk') as [[k [Hk [_ ->]]]|[->|H]].
    + left. exists k. split; [now rewrite descendants_childNodes|].
      symmetry. apply rewriteAt_sig.
    + right. split; [right; right; reflexivity | simpl; lia].
    + destruct (Hor k' H) as [[k0 [Hk0 Hs]]|[Hs Hr]].
      * left. exists k0. split; [|exact Hs]. rewrite descendants_childNodes.
        now apply (subtreesF_descendants K table).
      * right. split; [exact Hs | lia].
  - rewrite descendants_childNodes, rewriteAt_childNodes. fold K. intros k' Hk'.
    destruct (Hnodes k' Hk') as [[k [Hk [Hne ->]]]|[->|H]].
    + now rewrite rewriteAt_id.
    + simpl. assert (tid < w); [|lia]. apply HbT. rewrite <- Eid. now left.
    + intro E. apply Htid. rewrite <- E, idsF_subtreesF. now apply in_map.
Qed.

Lemma tableAt_sub (F : list node) (k : node) i :
  tableAt F i -> In k (subtreesF F) -> tableAt (childNodes k) i.
Proof.
  intros H Hk x Hx. apply H. apply (subtreesF_descendants F k); [exact Hk|].
  now rewrite descendants_childNodes.
Qed.

(** The document after a table was replaced by its wrapper: every table
    still owns a row and has two cells in every row. *)
Lemma replace_tables (r : node) (w tid : nat) (table : node) (wk : list node) :
  NoDup (ids r) -> In table (descendants r) -> nodeId table = tid ->
  hasTag "table" table = true ->
  tablesOk (childNodes r) -> rowsOk wk -> tablesOk wk ->
  tablesOk (childNodes (replaceWith tid (wrapperOf w wk) r)).
Proof.
  intros ND Hin Eid Htag HtK Hrw Htw. unfold replaceWith.
  set (f := fun _ : node => [wrapperOf w wk]).
  rewrite ids_childNodes in ND. rewrite descendants_childNodes in Hin.
  rewrite rewriteAt_childNodes.
  set (K := childNodes r) in *.
  assert (NoDup (idsF K)) as NDK by now inversion ND.
  assert (tableAt K tid) as Hat.
  { intros x Hx E. rewrite <- Eid in E. now rewrite (node_unique K x table NDK Hx Hin E). }
  intros k' Hk' Tk'.
  destruct (rewriteIn_nodes _ _ _ _ Hk') as [[k [Hk [Hne ->]]]|[k [_ [_ H]]]].
  - rewrite hasTag_rewriteAt in Tk'. destruct (HtK k Hk Tk') as [Hown Hrows].
    split.
    + unfold ownsRow. rewrite rewriteAt_childNodes.
      apply hasOwnRow_replace; [now apply (tableAt_sub K) | exact Hown].
    + rewrite rewriteAt_childNodes. intros x' Hx' Tx'.
      destruct (rewriteIn_nodes _ _ _ _ Hx') as [[x [Hx [_ ->]]]|[x [_ [_ H]]]].
      * rewrite hasTag_rewriteAt in Tx'. apply twoCols_replace; [now apply Hrows|].
        intros ch Hch E. apply (tableAt_sub K k tid Hat Hk); [|exact E].
        apply (subtreesF_descendants (childNodes k) x); [exact Hx|].
        rewrite descendants_childNodes. now apply roots_in_subtreesF.
      * unfold f in H. rewrite subtreesF_wrapper in H.
        destruct H as [<-|H]; [discriminate | now apply Hrw].
  - unfold f in H. rewrite subtreesF_wrapper in H.
    destruct H as [<-|H]; [discriminate | now apply Htw].
Qed.

End StepFacts.

(** ** The table loop *)

Section LoopFacts.
Context {platform : JsString.JsPlatform}.
Import JsString Dom Server DomSpec TableSpec FlattenSpec DocSpec IdemSpec.

Lemma flattenTable_absent (d : docState) (tid : nat) :
  findBelow tid (root d) = None -> flattenTable d tid = d.
Proof. intro H. unfold flattenTable. now rewrite H. Qed.

Lemma flattenTable_unqualified (d : docState) (tid : nat) (table : node) :
  findBelow tid (root d) = Some table -> qualifies table = false ->
  flattenTable d tid = d.
Proof.
  intros H Hq. unfold flattenTable. rewrite H. unfold qualifies in Hq.
  destruct (querySelectorAll (hasTag "tr") table); [reflexivity|].
  now rewrite Hq.
Qed.

(** One step of the table loop in any document: identities stay distinct
    and every node is an old node, up to its children, or was made. *)
Lemma flattenTable_step (d : docState) (tid : nat) :
  docOk d ->
  docOk (flattenTable d tid)
  /\ fresh d <= fresh (flattenTable d tid)
  /\ originOk (descendants (root d)) (fresh d) (fresh (flattenTable d tid))
       (childNodes (root (flattenTable d tid))).
Proof.
  intro Hd.
  assert (docOk d /\ fresh d <= fresh d
          /\ originOk (descendants (root d)) (fresh d) (fresh d) (childNodes (root d)))
    as Hsame.
  { split; [exact Hd|]. split; [lia|]. intros k Hk. left. exists k.
    split; [now rewrite descendants_childNodes | reflexivity]. }
  destruct (findBelow tid (root d)) as [table|] eqn:Hf;
    [|now rewrite (flattenTable_absent d tid Hf)].
  destruct (qualifies table) eqn:Hq;
    [|now rewrite (flattenTable_unqualified d tid table Hf Hq)].
  clear Hsame.
  destruct (wrapper_facts False d tid table Hd Hf Hq (fun F => match F with end))
    as [wk [n' [E [Hlt [Hor [NDw [Htid _]]]]]]].
  destruct (findBelow_some _ _ _ Hf) as [Hin Eid].
  destruct Hd as [ND Hb].
  destruct (replace_doc (root d) (fresh d) n' tid table wk ND Hb Hlt Hin Eid Hor NDw Htid)
    as [ND' [Hb' [Hor' _]]].
  rewrite E. cbn [root fresh]. split; [now split|]. split; [lia | exact Hor'].
Qed.

(** One step of the table loop when every table passes the test and owns a
    row. *)
Lemma loopOk_step (d : docState) (tid : nat) (rest : list nat) :
  loopOk d (tid :: rest) -> loopOk (flattenTable d tid) rest.
Proof.
  intros [Hd [Ht [Hlt [Htag Hall]]]].
  destruct (findBelow tid (root d)) as [table|] eqn:Hf.
  - destruct (findBelow_some _ _ _ Hf) as [Hin Eid].
    assert (hasTag "table" table = true) as Tt.
    { apply Htag; [exact Hin | rewrite Eid; now left]. }
    assert (tableOk table) as Hok.
    { apply Ht; [now rewrite <- descendants_childNodes | exact Tt]. }
    pose proof (tableOk_qualifies table Hok) as Hq.
    destruct (wrapper_facts True d tid table Hd Hf Hq (fun _ => Ht))
      as [wk [n' [E [Hn' [Hor [NDw [Htid Hrt]]]]]]].
    destruct (Hrt I) as [Hrw Htw].
    destruct Hd as [ND Hb].
    destruct (replace_doc (root d) (fresh d) n' tid table wk ND Hb Hn' Hin Eid Hor NDw Htid)
      as [ND' [Hb' [Hor' Hne]]].
    pose proof (replace_tables (root d) (fresh d) tid table wk ND Hin Eid Tt Ht Hrw Htw)
      as Ht'.
    rewrite E. unfold loopOk. cbn [root fresh].
    split; [now split|]. split; [exact Ht'|]. split; [|split].
    + intros i Hi. assert (i < fresh d) by (apply Hlt; now right). lia.
    + intros k' Hk' Hi. rewrite descendants_childNodes in Hk'.
      destruct (Hor' k' Hk') as [[k0 [Hk0 Hs]]|[_ Hr]].
      * rewrite <- (hasTag_shape _ _ _ (sigOf_shape _ _ Hs)).
        apply Htag; [exact Hk0|]. rewrite (sigOf_id _ _ Hs). now right.
      * assert (nodeId k' < fresh d) by (apply Hlt; now right). lia.
    + intros k' Hk' Tk'. pose proof (Hne k' Hk') as Hnk.
      rewrite descendants_childNodes in Hk'.
      destruct (Hor' k' Hk') as [[k0 [Hk0 Hs]]|Hm].
      * rewrite <- (hasTag_shape _ _ _ (sigOf_shape _ _ Hs)) in Tk'.
        destruct (Hall k0 Hk0 Tk') as [E0|Hr].
        -- rewrite (sigOf_id _ _ Hs) in E0. congruence.
        -- now rewrite <- (sigOf_id _ _ Hs).
      * rewrite (madeNode_not_tag _ _ _ "table" Hm) in Tk'; discriminate.
  - rewrite (flattenTable_absent d tid Hf).
    split; [exact Hd|]. split; [exact Ht|]. split; [|split].
    + intros i Hi. apply Hlt. now right.
    + intros k Hk Hi. apply Htag; [exact Hk | now right].
    + intros k Hk Tk. destruct (Hall k Hk Tk) as [E|Hr]; [|exact Hr].
      elim (findBelow_none _ _ Hf k Hk). now symmetry.
Qed.

Lemma loopOk_fold (rest : list nat) (d : docState) :
  loopOk d rest -> loopOk (fold_left flattenTable rest d) [].
Proof.
  revert d. induction rest as [|tid rest IH]; intros d H; [exact H|].
  simpl. apply IH. now apply loopOk_step.
Qed.

Lemma loopOk_start (d : docState) :
  docOk d ->
  (forall t, In t (tablesOf (root d)) -> qualifies t = true /\ ownsRow t = true) ->
  loopOk d (map nodeId (tablesOf (root d))).
Proof.
  intros [ND Hb] Hq. unfold tablesOf, querySelectorAll in *.
  split; [now split|]. split; [|split; [|split]].
  - intros k Hk Tk. rewrite <- descendants_childNodes in Hk.
    destruct (Hq k) as [Q O]; [apply filter_In; now split|].
    split; [exact O|]. apply rowsOk_checked. unfold qualifies in Q.
    destruct (querySelectorAll (hasTag "tr") k); [reflexivity | exact Q].
  - intros i Hi. apply in_map_iff in Hi as [k [<- Hk]].
    apply filter_In in Hk as [Hk _]. apply Hb. unfold ids, subtree. right.
    now apply in_map.
  - intros k Hk Hi. apply in_map_iff in Hi as [t [E Hin]].
    apply filter_In in Hin as [Hin Tt].
    rewrite ids_childNodes in ND. inversion ND as [|? ? _ NDK]; subst.
    rewrite descendants_childNodes in Hk, Hin.
    now rewrite (node_unique _ k t NDK Hk Hin (eq_sym E)).
  - intros k Hk Tk. apply in_map. apply filter_In. now split.
Qed.

End LoopFacts.

Section C1Examples.
#[local] Existing Instance JsString.asciiText.

(** ** Assembly of the flowing block *)

(** C1, at a margin table with a table in its marker cell: the table passes
    the flattener's test and its row has the marker cell and the content
    cell c as its two cells, yet the block is assembled from the marker cell
    and the first cell of the nested table; nothing of the content cell
    reaches the output.  The text of the document is ASCII, and the output
    is computed on the platform for ASCII text. *)
Theorem C1_nested_marker_cell :
  TableSpec.qualifies (Dom.Elem 1 "table" [] [MarginSpec.nestedMarkerRow]) = true
  /\ Dom.children MarginSpec.nestedMarkerRow
     = [Dom.Elem 3 "td" []
          [Dom.Elem 4 "table" []
             [Dom.Elem 5 "tr" []
                [Dom.Elem 6 "td" [] [Dom.Text 7 "a"];
                 Dom.Elem 8 "td" [] [Dom.Text 9 "b"]]]];
        Dom.Elem 10 "td" [] [Dom.Text 11 "c"]]
  /\ Server.root (Server.flattenMarginTables MarginSpec.nestedMarkerDoc)
     = Dom.Elem 0 "div" []
         [Dom.Elem 12 "p" []
            [Dom.Elem 15 "p" [] []; Dom.Elem 13 "br" [] [];
             Dom.Text 7 "a"; Dom.Text 14 " "; Dom.Text 9 "b"]]
  /\ ~ In (Dom.Text 11 "c")
       (Dom.descendants
          (Server.root (Server.flattenMarginTables MarginSpec.nestedMarkerDoc)))
  /\ Dom.textContent (Server.root MarginSpec.nestedMarkerDoc) = "abc"
  /\ Dom.textContent
       (Server.root (Server.flattenMarginTables MarginSpec.nestedMarkerDoc))
     = "a b".
Proof.
  split; [reflexivity|]. split; [reflexivity|]. split; [reflexivity|].
  split; [|split; reflexivity].
  vm_compute. intros [H|[H|[H|[H|[H|[H|[]]]]]]]; discriminate.
Qed.

End C1Examples.

(** ** Removing nodes and updating attributes *)

Section CleanFacts.
Context {platform : JsString.JsPlatform}.
Import JsString Dom Server DomSpec TableSpec FlattenSpec DocSpec CleanSpec.

Lemma in_ids_descendant (r k : node) :
  In k (descendants r) -> In (nodeId k) (ids r).
Proof. intro H. unfold ids, subtree. right. now apply in_map. Qed.

(** Rewriting keeps identities distinct when what replaces a node draws
    its identities from that node. *)
Lemma rewriteAt_NoDup i f (r : node) :
  NoDup (ids r) ->
  (forall k, In k (descendants r) -> nodeId k = i ->
     NoDup (idsF (f k)) /\ forall x, In x (idsF (f k)) -> In x (ids k)) ->
  NoDup (ids (rewriteAt i f r))
  /\ forall x, In x (ids (rewriteAt i f r)) -> In x (ids r).
Proof.
  intros ND Hf.
  destruct (in_dec Nat.eq_dec i (map nodeId (descendants r))) as [Hin|Hout];
    [|rewrite (rewriteAt_absent i f r Hout); now split].
  apply in_map_iff in Hin as [k [Ek Hk]].
  destruct (Hf k Hk Ek) as [NDf Hsub].
  rewrite ids_childNodes, rewriteAt_childNodes, rewriteAt_id.
  rewrite ids_childNodes in ND. rewrite descendants_childNodes in Hk.
  set (K := childNodes r) in *.
  assert (NoDup (idsF K)) as NDK by now inversion ND.
  destruct (rewriteIn_ids i f K k NDK Hk Ek) as [l1 [l2 [E1 E2]]].
  rewrite E2. rewrite E1 in ND. split.
  - change (NoDup ((nodeId r :: l1) ++ idsF (f k) ++ l2)).
    apply (NoDup_replace_block (nodeId r :: l1) (ids k) l2); [exact ND | exact NDf|].
    intros x Hx. left. now apply Hsub.
  - rewrite (ids_childNodes r). fold K. rewrite E1.
    intros x [<-|Hx]; [now left|]. right.
    apply in_app_or in Hx as [Hx|Hx]; [apply in_or_app; now left|].
    apply in_or_app. right.
    apply in_app_or in Hx as [Hx|Hx]; apply in_or_app; [left; now apply Hsub | now right].
Qed.

Lemma removeNode_ok i (r : node) :
  NoDup (ids r) ->
  NoDup (ids (removeNode i r))
  /\ (forall x, In x (ids (removeNode i r)) -> In x (ids r))
  /\ (forall k', In k' (descendants (removeNode i r)) ->
        exists k, In k (descendants r) /\ nodeId k <> i /\ sigOf k' = sigOf k).
Proof.
  intro ND. unfold removeNode.
  destruct (rewriteAt_NoDup i (fun _ => []) r ND) as [N1 N2].
  { intros k _ _. split; [constructor | intros x []]. }
  split; [exact N1|]. split; [exact N2|].
  intros k' Hk'. rewrite descendants_childNodes, rewriteAt_childNodes in Hk'.
  destruct (rewriteIn_nodes _ _ _ _ Hk') as [[k [Hk [Hne ->]]]|[k [_ [_ []]]]].
  exists k. split; [now rewrite descendants_childNodes|].
  split; [exact Hne | apply rewriteAt_sig].
Qed.

Lemma mapAttrs_ids g (k : node) : ids (mapAttrs g k) = ids k.
Proof. destruct k; reflexivity. Qed.

Lemma mapAttrs_id g (k : node) : nodeId (mapAttrs g k) = nodeId k.
Proof. destruct k; reflexivity. Qed.

Lemma mapAttrs_descendants g (k : node) : descendants (mapAttrs g k) = descendants k.
Proof. destruct k; reflexivity. Qed.

Lemma mapAttrs_tag g t (k : node) : hasTag t (mapAttrs g k) = hasTag t k.
Proof. destruct k; reflexivity. Qed.

Lemma descendant_id_ne (F : list node) (k k' : node) :
  NoDup (idsF F) -> In k (subtreesF F) -> In k' (descendants k) ->
  nodeId k' <> nodeId k.
Proof.
  intros ND Hk Hk' E.
  destruct (ids_block F k ND Hk) as [l1 [l2 EK]]. rewrite EK in ND.
  apply NoDup_app_parts in ND as [_ [ND _]].
  apply NoDup_app_parts in ND as [ND _].
  unfold ids, subtree in ND. simpl in ND. inversion ND as [|? ? Hx _]; subst.
  apply Hx. rewrite <- E. now apply in_map.
Qed.

Lemma updateAttrs_ok i g (r : node) :
  NoDup (ids r) ->
  NoDup (ids (updateAttrs i g r))
  /\ (forall x, In x (ids (updateAttrs i g r)) -> In x (ids r))
  /\ (forall k', In k' (descendants (updateAttrs i g r)) ->
        (exists k, In k (descendants r) /\ nodeId k <> i /\ sigOf k' = sigOf k)
        \/ (exists k, In k (descendants r) /\ nodeId k = i /\ k' = mapAttrs g k)
        \/ (In k' (descendants r) /\ nodeId k' <> i)).
Proof.
  intro ND. unfold updateAttrs.
  destruct (rewriteAt_NoDup i (fun k => [mapAttrs g k]) r ND) as [N1 N2].
  { intros k Hk _. rewrite idsF_single, mapAttrs_ids. split; [|auto].
    rewrite ids_childNodes in ND. inversion ND as [|? ? _ NDK]; subst.
    rewrite descendants_childNodes in Hk.
    destruct (ids_block _ k NDK Hk) as [l1 [l2 EK]]. rewrite EK in NDK.
    apply NoDup_app_parts in NDK as [_ [NDK _]].
    now apply NoDup_app_parts in NDK as [NDK _]. }
  split; [exact N1|]. split; [exact N2|].
  intros k' Hk'. rewrite descendants_childNodes, rewriteAt_childNodes in Hk'.
  destruct (rewriteIn_nodes _ _ _ _ Hk') as [[k [Hk [Hne ->]]]|[k [Hk [Ek H]]]].
  - left. exists k. split; [now rewrite descendants_childNodes|].
    split; [exact Hne | apply rewriteAt_sig].
  - rewrite subtreesF_single in H. destruct H as [<-|H].
    + right. left. exists k. split; [now rewrite descendants_childNodes|]. now split.
    + right. right. rewrite mapAttrs_descendants in H.
      rewrite ids_childNodes in ND. inversion ND as [|? ? _ NDK].
      split.
      * rewrite descendants_childNodes.
        now apply (subtreesF_descendants (childNodes r) k).
      * rewrite <- Ek. now apply (descendant_id_ne (childNodes r) k k').
Qed.

End CleanFacts.

(** ** The chapter pipeline *)

Section PipelineFacts.
Context {platform : JsString.JsPlatform}.
Import JsString Dom Server DomSpec TableSpec FlattenSpec DocSpec CleanSpec.

Lemma attrsOf_shape (x y : node) : shapeOf x = shapeOf y -> attrsOf x = attrsOf y.
Proof. destruct x, y; simpl; intro H; try discriminate; [reflexivity | now injection H]. Qed.

Lemma hasAttribute_shape name (x y : node) :
  shapeOf x = shapeOf y -> hasAttribute name x = hasAttribute name y.
Proof. intro H. unfold hasAttribute. now rewrite (attrsOf_shape x y H). Qed.

Lemma isStyleOrLink_shape (x y : node) :
  shapeOf x = shapeOf y -> isStyleOrLink x = isStyleOrLink y.
Proof.
  intro H. unfold isStyleOrLink.
  now rewrite (hasTag_shape "style" x y H), (hasTag_shape "link" x y H).
Qed.


(** A loop of [el.remove()] over the nodes that satisfy [p]. *)
Lemma remove_fold (p : node -> bool) :
  (forall x y, sigOf x = sigOf y -> p x = p y) ->
  forall (S : list nat) (r : node),
    NoDup (ids r) ->
    (forall k, In k (descendants r) -> p k = true -> In (nodeId k) S) ->
    let r' := fold_left (fun d i => removeNode i d) S r in
    NoDup (ids r')
    /\ (forall x, In x (ids r') -> In x (ids r))
    /\ (forall k', In k' (descendants r') ->
          p k' = false /\ exists k, In k (descendants r) /\ sigOf k' = sigOf k).
Proof.
  intros Hp S. induction S as [|i S IH]; intros r ND Hin; simpl.
  - split; [exact ND|]. split; [auto|]. intros k' Hk'. split.
    + destruct (p k') eqn:E; [elim (Hin k' Hk' E) | reflexivity].
    + now exists k'.
  - destruct (removeNode_ok i r ND) as [N1 [N2 N3]].
    destruct (IH (removeNode i r) N1) as [M1 [M2 M3]].
    { intros k' Hk' Pk'. destruct (N3 k' Hk') as [k [Hk [Hne Hs]]].
      rewrite (Hp _ _ Hs) in Pk'. destruct (Hin k Hk Pk') as [E|H].
      - elim Hne. now symmetry.
      - now rewrite (sigOf_id _ _ Hs). }
    split; [exact M1|]. split; [intros x Hx; apply N2, M2, Hx|].
    intros k' Hk'. destruct (M3 k' Hk') as [Pk' [k1 [Hk1 S1]]].
    split; [exact Pk'|]. destruct (N3 k1 Hk1) as [k [Hk [_ S0]]].
    exists k. split; [exact Hk | congruence].
Qed.

Lemma getAttribute_remove name m (a : list (string * string)) :
  getAttribute name (removeAttribute m a)
  = if String.eqb m name then None else getAttribute name a.
Proof.
  induction a as [|[k v] a IH]; simpl.
  - now destruct (String.eqb m name).
  - destruct (String.eqb k m) eqn:Ekm; simpl.
    + apply String.eqb_eq in Ekm. subst k. rewrite IH.
      destruct (String.eqb m name); reflexivity.
    + rewrite IH. destruct (String.eqb k name) eqn:Ekn; [|reflexivity].
      apply String.eqb_eq in Ekn. subst k.
      rewrite String.eqb_sym in Ekm. now rewrite Ekm.
Qed.

Lemma getAttribute_set name m v (a : list (string * string)) :
  getAttribute name (setAttribute m v a)
  = if String.eqb m name then Some v else getAttribute name a.
Proof.
  induction a as [|[k w] a IH]; simpl.
  - destruct (String.eqb m name); reflexivity.
  - destruct (String.eqb k m) eqn:Ekm; simpl.
    + apply String.eqb_eq in Ekm. subst k.
      destruct (String.eqb m name); reflexivity.
    + rewrite IH. destruct (String.eqb k name) eqn:Ekn; [|reflexivity].
      apply String.eqb_eq in Ekn. subst k.
      rewrite String.eqb_sym in Ekm. now rewrite Ekm.
Qed.


Lemma hasAttribute_elem name (k : node) : hasAttribute name k = true -> isElem k = true.
Proof. destruct k; [discriminate | reflexivity]. Qed.

Lemma mapAttrs_text g (k : node) : isElem k = false -> mapAttrs g k = k.
Proof. destruct k; [reflexivity | discriminate]. Qed.

(** The loop of [el.removeAttribute('style')]. *)
Lemma strip_style_fold (S : list nat) (r : node) :
  NoDup (ids r) ->
  (forall k, In k (descendants r) -> hasAttribute "style" k = true ->
     In (nodeId k) S) ->
  let r' := fold_left (fun d i => updateAttrs i (removeAttribute "style") d) S r in
  NoDup (ids r')
  /\ (forall x, In x (ids r') -> In x (ids r))
  /\ (forall k', In k' (descendants r') ->
        hasAttribute "style" k' = false
        /\ exists k, In k (descendants r) /\ forall t, hasTag t k' = hasTag t k).
Proof.
  revert r. induction S as [|i S IH]; intros r ND Hin; simpl.
  - split; [exact ND|]. split; [auto|]. intros k' Hk'. split.
    + destruct (hasAttribute "style" k') eqn:E; [elim (Hin k' Hk' E) | reflexivity].
    + now exists k'.
  - destruct (updateAttrs_ok i (removeAttribute "style") r ND) as [N1 [N2 N3]].
    assert (forall k', In k' (descendants (updateAttrs i (removeAttribute "style") r)) ->
              (hasAttribute "style" k' = true -> In (nodeId k') S)
              /\ exists k, In k (descendants r) /\ forall t, hasTag t k' = hasTag t k)
      as Hstep.
    { intros k' Hk'.
      destruct (N3 k' Hk') as [[k [Hk [Hne Hs]]]|[[k [Hk [Ek ->]]]|[Hk Hne]]].
      - split.
        + intro A. rewrite (hasAttribute_shape _ _ _ (sigOf_shape _ _ Hs)) in A.
          destruct (Hin k Hk A) as [E|H]; [elim Hne; now symmetry|].
          now rewrite (sigOf_id _ _ Hs).
        + exists k. split; [exact Hk|]. intro t.
          apply hasTag_shape, sigOf_shape, Hs.
      - split.
        + intro A. exfalso.
          pose proof (hasAttribute_elem _ _ A) as El.
          destruct k; [discriminate|]. unfold hasAttribute in A. simpl in A.
          rewrite getAttribute_remove, String.eqb_refl in A. discriminate.
        + exists k. split; [exact Hk|]. intro t. apply mapAttrs_tag.
      - split.
        + intro A. destruct (Hin k' Hk A) as [E|H]; [elim Hne; now symmetry | exact H].
        + now exists k'. }
    destruct (IH _ N1 (fun k' Hk' => proj1 (Hstep k' Hk'))) as [M1 [M2 M3]].
    split; [exact M1|]. split; [intros x Hx; apply N2, M2, Hx|].
    intros k' Hk'. destruct (M3 k' Hk') as [A [k1 [Hk1 T1]]].
    split; [exact A|]. destruct (Hstep k1 Hk1) as [_ [k [Hk T0]]].
    exists k. split; [exact Hk|]. intro t. now rewrite T1.
Qed.

(** The cleaner leaves no [style] or [link] element and no inline style. *)
Lemma stripLegacyStyling_clean (r : node) :
  NoDup (ids r) ->
  NoDup (ids (stripLegacyStyling r))
  /\ (forall x, In x (ids (stripLegacyStyling r)) -> In x (ids r))
  /\ cleanFragment (stripLegacyStyling r).
Proof.
  intro ND. unfold stripLegacyStyling.
  destruct (remove_fold isStyleOrLink
              (fun x y H => isStyleOrLink_shape x y (sigOf_shape _ _ H))
              (map nodeId (querySelectorAll isStyleOrLink r)) r ND)
    as [N1 [N2 N3]].
  { intros k Hk Pk. apply in_map. apply filter_In. now split. }
  set (r1 := fold_left (fun d i => removeNode i d)
               (map nodeId (querySelectorAll isStyleOrLink r)) r) in *.
  destruct (strip_style_fold (map nodeId (querySelectorAll (hasAttribute "style") r1))
              r1 N1) as [M1 [M2 M3]].
  { intros k Hk Pk. apply in_map. apply filter_In. now split. }
  split; [exact M1|]. split; [intros x Hx; apply N2, M2, Hx|].
  intros k' Hk'. destruct (M3 k' Hk') as [A [k1 [Hk1 T]]].
  split; [|exact A]. destruct (N3 k1 Hk1) as [P _].
  unfold isStyleOrLink in *. now rewrite !T.
Qed.


(** The table loop: identities stay distinct and every node is an old
    node, up to its children, or was made. *)
Lemma flatten_fold (S : list nat) (d : docState) :
  docOk d ->
  docOk (fold_left flattenTable S d)
  /\ fresh d <= fresh (fold_left flattenTable S d)
  /\ originOk (descendants (root d)) (fresh d) (fresh (fold_left flattenTable S d))
       (childNodes (root (fold_left flattenTable S d))).
Proof.
  revert d. induction S as [|tid S IH]; intros d Hd; simpl.
  - split; [exact Hd|]. split; [lia|]. intros k Hk. left. exists k.
    split; [now rewrite descendants_childNodes | reflexivity].
  - destruct (flattenTable_step d tid Hd) as [H1 [L1 O1]].
    destruct (IH _ H1) as [H2 [L2 O2]].
    split; [exact H2|]. split; [lia|].
    intros k Hk. destruct (O2 k Hk) as [[k1 [Hk1 S1]]|[Hs Hr]].
    + rewrite descendants_childNodes in Hk1.
      destruct (O1 k1 Hk1) as [[k0 [Hk0 S0]]|[Hs Hr]].
      * left. exists k0. split; [exact Hk0 | congruence].
      * right. split.
        -- rewrite <- (sigOf_shape _ _ S1). exact Hs.
        -- rewrite <- (sigOf_id _ _ S1). lia.
    + right. split; [exact Hs | lia].
Qed.



End PipelineFacts.

(** ** The normalized fragment *)

Section FragmentFacts.
Context {platform : JsString.JsPlatform}.
Import JsString Dom Server DomSpec TableSpec FlattenSpec DocSpec CleanSpec.

Variable resolveUrl : string -> string -> option string.





End FragmentFacts.

Section FragmentExamples.
#[local] Existing Instance JsString.asciiText.



End FragmentExamples.

(** ** Tables that lie apart *)

Section ApartFacts.
Context {platform : JsString.JsPlatform}.
Import JsString Dom Server DomSpec TableSpec FlattenSpec DocSpec IdemSpec DetectSpec.

(** A node outside the rewritten subtrees is in the rewritten forest, in
    its rewritten form. *)
Lemma rewriteIn_keeps i f (F : list node) (k : node) :
  In k (subtreesF F) ->
  (forall a, In a (subtreesF F) -> nodeId a = i -> ~ In k (subtree a)) ->
  In (rewriteAt i f k) (subtreesF (rewriteIn i f F)).
Proof.
  revert k.
  induction F as [|i' s F IH | j t a ks F IHk IHF] using forest_ind; intros k Hk Hout.
  - now elim Hk.
  - rewrite rewriteIn_cons, subtreesF_app. rewrite subtreesF_cons in Hk, Hout.
    simpl in Hk. destruct Hk as [<-|Hk].
    + apply in_or_app. left. cbn [nodeId].
      destruct (Nat.eqb_spec i' i) as [E|E].
      * elim (Hout (Text i' s)); [now left | exact E | now left].
      * now left.
    + apply in_or_app. right. apply IH; [exact Hk|].
      intros a0 Ha. apply Hout. now right.
  - rewrite rewriteIn_cons, subtreesF_app.
    rewrite subtreesF_cons, descendants_elem in Hk, Hout.
    assert (Elem j t a ks = k \/ In k (subtreesF ks) -> j <> i) as Hj.
    { intros Hin E. elim (Hout (Elem j t a ks)); [now left | exact E |].
      unfold subtree. rewrite descendants_elem.
      destruct Hin as [<-|Hin]; [now left | now right]. }
    destruct Hk as [<-|Hk]; [|apply in_app_or in Hk as [Hk|Hk]].
    + apply in_or_app. left. cbn [nodeId].
      destruct (Nat.eqb_spec j i) as [E|E]; [elim Hj; auto|].
      rewrite subtreesF_single. now left.
    + apply in_or_app. left. cbn [nodeId].
      destruct (Nat.eqb_spec j i) as [E|E]; [elim Hj; auto|].
      rewrite rewriteAt_elem, subtreesF_single. unfold subtree.
      rewrite descendants_elem. right. apply IHk; [exact Hk|].
      intros a0 Ha. apply Hout. right. apply in_or_app. now left.
    + apply in_or_app. right. apply IHF; [exact Hk|].
      intros a0 Ha. apply Hout. right. apply in_or_app. now right.
Qed.

Lemma findBelow_unique (r t : node) :
  NoDup (ids r) -> In t (descendants r) -> findBelow (nodeId t) r = Some t.
Proof.
  intros ND Ht. unfold findBelow.
  destruct (find _ _) as [x|] eqn:Ef.
  - apply find_some in Ef as [Hx Ex]. apply Nat.eqb_eq in Ex.
    rewrite ids_childNodes in ND. inversion ND as [|? ? _ NDK]; subst.
    rewrite descendants_childNodes in Hx, Ht.
    now rewrite (node_unique _ x t NDK Hx Ht Ex).
  - pose proof (find_none _ _ Ef t Ht) as E. simpl in E.
    now rewrite Nat.eqb_refl in E.
Qed.

(** A table that lies apart from the replaced one stays as it was. *)
Lemma replace_keeps (r : node) (tid : nat) (w : node) (table t' : node) :
  NoDup (ids r) ->
  In table (descendants r) -> nodeId table = tid ->
  In t' (descendants r) ->
  ~ In t' (subtree table) -> ~ In table (descendants t') ->
  In t' (descendants (replaceWith tid w r)).
Proof.
  intros ND Hin Eid Ht' Hout1 Hout2. unfold replaceWith.
  rewrite ids_childNodes in ND. inversion ND as [|? ? _ NDK]; subst.
  rewrite descendants_childNodes in Hin, Ht'.
  rewrite descendants_childNodes, rewriteAt_childNodes.
  set (K := childNodes r) in *.
  assert (rewriteAt (nodeId table) (fun _ => [w]) t' = t') as <-.
  { apply rewriteAt_absent. intro H. apply in_map_iff in H as [x [Ex Hx]].
    apply Hout2.
    assert (In x (subtreesF K)) as HxK
      by now apply (subtreesF_descendants K t').
    now rewrite <- (node_unique K x table NDK HxK Hin Ex). }
  apply rewriteIn_keeps; [exact Ht'|].
  intros a0 Ha Ea. now rewrite (node_unique K a0 table NDK Ha Hin Ea).
Qed.

End ApartFacts.

(** ** The flattener on its own output *)

Section IdemFacts.
Context {platform : JsString.JsPlatform}.
Import JsString Dom Server DomSpec TableSpec FlattenSpec DocSpec IdemSpec.

Lemma filter_nil {A} (p : A -> bool) (l : list A) :
  (forall x, In x l -> p x = false) -> filter p l = [].
Proof.
  induction l as [|x l IH]; intro H; [reflexivity|].
  simpl. rewrite (H x (or_introl eq_refl)). apply IH. intros y Hy. apply H. now right.
Qed.

Lemma forallb_false {A} (p : A -> bool) (l : list A) :
  forallb p l = false -> exists x, In x l /\ p x = false.
Proof.
  induction l as [|x l IH]; [discriminate|]. simpl.
  destruct (p x) eqn:E.
  - intro H. destruct (IH H) as [y [Hy Py]]. exists y. split; [now right | exact Py].
  - intros _. exists x. split; [now left | exact E].
Qed.

Lemma clearKids_id (k : node) : nodeId (clearKids k) = nodeId k.
Proof. now destruct k. Qed.

Lemma clearKids_descendants (k : node) : descendants (clearKids k) = [].
Proof. now destruct k. Qed.

Lemma descendants_trans (a b c : node) :
  In b (descendants a) -> In c (descendants b) -> In c (descendants a).
Proof.
  rewrite (descendants_childNodes a). intros Hb Hc.
  now apply (subtreesF_descendants (childNodes a) b c).
Qed.

(** Clearing a cell makes no row. *)
Lemma rewriteIn_clear_tag t m (F : list node) (k' : node) :
  In k' (subtreesF (rewriteIn m clear F)) -> hasTag t k' = true ->
  exists k, In k (subtreesF F) /\ hasTag t k = true.
Proof.
  intros Hk Tk. destruct (rewriteIn_nodes m clear F k' Hk)
    as [[k [Hin [_ ->]]]|[k [Hin [_ Hsub]]]].
  - exists k. split; [exact Hin|]. now rewrite hasTag_rewriteAt in Tk.
  - rewrite subtreesF_clear in Hsub. destruct Hsub as [<-|[]].
    exists k. split; [exact Hin|]. now rewrite hasTag_clearKids in Tk.
Qed.

Lemma trs_rewriteAt_clear m (k : node) :
  querySelectorAll (hasTag "tr") k = [] ->
  querySelectorAll (hasTag "tr") (rewriteAt m clear k) = [].
Proof.
  intro H. unfold querySelectorAll in *. apply filter_nil. intros x Hx.
  destruct (hasTag "tr" x) eqn:Tx; [|reflexivity]. exfalso.
  rewrite descendants_childNodes, rewriteAt_childNodes in Hx.
  destruct (rewriteIn_clear_tag "tr" m (childNodes k) x Hx Tx) as [y [Hy Ty]].
  rewrite <- descendants_childNodes in Hy.
  assert (In y (filter (hasTag "tr") (descendants k))) as Hf
    by (apply filter_In; now split).
  now rewrite H in Hf.
Qed.

Lemma rowless_clear Z m (F : list node) :
  rowless Z F -> rowless Z (rewriteIn m clear F).
Proof.
  intros H k' Hk Zk. destruct (rewriteIn_nodes m clear F k' Hk)
    as [[k [Hin [_ ->]]]|[k [Hin [_ Hsub]]]].
  - apply trs_rewriteAt_clear. apply (H k Hin). now rewrite rewriteAt_id in Zk.
  - rewrite subtreesF_clear in Hsub. destruct Hsub as [<-|[]].
    unfold querySelectorAll. now rewrite clearKids_descendants.
Qed.

Lemma rowless_app Z (A B : list node) :
  rowless Z (A ++ B) <-> rowless Z A /\ rowless Z B.
Proof.
  unfold rowless. split.
  - intro H. split; intros k Hk; apply H; rewrite subtreesF_app; apply in_or_app; auto.
  - intros [HA HB] k Hk. rewrite subtreesF_app in Hk.
    apply in_app_or in Hk as [Hk|Hk]; auto.
Qed.

Lemma rowless_cons Z (k : node) (F : list node) :
  rowless Z (k :: F) <-> rowless Z [k] /\ rowless Z F.
Proof. apply (rowless_app Z [k] F). Qed.

Lemma rowless_nil Z : rowless Z [].
Proof. intros k []. Qed.

Lemma rowless_children Z (F : list node) (k : node) :
  rowless Z F -> In k (subtreesF F) -> rowless Z (childNodes k).
Proof.
  intros H Hk x Hx. apply H. rewrite <- descendants_childNodes in Hx.
  now apply (subtreesF_descendants F k x).
Qed.

Lemma rowless_rewriteAt Z m (k : node) :
  rowless Z [k] -> rowless Z [rewriteAt m clear k].
Proof.
  intros H x Hx Zx. rewrite subtreesF_single in Hx. destruct Hx as [<-|Hx].
  - apply trs_rewriteAt_clear. apply H.
    + rewrite subtreesF_single. now left.
    + now rewrite rewriteAt_id in Zx.
  - rewrite descendants_childNodes, rewriteAt_childNodes in Hx.
    apply (rowless_clear Z m (childNodes k)); [|exact Hx | exact Zx].
    apply (rowless_children Z [k]); [exact H|]. rewrite subtreesF_single. now left.
Qed.

Lemma rowless_leaf Z (x : node) : childNodes x = [] -> rowless Z [x].
Proof.
  intros E k Hk _. rewrite subtreesF_single in Hk.
  unfold subtree in Hk. rewrite (descendants_childNodes x), E in Hk.
  destruct Hk as [<-|[]]. unfold querySelectorAll.
  now rewrite descendants_childNodes, E.
Qed.

(** A node without rows has none after an iteration of the row loop. *)
Lemma flattenRow_rowless Z (s : rowState) (rid idx : nat) :
  rowless Z (forest s) -> rowless Z (forest (flattenRow s rid idx)).
Proof.
  intro H. unfold flattenRow.
  destruct (findIn rid (forest s)) as [tr|] eqn:Ef; [|exact H].
  destruct (querySelectorAll (hasTag "td") tr) as [|mc [|cc0 rest]] eqn:Eq;
    [exact H | exact H |].
  cbv zeta. change (fun k : node => [clearKids k]) with clear.
  assert (In tr (subtreesF (forest s))) as Htr
    by (apply find_some in Ef as [Hin _]; exact Hin).
  assert (In mc (subtreesF (forest s))) as Hmc.
  { assert (In mc (querySelectorAll (hasTag "td") tr)) as Hq by (rewrite Eq; now left).
    apply filter_In in Hq as [Hq _]. now apply (subtreesF_descendants _ tr). }
  pose proof (rowless_children Z _ mc H Hmc) as Hmf.
  unfold forest in H. apply rowless_cons in H as [Ht H].
  apply rowless_app in H as [Hw Hl].
  set (m := nodeId mc). set (c := nodeId cc0).
  set (tbl1 := rewriteAt m clear (tbl s)).
  set (wr1 := rewriteIn m clear (wrapped s)).
  set (li1 := rewriteIn m clear (limbo s)).
  set (mf := childNodes mc) in *.
  assert (rowless Z [tbl1]) as Ht1 by now apply rowless_rewriteAt.
  assert (rowless Z wr1) as Hw1 by now apply rowless_clear.
  assert (rowless Z li1) as Hl1 by now apply rowless_clear.
  set (cf := match findIn c (tbl1 :: wr1 ++ li1 ++ mf) with
             | Some cc => childNodes cc
             | None => []
             end).
  assert (rowless Z cf) as Hcf.
  { unfold cf. destruct (findIn c (tbl1 :: wr1 ++ li1 ++ mf)) as [cc|] eqn:Ec;
      [|apply rowless_nil].
    apply find_some in Ec as [Hin _].
    apply (rowless_children Z (tbl1 :: wr1 ++ li1 ++ mf)); [|exact Hin].
    apply rowless_cons. split; [exact Ht1|].
    apply rowless_app. split; [exact Hw1|]. apply rowless_app. now split. }
  assert (rowless Z [rewriteAt c clear tbl1]) as Ht2 by now apply rowless_rewriteAt.
  assert (rowless Z (rewriteIn c clear wr1)) as Hw2 by now apply rowless_clear.
  assert (rowless Z (rewriteIn c clear li1)) as Hl2 by now apply rowless_clear.
  assert (rowless Z (rewriteIn c clear mf)) as Hmf2 by now apply rowless_clear.
  assert (forall i, rowless Z [Elem i "br" [] []]) as Hbr
    by (intro i; now apply rowless_leaf).
  assert (forall i t, rowless Z [Text i t]) as Htx
    by (intros i t; now apply rowless_leaf).
  destruct (idx =? 0); [destruct (negb _) | destruct (negb _)];
    unfold forest; cbn [tbl wrapped limbo];
    apply rowless_cons; (split; [exact Ht2|]);
    repeat (apply rowless_app; split); auto.
Qed.

Lemma flattenRows_rowless Z (rids : list nat) (s : rowState) (idx : nat) :
  rowless Z (forest s) -> rowless Z (forest (flattenRows s rids idx)).
Proof.
  revert s idx. induction rids as [|rid rest IH]; intros s idx H; [exact H|].
  cbn [flattenRows]. apply IH. now apply flattenRow_rowless.
Qed.

Lemma wrapper_rowless Z (d : docState) (table : node) :
  rowless Z [table] -> rowless Z (wrapped (rowsDone d table)).
Proof.
  intro H. unfold rowsDone.
  set (s0 := mkRow table [] [] (S (fresh d))).
  assert (rowless Z (forest s0)) as H0 by exact H.
  pose proof (flattenRows_rowless Z
                (map nodeId (querySelectorAll (hasTag "tr") table)) s0 0 H0) as Hf.
  unfold forest in Hf. apply rowless_cons in Hf as [_ Hf].
  now apply rowless_app in Hf as [Hf _].
Qed.

(** What it is to pass the test, and to fail it. *)
Lemma qualifies_true (t : node) :
  qualifies t = true ->
  querySelectorAll (hasTag "tr") t <> []
  /\ forall r, In r (descendants t) -> hasTag "tr" r = true -> twoCols r = true.
Proof.
  unfold qualifies. destruct (querySelectorAll (hasTag "tr") t) as [|r0 rs] eqn:E;
    [discriminate|].
  intro H. split; [discriminate|]. intros r Hr Tr.
  rewrite forallb_forall in H. apply H. rewrite <- E. apply filter_In. now split.
Qed.

Lemma qualifies_false (t : node) :
  qualifies t = false ->
  querySelectorAll (hasTag "tr") t = []
  \/ exists r, In r (descendants t) /\ hasTag "tr" r = true /\ twoCols r = false.
Proof.
  unfold qualifies. destruct (querySelectorAll (hasTag "tr") t) as [|r0 rs] eqn:E;
    [now left|].
  intro H. right. apply forallb_false in H as [r [Hr Tr]].
  rewrite <- E in Hr. apply filter_In in Hr as [Hr Tg]. now exists r.
Qed.

Lemma unqualified_row (t r : node) :
  In r (descendants t) -> hasTag "tr" r = true -> twoCols r = false ->
  qualifies t = false.
Proof.
  intros Hr Tr Hc. destruct (qualifies t) eqn:Q; [|reflexivity].
  apply qualifies_true in Q as [_ Q]. rewrite (Q r Hr Tr) in Hc. discriminate.
Qed.

Lemma unqualified_rowless (t : node) :
  querySelectorAll (hasTag "tr") t = [] -> qualifies t = false.
Proof. intro H. unfold qualifies. now rewrite H. Qed.

Lemma rewriteIn_root_hit i (w : node) (F : list node) :
  (exists ch, In ch F /\ nodeId ch = i) -> In w (rewriteIn i (fun _ => [w]) F).
Proof.
  induction F as [|n F IH]; intros [ch [Hin E]]; [now elim Hin|].
  rewrite rewriteIn_cons. apply in_or_app. destruct Hin as [->|Hin].
  - left. rewrite E, Nat.eqb_refl. now left.
  - right. apply IH. now exists ch.
Qed.

(** A row that has two cells after a node below it was replaced by a node
    that is no cell had them before. *)
Lemma twoCols_replace_back i (w x : node) :
  isElem w = true -> hasTag "td" w = false ->
  twoCols (rewriteAt i (fun _ => [w]) x) = true -> twoCols x = true.
Proof.
  intros Ew Tw H.
  destruct (existsb (fun ch => nodeId ch =? i) (childNodes x)) eqn:Ex.
  - exfalso. apply existsb_exists in Ex as [ch [Hin E]]. apply Nat.eqb_eq in E.
    assert (In w (children (rewriteAt i (fun _ => [w]) x))) as Hw.
    { unfold children. apply filter_In. split; [|exact Ew].
      rewrite rewriteAt_childNodes. apply rewriteIn_root_hit. now exists ch. }
    unfold twoCols in H.
    destruct (children (rewriteAt i (fun _ => [w]) x)) as [|c0 [|c1 [|c2 l]]];
      try discriminate.
    apply andb_true_iff in H as [H0 H1].
    destruct Hw as [<-|[<-|[]]]; congruence.
  - rewrite <- H. apply twoCols_shapes. unfold children.
    rewrite rewriteAt_childNodes, rewriteIn_roots_absent.
    + symmetry. apply map_rewriteAt_shapes.
    + intros ch Hin E.
      assert (existsb (fun ch => nodeId ch =? i) (childNodes x) = true) as C
        by (apply existsb_exists; exists ch; split; [exact Hin | now apply Nat.eqb_eq]).
      congruence.
Qed.

Lemma tr_not_table (x : node) :
  hasTag "tr" x = true -> hasTag "table" x = true -> False.
Proof.
  destruct x as [|j t a ks]; [discriminate|]. simpl. intros H1 H2.
  apply String.eqb_eq in H1, H2. congruence.
Qed.

(** One visit of the table loop keeps the invariant. *)
Lemma settled_step (d : docState) (tid : nat) (rest : list nat) :
  settled d (tid :: rest) -> settled (flattenTable d tid) rest.
Proof.
  intros [Hd [Hlt [Htab Hall]]].
  destruct (flattenTable_step d tid Hd) as [Hd' [Hle Hor']].
  split; [exact Hd'|]. split; [|split].
  { intros i Hi. specialize (Hlt i (or_intror Hi)). lia. }
  { intros k' Hk' Hi. rewrite descendants_childNodes in Hk'.
    destruct (Hor' k' Hk') as [[k0 [Hk0 S0]]|[_ Hm]].
    - rewrite <- (hasTag_shape "table" k0 k' (sigOf_shape _ _ S0)).
      apply Htab; [exact Hk0|]. right. now rewrite (sigOf_id _ _ S0).
    - specialize (Hlt _ (or_intror Hi)). lia. }
  destruct (findBelow tid (root d)) as [table|] eqn:Hf.
  2:{ rewrite (flattenTable_absent d tid Hf).
      intros t Ht. destruct (Hall t Ht) as [[E|Hi]|Hq]; auto.
      exfalso. apply filter_In in Ht as [Ht _].
      now apply (findBelow_none _ _ Hf t Ht). }
  destruct (findBelow_some _ _ _ Hf) as [Hin Eid].
  assert (NoDup (idsF (childNodes (root d)))) as NDK.
  { destruct Hd as [ND _]. rewrite ids_childNodes in ND. now inversion ND. }
  assert (forall x, In x (descendants (root d)) -> nodeId x = tid -> x = table) as Huniq.
  { intros x Hx Ex. rewrite descendants_childNodes in Hx, Hin.
    apply (node_unique _ x table NDK Hx Hin). congruence. }
  destruct (qualifies table) eqn:Hq.
  2:{ rewrite (flattenTable_unqualified d tid table Hf Hq).
      intros t Ht. destruct (Hall t Ht) as [[E|Hi]|Hq']; auto.
      right. apply filter_In in Ht as [Ht _].
      now rewrite (Huniq t Ht (eq_sym E)). }
  assert (hasTag "table" table = true) as Ttable
    by (apply Htab; [exact Hin | left; now symmetry]).
  destruct (qualifies_true table Hq) as [Hne Hrows].
  destruct (wrapper_explicit False d tid table Hd Hf Hq (fun F => match F with end))
    as [E [_ [Hor [_ [_ _]]]]].
  rewrite E. cbn [root].
  set (wk := wrapped (rowsDone d table)) in *.
  set (w := wrapperOf (fresh d) wk).
  intros t' Ht'. apply filter_In in Ht' as [Ht' Tt'].
  unfold replaceWith in Ht'. rewrite descendants_childNodes, rewriteAt_childNodes in Ht'.
  destruct (rewriteIn_nodes tid _ _ t' Ht') as [[t [Ht [Ne ->]]]|[k [Hk [Ek Hsub]]]].
  - (* a table outside the wrapper *)
    rewrite hasTag_rewriteAt in Tt'. rewrite rewriteAt_id.
    rewrite <- descendants_childNodes in Ht.
    assert (In t (tablesOf (root d))) as HtT by (apply filter_In; now split).
    destruct (Hall t HtT) as [[E1|Hi]|Hq']; [now elim Ne | now left |].
    right. destruct (qualifies_false t Hq') as [Hnil|[r [Hr [Tr Hc]]]].
    + rewrite rewriteAt_absent; [exact Hq'|].
      intro Hx. apply in_map_iff in Hx as [x [Ex Hx]].
      assert (x = table) as -> by (apply Huniq; [now apply (descendants_trans _ t) | exact Ex]).
      destruct (querySelectorAll (hasTag "tr") table) as [|r0 rs] eqn:Etr;
        [now elim Hne|].
      assert (In r0 (querySelectorAll (hasTag "tr") table)) as H0
        by (rewrite Etr; now left).
      apply filter_In in H0 as [H0 T0].
      assert (In r0 (querySelectorAll (hasTag "tr") t)) as H1
        by (apply filter_In; split; [now apply (descendants_trans _ table) | exact T0]).
      now rewrite Hnil in H1.
    + assert (~ In r (subtree table)) as Hout.
      { intros [<-|Hd0].
        - exact (tr_not_table _ Tr Ttable).
        - rewrite (Hrows r Hd0 Tr) in Hc. discriminate. }
      apply (unqualified_row _ (rewriteAt tid (fun _ => [w]) r)).
      * rewrite descendants_childNodes, rewriteAt_childNodes.
        apply rewriteIn_keeps; [now rewrite <- descendants_childNodes|].
        intros a Ha Ea. rewrite <- descendants_childNodes in Ha.
        now rewrite (Huniq a (descendants_trans _ t a Ht Ha) Ea).
      * now rewrite hasTag_rewriteAt.
      * destruct (twoCols (rewriteAt tid (fun _ => [w]) r)) eqn:E2; [|reflexivity].
        apply twoCols_replace_back in E2; [congruence | reflexivity | reflexivity].
  - (* a table in the wrapper *)
    unfold w in Hsub. rewrite subtreesF_wrapper in Hsub.
    destruct Hsub as [<-|Hsub]; [discriminate Tt'|].
    destruct (Hor t' Hsub) as [[k0 [Hk0 S0]]|Hmade].
    2:{ rewrite (madeNode_not_tag _ _ t' "table" Hmade) in Tt'; discriminate. }
    assert (hasTag "table" k0 = true) as Tk0
      by (now rewrite (hasTag_shape "table" k0 t' (sigOf_shape _ _ S0))).
    pose proof (sigOf_id _ _ S0) as Eid0.
    assert (In k0 (descendants (root d))) as Hk0r
      by now apply (descendants_trans _ table).
    assert (In k0 (tablesOf (root d))) as HkT by (apply filter_In; now split).
    destruct (Hall k0 HkT) as [[E1|Hi]|Hq'].
    + exfalso. rewrite descendants_childNodes in Hin.
      apply (descendant_id_ne _ table k0 NDK Hin Hk0). congruence.
    + left. congruence.
    + right. destruct (qualifies_false k0 Hq') as [Hnil|[r [Hr [Tr Hc]]]].
      * apply unqualified_rowless.
        apply (wrapper_rowless (fun i => i = nodeId k0) d table); [|exact Hsub|congruence].
        intros x Hx Ex. rewrite subtreesF_single in Hx.
        assert (In x (descendants (root d))) as Hxr.
        { destruct Hx as [<-|Hx]; [exact Hin | now apply (descendants_trans _ table)]. }
        rewrite descendants_childNodes in Hxr, Hk0r.
        now rewrite (node_unique _ x k0 NDK Hxr Hk0r Ex).
      * exfalso. rewrite (Hrows r (descendants_trans _ k0 r Hk0 Hr) Tr) in Hc.
        discriminate.
Qed.

Lemma settled_fold (rest : list nat) (d : docState) :
  settled d rest -> settled (fold_left flattenTable rest d) [].
Proof.
  revert d. induction rest as [|tid rest IH]; intros d H; [exact H|].
  cbn [fold_left]. apply IH. now apply settled_step.
Qed.

Lemma settled_start (d : docState) :
  docOk d -> settled d (map nodeId (tablesOf (root d))).
Proof.
  intros [ND Hb]. split; [now split|]. split; [|split].
  - intros i Hi. apply in_map_iff in Hi as [k [<- Hk]].
    apply filter_In in Hk as [Hk _]. apply Hb. unfold ids, subtree. right.
    now apply in_map.
  - intros k Hk Hi. apply in_map_iff in Hi as [t [E Hin]].
    apply filter_In in Hin as [Hin Tt].
    rewrite ids_childNodes in ND. inversion ND as [|? ? _ NDK]; subst.
    rewrite descendants_childNodes in Hk, Hin.
    now rewrite (node_unique _ k t NDK Hk Hin (eq_sym E)).
  - intros t Ht. left. now apply in_map.
Qed.

(** The flattener leaves a document alone when none of its tables passes
    the test. *)
Lemma unqualified_fixed (d : docState) :
  docOk d ->
  (forall t, In t (tablesOf (root d)) -> qualifies t = false) ->
  flattenMarginTables d = d.
Proof.
  intros [ND _] H. unfold flattenMarginTables. fold (tablesOf (root d)).
  assert (forall S, incl S (tablesOf (root d)) ->
            fold_left flattenTable (map nodeId S) d = d) as K.
  { induction S as [|t S IH]; intro Hs; [reflexivity|]. cbn [map fold_left].
    assert (In t (tablesOf (root d))) as Ht by (apply Hs; now left).
    pose proof Ht as Ht'. apply filter_In in Ht' as [Hin _].
    rewrite (flattenTable_unqualified d (nodeId t) t (findBelow_unique _ t ND Hin) (H t Ht)).
    apply IH. intros x Hx. apply Hs. now right. }
  apply K, incl_refl.
Qed.

(** C9 (amended). On every well-formed document, running the flattener on
    its own output changes nothing: every table that the first run leaves
    fails the flattener's test in the output, having no row or a row without
    exactly two cells.  The output contains no table when all tables of the
    document pass the test and each have a row of their own (one that lies
    neither in a cell nor in a nested table). *)
Theorem C9_flatten_idempotent (d : docState) :
  docOk d ->
  flattenMarginTables (flattenMarginTables d) = flattenMarginTables d
  /\ (forall t, In t (tablesOf (root (flattenMarginTables d))) -> qualifies t = false)
  /\ ((forall t, In t (tablesOf (root d)) -> qualifies t = true /\ ownsRow t = true) ->
      tablesOf (root (flattenMarginTables d)) = []).
Proof.
  intro Hd.
  pose proof (settled_fold _ d (settled_start d Hd)) as [Hd' [_ [_ Hall]]].
  fold (flattenMarginTables d) in Hd', Hall.
  assert (forall t, In t (tablesOf (root (flattenMarginTables d))) ->
            qualifies t = false) as Hfail.
  { intros t Ht. destruct (Hall t Ht) as [[]|Hq]. exact Hq. }
  split; [now apply unqualified_fixed|]. split; [exact Hfail|].
  intro Hq.
  pose proof (loopOk_fold _ d (loopOk_start d Hd Hq)) as [_ [_ [_ [_ Hl]]]].
  fold (tablesOf (root d)) in Hl. fold (flattenMarginTables d) in Hl.
  destruct (tablesOf (root (flattenMarginTables d))) as [|t l] eqn:Et; [reflexivity|].
  assert (In t (tablesOf (root (flattenMarginTables d)))) as Hin
    by (rewrite Et; now left).
  apply filter_In in Hin as [Hin Tt]. elim (Hl t Hin Tt).
Qed.

End IdemFacts.

Section LoopExamples.
#[local] Existing Instance JsString.asciiText.

(** C9, the claim as stated.  In the first document both tables pass the
    flattener's test, and the output still contains a table; in the second
    every row of the table has two cells (it has no row), and the output
    still contains the table. *)
Lemma C9_table_left_counterexample :
  ((forall t, In t (IdemSpec.tablesOf (Server.root IdemSpec.strayCellDoc)) ->
      TableSpec.qualifies t = true)
   /\ IdemSpec.tablesOf (Server.root (Server.flattenMarginTables IdemSpec.strayCellDoc))
      <> [])
  /\ ((forall t, In t (IdemSpec.tablesOf (Server.root DetectSpec.emptyTableDoc)) ->
         DetectSpec.everyRowTwoCells t = true)
      /\ IdemSpec.tablesOf
           (Server.root (Server.flattenMarginTables DetectSpec.emptyTableDoc))
         <> []).
Proof.
  split; split.
  - intros t [<-|[<-|[]]]; reflexivity.
  - vm_compute. discriminate.
  - intros t [<-|[]]; reflexivity.
  - vm_compute. discriminate.
Qed.

(** The amended statement at the document with a table whose only row lies
    in a stray cell: the first run leaves a table, the second changes
    nothing. *)
Lemma C9_flatten_idempotent_witness :
  Server.flattenMarginTables (Server.flattenMarginTables IdemSpec.strayCellDoc)
  = Server.flattenMarginTables IdemSpec.strayCellDoc.
Proof.
  apply (C9_flatten_idempotent IdemSpec.strayCellDoc).
  split; [vm_compute; repeat constructor; simpl; intuition lia|].
  intros i Hi. vm_compute in Hi. vm_compute. intuition lia.
Defined.

End LoopExamples.

(** ** Detection of margin tables *)

Section DetectFacts.
Context {platform : JsString.JsPlatform}.
Import JsString Dom Server DomSpec TableSpec FlattenSpec DocSpec IdemSpec DetectSpec.

Lemma NoDup_map_filter {A B} (g : A -> B) (p : A -> bool) (l : list A) :
  NoDup (map g l) -> NoDup (map g (filter p l)).
Proof.
  induction l as [|x l IH]; simpl; intro H; [constructor|].
  inversion H as [|? ? Hx Hl]; subst. destruct (p x); simpl; [|now apply IH].
  constructor; [|now apply IH].
  intro Hin. apply Hx. apply in_map_iff in Hin as [y [E Hy]].
  apply filter_In in Hy as [Hy _]. rewrite <- E. now apply in_map.
Qed.

Lemma NoDup_map_ne {A B} (g : A -> B) (l1 l2 : list A) (x y : A) :
  NoDup (map g (l1 ++ x :: l2)) -> In y (l1 ++ l2) -> g y <> g x.
Proof.
  rewrite map_app. simpl. intros ND Hy E.
  apply NoDup_remove_2 in ND. apply ND. rewrite <- E, <- map_app. now apply in_map.
Qed.

Lemma not_in_table_apart (t x : node) :
  tablesOf t = [] -> hasTag "table" x = true -> ~ In x (descendants t).
Proof.
  intros Ht Tx Hin.
  assert (In x (tablesOf t)) as H by (apply filter_In; now split).
  now rewrite Ht in H.
Qed.

(** One step of the table loop when tables lie apart. *)
Lemma apart_step (d : docState) (visited rest : list node) (t : node) :
  (forall x, In x (visited ++ t :: rest) ->
     hasTag "table" x = true /\ tablesOf x = []) ->
  NoDup (map nodeId (visited ++ t :: rest)) ->
  apartInv d visited (t :: rest) ->
  apartInv (flattenTable d (nodeId t)) (visited ++ [t]) rest.
Proof.
  intros Hst NDT [Hd [Hrest Hvis]].
  assert (keptIn (root d) t) as Ht by (apply Hrest; now left).
  unfold keptIn in Ht.
  pose proof Hd as [ND Hb].
  pose proof (findBelow_unique (root d) t ND Ht) as Hf.
  assert (nodeId t < fresh d) as Hlt by (apply Hb; now apply in_ids_descendant).
  assert (In t (visited ++ t :: rest)) as Hint by (apply in_or_app; right; now left).
  destruct (Hst t Hint) as [Tt At].
  destruct (qualifies t) eqn:Hq.
  - destruct (wrapper_facts False d (nodeId t) t Hd Hf Hq (fun F => match F with end))
      as [wk [n' [E [Hn' [Hor [NDw [Htid _]]]]]]].
    destruct (replace_doc (root d) (fresh d) n' (nodeId t) t wk ND Hb Hn' Ht eq_refl
                Hor NDw Htid) as [ND' [Hb' [Hor' Hne]]].
    assert (forall x, In x (visited ++ rest) -> keptIn (root d) x ->
              keptIn (replaceWith (nodeId t) (wrapperOf (fresh d) wk) (root d)) x) as Hkeep.
    { intros x Hx Kx. unfold keptIn in *.
      assert (In x (visited ++ t :: rest)) as Hx'.
      { apply in_app_or in Hx as [Hx|Hx]; apply in_or_app; [now left | right; now right]. }
      destruct (Hst x Hx') as [Tx Ax].
      apply (replace_keeps (root d) (nodeId t) _ t x ND Ht eq_refl Kx).
      - intros [Hin|Hin].
        + apply (NoDup_map_ne nodeId visited rest t x NDT Hx). now rewrite Hin.
        + now apply (not_in_table_apart t x At Tx).
      - now apply (not_in_table_apart x t Ax Tt). }
    rewrite E. unfold apartInv. cbn [root fresh].
    split; [now split|]. split.
    + intros x Hx. apply Hkeep; [apply in_or_app; now right | apply Hrest; now right].
    + intros x Hx. apply in_app_or in Hx as [Hx|[<-|[]]].
      * destruct (Hvis x Hx) as [Lx [Rx Kx]]. split; [lia|]. split.
        -- intros Qx k' Hk'. rewrite descendants_childNodes in Hk'.
           destruct (Hor' k' Hk') as [[k0 [Hk0 Hs]]|[_ Hr]].
           ++ rewrite <- (sigOf_id _ _ Hs). now apply Rx.
           ++ lia.
        -- intro Qx. apply Hkeep; [apply in_or_app; now left | now apply Kx].
      * split; [lia|]. split; [intros _; exact Hne | intro Q; congruence].
  - rewrite (flattenTable_unqualified d (nodeId t) t Hf Hq).
    split; [exact Hd|]. split.
    + intros x Hx. apply Hrest. now right.
    + intros x Hx. apply in_app_or in Hx as [Hx|[<-|[]]]; [now apply Hvis|].
      split; [exact Hlt|]. split; [intro Q; congruence | intros _; exact Ht].
Qed.

Lemma apart_fold (rest visited : list node) (d : docState) :
  (forall x, In x (visited ++ rest) -> hasTag "table" x = true /\ tablesOf x = []) ->
  NoDup (map nodeId (visited ++ rest)) ->
  apartInv d visited rest ->
  apartInv (fold_left flattenTable (map nodeId rest) d) (visited ++ rest) [].
Proof.
  revert visited d. induction rest as [|t rest IH]; intros visited d Hst NDT Hinv.
  - simpl. now rewrite app_nil_r.
  - simpl.
    replace (visited ++ t :: rest)%list with ((visited ++ [t]) ++ rest)%list in *
      by (rewrite <- app_assoc; reflexivity).
    apply IH; [exact Hst | exact NDT|].
    apply apart_step; [| |exact Hinv];
      rewrite <- app_assoc in *; simpl in *; assumption.
Qed.

(** C3 (amended). When the flattener visits a table, it replaces it by a
    paragraph if the table has at least one row and every row has exactly
    two element children, both [td], and otherwise leaves the document as it
    is.  In a document whose tables do not lie in one another, a table is
    replaced exactly when it passes this test, and every other table is in
    the output as it was: the same node with the same subtree. *)
Theorem C3_flatten_detection (d : docState) :
  docOk d ->
  (forall t, In t (descendants (root d)) ->
     (qualifies t = true ->
        exists wk,
          root (flattenTable d (nodeId t))
          = replaceWith (nodeId t) (wrapperOf (fresh d) wk) (root d)
          /\ replacedIn (root (flattenTable d (nodeId t))) t)
     /\ (qualifies t = false -> flattenTable d (nodeId t) = d))
  /\ (forall t, qualifies t = true <->
        querySelectorAll (hasTag "tr") t <> [] /\ everyRowTwoCells t = true)
  /\ (tablesApart (root d) ->
      forall t, In t (tablesOf (root d)) ->
        (qualifies t = true <-> replacedIn (root (flattenMarginTables d)) t)
        /\ (qualifies t = false <-> keptIn (root (flattenMarginTables d)) t)).
Proof.
  intro Hd. pose proof Hd as [ND Hb]. split; [|split].
  - intros t Ht. pose proof (findBelow_unique (root d) t ND Ht) as Hf. split.
    + intro Hq.
      destruct (wrapper_facts False d (nodeId t) t Hd Hf Hq (fun F => match F with end))
        as [wk [n' [E [Hn' [Hor [NDw [Htid _]]]]]]].
      destruct (replace_doc (root d) (fresh d) n' (nodeId t) t wk ND Hb Hn' Ht eq_refl
                  Hor NDw Htid) as [_ [_ [_ Hne]]].
      exists wk. rewrite E. cbn [root]. now split.
    + intro Hq. now apply (flattenTable_unqualified d (nodeId t) t).
  - intro t. unfold qualifies, everyRowTwoCells.
    destruct (querySelectorAll (hasTag "tr") t) as [|r rs].
    + split; [discriminate | intros [H _]; now elim H].
    + split; [intro H; split; [discriminate | exact H] | now intros [_ H]].
  - intros Hap.
    assert (apartInv (flattenMarginTables d) (tablesOf (root d)) []) as [_ [_ Hvis]].
    { unfold flattenMarginTables. fold (tablesOf (root d)).
      apply (apart_fold (tablesOf (root d)) [] d).
      - intros x Hx. split; [|now apply Hap].
        now apply filter_In in Hx as [_ Hx].
      - simpl. unfold tablesOf, querySelectorAll. apply NoDup_map_filter.
        unfold ids, subtree in ND. simpl in ND. now inversion ND.
      - split; [exact Hd|]. split; [|intros x []].
        intros x Hx. now apply filter_In in Hx as [Hx _]. }
    intros t Ht. destruct (Hvis t Ht) as [_ [R K]].
    assert (replacedIn (root (flattenMarginTables d)) t ->
            keptIn (root (flattenMarginTables d)) t -> False) as Hex.
    { intros Hr Hk. now apply (Hr t Hk). }
    destruct (qualifies t); split; split; auto; try discriminate; intro H; exfalso; auto.
Qed.

End DetectFacts.

Section DetectExamples.
#[local] Existing Instance JsString.asciiText.

(** C3, the claim as stated: every row of the table has two cells (it has
    no row), yet the flattener leaves the table, and the document, as they
    are. *)
Lemma C3_empty_table_counterexample :
  In (Dom.Elem 1 "table" [("class", "layout")]
        [Dom.Elem 2 "caption" [] [Dom.Text 3 "Plates"]])
     (IdemSpec.tablesOf (Server.root DetectSpec.emptyTableDoc))
  /\ DetectSpec.everyRowTwoCells
       (Dom.Elem 1 "table" [("class", "layout")]
          [Dom.Elem 2 "caption" [] [Dom.Text 3 "Plates"]]) = true
  /\ Server.flattenMarginTables DetectSpec.emptyTableDoc = DetectSpec.emptyTableDoc.
Proof.
  split; [now left|]. split; reflexivity.
Qed.

(** The amended statement at the table without rows. *)
Lemma C3_flatten_detection_witness :
  DetectSpec.keptIn
    (Server.root (Server.flattenMarginTables DetectSpec.emptyTableDoc))
    (Dom.Elem 1 "table" [("class", "layout")]
       [Dom.Elem 2 "caption" [] [Dom.Text 3 "Plates"]]).
Proof.
  assert (DocSpec.docOk DetectSpec.emptyTableDoc) as Hd.
  { split.
    - vm_compute. repeat constructor; simpl; intuition lia.
    - intros i Hi. vm_compute in Hi. vm_compute. intuition lia. }
  destruct (C3_flatten_detection DetectSpec.emptyTableDoc Hd) as [_ [_ H]].
  apply H.
  - intros t [<-|[]]. reflexivity.
  - now left.
  - reflexivity.
Defined.

End DetectExamples.

(** ** The flowing block of a plain table *)

Section PlainFacts.
Context {platform : JsString.JsPlatform}.
Import JsString Dom Server DomSpec TableSpec FlattenSpec DocSpec MarginSpec.

Lemma idsF_forest (s : rowState) :
  idsF (forest s) = nodeId (tbl s) :: idsF (inner s).
Proof.
  unfold forest, inner. rewrite (idsF_app (childNodes (tbl s))).
  change (idsF (tbl s :: wrapped s ++ limbo s))
    with (ids (tbl s) ++ idsF (wrapped s ++ limbo s))%list.
  now rewrite ids_childNodes.
Qed.

Lemma findIn_unique (F : list node) (k : node) :
  NoDup (idsF F) -> In k (subtreesF F) -> findIn (nodeId k) F = Some k.
Proof.
  intros ND Hk. unfold findIn. fold (subtreesF F).
  destruct (find _ _) as [x|] eqn:Ef.
  - apply find_some in Ef as [Hx Ex]. apply Nat.eqb_eq in Ex.
    now rewrite (node_unique F x k ND Hx Hk Ex).
  - pose proof (find_none _ _ Ef k Hk) as E. simpl in E.
    now rewrite Nat.eqb_refl in E.
Qed.

Lemma NoDup_app_disjoint {A} (l1 l2 : list A) (x : A) :
  NoDup (l1 ++ l2) -> In x l1 -> In x l2 -> False.
Proof.
  intros ND H1 H2. destruct (NoDup_app_parts _ _ ND) as [_ [_ D]]. now apply (D x).
Qed.

Lemma in_ids_subtree (k x : node) : In x (subtree k) -> In (nodeId x) (ids k).
Proof. intro H. unfold ids. now apply in_map. Qed.

Lemma ids_sub_descendant (k x : node) i :
  In x (descendants k) -> In i (ids x) -> In i (ids k).
Proof.
  intros Hx Hi. unfold ids in *. apply in_map_iff in Hi as [y [<- Hy]].
  apply in_map. destruct Hy as [<-|Hy]; [now right|]. right.
  rewrite (descendants_childNodes k).
  apply (subtreesF_descendants (childNodes k) x); [|exact Hy].
  now rewrite <- descendants_childNodes.
Qed.

(** One iteration of the row loop on a plain row that is in the table as it
    was: the block of the spec is appended to the wrapper. *)
Lemma flattenRow_plain (tid : nat) (s : rowState) (tr mc cc : node) (idx : nat) :
  nodeId (tbl s) = tid -> forestOk False tid (nextId s) (inner s) ->
  In tr (descendants (tbl s)) ->
  querySelectorAll (hasTag "td") tr = [mc; cc] ->
  querySelectorAll (hasTag "td") mc = [] ->
  querySelectorAll (hasTag "td") cc = [] ->
  tbl (flattenRow s (nodeId tr) idx)
  = rewriteAt (nodeId cc) clear (rewriteAt (nodeId mc) clear (tbl s))
  /\ wrapped (flattenRow s (nodeId tr) idx)
     = (wrapped s ++ fst (rowBlock idx (nextId s) mc cc))%list
  /\ nextId (flattenRow s (nodeId tr) idx) = snd (rowBlock idx (nextId s) mc cc).
Proof.
  intros Eid [ND [Hb _]] Htr Eq Em Ec.
  set (G := inner s) in *.
  assert (NoDup (idsF G)) as NDG by now inversion ND.
  assert (~ In tid (idsF G)) as Htid by now inversion ND.
  assert (forall x, In x (descendants (tbl s)) -> In x (subtreesF G)) as HinG.
  { intros x Hx. unfold G, inner. rewrite subtreesF_app. apply in_or_app. left.
    now rewrite <- descendants_childNodes. }
  assert (forall x, In x (querySelectorAll (hasTag "td") tr) ->
            In x (descendants (tbl s)) /\ hasTag "td" x = true) as Hcell.
  { intros x Hx. apply filter_In in Hx as [Hx Tx]. split; [|exact Tx].
    rewrite (descendants_childNodes (tbl s)).
    apply (subtreesF_descendants (childNodes (tbl s)) tr); [|exact Hx].
    now rewrite <- descendants_childNodes. }
  destruct (Hcell mc) as [Hmc Tmc]; [rewrite Eq; now left|].
  destruct (Hcell cc) as [Hcc Tcc]; [rewrite Eq; right; now left|].
  set (m := nodeId mc). set (c := nodeId cc).
  (* the two cells are different nodes, and neither lies in the other *)
  assert (~ In cc (descendants mc)) as Hcm.
  { intro H. assert (In cc (querySelectorAll (hasTag "td") mc)) as H'
      by (apply filter_In; now split). now rewrite Em in H'. }
  assert (~ In mc (descendants cc)) as Hmc'.
  { intro H. assert (In mc (querySelectorAll (hasTag "td") cc)) as H'
      by (apply filter_In; now split). now rewrite Ec in H'. }
  assert (m <> c) as Hmcne.
  { intro E. assert (mc = cc) as E' by now apply (node_unique G); auto.
    assert (NoDup (map nodeId (querySelectorAll (hasTag "td") tr))) as N.
    { unfold querySelectorAll. apply NoDup_map_filter.
      destruct (ids_block G tr NDG (HinG tr Htr)) as [l1 [l2 EK]]. rewrite EK in NDG.
      apply NoDup_app_parts in NDG as [_ [NDG _]].
      apply NoDup_app_parts in NDG as [NDG _].
      unfold ids, subtree in NDG. simpl in NDG. now inversion NDG. }
    rewrite Eq, E' in N. simpl in N. inversion N as [|? ? Hx _]. apply Hx. now left. }
  (* what the wrapper and the discarded fragments hold is out of reach *)
  assert (forall x, In x (descendants (tbl s)) ->
            ~ In (nodeId x) (idsF (wrapped s)) /\ ~ In (nodeId x) (idsF (limbo s))) as Hout.
  { intros x Hx. unfold G, inner in NDG. rewrite idsF_app in NDG.
    assert (In (nodeId x) (idsF (childNodes (tbl s)))) as Hi.
    { rewrite idsF_subtreesF, <- descendants_childNodes. now apply in_map. }
    rewrite idsF_app in NDG. split; intro H;
      apply (NoDup_app_disjoint _ _ (nodeId x) NDG Hi); apply in_or_app; auto. }
  destruct (Hout mc Hmc) as [Hmw Hml]. destruct (Hout cc Hcc) as [Hcw Hcl].
  assert (rewriteIn c clear (childNodes mc) = childNodes mc) as Emf.
  { apply rewriteIn_absent. rewrite idsF_subtreesF, <- descendants_childNodes.
    intro H. apply in_map_iff in H as [x [Ex Hx]]. apply Hcm.
    assert (In x (subtreesF G)) as HxG
      by now apply (subtreesF_descendants G mc); auto.
    now rewrite <- (node_unique G x cc NDG HxG (HinG cc Hcc) Ex). }
  (* the content cell is found as it was *)
  destruct (take_cell G m mc NDG (cellAt_unique G mc NDG (HinG mc Hmc) Tmc)
              (HinG mc Hmc) eq_refl) as [P1 _].
  assert (rewriteIn m clear G
          = (childNodes (rewriteAt m clear (tbl s)) ++ wrapped s ++ limbo s)%list) as E1.
  { unfold G, inner. rewrite !rewriteIn_app, rewriteAt_childNodes.
    now rewrite (rewriteIn_absent m clear (wrapped s) Hmw),
      (rewriteIn_absent m clear (limbo s) Hml). }
  assert (findIn c (rewriteAt m clear (tbl s)
                      :: wrapped s ++ limbo s ++ childNodes mc) = Some cc) as Efind.
  { apply (findIn_unique _ cc).
    - change (NoDup (ids (rewriteAt m clear (tbl s))
                       ++ idsF (wrapped s ++ limbo s ++ childNodes mc))).
      rewrite ids_childNodes, rewriteAt_id, Eid. simpl.
      rewrite <- idsF_app.
      replace (childNodes (rewriteAt m clear (tbl s))
                 ++ wrapped s ++ limbo s ++ childNodes mc)%list
        with (rewriteIn m clear G ++ childNodes mc)%list
        by (rewrite E1, <- !app_assoc; reflexivity).
      constructor.
      + intro H. apply Htid. apply (Permutation_in _ P1 H).
      + apply (Permutation_NoDup (Permutation_sym P1) NDG).
    - change (In cc (subtree (rewriteAt m clear (tbl s))
                       ++ subtreesF (wrapped s ++ limbo s ++ childNodes mc))).
      apply in_or_app. left. right.
      rewrite descendants_childNodes, rewriteAt_childNodes.
      assert (rewriteAt m clear cc = cc) as <-.
      { apply rewriteAt_absent. intro H. apply in_map_iff in H as [x [Ex Hx]].
        apply Hmc'.
        assert (In x (subtreesF G)) as HxG
          by now apply (subtreesF_descendants G cc); auto.
        now rewrite <- (node_unique G x mc NDG HxG (HinG mc Hmc) Ex). }
      apply rewriteIn_keeps; [now rewrite <- descendants_childNodes|].
      intros a Ha Ea.
      assert (In a (subtreesF G)) as HaG.
      { apply HinG. now rewrite descendants_childNodes. }
      rewrite (node_unique G a mc NDG HaG (HinG mc Hmc) Ea).
      intros [H|H]; [|contradiction]. apply Hmcne. unfold m, c. now rewrite H. }
  (* the computation *)
  unfold flattenRow.
  assert (findIn (nodeId tr) (forest s) = Some tr) as ->.
  { apply findIn_unique.
    - now rewrite idsF_forest, Eid.
    - unfold subtreesF. rewrite forest_nodes. right. now apply HinG. }
  rewrite Eq. cbv zeta. change (fun k : node => [clearKids k]) with clear.
  fold m c.
  rewrite (rewriteIn_absent m clear (wrapped s) Hmw),
    (rewriteIn_absent m clear (limbo s) Hml),
    (rewriteIn_absent c clear (wrapped s) Hcw),
    (rewriteIn_absent c clear (limbo s) Hcl), Emf, Efind.
  unfold rowBlock.
  destruct (idx =? 0); destruct (negb (isEmpty (trim (textContent mc))));
    cbn [tbl wrapped nextId fst snd]; repeat split.
Qed.

(** The cells of a plain row are two different nodes, neither inside the
    other. *)
Lemma plain_cells (G : list node) (tr mc cc : node) :
  NoDup (idsF G) -> In tr (subtreesF G) ->
  querySelectorAll (hasTag "td") tr = [mc; cc] ->
  querySelectorAll (hasTag "td") mc = [] ->
  querySelectorAll (hasTag "td") cc = [] ->
  In mc (descendants tr) /\ In cc (descendants tr)
  /\ nodeId mc <> nodeId cc
  /\ ~ In (nodeId mc) (map nodeId (descendants cc))
  /\ ~ In (nodeId cc) (map nodeId (descendants mc)).
Proof.
  intros NDG Htr Eq Em Ec.
  assert (forall x, In x (querySelectorAll (hasTag "td") tr) ->
            In x (descendants tr) /\ hasTag "td" x = true) as Hcell.
  { intros x Hx. now apply filter_In in Hx. }
  destruct (Hcell mc) as [Hmc Tmc]; [rewrite Eq; now left|].
  destruct (Hcell cc) as [Hcc Tcc]; [rewrite Eq; right; now left|].
  assert (In mc (subtreesF G)) as HmG by now apply (subtreesF_descendants G tr).
  assert (In cc (subtreesF G)) as HcG by now apply (subtreesF_descendants G tr).
  split; [exact Hmc|]. split; [exact Hcc|]. split; [|split].
  - intro E. assert (mc = cc) as E' by now apply (node_unique G).
    assert (NoDup (map nodeId (querySelectorAll (hasTag "td") tr))) as N.
    { unfold querySelectorAll. apply NoDup_map_filter.
      destruct (ids_block G tr NDG Htr) as [l1 [l2 EK]]. rewrite EK in NDG.
      apply NoDup_app_parts in NDG as [_ [NDG _]].
      apply NoDup_app_parts in NDG as [NDG _].
      unfold ids, subtree in NDG. simpl in NDG. now inversion NDG. }
    rewrite Eq, E' in N. simpl in N. inversion N as [|? ? Hx _]. apply Hx. now left.
  - intro H. apply in_map_iff in H as [x [Ex Hx]].
    assert (In x (subtreesF G)) as HxG by now apply (subtreesF_descendants G cc).
    rewrite (node_unique G x mc NDG HxG HmG Ex) in Hx.
    assert (In mc (querySelectorAll (hasTag "td") cc)) as H'
      by (apply filter_In; now split). now rewrite Ec in H'.
  - intro H. apply in_map_iff in H as [x [Ex Hx]].
    assert (In x (subtreesF G)) as HxG by now apply (subtreesF_descendants G mc).
    rewrite (node_unique G x cc NDG HxG HcG Ex) in Hx.
    assert (In cc (querySelectorAll (hasTag "td") mc)) as H'
      by (apply filter_In; now split). now rewrite Em in H'.
Qed.

(** A node apart from a plain row is still in the table once the cells of
    the row are emptied. *)
Lemma plain_row_keeps (K : list node) (tr mc cc x : node) :
  NoDup (idsF K) -> In tr (subtreesF K) -> In x (subtreesF K) ->
  querySelectorAll (hasTag "td") tr = [mc; cc] ->
  querySelectorAll (hasTag "td") mc = [] ->
  querySelectorAll (hasTag "td") cc = [] ->
  (forall i, In i (ids tr) -> In i (ids x) -> False) ->
  In x (subtreesF (rewriteIn (nodeId cc) clear (rewriteIn (nodeId mc) clear K))).
Proof.
  intros NDK Htr Hx Eq Em Ec D.
  destruct (plain_cells K tr mc cc NDK Htr Eq Em Ec) as [Hmc [Hcc [Hne [Hm Hc]]]].
  assert (In mc (subtreesF K)) as HmK by now apply (subtreesF_descendants K tr).
  assert (In cc (subtreesF K)) as HcK by now apply (subtreesF_descendants K tr).
  assert (forall y, In y (descendants tr) -> ~ In x (subtree y)) as Hout.
  { intros y Hy H. apply (D (nodeId x)).
    - apply (ids_sub_descendant tr y); [exact Hy | now apply in_ids_subtree].
    - unfold ids, subtree. now left. }
  assert (forall y, In y (descendants tr) ->
            ~ In (nodeId y) (map nodeId (descendants x))) as Hin.
  { intros y Hy H. apply (D (nodeId y)).
    - apply (ids_sub_descendant tr y); [exact Hy|]. unfold ids, subtree. now left.
    - unfold ids, subtree. now right. }
  assert (rewriteAt (nodeId mc) clear x = x) as E1
    by (apply rewriteAt_absent; now apply Hin).
  assert (rewriteAt (nodeId cc) clear x = x) as E2
    by (apply rewriteAt_absent; now apply Hin).
  rewrite <- E2. apply rewriteIn_keeps.
  - rewrite <- E1. apply rewriteIn_keeps; [exact Hx|].
    intros a Ha Ea. rewrite (node_unique K a mc NDK Ha HmK Ea). now apply Hout.
  - intros a Ha Ea.
    destruct (rewriteIn_nodes _ _ _ _ Ha) as [[k [Hk [_ ->]]]|[k [Hk [Ek Hak]]]].
    + rewrite rewriteAt_id in Ea. rewrite (node_unique K k cc NDK Hk HcK Ea).
      rewrite (rewriteAt_absent _ _ _ Hm). now apply Hout.
    + rewrite subtreesF_clear in Hak. destruct Hak as [<-|[]].
      exfalso. apply Hne. rewrite <- Ek, <- Ea. now destruct k.
Qed.

(** The row loop on plain rows that are apart from one another: the wrapper
    receives the block of the spec. *)
Lemma flattenRows_plain (tid : nat) (rows : list node) :
  forall (s : rowState) (idx : nat),
  nodeId (tbl s) = tid -> forestOk False tid (nextId s) (inner s) ->
  (forall tr, In tr rows -> In tr (descendants (tbl s)) /\ plainRow tr) ->
  NoDup (idsF rows) ->
  wrapped (flattenRows s (map nodeId rows) idx)
  = (wrapped s ++ fst (tableBlock rows idx (nextId s)))%list
  /\ nextId (flattenRows s (map nodeId rows) idx)
     = snd (tableBlock rows idx (nextId s)).
Proof.
  induction rows as [|tr rows IH]; intros s idx Eid Hok Hrows ND.
  - simpl. now rewrite app_nil_r.
  - destruct (Hrows tr (or_introl eq_refl)) as [Htr [mc [cc [Ech [Eq [Em Ec]]]]]].
    destruct (flattenRow_plain tid s tr mc cc idx Eid Hok Htr Eq Em Ec)
      as [Et [Ew En]].
    destruct (flattenRow_inv False tid s (nodeId tr) idx Eid Hok) as [Eid' [Hok' _]].
    cbn [map flattenRows tableBlock]. rewrite Ech.
    set (s' := flattenRow s (nodeId tr) idx) in *.
    change (idsF (tr :: rows)) with (ids tr ++ idsF rows)%list in ND.
    destruct (NoDup_app_parts _ _ ND) as [_ [ND' D]].
    destruct (IH s' (S idx) Eid' Hok') as [IHw IHn]; [|exact ND'|].
    + intros tr' Hin. destruct (Hrows tr' (or_intror Hin)) as [Htr' Hp].
      split; [|exact Hp]. rewrite Et.
      rewrite descendants_childNodes, !rewriteAt_childNodes.
      destruct Hok as [NDs _]. inversion NDs as [|? ? _ NDi]; subst.
      unfold inner in NDi. rewrite idsF_app in NDi.
      apply NoDup_app_parts in NDi as [NDK _].
      rewrite descendants_childNodes in Htr, Htr'.
      apply (plain_row_keeps _ tr mc cc tr' NDK Htr Htr' Eq Em Ec).
      intros i Hi Hi'. apply (D i Hi). unfold idsF. apply in_flat_map.
      now exists tr'.
    + rewrite IHw, IHn, Ew, En. cbn [fst snd]. now rewrite app_assoc.
Qed.

(** X26: on a table of plain rows that are apart from one another the
    flattener puts in the table's place a paragraph that holds, row after
    row, the marker content, a line break and the content for a first row
    with a marker, the content alone for a first row without one, a line
    break, the marker content, a line break and the content for a later row
    with a marker, and a space and the content for a later row without one;
    the block is made of the child nodes of the cells themselves. *)
Lemma plain_table_block (d : docState) (t : node) :
  docOk d -> In t (descendants (root d)) -> qualifies t = true ->
  (forall tr, In tr (querySelectorAll (hasTag "tr") t) -> plainRow tr) ->
  NoDup (idsF (querySelectorAll (hasTag "tr") t)) ->
  flattenTable d (nodeId t)
  = mkDoc
      (replaceWith (nodeId t)
         (wrapperOf (fresh d)
            (fst (tableBlock (querySelectorAll (hasTag "tr") t) 0 (S (fresh d)))))
         (root d))
      (snd (tableBlock (querySelectorAll (hasTag "tr") t) 0 (S (fresh d)))).
Proof.
  intros [ND Hb] Ht Hq Hplain NDr.
  unfold flattenTable. rewrite (findBelow_unique _ _ ND Ht).
  unfold qualifies in Hq.
  destruct (querySelectorAll (hasTag "tr") t) as [|r0 rs] eqn:Etr; [discriminate|].
  rewrite Hq. cbn [negb].
  set (w := fresh d) in *.
  set (s0 := mkRow t [] [] (S w)).
  assert (inner s0 = childNodes t) as E0.
  { unfold inner, s0. cbn [tbl wrapped limbo]. now rewrite app_nil_r. }
  rewrite ids_childNodes in ND, Hb.
  rewrite descendants_childNodes in Ht.
  assert (NoDup (idsF (childNodes (root d)))) as NDK by now inversion ND.
  destruct (ids_block _ t NDK Ht) as [l1 [l2 EK]].
  assert (NoDup (ids t)) as NDT.
  { rewrite EK in NDK. apply NoDup_app_parts in NDK as [_ [NDK _]].
    now apply NoDup_app_parts in NDK as [NDK _]. }
  assert (forall i, In i (ids t) -> i < w) as HbT.
  { intros i Hi. apply Hb. right. rewrite EK. apply in_or_app. right.
    apply in_or_app. now left. }
  assert (forestOk False (nodeId t) (nextId s0) (inner s0)) as Hok0.
  { rewrite E0. rewrite ids_childNodes in NDT, HbT.
    split; [exact NDT|]. split; [|intros []].
    intros i Hi. specialize (HbT i Hi). unfold s0. cbn [nextId]. lia. }
  destruct (flattenRows_plain (nodeId t) (r0 :: rs) s0 0 eq_refl Hok0) as [Ew En].
  - intros tr Hin. split; [|now apply Hplain].
    rewrite <- Etr in Hin. now apply filter_In in Hin.
  - exact NDr.
  - rewrite Ew, En. reflexivity.
Qed.

End PlainFacts.

Section PlainExamples.
#[local] Existing Instance JsString.asciiText.
Import JsString Dom Server DomSpec TableSpec FlattenSpec DocSpec MarginSpec.

(** The block of a table whose first row has a marker and whose second has
    none: marker, line break, content, a space, content. *)
Lemma plain_table_block_example :
  root (flattenMarginTables plainDoc)
  = Elem 0 "div" []
      [Elem 12 "p" []
         [Text 4 "1.01"; Elem 13 "br" [] []; Text 6 "first";
          Text 14 " "; Text 11 "second"]].
Proof. vm_compute. reflexivity. Qed.

End PlainExamples.

(** ** Chapter lookup and the handlers *)

Section HandlerFacts.
Context {platform : JsString.JsPlatform}.
Import JsString Dom Catalog CatalogSpec RefSpec Server Handlers HandlerSpec.

Lemma NoDup_map_eq {A B} (f : A -> B) (l : list A) (a b : A) :
  NoDup (map f l) -> In a l -> In b l -> f a = f b -> a = b.
Proof.
  induction l as [|x l IH]; intros ND Ha Hb E; [now elim Ha|].
  simpl in ND. inversion ND as [|? ? Hx ND']; subst.
  destruct Ha as [<-|Ha], Hb as [<-|Hb]; auto.
  - exfalso. apply Hx. rewrite E. now apply in_map.
  - exfalso. apply Hx. rewrite <- E. now apply in_map.
Qed.

Lemma chapter_ids_NoDup : NoDup (map Catalog.id CHAPTERS).
Proof. apply nodupb_NoDup. vm_compute. reflexivity. Qed.

Lemma getChapter_some (i : string) (ch : chapter) :
  getChapter i = Some ch -> In ch CHAPTERS /\ Catalog.id ch = i.
Proof.
  unfold getChapter. intro H. apply find_some in H as [Hin E].
  split; [exact Hin | now apply String.eqb_eq].
Qed.

Lemma getChapter_found (ch : chapter) :
  In ch CHAPTERS -> getChapter (Catalog.id ch) = Some ch.
Proof.
  intro Hin. unfold getChapter.
  destruct (find _ CHAPTERS) as [ch'|] eqn:Ef.
  - apply find_some in Ef as [Hin' E']. apply String.eqb_eq in E'.
    f_equal. apply (NoDup_map_eq Catalog.id CHAPTERS); auto.
    exact chapter_ids_NoDup.
  - pose proof (find_none _ _ Ef ch Hin) as N. simpl in N.
    now rewrite String.eqb_refl in N.
Qed.

Lemma getChapter_none (i : string) :
  getChapter i = None <-> forall ch, In ch CHAPTERS -> Catalog.id ch <> i.
Proof.
  split.
  - intros H ch Hin E. rewrite <- E, (getChapter_found ch Hin) in H. discriminate.
  - intro H. destruct (getChapter i) as [ch|] eqn:E; [|reflexivity].
    apply getChapter_some in E as [Hin E]. now elim (H ch Hin).
Qed.

(** X1: [getChapter] finds a descriptor exactly when the catalog holds one
    with the requested id, and then it is that descriptor; every id that
    [GET /api/chapters] lists is found. *)
Theorem X1_getChapter_lookup :
  (forall i ch, getChapter i = Some ch <-> In ch CHAPTERS /\ Catalog.id ch = i)
  /\ (forall m, In m chaptersHandler ->
        exists ch, getChapter (Client.id m) = Some ch
                   /\ Catalog.title ch = Client.title m
                   /\ Catalog.textUrl ch = Client.textUrl m).
Proof.
  split.
  - intros i ch. split; [apply getChapter_some|].
    intros [Hin <-]. now apply getChapter_found.
  - intros m Hm. unfold chaptersHandler in Hm.
    apply in_map_iff in Hm as [ch [<- Hin]]. exists ch. simpl.
    split; [now apply getChapter_found | now split].
Qed.

Lemma upstreamUrls_all (ch : chapter) : In ch CHAPTERS -> upstreamUrls ch = true.
Proof.
  assert (forallb upstreamUrls CHAPTERS = true) as H by (vm_compute; reflexivity).
  rewrite forallb_forall in H. apply H.
Qed.

Lemma notesUrl_nonempty (ch : chapter) (nu : string) :
  In ch CHAPTERS -> Catalog.notesUrl ch = Some nu ->
  isEmpty nu = false /\ startsWith UPSTREAM nu = true.
Proof.
  intros Hin E. pose proof (upstreamUrls_all ch Hin) as H. unfold upstreamUrls in H.
  rewrite E in H. apply andb_true_iff in H as [_ H].
  apply andb_true_iff in H as [H1 H2]. apply negb_true_iff in H2. now split.
Qed.

Lemma textUrl_upstream (ch : chapter) :
  In ch CHAPTERS -> startsWith UPSTREAM (Catalog.textUrl ch) = true.
Proof.
  intro Hin. pose proof (upstreamUrls_all ch Hin) as H. unfold upstreamUrls in H.
  now apply andb_true_iff in H as [H _].
Qed.

Variable resolveUrl : string -> string -> option string.
Variable fetchPage : string -> option (bool * string).
Variable parseText parseNotes : string -> option docState.
Variable innerHTML : node -> string.

Let handler := chapterHandler resolveUrl fetchPage parseText parseNotes innerHTML.

(** X2: the chapter handler answers 404 exactly when the catalog has no
    chapter of the requested id, and then it sends no request upstream. *)
Theorem X2_chapter_unknown_id (i : string) :
  (chapterStatus (snd (handler i)) = 404
   <-> forall ch, In ch CHAPTERS -> Catalog.id ch <> i)
  /\ (chapterStatus (snd (handler i)) = 404 -> fst (handler i) = []).
Proof.
  rewrite <- getChapter_none. unfold handler, chapterHandler.
  destruct (getChapter i) as [ch|] eqn:Eg.
  - assert (forall r : list string * chapterResponse,
              chapterStatus (snd r) <> 404 ->
              (chapterStatus (snd r) = 404 <-> Some ch = None)
              /\ (chapterStatus (snd r) = 404 -> fst r = [])) as K.
    { intros r Hr. split; [split|]; [contradiction | discriminate | contradiction]. }
    apply K. cbv zeta.
    destruct (fetchPage (Catalog.textUrl ch)) as [[[] body]|]; try (simpl; discriminate).
    assert (forall nu notes,
              chapterStatus
                (match parseText body with
                 | None => ChapterError 500 "Server error"
                 | Some textDoc =>
                     if isEmpty notes
                     then ChapterPage (Catalog.id ch) (Catalog.title ch)
                            (innerHTML (root (normalizeRoot resolveUrl (Catalog.textUrl ch)
                                                textDoc))) ""
                     else match parseNotes notes with
                          | None => ChapterError 500 "Server error"
                          | Some notesDoc =>
                              ChapterPage (Catalog.id ch) (Catalog.title ch)
                                (innerHTML (root (normalizeRoot resolveUrl
                                                    (Catalog.textUrl ch) textDoc)))
                                (innerHTML (root (normalizeRoot resolveUrl nu notesDoc)))
                          end
                 end) <> 404) as Hpage.
    { intros nu notes. destruct (parseText body); [|simpl; discriminate].
      destruct (isEmpty notes); [simpl; discriminate|].
      destruct (parseNotes notes); simpl; discriminate. }
    destruct (isEmpty _); [apply Hpage|].
    destruct (fetchPage _) as [[[] ?]|]; try (simpl; discriminate). apply Hpage.
  - simpl. split; [split; reflexivity | reflexivity].
Qed.

(** X3: every request of the chapter handler is for the text page or the
    notes page of the requested chapter, both pages of the upstream, and the
    notes page is requested only after the text page was answered with
    success. *)
Theorem X3_chapter_requests (i url : string) :
  In url (fst (handler i)) ->
  exists ch, In ch CHAPTERS /\ Catalog.id ch = i
    /\ startsWith UPSTREAM url = true
    /\ (url = Catalog.textUrl ch
        \/ (Catalog.notesUrl ch = Some url
            /\ exists body, fetchPage (Catalog.textUrl ch) = Some (true, body))).
Proof.
  unfold handler, chapterHandler.
  destruct (getChapter i) as [ch|] eqn:Eg; [|intros []].
  apply getChapter_some in Eg as [Hin Ei]. cbv zeta. intro H.
  exists ch. split; [exact Hin|]. split; [exact Ei|].
  assert (url = Catalog.textUrl ch ->
          startsWith UPSTREAM url = true
          /\ (url = Catalog.textUrl ch
              \/ (Catalog.notesUrl ch = Some url
                  /\ exists body, fetchPage (Catalog.textUrl ch) = Some (true, body))))
    as Ktext.
  { intros ->. split; [now apply textUrl_upstream | now left]. }
  destruct (fetchPage (Catalog.textUrl ch)) as [[[] body]|] eqn:Ef;
    try (destruct H as [<-|[]]; now apply Ktext).
  destruct (Catalog.notesUrl ch) as [nu|] eqn:En;
    [|destruct H as [<-|[]]; now apply Ktext].
  destruct (notesUrl_nonempty ch nu Hin En) as [Hne Hup]. rewrite Hne in H.
  assert (In url [Catalog.textUrl ch; nu]) as H'
    by (destruct (fetchPage nu) as [[[] ?]|]; exact H).
  destruct H' as [<-|[<-|[]]]; [now apply Ktext|].
  split; [exact Hup|]. right. split; [reflexivity | now exists body].
Qed.

(** X4: the chapter handler answers with a page exactly when the chapter is
    known, every page it has upstream was answered with success, the text
    page has a root, and so has the notes page unless it is empty; the page
    carries the requested id and the chapter's title, and its notes are empty
    for a chapter without a notes page.  When the upstream answered with
    success and a root is missing, the answer is 500. *)
Theorem X4_chapter_page (i : string) :
  (chapterStatus (snd (handler i)) = 200
   <-> exists ch body,
         getChapter i = Some ch
         /\ fetchPage (Catalog.textUrl ch) = Some (true, body)
         /\ parseText body <> None
         /\ forall nu, Catalog.notesUrl ch = Some nu ->
              exists notes, fetchPage nu = Some (true, notes)
                /\ (notes <> "" -> parseNotes notes <> None))
  /\ (forall i' t th nh, snd (handler i) = ChapterPage i' t th nh ->
        i' = i
        /\ exists ch, getChapter i = Some ch /\ t = Catalog.title ch
             /\ (Catalog.notesUrl ch = None -> nh = "" /\ fst (handler i) = [Catalog.textUrl ch]))
  /\ (forall ch body,
        getChapter i = Some ch ->
        fetchPage (Catalog.textUrl ch) = Some (true, body) ->
        (forall nu, Catalog.notesUrl ch = Some nu ->
           exists notes, fetchPage nu = Some (true, notes)) ->
        parseText body = None ->
        snd (handler i) = ChapterError 500 "Server error").
Proof.
  unfold handler, chapterHandler.
  destruct (getChapter i) as [ch|] eqn:Eg.
  2:{ split; [|split; discriminate]. split; [discriminate|]. now intros [ch [b [E _]]]. }
  destruct (getChapter_some _ _ Eg) as [Hin Ei]. cbv zeta.
  destruct (fetchPage (Catalog.textUrl ch)) as [[[] body]|] eqn:Ef.
  2-3: split; [|split; [discriminate|]];
       [ split; [discriminate|];
         intros [ch' [b [E [F _]]]]; assert (ch' = ch) as -> by congruence;
         rewrite Ef in F; discriminate
       | intros ch' b E F; assert (ch' = ch) as -> by congruence;
         rewrite Ef in F; discriminate ].
  destruct (Catalog.notesUrl ch) as [nu|] eqn:En.
  - destruct (notesUrl_nonempty ch nu Hin En) as [Hne _]. rewrite Hne.
    destruct (fetchPage nu) as [[[] notes]|] eqn:Efn.
    2-3: split; [|split; [discriminate|]];
         [ split; [discriminate|];
           intros [ch' [b [E [_ [_ F]]]]]; assert (ch' = ch) as -> by congruence;
           destruct (F nu En) as [n [Fn _]]; rewrite Efn in Fn; discriminate
         | intros ch' b E _ F; assert (ch' = ch) as -> by congruence;
           destruct (F nu En) as [n Fn]; rewrite Efn in Fn; discriminate ].
    cbn [fst snd].
    split; [|split].
    + split.
      * intro H. exists ch, body. split; [reflexivity|]. split; [exact Ef|].
        destruct (parseText body) as [td|]; [|discriminate H].
        split; [discriminate|].
        intros nu' E'. assert (nu' = nu) as -> by congruence.
        exists notes. split; [exact Efn|]. intros Hn.
        destruct notes as [|a r]; [now elim Hn|]. cbn [isEmpty] in H.
        destruct (parseNotes (String a r)); [discriminate | discriminate H].
      * intros [ch' [b [E [F [Hpt Hnotes]]]]].
        assert (ch' = ch) as -> by congruence.
        assert (b = body) as -> by congruence.
        destruct (parseText body) as [td|]; [|now elim Hpt].
        destruct (Hnotes nu En) as [n [Fn Hpn]].
        assert (n = notes) as -> by congruence.
        destruct notes as [|a r]; [reflexivity|]. cbn [isEmpty].
        destruct (parseNotes (String a r)); [reflexivity|].
        now elim Hpn.
    + intros i' t th nh E.
      destruct (parseText body) as [td|]; [|discriminate E].
      assert (i' = Catalog.id ch /\ t = Catalog.title ch) as [-> ->].
      { destruct (isEmpty notes); [now injection E|].
        destruct (parseNotes notes); [now injection E | discriminate E]. }
      split; [exact Ei|]. exists ch. split; [reflexivity|]. split; [reflexivity|].
      rewrite En. discriminate.
    + intros ch' b E F _ Hpt. assert (ch' = ch) as -> by congruence.
      assert (b = body) as -> by congruence. now rewrite Hpt.
  - cbn [isEmpty fst snd].
    split; [|split].
    + split.
      * intro H. exists ch, body. split; [reflexivity|]. split; [exact Ef|].
        destruct (parseText body) as [td|]; [|discriminate H].
        split; [discriminate|]. congruence.
      * intros [ch' [b [E [F [Hpt _]]]]].
        assert (ch' = ch) as -> by congruence.
        assert (b = body) as -> by congruence.
        destruct (parseText body) as [td|]; [reflexivity | now elim Hpt].
    + intros i' t th nh E.
      destruct (parseText body) as [td|]; [|discriminate E].
      injection E as <- <- _ <-.
      split; [exact Ei|]. exists ch. now repeat split.
    + intros ch' b E F _ Hpt. assert (ch' = ch) as -> by congruence.
      assert (b = body) as -> by congruence. now rewrite Hpt.
Qed.

Variable parsePage : string -> docState.
Variable pageTitle : string -> string.

Let ref := refHandler resolveUrl fetchPage parsePage pageTitle innerHTML.

Lemma allChars_app (p : ascii -> bool) (a b : string) :
  allChars p (a ++ b) = allChars p a && allChars p b.
Proof.
  induction a as [|c a IH]; simpl; [reflexivity|]. now rewrite IH, andb_assoc.
Qed.

Lemma allChars_weaken (p q : ascii -> bool) (s : string) :
  (forall c, p c = true -> q c = true) -> allChars p s = true -> allChars q s = true.
Proof.
  intro H. induction s as [|c s IH]; simpl; [reflexivity|].
  intro E. apply andb_true_iff in E as [E1 E2]. now rewrite (H c E1), IH.
Qed.

Lemma lowerChar_fileChar (c : ascii) :
  isFileChar (lowerChar c) = true -> isFileChar c = true.
Proof.
  unfold lowerChar. destruct (isUpper c) eqn:U; [|auto].
  intros _. unfold isFileChar, isSafeChar. now rewrite U, orb_true_r.
Qed.

Lemma asciiLower_fileChars (s : string) :
  allChars isFileChar (asciiLower s) = true -> allChars isFileChar s = true.
Proof.
  induction s as [|c s IH]; simpl; [reflexivity|].
  intro E. apply andb_true_iff in E as [E1 E2].
  now rewrite (lowerChar_fileChar c E1), IH.
Qed.

Lemma safeRefFile_chars (file : string) :
  safeRefFile file = true -> file <> "" /\ allChars isFileChar file = true.
Proof.
  intro H. apply safeRefFile_spec in H as [stem [ext [-> [Hne [Hs He]]]]].
  split; [destruct stem; [contradiction | discriminate]|].
  rewrite allChars_app. apply andb_true_iff. split.
  - apply (allChars_weaken isSafeChar); [|exact Hs].
    intros c Hc. unfold isFileChar. now rewrite Hc.
  - apply asciiLower_fileChars. rewrite He. reflexivity.
Qed.

(** X5: the reference handler sends upstream at most one request, for the
    upstream's root followed by the file name, and only for a file name
    made of alphanumerics, underscores, hyphens and dots; such a name has no
    slash, so the request stays in the root directory of the upstream. *)
Theorem X5_ref_request (file url : string) :
  In url (fst (ref file)) ->
  fst (ref file) = [url]
  /\ url = "https://www.ada.auckland.ac.nz/" ++ file
  /\ allChars isFileChar file = true
  /\ indexOfChar "/" file = None.
Proof.
  intro H. destruct (safeRefFile file) eqn:Es.
  2:{ unfold ref, refHandler in H. rewrite Es in H. elim H. }
  destruct (safeRefFile_chars file Es) as [_ Hall].
  assert (fst (ref file) = ["https://www.ada.auckland.ac.nz/" ++ file]) as E.
  { unfold ref, refHandler. rewrite Es. cbn [negb]. cbv zeta.
    destruct (fetchPage _) as [[[] ?]|]; reflexivity. }
  rewrite E in H |- *. destruct H as [<-|[]].
  split; [reflexivity|]. split; [reflexivity|]. split; [exact Hall|].
  clear -Hall. induction file as [|c s IH]; [reflexivity|].
  simpl in Hall. apply andb_true_iff in Hall as [Hc Hs].
  simpl. destruct (Ascii.eqb_spec c "/") as [->|_]; [discriminate|].
  now rewrite (IH Hs).
Qed.

(** X6: the reference handler answers with a page exactly when the file
    name passes the test and the upstream answers with success, with 502
    exactly when the upstream answers without success, and with 500 exactly
    when the request fails; the title of a page is the page's own, or the
    file name when the page has none, and is never empty. *)
Theorem X6_ref_response (file : string) :
  let url := "https://www.ada.auckland.ac.nz/" ++ file in
  (statusOf (snd (ref file)) = 200
   <-> safeRefFile file = true /\ exists body, fetchPage url = Some (true, body))
  /\ (statusOf (snd (ref file)) = 502
      <-> safeRefFile file = true /\ exists body, fetchPage url = Some (false, body))
  /\ (statusOf (snd (ref file)) = 500
      <-> safeRefFile file = true /\ fetchPage url = None)
  /\ (forall t h, snd (ref file) = RefPage t h ->
        t <> ""
        /\ exists body, fetchPage url = Some (true, body)
             /\ t = (if isEmpty (pageTitle body) then file else pageTitle body)).
Proof.
  intro url. unfold ref, refHandler. fold url.
  destruct (safeRefFile file) eqn:Es; cbn [negb].
  2:{ simpl. repeat split; try discriminate; now intros [? _]. }
  destruct (safeRefFile_chars file Es) as [Hne _].
  destruct (fetchPage url) as [[[] body]|] eqn:Ef; simpl.
  - repeat split; try discriminate; try (now intros [_ [? ?]]); try (now intros [_ ?]).
    + now exists body.
    + injection H as <- _. destruct (pageTitle body) eqn:Et; simpl; [exact Hne|discriminate].
    + injection H as <- _. exists body. now split.
  - repeat split; try discriminate; try (now intros [_ [? ?]]); try (now intros [_ ?]).
    now exists body.
  - repeat split; try discriminate; now intros [_ [? ?]].
Qed.

End HandlerFacts.

Section HandlerExamples.
#[local] Existing Instance JsString.asciiText.

(** The requests of the handler for the first chapter, with an upstream
    that answers every request. *)
Lemma X3_chapter_requests_witness :
  exists ch, In ch Catalog.CHAPTERS /\ Catalog.id ch = "p1c1"
    /\ JsString.startsWith HandlerSpec.UPSTREAM
         "https://www.ada.auckland.ac.nz/ada11ann.htm" = true
    /\ ("https://www.ada.auckland.ac.nz/ada11ann.htm" = Catalog.textUrl ch
        \/ (Catalog.notesUrl ch = Some "https://www.ada.auckland.ac.nz/ada11ann.htm"
            /\ exists body, HandlerSpec.alwaysOk (Catalog.textUrl ch) = Some (true, body))).
Proof.
  apply (X3_chapter_requests CleanSpec.noResolve HandlerSpec.alwaysOk
           HandlerSpec.emptyRoot HandlerSpec.emptyRoot HandlerSpec.noMarkup "p1c1").
  vm_compute. right. now left.
Defined.

(** The request of the reference handler for a second-tier page. *)
Lemma X5_ref_request_witness :
  JsString.indexOfChar "/" "422viskovatov.htm" = None.
Proof.
  apply (X5_ref_request CleanSpec.noResolve HandlerSpec.alwaysOk HandlerSpec.noMarkup
           HandlerSpec.emptyPage HandlerSpec.noTitle "422viskovatov.htm"
           "https://www.ada.auckland.ac.nz/422viskovatov.htm").
  vm_compute. now left.
Defined.

End HandlerExamples.

(** ** Link classification on the client *)

Section LinkFacts.
Context {platform : JsString.JsPlatform}.
Import JsString Catalog CatalogSpec RefSpec HrefSpec IndexSpec Client LinkSpec.

Lemma startsWith_app (p s : string) : startsWith p (p ++ s) = true.
Proof.
  induction p as [|c p IH]; simpl; [reflexivity|].
  now rewrite Ascii.eqb_refl, IH.
Qed.

Lemma startsWith_split (p s : string) :
  startsWith p s = true -> exists r, s = p ++ r.
Proof.
  revert s. induction p as [|c p IH]; intros s H; simpl in *.
  - now exists s.
  - destruct s as [|a s]; [discriminate|].
    apply andb_true_iff in H as [E H]. apply Ascii.eqb_eq in E. subst a.
    destruct (IH s H) as [r ->]. now exists r.
Qed.

Lemma isHttpUrl_base (r : string) : isHttpUrl (ADA_BASE ++ r) = true.
Proof. reflexivity. Qed.

Lemma hasSitePrefix_base (r : string) : hasSitePrefix (ADA_BASE ++ r) = true.
Proof. reflexivity. Qed.

Lemma dropWhile_slashes (h : string) :
  exists slashes,
    h = slashes ++ dropWhile (fun c => Ascii.eqb c "/") h
    /\ allChars (fun c => Ascii.eqb c "/") slashes = true
    /\ startsWith "/" (dropWhile (fun c => Ascii.eqb c "/") h) = false.
Proof.
  induction h as [|c h [sl [E [A S]]]].
  - now exists "".
  - cbn [dropWhile]. destruct (Ascii.eqb c "/") eqn:Ec.
    + exists (String c sl). cbn [allChars append]. rewrite Ec, A.
      split; [now rewrite <- E|]. now split.
    + exists "". split; [reflexivity|]. split; [reflexivity|].
      cbn [startsWith]. now rewrite Ascii.eqb_sym, Ec.
Qed.

Lemma makeAdaAbsolute_http (h : string) : isHttpUrl (makeAdaAbsolute h) = true.
Proof.
  unfold makeAdaAbsolute. destruct (isEmpty h); [reflexivity|].
  destruct (isHttpUrl h) eqn:E; [exact E | apply isHttpUrl_base].
Qed.

(** X7: [makeAdaAbsolute] always gives an http(s) URL and leaves its own
    results alone; an href that is no http(s) URL becomes the base URL of
    the source site followed by the href without its leading slashes. *)
Theorem X7_makeAdaAbsolute :
  (forall h, isHttpUrl (makeAdaAbsolute h) = true)
  /\ (forall h, makeAdaAbsolute (makeAdaAbsolute h) = makeAdaAbsolute h)
  /\ (forall h, isHttpUrl h = true -> makeAdaAbsolute h = h)
  /\ (forall h, isHttpUrl h = false ->
        exists slashes rest,
          h = slashes ++ rest
          /\ allChars (fun c => Ascii.eqb c "/") slashes = true
          /\ startsWith "/" rest = false
          /\ makeAdaAbsolute h = ADA_BASE ++ rest).
Proof.
  pose proof makeAdaAbsolute_http as H1.
  assert (forall h, isHttpUrl h = true -> makeAdaAbsolute h = h) as H3.
  { intros h E. unfold makeAdaAbsolute. rewrite E.
    destruct h; [discriminate | reflexivity]. }
  split; [exact H1|]. split; [intro h; apply H3, H1|]. split; [exact H3|].
  intros h E. destruct (dropWhile_slashes h) as [sl [Eh [A S]]].
  exists sl, (dropWhile (fun c => Ascii.eqb c "/") h).
  split; [exact Eh|]. split; [exact A|]. split; [exact S|].
  unfold makeAdaAbsolute. rewrite E. destruct h; reflexivity.
Qed.

Lemma matchesSomewhere_spec (at_ : string -> bool) (s : string) :
  matchesSomewhere at_ s = true <-> exists pre suf, s = pre ++ suf /\ at_ suf = true.
Proof.
  induction s as [|c s IH].
  - simpl. rewrite orb_false_r. split.
    + intro H. now exists "", "".
    + intros [pre [suf [E H]]]. destruct pre; [|discriminate].
      simpl in E. now subst suf.
  - cbn [matchesSomewhere]. rewrite orb_true_iff, IH. split.
    + intros [H|[pre [suf [E H]]]].
      * now exists "", (String c s).
      * exists (String c pre), suf. simpl. now rewrite E.
    + intros [pre [suf [E H]]]. destruct pre as [|a pre].
      * simpl in E. subst suf. now left.
      * right. simpl in E. injection E as _ E. now exists pre, suf.
Qed.

Lemma htmAt_spec (s : string) :
  htmAt s = true <-> exists post, s = ".htm" ++ post /\ startsQueryOrFragment post.
Proof.
  unfold htmAt. split.
  - intro H. apply andb_true_iff in H as [H1 H2].
    destruct (startsWith_split _ _ H1) as [post ->]. exists post. split; [reflexivity|].
    simpl in H2. destruct post as [|x r]; [now left|]. right. exists x, r.
    split; [reflexivity|]. apply orb_true_iff in H2 as [E|E];
      apply Ascii.eqb_eq in E; auto.
  - intros [post [-> H]]. rewrite startsWith_app. simpl.
    destruct H as [->|[x [r [-> [->| ->]]]]]; reflexivity.
Qed.

(** X8: [isRelativeAdaDoc] takes an http(s) URL for a page of the source
    site when the URL begins with the scheme and host name of the site,
    whatever follows them; another href when, with its ASCII letters read
    in lower case, it holds [.htm] at its end or before a query string or a
    fragment. *)
Theorem X8_isRelativeAdaDoc :
  (forall rest, isRelativeAdaDoc ("https://www.ada.auckland.ac.nz" ++ rest) = true)
  /\ (forall h, isHttpUrl h = true -> isRelativeAdaDoc h = hasSitePrefix h)
  /\ (forall h, isHttpUrl h = false ->
        (isRelativeAdaDoc h = true <-> namesHtmFile (asciiLower h)))
  /\ isRelativeAdaDoc "" = false.
Proof.
  split; [reflexivity|]. split; [|split; [|reflexivity]].
  - intros h E. unfold isRelativeAdaDoc. rewrite E.
    destruct h; [discriminate | reflexivity].
  - intros h E. unfold isRelativeAdaDoc, namesHtmFile. rewrite E.
    destruct (isEmpty h) eqn:Ee.
    + destruct h; [|discriminate]. split; [discriminate|].
      intros [pre [post [Ep _]]]. destruct pre; discriminate.
    + rewrite matchesSomewhere_spec. split.
      * intros [pre [suf [Es H]]]. apply htmAt_spec in H as [post [-> Hp]].
        now exists pre, post.
      * intros [pre [post [Es Hp]]]. exists pre, (".htm" ++ post).
        split; [exact Es|]. apply htmAt_spec. now exists post.
Qed.

Variable urlPathname : string -> option string.

Let classify := classifyLink urlPathname.

(** X9: what [wireTextLinks] decides for an anchor: it is a note link
    exactly when rule 1 accepts its href, and always when it has no href; a
    chapter it navigates to is what the index object gives for the
    normalized href: an id that the index holds under it as its own, which
    is not empty, or, for a name that the index does not hold, the value
    that every object inherits under that name; the URL it writes for
    another page of the source site is [makeAdaAbsolute] of the href and
    begins with the scheme and host name of the site. *)
Theorem X9_classifyLink (m : hrefMap) (hrefAttr : option string) :
  let rawHref := match hrefAttr with Some h => h | None => "" end in
  (classify m hrefAttr = NoteLink <-> isAdaNoteHref rawHref = true)
  /\ (hrefAttr = None -> classify m hrefAttr = NoteLink)
  /\ (forall cid, classify m hrefAttr = ChapterNav cid ->
        exists key, normalizeAdaHref urlPathname rawHref = Some key
          /\ mapGet m key = Some cid
          /\ ((ownGet m key = Some cid /\ cid <> "")
              \/ (ownGet m key = None /\ inheritedProperty key = Some cid)))
  /\ (forall u, classify m hrefAttr = AdaDoc u ->
        u = makeAdaAbsolute rawHref /\ hasSitePrefix u = true).
Proof.
  intro rawHref. unfold classify, classifyLink. fold rawHref.
  split; [|split; [|split]].
  - destruct (isAdaNoteHref rawHref); [now split|].
    destruct (lookupChapterIdForHref _ _ _); [now split|].
    destruct (isRelativeAdaDoc rawHref); now split.
  - intro E. unfold rawHref. now rewrite E.
  - intros cid H. destruct (isAdaNoteHref rawHref); [discriminate|].
    destruct (lookupChapterIdForHref urlPathname m rawHref) as [c|] eqn:El.
    2:{ destruct (isRelativeAdaDoc rawHref); discriminate. }
    injection H as ->. unfold lookupChapterIdForHref in El.
    destruct (normalizeAdaHref urlPathname rawHref) as [key|]; [|discriminate].
    exists key. split; [reflexivity|]. unfold mapGet.
    destruct (ownGet m key) as [v|] eqn:Em.
    + destruct (isEmpty v) eqn:Ev; [discriminate|]. injection El as ->.
      split; [reflexivity|]. left. split; [reflexivity | now apply isEmpty_false].
    + split; [exact El|]. right. now split.
  - intros u H. destruct (isAdaNoteHref rawHref); [discriminate|].
    destruct (lookupChapterIdForHref _ _ _); [discriminate|].
    destruct (isRelativeAdaDoc rawHref) eqn:Er; [|discriminate].
    injection H as <-. split; [reflexivity|].
    unfold makeAdaAbsolute. destruct (isEmpty rawHref) eqn:Ee; [reflexivity|].
    destruct (isHttpUrl rawHref) eqn:Eh; [|apply hasSitePrefix_base].
    unfold isRelativeAdaDoc in Er. now rewrite Ee, Eh in Er.
Qed.

Lemma lookup_relative (u1 u2 : string -> option string) (m : hrefMap) (href : string) :
  isHttpUrl (cutPart href) = false ->
  lookupChapterIdForHref u1 m href = lookupChapterIdForHref u2 m href.
Proof.
  intro E. unfold lookupChapterIdForHref, normalizeAdaHref.
  unfold cutPart in E. cbv zeta in *. now rewrite E.
Qed.

End LinkFacts.

Section CatalogLinkFacts.
#[local] Existing Instance JsString.asciiText.
Import JsString Catalog CatalogSpec RefSpec HrefSpec IndexSpec Client LinkSpec.

Variable urlPathname : string -> option string.

Let classify := classifyLink urlPathname.

Lemma linkCheck_all (c : chapter) : In c buildChapters -> linkCheck c = true.
Proof.
  assert (forallb linkCheck buildChapters = true) as H by (vm_compute; reflexivity).
  rewrite forallb_forall in H. apply H.
Qed.

(** X10: with a URL parser that gives the text URLs of the catalog their
    paths, a link to a chapter's source file, by file name or by its full
    URL, navigates to that chapter, and a link to the chapter's notes page,
    by file name or by URL, is a note link.  The names and URLs of the
    catalog are ASCII text, and the links are classified on the platform for
    ASCII text. *)
Theorem X10_catalog_links :
  (forall c, In c buildChapters ->
     urlPathname (Catalog.textUrl c) = Some ("/" ++ fileOf c)) ->
  let m := buildChapterHrefMap urlPathname chapterList in
  forall c, In c buildChapters ->
    classify m (Some (fileOf c)) = ChapterNav (Catalog.id c)
    /\ classify m (Some (Catalog.textUrl c)) = ChapterNav (Catalog.id c)
    /\ classify m (Some (notesFileOf c)) = NoteLink
    /\ (forall nu, Catalog.notesUrl c = Some nu -> classify m (Some nu) = NoteLink).
Proof.
  intros Hp m c Hc.
  assert (m = buildChapterHrefMap sitePathname chapterList) as Em.
  { apply buildChapterHrefMap_ext. intros ch Hin.
    unfold chapterList in Hin. apply in_map_iff in Hin as [c' [<- Hc']]. simpl.
    rewrite (Hp c' Hc'). symmetry. now apply sitePathname_catalog. }
  pose proof indexCheck_all as HI. rewrite forallb_forall in HI.
  specialize (HI c Hc). unfold indexCheck in HI.
  repeat (apply andb_true_iff in HI as [HI ?]).
  pose proof (linkCheck_all c Hc) as HL. unfold linkCheck in HL.
  repeat (apply andb_true_iff in HL as [HL ?]).
  apply negb_true_iff in HL. 
  match goal with X : negb (isAdaNoteHref (Catalog.textUrl c)) = true |- _ =>
    apply negb_true_iff in X end.
  destruct (fileOf_relative c Hc) as [Ecut Erel].
  unfold classify, classifyLink. rewrite Em.
  split; [|split; [|split]].
  - rewrite HL.
    rewrite (lookup_relative urlPathname sitePathname); [|now rewrite Ecut].
    match goal with X : optEqb (lookupChapterIdForHref _ _ (fileOf c)) _ = true |- _ =>
      apply optEqb_eq in X; now rewrite X end.
  - match goal with X : isAdaNoteHref (Catalog.textUrl c) = false |- _ => rewrite X end.
    rewrite (lookup_ext urlPathname sitePathname).
    + match goal with X : optEqb (lookupChapterIdForHref _ _ (Catalog.textUrl c)) _ = true |- _ =>
        apply optEqb_eq in X; now rewrite X end.
    + match goal with X : String.eqb (cutPart _) _ = true |- _ =>
        apply String.eqb_eq in X; rewrite X end.
      rewrite (Hp c Hc). symmetry. now apply sitePathname_catalog.
  - match goal with X : isAdaNoteHref (notesFileOf c) = true |- _ => now rewrite X end.
  - intros nu En.
    match goal with X : match Catalog.notesUrl c with _ => _ end = true |- _ =>
      rewrite En in X; now rewrite X end.
Qed.

End CatalogLinkFacts.

Section LinkExamples.
#[local] Existing Instance JsString.asciiText.

(** The parser of the source site gives every text URL its path; the first
    chapter of the second part. *)
Lemma X10_catalog_links_witness :
  Client.classifyLink HrefSpec.sitePathname
    (Client.buildChapterHrefMap HrefSpec.sitePathname IndexSpec.chapterList)
    (Some "ada21.htm")
  = Client.ChapterNav "p2c1".
Proof.
  assert (In (Catalog.descriptor 2 1) Catalog.buildChapters) as Hin
    by (vm_compute; tauto).
  exact (proj1 (X10_catalog_links HrefSpec.sitePathname sitePathname_catalog
                  (Catalog.descriptor 2 1) Hin)).
Defined.

End LinkExamples.

(** ** The chapter href index and text normalization *)

Section IndexEntryFacts.
Context {platform : JsString.JsPlatform}.
Import JsString Catalog RefSpec HrefSpec Client LinkSpec.

Variable urlPathname : string -> option string.

Let build := buildChapterHrefMap urlPathname.
Let key := fileKey urlPathname.

Lemma build_snoc (l : list chapterMeta) (ch : chapterMeta) :
  build (l ++ [ch])
  = match key ch with
    | Some f => (f, id ch) :: build l
    | None => build l
    end.
Proof.
  unfold build, buildChapterHrefMap, key, fileKey.
  rewrite fold_left_app. cbn [fold_left].
  destruct (isEmpty (textUrl ch)); [reflexivity|].
  destruct (urlPathname (textUrl ch)) as [p|]; [|reflexivity].
  cbv zeta. destruct (isEmpty _); [reflexivity|]. unfold mapSet. cbn [orb].
  now destruct (String.eqb _ "__proto__").
Qed.

Lemma key_shape (ch : chapterMeta) (k : string) :
  key ch = Some k -> k <> "" /\ k <> "__proto__".
Proof.
  unfold key, fileKey. destruct (isEmpty (textUrl ch)); [discriminate|].
  destruct (urlPathname _) as [p|]; [|discriminate]. cbv zeta.
  destruct (isEmpty _) eqn:E; [discriminate|]. cbn [orb].
  destruct (String.eqb_spec (toLowerCase (splitPop "/" p)) "__proto__") as [|Hne];
    [discriminate|].
  intro H. injection H as <-. split; [now apply isEmpty_false | exact Hne].
Qed.

Lemma ownGet_build (l : list chapterMeta) (k v : string) :
  ownGet (build l) k = Some v
  <-> exists l1 ch l2,
        l = (l1 ++ ch :: l2)%list /\ key ch = Some k /\ id ch = v
        /\ forall ch', In ch' l2 -> key ch' <> Some k.
Proof.
  revert v. induction l as [|ch l IH] using rev_ind; intro v.
  - split; [discriminate|]. intros [l1 [ch [l2 [E _]]]]. now destruct l1.
  - rewrite build_snoc.
    assert (forall l1 c l2, (l ++ [ch] = l1 ++ c :: l2)%list ->
              (l2 = [] /\ c = ch /\ l1 = l)
              \/ exists l2', l2 = (l2' ++ [ch])%list /\ l = (l1 ++ c :: l2')%list) as Split.
    { intros l1 c l2 E. destruct l2 as [|x l2] using rev_ind.
      - left. apply app_inj_tail in E as [-> ->]. auto.
      - right. clear IHl2. exists l2.
        change (l1 ++ c :: l2 ++ [x])%list with (l1 ++ (c :: l2) ++ [x])%list in E.
        rewrite app_assoc in E. apply app_inj_tail in E as [-> ->]. now split. }
    destruct (key ch) as [f|] eqn:Ek.
    + cbn [ownGet]. destruct (String.eqb_spec f k) as [->|Hne].
      * split.
        -- intro H. injection H as <-. exists l, ch, []. now repeat split.
        -- intros [l1 [c [l2 [E [Hk [Hv Hl]]]]]].
           destruct (Split _ _ _ E) as [[-> [-> _]]|[l2' [-> _]]]; [now rewrite Hv|].
           exfalso. apply (Hl ch); [|exact Ek]. apply in_or_app. right. now left.
      * rewrite IH. split.
        -- intros [l1 [c [l2 [-> [Hk [Hv Hl]]]]]]. exists l1, c, (l2 ++ [ch])%list.
           split; [now rewrite <- app_assoc|]. split; [exact Hk|]. split; [exact Hv|].
           intros ch' Hin. apply in_app_or in Hin as [Hin|[<-|[]]]; [now apply Hl|].
           rewrite Ek. congruence.
        -- intros [l1 [c [l2 [E [Hk [Hv Hl]]]]]].
           destruct (Split _ _ _ E) as [[-> [-> _]]|[l2' [-> ->]]]; [congruence|].
           exists l1, c, l2'. split; [reflexivity|]. split; [exact Hk|].
           split; [exact Hv|]. intros ch' Hin. apply Hl, in_or_app. now left.
    + rewrite IH. split.
      * intros [l1 [c [l2 [-> [Hk [Hv Hl]]]]]]. exists l1, c, (l2 ++ [ch])%list.
        split; [now rewrite <- app_assoc|]. split; [exact Hk|]. split; [exact Hv|].
        intros ch' Hin. apply in_app_or in Hin as [Hin|[<-|[]]]; [now apply Hl|].
        rewrite Ek. discriminate.
      * intros [l1 [c [l2 [E [Hk [Hv Hl]]]]]].
        destruct (Split _ _ _ E) as [[-> [-> _]]|[l2' [-> ->]]]; [congruence|].
        exists l1, c, l2'. split; [reflexivity|]. split; [exact Hk|].
        split; [exact Hv|]. intros ch' Hin. apply Hl, in_or_app. now left.
Qed.

Lemma ownGet_none (l : list chapterMeta) (k : string) :
  ownGet (build l) k = None <-> forall ch, In ch l -> key ch <> Some k.
Proof.
  split.
  - intros H ch Hin Hk. revert H.
    assert (exists v, ownGet (build l) k = Some v) as [v ->]; [|discriminate].
    clear -Hin Hk. induction l as [|c l IH] using rev_ind; [now elim Hin|].
    rewrite build_snoc. apply in_app_or in Hin as [Hin|[<-|[]]].
    + destruct (IH Hin) as [v Hv]. destruct (key c) as [f|]; [|now exists v].
      cbn [ownGet]. destruct (String.eqb f k); eauto.
    + fold key in Hk. rewrite Hk. cbn [ownGet]. rewrite String.eqb_refl. eauto.
  - intro H. destruct (ownGet (build l) k) as [v|] eqn:E; [|reflexivity].
    apply ownGet_build in E as [l1 [ch [l2 [-> [Hk _]]]]].
    exfalso. apply (H ch); [|exact Hk]. apply in_or_app. right. now left.
Qed.

(** X11: the href index holds a file name as its own key exactly when some
    chapter of the list has a text URL whose path ends in that name, read
    in lower case, the name being neither empty nor [__proto__]; its value
    is the id of the last such chapter; chapters whose text URL is empty or
    does not parse are left out.  Reading the index under a name gives the
    value of the own key, and under a name that is no own key what every
    object inherits under it, if anything. *)
Theorem X11_href_index_entries (chapters : list chapterMeta) (k : string) :
  (forall v, ownGet (build chapters) k = Some v
     <-> exists l1 ch l2,
           chapters = (l1 ++ ch :: l2)%list /\ key ch = Some k /\ id ch = v
           /\ forall ch', In ch' l2 -> key ch' <> Some k)
  /\ (ownGet (build chapters) k = None
      <-> forall ch, In ch chapters -> key ch <> Some k)
  /\ (forall v, ownGet (build chapters) k = Some v -> k <> "" /\ k <> "__proto__")
  /\ (forall v, ownGet (build chapters) k = Some v -> mapGet (build chapters) k = Some v)
  /\ ((forall ch, In ch chapters -> key ch <> Some k) ->
        mapGet (build chapters) k = inheritedProperty k).
Proof.
  split; [intro v; apply ownGet_build|]. split; [apply ownGet_none|].
  split; [|split].
  - intros v H. apply ownGet_build in H as [l1 [ch [l2 [_ [Hk _]]]]].
    now apply (key_shape ch).
  - intros v H. unfold mapGet. now rewrite H.
  - intro H. apply ownGet_none in H. unfold mapGet. now rewrite H.
Qed.

End IndexEntryFacts.

Section NormalizeFacts.
Context {platform : JsString.JsPlatform} {laws : JsString.JsLaws platform}.
Import JsString Client TextSpec.

Lemma lowerChar_idem (c : ascii) : lowerChar (lowerChar c) = lowerChar c.
Proof.
  destruct c as [[] [] [] [] [] [] [] []]; reflexivity.
Qed.

Lemma asciiLower_idem (s : string) : asciiLower (asciiLower s) = asciiLower s.
Proof.
  induction s as [|c s IH]; simpl; [reflexivity|]. now rewrite lowerChar_idem, IH.
Qed.

Lemma isSpace_lowerChar (c : ascii) : isSpace (lowerChar c) = isSpace c.
Proof. destruct c as [[] [] [] [] [] [] [] []]; reflexivity. Qed.

Lemma lowerChar_space (c : ascii) : isSpace c = true -> lowerChar c = c.
Proof. destruct c as [[] [] [] [] [] [] [] []]; (discriminate || reflexivity). Qed.

Lemma collapseWs_lower (b : bool) (s : string) :
  collapseWs b (asciiLower s) = asciiLower (collapseWs b s).
Proof.
  revert b. induction s as [|c s IH]; intro b; [reflexivity|].
  cbn [asciiLower collapseWs]. rewrite isSpace_lowerChar.
  destruct (isSpace c) eqn:E; [destruct b|]; cbn [asciiLower]; now rewrite IH.
Qed.

Lemma trimStart_lower (s : string) :
  trimStart (asciiLower s) = asciiLower (trimStart s).
Proof.
  induction s as [|c s IH]; [reflexivity|].
  cbn [asciiLower trimStart]. rewrite isSpace_lowerChar.
  now destruct (isSpace c).
Qed.

Lemma trimEnd_lower (s : string) :
  trimEnd (asciiLower s) = asciiLower (trimEnd s).
Proof.
  induction s as [|c s IH]; [reflexivity|].
  cbn [asciiLower trimEnd]. rewrite IH, isSpace_lowerChar.
  destruct (trimEnd s); cbn [asciiLower]; [now destruct (isSpace c) | reflexivity].
Qed.

Lemma asciiTrim_lower (s : string) : asciiTrim (asciiLower s) = asciiLower (asciiTrim s).
Proof. unfold asciiTrim. now rewrite trimStart_lower, trimEnd_lower. Qed.

Lemma trimEnd_idem (s : string) : trimEnd (trimEnd s) = trimEnd s.
Proof.
  induction s as [|c s IH]; [reflexivity|].
  rewrite trimEnd_cons. destruct (trimEnd s) as [|a r] eqn:E.
  - destruct (isSpace c) eqn:Ec; [reflexivity|]. rewrite trimEnd_cons. cbn [trimEnd].
    now rewrite Ec.
  - rewrite trimEnd_cons, IH. reflexivity.
Qed.

(** The string does not begin with white space. *)
Lemma trimStart_fixed (s : string) : trimStart (trimStart s) = trimStart s.
Proof.
  induction s as [|c s IH]; [reflexivity|].
  cbn [trimStart]. destruct (isSpace c) eqn:E; [exact IH|].
  cbn [trimStart]. now rewrite E.
Qed.

Lemma trimStart_trimEnd (s : string) :
  trimStart s = s -> trimStart (trimEnd s) = trimEnd s.
Proof.
  destruct s as [|c s]; [reflexivity|]. cbn [trimStart].
  destruct (isSpace c) eqn:E.
  - intro H. exfalso. assert (String.length (trimStart s) <= String.length s) as L.
    { clear. induction s as [|a s IH]; simpl; [lia|]. destruct (isSpace a); simpl; lia. }
    rewrite H in L. simpl in L. lia.
  - intros _. rewrite trimEnd_cons.
    destruct (trimEnd s); rewrite ?E; cbn [trimStart]; now rewrite E.
Qed.

Lemma asciiTrim_idem (s : string) : asciiTrim (asciiTrim s) = asciiTrim s.
Proof.
  unfold asciiTrim.
  rewrite (trimStart_trimEnd (trimStart s) (trimStart_fixed s)).
  apply trimEnd_idem.
Qed.

Lemma singleSpaced_collapse (b : bool) (s : string) :
  singleSpaced b (collapseWs b s) = true.
Proof.
  revert b. induction s as [|c s IH]; intro b; [reflexivity|].
  cbn [collapseWs]. destruct (isSpace c) eqn:E.
  - destruct b; [apply IH|]. cbn [singleSpaced].
    change (isSpace " ") with true. cbn [negb andb]. rewrite Ascii.eqb_refl. apply IH.
  - cbn [singleSpaced]. rewrite E. apply IH.
Qed.

Lemma singleSpaced_weaken (s : string) :
  singleSpaced true s = true -> singleSpaced false s = true.
Proof.
  destruct s as [|c s]; [reflexivity|]. cbn [singleSpaced].
  destruct (isSpace c); [discriminate | auto].
Qed.

Lemma singleSpaced_trimStart (b : bool) (s : string) :
  singleSpaced b s = true -> singleSpaced false (trimStart s) = true.
Proof.
  revert b. induction s as [|c s IH]; intros b H; [reflexivity|].
  cbn [trimStart]. cbn [singleSpaced] in H. destruct (isSpace c) eqn:E.
  - apply andb_true_iff in H as [_ H]. now apply (IH true).
  - cbn [singleSpaced]. now rewrite E.
Qed.

Lemma singleSpaced_cons (b : bool) (c : ascii) (r : string) :
  singleSpaced b (String c r)
  = if isSpace c then negb b && Ascii.eqb c " " && singleSpaced true r
    else singleSpaced false r.
Proof. reflexivity. Qed.

Lemma singleSpaced_trimEnd (b : bool) (s : string) :
  singleSpaced b s = true -> singleSpaced b (trimEnd s) = true.
Proof.
  revert b. induction s as [|c s IH]; intros b H; [reflexivity|].
  rewrite trimEnd_cons. rewrite singleSpaced_cons in H. destruct (isSpace c) eqn:E.
  - apply andb_true_iff in H as [H1 H]. specialize (IH true H).
    destruct (trimEnd s) as [|a r]; [reflexivity|].
    rewrite singleSpaced_cons, E, H1. exact IH.
  - specialize (IH false H).
    destruct (trimEnd s); rewrite singleSpaced_cons, E; [reflexivity | exact IH].
Qed.

Lemma collapseWs_fixed (b : bool) (s : string) :
  singleSpaced b s = true -> collapseWs b s = s.
Proof.
  revert b. induction s as [|c s IH]; intros b H; [reflexivity|].
  cbn [collapseWs]. cbn [singleSpaced] in H. destruct (isSpace c) eqn:E.
  - apply andb_true_iff in H as [H1 H]. apply andb_true_iff in H1 as [Hb Hc].
    apply negb_true_iff in Hb. apply Ascii.eqb_eq in Hc. subst b c.
    now rewrite (IH true H).
  - now rewrite (IH false H).
Qed.

Lemma singleSpaced_lower (b : bool) (s : string) :
  singleSpaced b (asciiLower s) = singleSpaced b s.
Proof.
  revert b. induction s as [|c s IH]; intro b; [reflexivity|].
  cbn [asciiLower singleSpaced]. rewrite isSpace_lowerChar.
  destruct (isSpace c) eqn:E; [|apply IH].
  now rewrite (lowerChar_space c E), IH.
Qed.

Lemma isAscii_lower (s : string) : isAscii s = true -> isAscii (asciiLower s) = true.
Proof.
  induction s as [|c s IH]; [reflexivity|]. cbn [isAscii asciiLower].
  intro H. apply andb_true_iff in H as [Hc Hs]. rewrite (IH Hs), andb_true_r.
  revert Hc. destruct c as [[] [] [] [] [] [] [] []]; vm_compute; congruence.
Qed.

Lemma isAscii_trimStart (s : string) : isAscii s = true -> isAscii (trimStart s) = true.
Proof.
  induction s as [|c s IH]; [reflexivity|]. intro H. cbn [trimStart].
  destruct (isSpace c); [|exact H].
  cbn [isAscii] in H. apply andb_true_iff in H as [_ Hs]. now apply IH.
Qed.

Lemma isAscii_trimEnd (s : string) : isAscii s = true -> isAscii (trimEnd s) = true.
Proof.
  induction s as [|c s IH]; [reflexivity|]. intro H. rewrite trimEnd_cons.
  cbn [isAscii] in H. apply andb_true_iff in H as [Hc Hs]. specialize (IH Hs).
  destruct (trimEnd s).
  - destruct (isSpace c); [reflexivity|]. cbn [isAscii]. now rewrite Hc.
  - cbn [isAscii] in *. now rewrite Hc, IH.
Qed.

Lemma isAscii_trim (s : string) : isAscii s = true -> isAscii (asciiTrim s) = true.
Proof. intro H. unfold asciiTrim. now apply isAscii_trimEnd, isAscii_trimStart. Qed.

Lemma isAscii_collapse (b : bool) (s : string) :
  isAscii s = true -> isAscii (collapseWs b s) = true.
Proof.
  revert b. induction s as [|c s IH]; intros b H; [reflexivity|].
  cbn [isAscii] in H. apply andb_true_iff in H as [Hc Hs]. cbn [collapseWs].
  destruct (isSpace c); [destruct b|]; cbn [isAscii]; rewrite ?Hc, ?IH; auto.
Qed.

(** [normalize] on the ASCII platform. *)
Let asciiNormalize (s : string) : string :=
  asciiLower (asciiTrim (collapseWs false s)).

Lemma isAscii_normalize (s : string) :
  isAscii s = true -> isAscii (asciiNormalize s) = true.
Proof.
  intro H. unfold asciiNormalize.
  now apply isAscii_lower, isAscii_trim, isAscii_collapse.
Qed.

Lemma normalize_ascii (s : string) :
  isAscii s = true -> normalize s = asciiNormalize s.
Proof.
  intro H. unfold normalize, asciiNormalize.
  rewrite (replaceSpaces_ascii s H).
  rewrite (trim_ascii _ (isAscii_collapse false s H)).
  now rewrite (toLowerCase_ascii _ (isAscii_trim _ (isAscii_collapse false s H))).
Qed.

Lemma asciiNormalize_facts (s : string) :
  asciiNormalize (asciiNormalize s) = asciiNormalize s
  /\ asciiLower (asciiNormalize s) = asciiNormalize s
  /\ asciiTrim (asciiNormalize s) = asciiNormalize s
  /\ singleSpaced false (asciiNormalize s) = true
  /\ asciiNormalize (asciiLower s) = asciiNormalize s.
Proof.
  assert (singleSpaced false (asciiTrim (collapseWs false s)) = true) as Hs.
  { unfold asciiTrim. apply singleSpaced_trimEnd.
    apply (singleSpaced_trimStart false), singleSpaced_collapse. }
  assert (asciiLower (asciiNormalize s) = asciiNormalize s) as Hl
    by (unfold asciiNormalize; apply asciiLower_idem).
  assert (asciiTrim (asciiNormalize s) = asciiNormalize s) as Ht.
  { unfold asciiNormalize. now rewrite asciiTrim_lower, asciiTrim_idem. }
  assert (singleSpaced false (asciiNormalize s) = true) as Hn.
  { unfold asciiNormalize. now rewrite singleSpaced_lower. }
  split; [|split; [exact Hl|split; [exact Ht|split; [exact Hn|]]]].
  - unfold asciiNormalize at 1. now rewrite (collapseWs_fixed false _ Hn), Ht, Hl.
  - unfold asciiNormalize. now rewrite collapseWs_lower, asciiTrim_lower, asciiLower_idem.
Qed.

(** X12: on ASCII text [normalize] leaves its own results alone: a
    normalized text is in lower case, has no white space at either end, and
    its only white space is single spaces; so case and the amount of white
    space of an ASCII phrase make no difference to the snippet matcher. *)
Theorem X12_normalize_idempotent (s : string) :
  isAscii s = true ->
  normalize (normalize s) = normalize s
  /\ toLowerCase (normalize s) = normalize s
  /\ trim (normalize s) = normalize s
  /\ singleSpaced false (normalize s) = true
  /\ normalize (toLowerCase s) = normalize s.
Proof.
  intro H. pose proof (isAscii_normalize s H) as Hn.
  destruct (asciiNormalize_facts s) as [F1 [F2 [F3 [F4 F5]]]].
  rewrite (normalize_ascii s H).
  rewrite (normalize_ascii _ Hn), (toLowerCase_ascii _ Hn), (trim_ascii _ Hn).
  rewrite (toLowerCase_ascii s H), (normalize_ascii _ (isAscii_lower s H)).
  now repeat split.
Qed.

End NormalizeFacts.

Section NormalizeExamples.
Import JsString Client TextSpec.

(** The normalized form of a phrase in upper case with spaces around it,
    on the ASCII platform. *)
Lemma X12_normalize_idempotent_witness :
  @normalize asciiText (@normalize asciiText "  The  PAWN ")
  = @normalize asciiText "  The  PAWN ".
Proof.
  exact (proj1 (@X12_normalize_idempotent asciiText asciiText_laws "  The  PAWN "
                  eq_refl)).
Defined.

End NormalizeExamples.

(** ** The page around the overlay *)

Section PageFacts.
Context {platform : JsString.JsPlatform}.
Import JsString Dom Client OverlaySpec Pages PageSpec.

Variable outerHTML : node -> string.
Variable fetchChapter : string -> option chapterData.
Variable parseNotesRoot : string -> option node.

Let openNote := openNoteForPhrase outerHTML.
Let step := pageStep outerHTML fetchChapter parseNotesRoot.
Let run := runPage outerHTML fetchChapter parseNotesRoot.

Lemma orElse_nonempty (s dflt : string) : dflt <> "" -> orElse s dflt <> "".
Proof. intro H. unfold orElse. destruct s; [exact H | discriminate]. Qed.

Lemma orElse_empty (dflt : string) : orElse "" dflt = dflt.
Proof. reflexivity. Qed.

Lemma orElse_idem (s dflt : string) : orElse (orElse s dflt) dflt = orElse s dflt.
Proof. unfold orElse. destruct s; [|reflexivity]. now destruct dflt. Qed.

Lemma in_removelast {A} (l : list A) (x : A) : In x (removelast l) -> In x l.
Proof.
  induction l as [|a l IH]; [auto|]. simpl. destruct l as [|b l]; [intros []|].
  intros [H|H]; [now left | right; now apply IH].
Qed.

Lemma push_inv (o : overlayState) (h t : string) :
  overlayInv o -> (forall e, In e (overlayStack o) -> html e <> "") ->
  overlayInv (pushOverlay o h t)
  /\ (forall e, In e (overlayStack (pushOverlay o h t)) -> html e <> "")
  /\ showsTop (pushOverlay o h t).
Proof.
  intros Hi He. split; [exact (overlayInv_step o (Push h t) Hi)|].
  rewrite push_state. cbn [overlayStack]. split.
  - intros e Hin. apply in_app_or in Hin as [Hin|[<-|[]]]; [now apply He|].
    cbn [html]. now apply orElse_nonempty.
  - intros _. exists (overlayStack o), (mkEntry (orElse h "<p>No commentary found.</p>") t).
    now repeat split.
Qed.

Lemma pop_inv (o : overlayState) :
  overlayInv o -> (forall e, In e (overlayStack o) -> html e <> "") ->
  overlayInv (popOverlay o)
  /\ (forall e, In e (overlayStack (popOverlay o)) -> html e <> "")
  /\ showsTop (popOverlay o).
Proof.
  intros Hi He. split; [exact (overlayInv_step o Pop Hi)|].
  destruct (Nat.lt_ge_cases 1 (depth o)) as [H|H].
  - rewrite (pop_deep _ H). cbn [overlayStack]. split.
    + intros e Hin. now apply He, in_removelast.
    + intros _. destruct (length_removelast_lt _ H) as [Hne _].
      destruct (exists_last Hne) as [front [top E]].
      exists front, top. cbn [overlayStack overlayContent overlayTitle].
      rewrite E, last_last. now repeat split.
  - rewrite (pop_shallow _ H). split; [intros e []|]. intro C. discriminate.
Qed.

Lemma close_inv (o : overlayState) :
  overlayInv (closeOverlayCompletely o)
  /\ (forall e, In e (overlayStack (closeOverlayCompletely o)) -> html e <> "")
  /\ showsTop (closeOverlayCompletely o).
Proof.
  split; [repeat split|]. split; [intros e []|]. intro C. discriminate.
Qed.

Lemma openNote_inv (p : page) (phrase : string) :
  pageInv p -> pageInv (openNote p phrase).
Proof.
  intros [Hi [Hn [He Hs]]].
  assert (forall h t, pageInv (mkPage (notesDom p) (notesHtml p)
                                      (pushOverlay (overlay p) h t))) as K.
  { intros h t. destruct (push_inv (overlay p) h t Hi He) as [A [B C]].
    unfold pageInv. cbn [overlay notesHtml notesDom].
    split; [exact A|]. split; [exact Hn|]. now split. }
  unfold openNote, openNoteForPhrase. clear Hi Hn He Hs.
  destruct p as [d h o]. cbn [notesDom notesHtml overlay] in *.
  destruct d; cbv zeta; apply K.
Qed.

Lemma closed_inv (d : option node) (h : string) (o : overlayState) :
  (h = "" -> d = None) -> pageInv (mkPage d h (closeOverlayCompletely o)).
Proof.
  intro Hn. destruct (close_inv o) as [A [B C]].
  unfold pageInv. cbn [overlay notesHtml notesDom].
  split; [exact A|]. split; [exact Hn|]. now split.
Qed.

Lemma loadChapter_inv (p : page) (id : string) :
  pageInv p -> pageInv (loadChapter fetchChapter parseNotesRoot p id).
Proof.
  intros [_ [Hn _]]. unfold loadChapter. cbv zeta.
  destruct (fetchChapter id) as [data|]; apply closed_inv; [|exact Hn].
  now intros ->.
Qed.

Lemma pageInv_step (p : page) (e : pageEvent) : pageInv p -> pageInv (step p e).
Proof.
  intro H. destruct e as [id|t|id| |]; unfold step, pageStep.
  - now apply loadChapter_inv.
  - now apply openNote_inv.
  - apply loadChapter_inv. apply closed_inv. now destruct H as [_ [Hn _]].
  - destruct H as [Hi [Hn [He _]]]. destruct (pop_inv (overlay p) Hi He) as [A [B C]].
    unfold pageInv. cbn [overlay notesHtml notesDom].
    split; [exact A|]. split; [exact Hn|]. now split.
  - apply closed_inv. now destruct H as [_ [Hn _]].
Qed.

Lemma pageInv_run (es : list pageEvent) (p : page) : pageInv p -> pageInv (run p es).
Proof.
  revert p. induction es as [|e es IH]; intros p H; [exact H|].
  apply (IH (step p e)). now apply pageInv_step.
Qed.

Lemma pageInv_initial : pageInv initialPage.
Proof.
  split; [repeat split|]. split; [reflexivity|]. split; [intros e []|].
  intro C. discriminate.
Qed.

(** X13: [openNoteForPhrase] always puts one more entry on the overlay and
    shows it, with a content and a title that are not empty: the content is
    the snippet found for the phrase, else the whole notes, else the
    placeholder; the title is the phrase, or [Commentary] for an empty
    phrase, and always [Commentary] when no notes tree is loaded. *)
Theorem X13_open_note (p : page) (phrase : string) :
  let o' := overlay (openNote p phrase) in
  depth o' = S (depth (overlay p))
  /\ visible o' = true
  /\ overlayContent o' <> "" /\ overlayTitle o' <> ""
  /\ notesDom (openNote p phrase) = notesDom p
  /\ notesHtml (openNote p phrase) = notesHtml p
  /\ (notesDom p = None ->
        overlayContent o' = orElse (notesHtml p) PLACEHOLDER
        /\ overlayTitle o' = "Commentary")
  /\ (notesDom p <> None ->
        overlayContent o'
        = orElse (orElse (if isEmpty phrase then ""
                          else findNoteSnippet outerHTML (notesDom p) phrase)
                         (notesHtml p)) PLACEHOLDER
        /\ overlayTitle o' = orElse phrase "Commentary").
Proof.
  unfold openNote, openNoteForPhrase. destruct p as [d h o].
  cbn [notesDom notesHtml overlay].
  destruct d as [d|]; cbv zeta; cbn [overlay notesDom notesHtml];
    rewrite push_state; cbn [overlayContent overlayTitle visible];
    unfold depth; cbn [overlayStack]; rewrite length_app, Nat.add_1_r;
    (split; [reflexivity|]); (split; [reflexivity|]);
    (split; [now apply orElse_nonempty|]);
    (split; [now apply orElse_nonempty|]);
    (split; [reflexivity|]); (split; [reflexivity|]); split.
  - discriminate.
  - intros _. split; [reflexivity | apply orElse_idem].
  - intros _. split; reflexivity.
  - intro C. now elim C.
Qed.

(** X14: on every page reached from the initial one, a visible overlay
    shows the entry on top of its stack, with a content and a title that are
    not empty; a notes tree is loaded only together with notes markup, so
    that while the chapter has no notes every note click shows the
    placeholder under the title [Commentary]. *)
Theorem X14_page_invariant (es : list pageEvent) :
  let p := run initialPage es in
  pageInv p
  /\ (visible (overlay p) = true ->
        overlayContent (overlay p) <> "" /\ overlayTitle (overlay p) <> "")
  /\ (notesHtml p = "" ->
        forall t, overlayContent (overlay (step p (NoteClick t))) = PLACEHOLDER
                  /\ overlayTitle (overlay (step p (NoteClick t))) = "Commentary").
Proof.
  intro p. pose proof (pageInv_run es initialPage pageInv_initial) as H.
  fold p in H. split; [exact H|]. destruct H as [_ [Hn [He Hs]]]. split.
  - intro V. destruct (Hs V) as [front [top [E [-> ->]]]]. split.
    + apply He. rewrite E. apply in_or_app. right. now left.
    + now apply orElse_nonempty.
  - intros E t. unfold step, pageStep, onNoteClick, openNoteForPhrase.
    rewrite (Hn E), E. cbn [overlay]. rewrite push_state. now split.
Qed.

End PageFacts.

(** ** The cleaner, the line-break remover and the image normalizer *)

Section TransformFacts.
Context {platform : JsString.JsPlatform}.
Import JsString Dom Server DomSpec TableSpec FlattenSpec DocSpec CleanSpec TransformSpec.

Lemma textF_app (a b : list node) : textF (a ++ b) = textF a ++ textF b.
Proof.
  induction a as [|k a IH]; [reflexivity|].
  cbn [app]. unfold textF in *. cbn [fold_right]. rewrite IH.
  clear. induction (textContent k) as [|c s IH]; simpl; [reflexivity | now rewrite IH].
Qed.

Lemma textContent_elem j t a ks : textContent (Elem j t a ks) = textF ks.
Proof. reflexivity. Qed.

Lemma textF_single (k : node) : textF [k] = textContent k.
Proof.
  unfold textF. cbn [fold_right].
  induction (textContent k) as [|c s IH]; simpl; [reflexivity | now rewrite IH].
Qed.

(** Replacing nodes by nodes of the same text keeps the text. *)
Lemma textF_rewriteIn i f (F : list node) :
  (forall k, In k (subtreesF F) -> nodeId k = i -> textF (f k) = textContent k) ->
  textF (rewriteIn i f F) = textF F.
Proof.
  induction F as [|i' s F IH | j t a ks F IHk IHF] using forest_ind; intro H.
  - reflexivity.
  - rewrite rewriteIn_cons, textF_app. cbn [nodeId].
    rewrite IH by (intros k Hk; apply H; rewrite subtreesF_cons; right; exact Hk).
    change (Text i' s :: F) with ([Text i' s] ++ F)%list. rewrite (textF_app [Text i' s]).
    f_equal. destruct (Nat.eqb_spec i' i) as [E|E]; [|reflexivity].
    rewrite textF_single. apply H; [now left | exact E].
  - rewrite rewriteIn_cons, textF_app. cbn [nodeId].
    rewrite IHF.
    2:{ intros k Hk. apply H. rewrite subtreesF_cons. right. apply in_or_app. now right. }
    change (Elem j t a ks :: F) with ([Elem j t a ks] ++ F)%list.
    rewrite (textF_app [Elem j t a ks]). f_equal.
    destruct (Nat.eqb_spec j i) as [E|E].
    + rewrite textF_single. apply H; [now left | exact E].
    + rewrite rewriteAt_elem, !textF_single, !textContent_elem. apply IHk.
      intros k Hk. apply H. rewrite subtreesF_cons, descendants_elem. right.
      apply in_or_app. now left.
Qed.

Lemma textContent_rewriteAt i f (n : node) :
  (forall k, In k (descendants n) -> nodeId k = i -> textF (f k) = textContent k) ->
  textContent (rewriteAt i f n) = textContent n.
Proof.
  destruct n as [i' s | j t a ks]; [reflexivity|]. intro H.
  rewrite rewriteAt_elem, !textContent_elem. now apply textF_rewriteIn.
Qed.

Lemma textContent_updateAttrs i g (n : node) :
  textContent (updateAttrs i g n) = textContent n.
Proof.
  apply textContent_rewriteAt. intros k _ _. rewrite textF_single. now destruct k.
Qed.

Lemma textContent_update_fold g (S : list nat) (r : node) :
  textContent (fold_left (fun d i => updateAttrs i g d) S r) = textContent r.
Proof.
  revert r. induction S as [|i S IH]; intro r; [reflexivity|].
  cbn [fold_left]. now rewrite IH, textContent_updateAttrs.
Qed.

(** Removing nodes without text keeps the text. *)
Lemma textContent_remove_fold (S : list nat) (r : node) :
  (forall k, In k (descendants r) -> In (nodeId k) S -> textContent k = "") ->
  textContent (fold_left (fun d i => removeNode i d) S r) = textContent r.
Proof.
  revert r. induction S as [|i S IH]; intros r H; [reflexivity|].
  cbn [fold_left].
  assert (forall n, (forall k, In k (descendants n) -> In k (descendants r)) ->
            textContent (removeNode i n) = textContent n) as Keep.
  { intros n Hn. apply textContent_rewriteAt. intros k Hk Ek.
    symmetry. apply H; [now apply Hn | left; now symmetry]. }
  rewrite IH; [now apply Keep|].
  intros k' Hk' Hin. unfold removeNode in Hk'.
  rewrite descendants_childNodes, rewriteAt_childNodes in Hk'.
  destruct (rewriteIn_nodes _ _ _ _ Hk') as [[k [Hk [_ ->]]]|[k [_ [_ []]]]].
  rewrite <- descendants_childNodes in Hk.
  rewrite rewriteAt_id in Hin.
  fold (removeNode i k). rewrite Keep.
  - apply H; [exact Hk | now right].
  - intros x Hx. rewrite (descendants_childNodes r).
    apply (subtreesF_descendants (childNodes r) k); [|exact Hx].
    now rewrite <- descendants_childNodes.
Qed.

Lemma filter_none {A} (p : A -> bool) (l : list A) :
  (forall x, In x l -> p x = false) -> filter p l = [].
Proof.
  induction l as [|x l IH]; intro H; [reflexivity|].
  simpl. rewrite (H x (or_introl eq_refl)). apply IH. intros y Hy. apply H. now right.
Qed.

Lemma selected_ids (p : node -> bool) (r k : node) :
  NoDup (ids r) -> In k (descendants r) ->
  In (nodeId k) (map nodeId (querySelectorAll p r)) -> p k = true.
Proof.
  intros ND Hk Hin. apply in_map_iff in Hin as [k0 [E H0]].
  apply filter_In in H0 as [H0 P0].
  rewrite ids_childNodes in ND. inversion ND as [|? ? _ NDK]; subst.
  rewrite descendants_childNodes in *.
  now rewrite <- (node_unique _ k0 k NDK H0 Hk E).
Qed.

(** X15: the line-break remover leaves no [br] element, changes nothing
    when it is run again, adds no node and changes no tag or attribute; it
    keeps the text of the fragment when the [br] elements are empty, as the
    parser makes them. *)
Theorem X15_stripLineBreaks (r : node) :
  NoDup (ids r) ->
  querySelectorAll (hasTag "br") (stripLineBreaks r) = []
  /\ stripLineBreaks (stripLineBreaks r) = stripLineBreaks r
  /\ (forall k', In k' (descendants (stripLineBreaks r)) ->
        exists k, In k (descendants r) /\ sigOf k' = sigOf k)
  /\ ((forall k, In k (descendants r) -> hasTag "br" k = true -> childNodes k = []) ->
      textContent (stripLineBreaks r) = textContent r).
Proof.
  intro ND.
  destruct (remove_fold (hasTag "br")
              (fun x y H => hasTag_shape "br" x y (sigOf_shape x y H))
              (map nodeId (querySelectorAll (hasTag "br") r)) r ND) as [_ [_ H]].
  { intros k Hk Hb. apply in_map. now apply filter_In. }
  fold (stripLineBreaks r) in H.
  assert (querySelectorAll (hasTag "br") (stripLineBreaks r) = []) as E.
  { apply filter_none. intros x Hx. now apply H. }
  split; [exact E|]. split; [|split].
  - unfold stripLineBreaks at 1. now rewrite E.
  - intros k' Hk'. now apply H.
  - intro Hvoid. apply textContent_remove_fold. intros k Hk Hin.
    pose proof (selected_ids _ r k ND Hk Hin) as Hb.
    specialize (Hvoid k Hk Hb). destruct k; [discriminate|].
    simpl in Hvoid. now subst.
Qed.

Lemma sigOf_mapAttrs g (k : node) :
  sigOf (mapAttrs g k) = (nodeId k, mapShape g (shapeOf k)).
Proof. destruct k; reflexivity. Qed.

(** One attribute update, seen on the identities and shapes of the
    descendants. *)
Lemma updateAttrs_sigs i g (F : list node) :
  NoDup (idsF F) ->
  map sigOf (subtreesF (rewriteIn i (fun k => [mapAttrs g k]) F))
  = map (updSig i g) (map sigOf (subtreesF F)).
Proof.
  induction F as [|i' s F IH | j t a ks F IHk IHF] using forest_ind; intro ND.
  - reflexivity.
  - rewrite idsF_cons_text in ND. inversion ND as [|? ? _ ND']; subst.
    rewrite rewriteIn_cons, subtreesF_app, map_app, (IH ND'). cbn [nodeId].
    assert (map sigOf (subtreesF (if i' =? i then [mapAttrs g (Text i' s)]
                                  else [rewriteAt i (fun k => [mapAttrs g k]) (Text i' s)]))
            = [updSig i g (sigOf (Text i' s))]) as ->.
    { unfold updSig. cbn [sigOf nodeId shapeOf fst snd mapShape].
      destruct (i' =? i); reflexivity. }
    reflexivity.
  - rewrite idsF_cons_elem in ND. inversion ND as [|? ? Hj ND']; subst.
    apply NoDup_app_parts in ND' as [NDk [NDF _]].
    rewrite rewriteIn_cons, subtreesF_app, map_app, (IHF NDF). cbn [nodeId].
    rewrite (subtreesF_cons (Elem j t a ks) F), descendants_elem.
    assert (map sigOf (subtreesF (if j =? i then [mapAttrs g (Elem j t a ks)]
                                  else [rewriteAt i (fun k => [mapAttrs g k]) (Elem j t a ks)]))
            = updSig i g (sigOf (Elem j t a ks))
              :: map (updSig i g) (map sigOf (subtreesF ks))) as ->.
    { destruct (Nat.eqb_spec j i) as [E|E].
      - rewrite subtreesF_single. unfold subtree. cbn [mapAttrs].
        rewrite descendants_elem. cbn [map]. f_equal.
        + unfold updSig. cbn [sigOf nodeId shapeOf fst snd mapShape].
          now rewrite E, Nat.eqb_refl.
        + rewrite map_map. apply map_ext_in. intros k Hk. unfold updSig.
          cbn [sigOf fst snd]. destruct (Nat.eqb_spec (nodeId k) i) as [E'|_]; [|reflexivity].
          exfalso. apply Hj. apply in_or_app. left.
          rewrite idsF_subtreesF, E, <- E'. now apply in_map.
      - rewrite subtreesF_single, rewriteAt_elem. unfold subtree.
        rewrite descendants_elem. cbn [map]. f_equal; [|now apply IHk].
        unfold updSig. cbn [sigOf nodeId shapeOf fst snd].
        apply Nat.eqb_neq in E. now rewrite E. }
    cbn [map app]. now rewrite !map_app.
Qed.

Lemma updateAttrs_sigs_node i g (r : node) :
  NoDup (ids r) ->
  map sigOf (descendants (updateAttrs i g r))
  = map (updSig i g) (map sigOf (descendants r)).
Proof.
  intro ND. rewrite ids_childNodes in ND. inversion ND as [|? ? _ NDK]; subst.
  unfold updateAttrs. rewrite !descendants_childNodes, rewriteAt_childNodes.
  now apply updateAttrs_sigs.
Qed.

Lemma updSigs_fold g (S : list nat) :
  NoDup S ->
  forall L, fold_left (fun L i => map (updSig i g) L) S L = map (updSigs S g) L.
Proof.
  induction S as [|i S IH]; intros ND L.
  - cbn [fold_left]. rewrite <- (map_id L) at 1. apply map_ext.
    intros [j sh]. reflexivity.
  - inversion ND as [|? ? Hi ND']; subst. cbn [fold_left]. rewrite (IH ND'), map_map.
    apply map_ext. intros [j sh]. unfold updSigs, updSig. cbn [fst snd existsb].
    destruct (Nat.eqb_spec j i) as [->|E]; [|reflexivity].
    cbn [orb]. destruct (existsb (Nat.eqb i) S) eqn:Ex; [|reflexivity].
    exfalso. apply Hi. apply existsb_exists in Ex as [x [Hx Ex]].
    apply Nat.eqb_eq in Ex. now subst.
Qed.

(** The attribute updates of a [forEach] over the elements selected by [p]:
    every selected element gets its attributes changed by [g], once, and
    nothing else changes. *)
Lemma update_selected (p : node -> bool) g (r : node) :
  NoDup (ids r) ->
  let r' := fold_left (fun d i => updateAttrs i g d)
              (map nodeId (querySelectorAll p r)) r in
  map sigOf (descendants r')
  = map (fun k => sigOf (if p k then mapAttrs g k else k)) (descendants r)
  /\ sigOf r' = sigOf r /\ NoDup (ids r').
Proof.
  intros ND r'.
  assert (forall (S : list nat) (d : node), NoDup (ids d) ->
            map sigOf (descendants (fold_left (fun d i => updateAttrs i g d) S d))
            = fold_left (fun L i => map (updSig i g) L) S (map sigOf (descendants d))
            /\ sigOf (fold_left (fun d i => updateAttrs i g d) S d) = sigOf d
            /\ NoDup (ids (fold_left (fun d i => updateAttrs i g d) S d))) as Fold.
  { induction S as [|i S IH]; intros d NDd; [now repeat split|].
    cbn [fold_left]. destruct (updateAttrs_ok i g d NDd) as [NDd' _].
    destruct (IH _ NDd') as [E1 [E2 E3]].
    rewrite E1, E2, (updateAttrs_sigs_node i g d NDd). split; [reflexivity|].
    split; [apply rewriteAt_sig | exact E3]. }
  destruct (Fold (map nodeId (querySelectorAll p r)) r ND) as [E1 [E2 E3]].
  fold r' in E1, E2, E3. split; [|now split].
  rewrite E1, updSigs_fold, map_map.
  2:{ unfold querySelectorAll. apply NoDup_map_filter.
      unfold ids, subtree in ND. simpl in ND. now inversion ND. }
  apply map_ext_in. intros k Hk. unfold updSigs. cbn [sigOf fst snd].
  destruct (p k) eqn:Pk.
  - rewrite sigOf_mapAttrs.
    assert (existsb (Nat.eqb (nodeId k)) (map nodeId (querySelectorAll p r)) = true) as ->;
      [|reflexivity].
    apply existsb_exists. exists (nodeId k). split; [|apply Nat.eqb_refl].
    apply in_map. now apply filter_In.
  - destruct (existsb _ _) eqn:Ex; [|reflexivity]. exfalso.
    apply existsb_exists in Ex as [x [Hx Ex]]. apply Nat.eqb_eq in Ex. subst x.
    rewrite (selected_ids p r k ND Hk Hx) in Pk. discriminate.
Qed.

Variable resolveUrl : string -> string -> option string.

Let fix1 := fixImage resolveUrl.
Let fixAll := fixImages resolveUrl.

(** X17: the image normalizer changes nothing but the attributes of the
    [img] elements that have a [src] attribute: the nodes, their order, their
    tags and the text are as before, and every such image has the attributes
    that [fixImage] makes of its own. *)
Theorem X17_fixImages_tree (baseUrl : string) (r : node) :
  NoDup (ids r) ->
  map sigOf (descendants (fixAll baseUrl r))
  = map (fun k => sigOf (if isImgWithSrc k then mapAttrs (fix1 baseUrl) k else k))
        (descendants r)
  /\ sigOf (fixAll baseUrl r) = sigOf r
  /\ textContent (fixAll baseUrl r) = textContent r.
Proof.
  intro ND. unfold fixAll, fixImages.
  destruct (update_selected isImgWithSrc (fix1 baseUrl) r ND) as [E1 [E2 _]].
  split; [exact E1|]. split; [exact E2|]. apply textContent_update_fold.
Qed.

Lemma getAttribute_setStyle name prop v (a : list (string * string)) :
  name <> "style" ->
  getAttribute name (setStyleProperty prop v a) = getAttribute name a.
Proof.
  intro H. unfold setStyleProperty. rewrite getAttribute_set.
  destruct (String.eqb_spec "style" name) as [E|_]; [now elim H | reflexivity].
Qed.

Lemma hasStyle_setStyle prop v (a : list (string * string)) :
  getAttribute "style" (setStyleProperty prop v a) <> None.
Proof. unfold setStyleProperty. rewrite getAttribute_set. discriminate. Qed.

(** X18: what the image normalizer does to the attributes of one image: an
    image without source, or with an empty one, is left alone; otherwise the
    [width] and [height] attributes are gone, an inline style is set, a
    source that is an http(s) URL is kept, another one is replaced by its
    resolution against the page URL, or kept when it does not resolve, and
    every other attribute is as before. *)
Theorem X18_fixImage_attributes (baseUrl : string) (a : list (string * string)) :
  let a' := fix1 baseUrl a in
  (getAttribute "src" a = None \/ getAttribute "src" a = Some "" -> a' = a)
  /\ (forall src, getAttribute "src" a = Some src -> src <> "" ->
        getAttribute "width" a' = None
        /\ getAttribute "height" a' = None
        /\ getAttribute "style" a' <> None
        /\ getAttribute "src" a'
           = Some (if isHttpUrl src then src
                   else match resolveUrl src baseUrl with
                        | Some abs => abs
                        | None => src
                        end)
        /\ forall name, name <> "src" -> name <> "width" -> name <> "height" ->
             name <> "style" -> getAttribute name a' = getAttribute name a).
Proof.
  intro a'. unfold a', fix1, fixImage. split.
  - intros [E|E]; rewrite E; reflexivity.
  - intros src E Hne. rewrite E. cbv zeta.
    destruct src as [|c s]; [now elim Hne|]. cbn [isEmpty].
    set (a1 := if negb (isHttpUrl (String c s)) then _ else a).
    assert (getAttribute "src" a1
            = Some (if isHttpUrl (String c s) then String c s
                    else match resolveUrl (String c s) baseUrl with
                         | Some abs => abs
                         | None => String c s
                         end)
            /\ forall name, name <> "src" -> getAttribute name a1 = getAttribute name a)
      as [Hsrc Hoth].
    { unfold a1. destruct (isHttpUrl (String c s)); cbn [negb]; [now split|].
      destruct (resolveUrl (String c s) baseUrl) as [abs|]; [|now split].
      split; [now rewrite getAttribute_set|].
      intros name Hn. rewrite getAttribute_set.
      destruct (String.eqb_spec "src" name) as [<-|_]; [now elim Hn | reflexivity]. }
    split; [|split; [|split; [|split]]].
    + repeat rewrite getAttribute_setStyle by discriminate.
      now rewrite !getAttribute_remove.
    + repeat rewrite getAttribute_setStyle by discriminate.
      now rewrite !getAttribute_remove.
    + apply hasStyle_setStyle.
    + repeat rewrite getAttribute_setStyle by discriminate.
      now rewrite !getAttribute_remove.
    + intros name N1 N2 N3 N4. repeat rewrite getAttribute_setStyle by exact N4.
      rewrite !getAttribute_remove.
      destruct (String.eqb_spec "height" name) as [<-|_]; [now elim N3|].
      destruct (String.eqb_spec "width" name) as [<-|_]; [now elim N2|].
      now apply Hoth.
Qed.

Lemma removeAttribute_absent name (a : list (string * string)) :
  getAttribute name a = None -> removeAttribute name a = a.
Proof.
  induction a as [|[k v] a IH]; [reflexivity|]. cbn [getAttribute removeAttribute filter fst].
  destruct (String.eqb k name); [discriminate|]. intro H. cbn [negb].
  unfold removeAttribute in IH. now rewrite IH.
Qed.

(** X16: after the cleaner the fragment has no [style] or [link] element
    and no inline style, and a second run changes nothing; the cleaner adds
    no node, and what it leaves of an element is the element without its
    [style] attribute. *)
Theorem X16_stripLegacyStyling (r : node) :
  NoDup (ids r) ->
  cleanFragment (stripLegacyStyling r)
  /\ stripLegacyStyling (stripLegacyStyling r) = stripLegacyStyling r
  /\ (forall k', In k' (descendants (stripLegacyStyling r)) ->
        exists k, In k (descendants r) /\ isStyleOrLink k = false
          /\ nodeId k' = nodeId k
          /\ shapeOf k' = mapShape (removeAttribute "style") (shapeOf k)).
Proof.
  intro ND. destruct (stripLegacyStyling_clean r ND) as [_ [_ Hc]].
  split; [exact Hc|]. split.
  - assert (querySelectorAll isStyleOrLink (stripLegacyStyling r) = []) as E1.
    { apply filter_none. intros x Hx. now apply Hc. }
    assert (querySelectorAll (hasAttribute "style") (stripLegacyStyling r) = []) as E2.
    { apply filter_none. intros x Hx. now apply Hc. }
    unfold stripLegacyStyling at 1. cbv zeta. rewrite E1. cbn [map fold_left].
    now rewrite E2.
  - unfold stripLegacyStyling. cbv zeta.
    set (r1 := fold_left (fun d i => removeNode i d)
                 (map nodeId (querySelectorAll isStyleOrLink r)) r).
    destruct (remove_fold isStyleOrLink
                (fun x y H => isStyleOrLink_shape x y (sigOf_shape x y H))
                (map nodeId (querySelectorAll isStyleOrLink r)) r ND) as [ND1 [_ H1]].
    { intros k Hk Hb. apply in_map. now apply filter_In. }
    fold r1 in ND1, H1.
    destruct (update_selected (hasAttribute "style") (removeAttribute "style") r1 ND1)
      as [E _].
    intros k' Hk'.
    assert (In (sigOf k') (map sigOf (descendants
              (fold_left (fun d i => updateAttrs i (removeAttribute "style") d)
                 (map nodeId (querySelectorAll (hasAttribute "style") r1)) r1)))) as Hin
      by now apply in_map.
    rewrite E in Hin. apply in_map_iff in Hin as [k1 [Es Hk1]].
    destruct (H1 k1 Hk1) as [P1 [k [Hk Esig]]]. exists k. split; [exact Hk|].
    split; [now rewrite <- (isStyleOrLink_shape k1 k (sigOf_shape _ _ Esig))|].
    assert (sigOf k' = (nodeId k1, mapShape (removeAttribute "style") (shapeOf k1))) as Ek.
    { rewrite <- Es. destruct (hasAttribute "style" k1) eqn:Hs; [apply sigOf_mapAttrs|].
      unfold sigOf. f_equal. unfold hasAttribute in Hs.
      destruct k1 as [|j t a ks]; [reflexivity|]. cbn [shapeOf mapShape attrsOf] in *.
      destruct (getAttribute "style" a) eqn:Eg; [discriminate|].
      now rewrite (removeAttribute_absent _ _ Eg). }
    unfold sigOf in Ek. injection Ek as Ei Esh.
    rewrite Ei, Esh, (sigOf_id _ _ Esig), (sigOf_shape _ _ Esig). now split.
Qed.

Lemma hasTag_mapShape g t (x y : node) :
  mapShape g (shapeOf x) = shapeOf y -> hasTag t x = hasTag t y.
Proof.
  destruct x, y; simpl; intro H; try discriminate; [reflexivity|].
  now injection H as -> _.
Qed.

Lemma flatten_origin (d : docState) :
  docOk d ->
  docOk (flattenMarginTables d)
  /\ fresh d <= fresh (flattenMarginTables d)
  /\ originOk (descendants (root d)) (fresh d) (fresh (flattenMarginTables d))
       (childNodes (root (flattenMarginTables d))).
Proof. intro Hd. unfold flattenMarginTables. now apply flatten_fold. Qed.

(** X19: the only line breaks in what the pipeline makes of a document are
    the ones the flattener made: none of them is a node of the input. *)
Theorem X19_no_source_line_break (baseUrl : string) (d : docState) :
  docOk d ->
  forall k, In k (descendants (root (normalizeRoot resolveUrl baseUrl d))) ->
    hasTag "br" k = true ->
    fresh d <= nodeId k < fresh (normalizeRoot resolveUrl baseUrl d)
    /\ ~ In (nodeId k) (ids (root d)).
Proof.
  intros [ND Hb] k Hk Hbr.
  assert (fresh d <= nodeId k < fresh (normalizeRoot resolveUrl baseUrl d)) as Hr.
  2:{ split; [exact Hr|]. intro Hin. specialize (Hb _ Hin). lia. }
  unfold normalizeRoot in *. cbv zeta in *. cbn [root fresh] in *.
  destruct (stripLegacyStyling_clean (root d) ND) as [ND1 [Hs1 _]].
  set (r1 := stripLegacyStyling (root d)) in *.
  assert (NoDup (ids (stripLineBreaks r1))
          /\ (forall x, In x (ids (stripLineBreaks r1)) -> In x (ids r1))
          /\ forall k', In k' (descendants (stripLineBreaks r1)) -> hasTag "br" k' = false)
    as [ND2 [Hs2 H2]].
  { destruct (remove_fold (hasTag "br")
                (fun x y H => hasTag_shape "br" x y (sigOf_shape x y H))
                (map nodeId (querySelectorAll (hasTag "br") r1)) r1 ND1) as [A [B C]].
    { intros x Hx Hxb. apply in_map. now apply filter_In. }
    split; [exact A|]. split; [exact B|]. intros k' Hk'. now apply C. }
  set (r2 := stripLineBreaks r1) in *.
  assert (docOk (mkDoc r2 (fresh d))) as Hd2.
  { split; [exact ND2|]. intros i Hi. apply Hb, Hs1, Hs2, Hi. }
  destruct (flatten_origin _ Hd2) as [[ND3 _] [_ Ho]].
  set (d3 := flattenMarginTables (mkDoc r2 (fresh d))) in *.
  cbn [root fresh] in Ho.
  destruct (update_selected isImgWithSrc (fixImage resolveUrl baseUrl) (root d3) ND3)
    as [E _].
  assert (In (sigOf k) (map sigOf (descendants (fixImages resolveUrl baseUrl (root d3)))))
    as Hin by now apply in_map.
  unfold fixImages in Hin. rewrite E in Hin. apply in_map_iff in Hin as [k3 [Es Hk3]].
  assert (nodeId k3 = nodeId k /\ hasTag "br" k3 = true) as [Ei Hb3].
  { destruct (isImgWithSrc k3).
    - rewrite sigOf_mapAttrs in Es. unfold sigOf in Es. injection Es as Ei Esh.
      split; [exact Ei|]. now rewrite (hasTag_mapShape _ "br" _ _ Esh).
    - split; [now apply sigOf_id|].
      now rewrite (hasTag_shape "br" k3 k (sigOf_shape _ _ Es)). }
  rewrite <- Ei. rewrite descendants_childNodes in Hk3.
  destruct (Ho k3 Hk3) as [[k0 [Hk0 Esig]]|[_ Hm]]; [|exact Hm].
  exfalso. pose proof (H2 k0 Hk0) as P0.
  rewrite (hasTag_shape "br" k0 k3 (sigOf_shape _ _ Esig)) in P0. congruence.
Qed.

(** X20: the flattener makes nothing but paragraphs, line breaks and text
    nodes, and changes no tag and no attribute: every node of its output has
    the identity, tag and attributes of a node of the input, or is one it
    made, with a new identity; identities stay pairwise distinct. *)
Theorem X20_flattener_origin (d : docState) :
  docOk d ->
  docOk (flattenMarginTables d)
  /\ fresh d <= fresh (flattenMarginTables d)
  /\ forall k, In k (descendants (root (flattenMarginTables d))) ->
       (exists k0, In k0 (descendants (root d)) /\ sigOf k0 = sigOf k)
       \/ madeNode (fresh d) (fresh (flattenMarginTables d)) k.
Proof.
  intro Hd. destruct (flatten_origin d Hd) as [H1 [H2 H3]].
  split; [exact H1|]. split; [exact H2|].
  intros k Hk. rewrite descendants_childNodes in Hk. exact (H3 k Hk).
Qed.

End TransformFacts.

Section TransformExamples.
#[local] Existing Instance JsString.asciiText.

Lemma pictureDoc_ok : DocSpec.docOk TransformSpec.pictureDoc.
Proof.
  split.
  - vm_compute. repeat constructor; simpl; intuition lia.
  - intros i Hi. vm_compute in Hi. vm_compute. intuition lia.
Qed.

Lemma marginDoc_ok : DocSpec.docOk IdemSpec.marginDoc.
Proof.
  split.
  - vm_compute. repeat constructor; simpl; intuition lia.
  - intros i Hi. vm_compute in Hi. vm_compute. intuition lia.
Qed.

(** The fragment with a line break between two texts. *)
Lemma X15_stripLineBreaks_witness :
  Dom.querySelectorAll (Dom.hasTag "br")
    (Server.stripLineBreaks (Server.root TransformSpec.pictureDoc)) = []
  /\ Dom.textContent (Server.stripLineBreaks (Server.root TransformSpec.pictureDoc))
     = Dom.textContent (Server.root TransformSpec.pictureDoc).
Proof.
  destruct (X15_stripLineBreaks (Server.root TransformSpec.pictureDoc)
              (proj1 pictureDoc_ok)) as [A [_ [_ D]]].
  split; [exact A|]. apply D.
  intros k Hk Hb. vm_compute in Hk.
  repeat (destruct Hk as [<-|Hk]; [try discriminate; reflexivity|]). elim Hk.
Defined.

(** The fragment with an inline style. *)
Lemma X16_stripLegacyStyling_witness :
  CleanSpec.cleanFragment (Server.stripLegacyStyling (Server.root TransformSpec.pictureDoc)).
Proof.
  exact (proj1 (X16_stripLegacyStyling (Server.root TransformSpec.pictureDoc)
                  (proj1 pictureDoc_ok))).
Defined.

(** The fragment with two images, one of them without source. *)
Lemma X17_fixImages_tree_witness :
  Dom.textContent
    (Server.fixImages CleanSpec.noResolve "https://www.ada.auckland.ac.nz/ada11.htm"
       (Server.root TransformSpec.pictureDoc))
  = Dom.textContent (Server.root TransformSpec.pictureDoc).
Proof.
  exact (proj2 (proj2 (X17_fixImages_tree CleanSpec.noResolve
                         "https://www.ada.auckland.ac.nz/ada11.htm"
                         (Server.root TransformSpec.pictureDoc) (proj1 pictureDoc_ok)))).
Defined.

(** The first line break of the flattened margin table. *)
Lemma X19_no_source_line_break_witness :
  ~ In 13 (Dom.ids (Server.root IdemSpec.marginDoc)).
Proof.
  apply (X19_no_source_line_break CleanSpec.noResolve
           "https://www.ada.auckland.ac.nz/ada11.htm" IdemSpec.marginDoc marginDoc_ok
           (Dom.Elem 13 "br" [] [])).
  - vm_compute. intuition.
  - reflexivity.
Defined.

(** The two-row margin table. *)
Lemma X20_flattener_origin_witness :
  DocSpec.docOk (Server.flattenMarginTables IdemSpec.marginDoc).
Proof.
  exact (proj1 (X20_flattener_origin IdemSpec.marginDoc marginDoc_ok)).
Defined.

End TransformExamples.

(** ** The flattener of [src/server.js] on plain tables *)

Section ServerJsFacts.
Context {platform : JsString.JsPlatform}.
Import JsString Dom Server DomSpec TableSpec FlattenSpec DocSpec MarginSpec
       TransformSpec ServerJsSpec.

(** Permutations between concatenations of the same lists. *)
Ltac perm_cat :=
  rewrite <- ?app_assoc;
  match goal with
  | |- Permutation ?l ?r =>
      rewrite <- (app_nil_r l), <- (app_nil_r r); rewrite <- ?app_assoc
  end;
  repeat first
    [ apply Permutation_refl
    | apply perm_pick0 | apply perm_pick1 | apply perm_pick2 | apply perm_pick3 ].

(** Taking the children out of a cell keeps the identities distinct and
    bounded. *)
Lemma take_cell_forest tid n (G : list node) (cc : node) :
  forestOk False tid n G -> In cc (subtreesF G) -> hasTag "td" cc = true ->
  forestOk False tid n (rewriteIn (nodeId cc) clear G ++ childNodes cc).
Proof.
  intros [ND [Hb _]] Hcc Tcc.
  assert (NoDup (idsF G)) as NDG by now inversion ND.
  destruct (take_cell G (nodeId cc) cc NDG (cellAt_unique G cc NDG Hcc Tcc) Hcc eq_refl)
    as [P _].
  assert (Permutation (tid :: idsF (rewriteIn (nodeId cc) clear G ++ childNodes cc))
                      (tid :: idsF G)) as P' by now apply perm_skip.
  split; [|split; [|intros []]].
  - apply (Permutation_NoDup (Permutation_sym P') ND).
  - intros i Hi. apply Hb. apply (Permutation_in i P' Hi).
Qed.

Lemma rewriteIn_leaf c n s : rewriteIn c clear [Text n s] = [Text n s].
Proof. unfold rewriteIn. cbn. now destruct (n =? c). Qed.

(** One iteration of the row loop on a plain row that is in the table as it
    was. *)
Lemma flattenRow_js_plain (tid : nat) (s : rowState) (tr mc cc : node) (idx : nat) :
  nodeId (tbl s) = tid -> forestOk False tid (nextId s) (inner s) ->
  In tr (descendants (tbl s)) ->
  querySelectorAll (hasTag "td") tr = [mc; cc] ->
  querySelectorAll (hasTag "td") mc = [] ->
  querySelectorAll (hasTag "td") cc = [] ->
  let s' := ServerJs.flattenRow s (nodeId tr) idx in
  tbl s' = rewriteAt (nodeId cc) clear (tbl s)
  /\ wrapped s' = (wrapped s ++ fst (contentPart idx (nextId s) cc))%list
  /\ nextId s' = snd (contentPart idx (nextId s) cc)
  /\ nodeId (tbl s') = tid
  /\ forestOk False tid (nextId s') (inner s').
Proof.
  intros Eid Hok Htr Eq Em Ec s'.
  pose proof Hok as [ND [Hb _]].
  set (G := inner s) in *.
  assert (NoDup (idsF G)) as NDG by now inversion ND.
  assert (forall x, In x (descendants (tbl s)) -> In x (subtreesF G)) as HinG.
  { intros x Hx. unfold G, inner. rewrite subtreesF_app. apply in_or_app. left.
    now rewrite <- descendants_childNodes. }
  destruct (plain_cells G tr mc cc NDG (HinG tr Htr) Eq Em Ec) as [_ [Hcc _]].
  assert (In cc (descendants (tbl s))) as Hcc'.
  { rewrite (descendants_childNodes (tbl s)).
    apply (subtreesF_descendants (childNodes (tbl s)) tr); [|exact Hcc].
    now rewrite <- descendants_childNodes. }
  assert (hasTag "td" cc = true) as Tcc.
  { assert (In cc (querySelectorAll (hasTag "td") tr)) as H
      by (rewrite Eq; right; now left).
    now apply filter_In in H. }
  set (c := nodeId cc).
  assert (~ In c (idsF (wrapped s)) /\ ~ In c (idsF (limbo s))) as [Hcw Hcl].
  { unfold G, inner in NDG. rewrite idsF_app in NDG.
    assert (In c (idsF (childNodes (tbl s)))) as Hi.
    { rewrite idsF_subtreesF, <- descendants_childNodes. now apply in_map. }
    rewrite idsF_app in NDG. split; intro H;
      apply (NoDup_app_disjoint _ _ c NDG Hi); apply in_or_app; auto. }
  assert (s' = mkRow (rewriteAt c clear (tbl s))
                     (wrapped s ++ fst (contentPart idx (nextId s) cc))
                     (limbo s) (snd (contentPart idx (nextId s) cc))) as Es.
  { unfold s', ServerJs.flattenRow.
    assert (findIn (nodeId tr) (forest s) = Some tr) as ->.
    { apply findIn_unique.
      - now rewrite idsF_forest, Eid.
      - unfold subtreesF. rewrite forest_nodes. right. now apply HinG. }
    rewrite Eq. cbv zeta. change (fun k : node => [clearKids k]) with clear. fold c.
    rewrite (rewriteIn_absent c clear (limbo s) Hcl). unfold contentPart.
    destruct (idx =? 0); cbn [fst snd].
    - now rewrite (rewriteIn_absent c clear (wrapped s) Hcw).
    - rewrite rewriteIn_app, (rewriteIn_absent c clear (wrapped s) Hcw), rewriteIn_leaf.
      now rewrite <- app_assoc. }
  rewrite Es. cbn [tbl wrapped nextId limbo].
  split; [reflexivity|]. split; [reflexivity|]. split; [reflexivity|].
  split; [now rewrite rewriteAt_id|].
  pose proof (take_cell_forest tid (nextId s) G cc Hok (HinG cc Hcc') Tcc) as HB.
  fold c in HB.
  assert (rewriteIn c clear G
          = (childNodes (rewriteAt c clear (tbl s)) ++ wrapped s ++ limbo s)%list) as E1.
  { unfold G, inner. rewrite !rewriteIn_app, rewriteAt_childNodes.
    now rewrite (rewriteIn_absent c clear (wrapped s) Hcw),
      (rewriteIn_absent c clear (limbo s) Hcl). }
  rewrite E1 in HB. unfold inner, contentPart. cbn [tbl wrapped limbo].
  destruct (idx =? 0); cbn [fst snd].
  - apply (forestOk_perm False tid (nextId s) _
             ((childNodes (rewriteAt c clear (tbl s)) ++ wrapped s ++ limbo s)
                ++ childNodes cc)%list); [perm_cat | exact HB].
  - apply (forestOk_perm False tid (S (nextId s)) _
             (((childNodes (rewriteAt c clear (tbl s)) ++ wrapped s ++ limbo s)
                 ++ childNodes cc) ++ [Text (nextId s) " "])%list).
    + perm_cat.
    + apply (forestOk_made False tid (nextId s)); [exact HB | lia | |].
      * intros x [<-|[]]. apply made_text. lia.
      * repeat constructor. intros [].
Qed.

(** A node apart from the row is still in the table once the content cell
    is emptied. *)
Lemma content_row_keeps (K : list node) (tr mc cc x : node) :
  NoDup (idsF K) -> In tr (subtreesF K) -> In x (subtreesF K) ->
  querySelectorAll (hasTag "td") tr = [mc; cc] ->
  querySelectorAll (hasTag "td") mc = [] ->
  querySelectorAll (hasTag "td") cc = [] ->
  (forall i, In i (ids tr) -> In i (ids x) -> False) ->
  In x (subtreesF (rewriteIn (nodeId cc) clear K)).
Proof.
  intros NDK Htr Hx Eq Em Ec D.
  destruct (plain_cells K tr mc cc NDK Htr Eq Em Ec) as [_ [Hcc _]].
  assert (In cc (subtreesF K)) as HcK by now apply (subtreesF_descendants K tr).
  assert (rewriteAt (nodeId cc) clear x = x) as E.
  { apply rewriteAt_absent. intro H. apply (D (nodeId cc)).
    - apply (ids_sub_descendant tr cc); [exact Hcc|]. unfold ids, subtree. now left.
    - unfold ids, subtree. now right. }
  rewrite <- E. apply rewriteIn_keeps; [exact Hx|].
  intros a Ha Ea. rewrite (node_unique K a cc NDK Ha HcK Ea).
  intro H. apply (D (nodeId x)).
  - apply (ids_sub_descendant tr cc); [exact Hcc | now apply in_ids_subtree].
  - unfold ids, subtree. now left.
Qed.

Lemma flattenRows_js_plain (tid : nat) (rows : list node) :
  forall (s : rowState) (idx : nat),
  nodeId (tbl s) = tid -> forestOk False tid (nextId s) (inner s) ->
  (forall tr, In tr rows -> In tr (descendants (tbl s)) /\ plainRow tr) ->
  NoDup (idsF rows) ->
  wrapped (ServerJs.flattenRows s (map nodeId rows) idx)
  = (wrapped s ++ fst (contentBlock rows idx (nextId s)))%list
  /\ nextId (ServerJs.flattenRows s (map nodeId rows) idx)
     = snd (contentBlock rows idx (nextId s)).
Proof.
  induction rows as [|tr rows IH]; intros s idx Eid Hok Hrows ND.
  - simpl. now rewrite app_nil_r.
  - destruct (Hrows tr (or_introl eq_refl)) as [Htr [mc [cc [Ech [Eq [Em Ec]]]]]].
    destruct (flattenRow_js_plain tid s tr mc cc idx Eid Hok Htr Eq Em Ec)
      as [Et [Ew [En [Eid' Hok']]]].
    cbn [map ServerJs.flattenRows contentBlock]. rewrite Ech.
    set (s' := ServerJs.flattenRow s (nodeId tr) idx) in *.
    change (idsF (tr :: rows)) with (ids tr ++ idsF rows)%list in ND.
    destruct (NoDup_app_parts _ _ ND) as [_ [ND' D]].
    destruct (IH s' (S idx) Eid' Hok') as [IHw IHn]; [|exact ND'|].
    + intros tr' Hin. destruct (Hrows tr' (or_intror Hin)) as [Htr' Hp].
      split; [|exact Hp]. rewrite Et.
      rewrite descendants_childNodes, rewriteAt_childNodes.
      destruct Hok as [NDs _]. inversion NDs as [|? ? _ NDi]; subst.
      unfold inner in NDi. rewrite idsF_app in NDi.
      apply NoDup_app_parts in NDi as [NDK _].
      rewrite descendants_childNodes in Htr, Htr'.
      apply (content_row_keeps _ tr mc cc tr' NDK Htr Htr' Eq Em Ec).
      intros i Hi Hi'. apply (D i Hi). unfold idsF. apply in_flat_map.
      now exists tr'.
    + rewrite IHw, IHn, Ew, En. cbn [fst snd]. now rewrite app_assoc.
Qed.

Lemma append_assoc (a b c : string) : (a ++ b) ++ c = a ++ b ++ c.
Proof. induction a; simpl; [reflexivity | now f_equal]. Qed.

Lemma append_nil_r (a : string) : a ++ "" = a.
Proof. induction a; simpl; [reflexivity | now f_equal]. Qed.

Lemma join_spaced (l : list string) :
  Client.join " " l
  = match l with
    | [] => ""
    | x :: r => x ++ spaced r
    end.
Proof.
  induction l as [|x [|y r] IH]; [reflexivity| |].
  - simpl. now rewrite append_nil_r.
  - change (Client.join " " (x :: y :: r)) with (x ++ " " ++ Client.join " " (y :: r)).
    rewrite IH. reflexivity.
Qed.

Lemma textContent_children (tr cc : node) :
  In cc (children tr) -> textContent cc = textF (childNodes cc).
Proof.
  intro H. apply filter_In in H as [_ H]. destruct cc; [discriminate | reflexivity].
Qed.

Lemma textF_contentBlock (rows : list node) :
  (forall tr, In tr rows -> exists c0 cc, children tr = [c0; cc]) ->
  forall idx n,
  textF (fst (contentBlock rows idx n))
  = if idx =? 0 then Client.join " " (contentTexts rows)
    else spaced (contentTexts rows).
Proof.
  induction rows as [|tr rows IH]; intros Hrows idx n.
  - simpl. now destruct (idx =? 0).
  - assert (forall m, textF (fst (contentBlock rows (S idx) m))
                      = spaced (contentTexts rows)) as IH'.
    { intro m. rewrite (IH (fun tr' H => Hrows tr' (or_intror H)) (S idx)). reflexivity. }
    destruct (Hrows tr (or_introl eq_refl)) as [c0 [cc E]].
    cbn [contentBlock contentTexts flat_map]. rewrite E. cbn [app fst snd].
    fold (contentTexts rows). rewrite textF_app, IH'.
    assert (textContent cc = textF (childNodes cc)) as Ec.
    { apply (textContent_children tr). rewrite E. right. now left. }
    unfold contentPart. destruct (idx =? 0); cbn [fst snd].
    + rewrite join_spaced. now rewrite Ec.
    + rewrite (textF_app [Text n " "]). rewrite textF_single. cbn [textContent spaced fold_right].
      fold (spaced (contentTexts rows)). rewrite Ec. now rewrite append_assoc.
Qed.

(** X21: on a table of plain rows that lie apart from one another, the
    flattener of [src/server.js] puts in the table's place a paragraph that
    holds the child nodes of the second cells, row after row, with a
    one-space text node before those of every row but the first; nothing of
    the first cells is kept, and the text of the paragraph is the texts of
    the second cells joined by single spaces. *)
Theorem X21_server_js_content_only (d : docState) (t : node) :
  docOk d -> In t (descendants (root d)) -> qualifies t = true ->
  (forall tr, In tr (querySelectorAll (hasTag "tr") t) -> plainRow tr) ->
  NoDup (idsF (querySelectorAll (hasTag "tr") t)) ->
  let rows := querySelectorAll (hasTag "tr") t in
  let block := fst (contentBlock rows 0 (S (fresh d))) in
  ServerJs.flattenTable d (nodeId t)
  = mkDoc (replaceWith (nodeId t) (wrapperOf (fresh d) block) (root d))
          (snd (contentBlock rows 0 (S (fresh d))))
  /\ textContent (wrapperOf (fresh d) block) = Client.join " " (contentTexts rows).
Proof.
  intros [ND Hb] Ht Hq Hplain NDr rows block. split.
  2:{ unfold wrapperOf. rewrite textContent_elem. unfold block.
      rewrite textF_contentBlock; [reflexivity|].
      intros tr Htr. destruct (Hplain tr Htr) as [mc [cc [E _]]]. now exists mc, cc. }
  unfold ServerJs.flattenTable. rewrite (findBelow_unique _ _ ND Ht).
  unfold qualifies in Hq. unfold block, rows in *. clear block rows.
  destruct (querySelectorAll (hasTag "tr") t) as [|r0 rs] eqn:Etr; [discriminate|].
  rewrite Hq. cbn [negb].
  set (w := fresh d) in *.
  set (s0 := mkRow t [] [] (S w)).
  assert (inner s0 = childNodes t) as E0.
  { unfold inner, s0. cbn [tbl wrapped limbo]. now rewrite app_nil_r. }
  rewrite ids_childNodes in ND, Hb.
  rewrite descendants_childNodes in Ht.
  assert (NoDup (idsF (childNodes (root d)))) as NDK by now inversion ND.
  destruct (ids_block _ t NDK Ht) as [l1 [l2 EK]].
  assert (NoDup (ids t)) as NDT.
  { rewrite EK in NDK. apply NoDup_app_parts in NDK as [_ [NDK _]].
    now apply NoDup_app_parts in NDK as [NDK _]. }
  assert (forall i, In i (ids t) -> i < w) as HbT.
  { intros i Hi. apply Hb. right. rewrite EK. apply in_or_app. right.
    apply in_or_app. now left. }
  assert (forestOk False (nodeId t) (nextId s0) (inner s0)) as Hok0.
  { rewrite E0. rewrite ids_childNodes in NDT, HbT.
    split; [exact NDT|]. split; [|intros []].
    intros i Hi. specialize (HbT i Hi). unfold s0. cbn [nextId]. lia. }
  destruct (flattenRows_js_plain (nodeId t) (r0 :: rs) s0 0 eq_refl Hok0) as [Ew En].
  - intros tr Hin. split; [|now apply Hplain].
    rewrite <- Etr in Hin. now apply filter_In in Hin.
  - exact NDr.
  - rewrite Ew, En. reflexivity.
Qed.

End ServerJsFacts.

Section ServerJsExamples.
#[local] Existing Instance JsString.asciiText.

Lemma plainDoc_ok : DocSpec.docOk MarginSpec.plainDoc.
Proof.
  split.
  - vm_compute. repeat constructor; simpl; intuition lia.
  - intros i Hi. vm_compute in Hi. vm_compute. intuition lia.
Qed.

Lemma plainTable_rows :
  In ServerJsSpec.plainTable (Dom.descendants (Server.root MarginSpec.plainDoc))
  /\ (forall tr, In tr (Dom.querySelectorAll (Dom.hasTag "tr") ServerJsSpec.plainTable) ->
        MarginSpec.plainRow tr)
  /\ NoDup (Dom.idsF (Dom.querySelectorAll (Dom.hasTag "tr") ServerJsSpec.plainTable)).
Proof.
  split; [now left|]. split.
  - intros tr [<-|[<-|[]]]; eexists; eexists; repeat split; reflexivity.
  - vm_compute. repeat constructor; simpl; intuition lia.
Qed.

(** The table with a marker in its first row only: the marker is lost. *)
Lemma X21_server_js_content_only_witness :
  ServerJs.flattenTable MarginSpec.plainDoc 1
  = Server.mkDoc
      (Dom.Elem 0 "div" []
         [Dom.Elem 12 "p" [] [Dom.Text 6 "first"; Dom.Text 13 " "; Dom.Text 11 "second"]])
      14.
Proof.
  exact (proj1 (X21_server_js_content_only MarginSpec.plainDoc ServerJsSpec.plainTable
                  plainDoc_ok (proj1 plainTable_rows) eq_refl
                  (proj1 (proj2 plainTable_rows)) (proj2 (proj2 plainTable_rows)))).
Defined.

(** The same table under the flattener of the final server: the marker, a
    line break, the first content, a space, the second content. *)
Lemma plain_table_block_witness :
  Server.flattenTable MarginSpec.plainDoc 1
  = Server.mkDoc
      (Dom.Elem 0 "div" []
         [Dom.Elem 12 "p" []
            [Dom.Text 4 "1.01"; Dom.Elem 13 "br" [] []; Dom.Text 6 "first";
             Dom.Text 14 " "; Dom.Text 11 "second"]])
      15.
Proof.
  exact (plain_table_block MarginSpec.plainDoc ServerJsSpec.plainTable
           plainDoc_ok (proj1 plainTable_rows) eq_refl
           (proj1 (proj2 plainTable_rows)) (proj2 (proj2 plainTable_rows))).
Defined.

End ServerJsExamples.

(** ** Note links and the annotation rule *)

Section NoteFacts.
Context {platform : JsString.JsPlatform}.
Import JsString Catalog CatalogSpec RefSpec HrefSpec Client LinkSpec NoteSpec.

Lemma annAt_spec (s : string) :
  annAt s = true
  <-> exists digits post,
        s = "ada" ++ digits ++ "ann.htm" ++ post
        /\ digits <> "" /\ allChars isDigit digits = true.
Proof.
  unfold annAt. split.
  - intro H. apply andb_true_iff in H as [H1 H2].
    destruct (startsWith_split _ _ H1) as [r ->].
    change (drop 3 ("ada" ++ r)) with r in H2. cbv zeta in H2.
    apply andb_true_iff in H2 as [L H3]. apply Nat.ltb_lt in L.
    destruct (startsWith_split _ _ H3) as [post Ep].
    exists (takeWhile isDigit r), post. split; [|split].
    + rewrite <- Ep. now rewrite <- take_drop_while.
    + now apply takeWhile_nonempty.
    + apply allChars_takeWhile.
  - intros [digits [post [-> [Hne Hd]]]]. rewrite startsWith_app.
    change (drop 3 ("ada" ++ digits ++ "ann.htm" ++ post))
      with (digits ++ "ann.htm" ++ post).
    cbv zeta. rewrite (dropWhile_app isDigit digits ("ann.htm" ++ post) Hd).
    2:{ intros c r E. injection E as <- _. reflexivity. }
    rewrite startsWith_app, andb_true_r. apply Nat.ltb_lt.
    rewrite (length_append digits). destruct digits; [contradiction|]. simpl. lia.
Qed.

(** X22: [isAdaNoteHref] accepts an href exactly when it is empty or,
    trimmed, it is empty, begins with [#], or holds the name of a notes
    file, [ada], one or more digits, [ann.htm], with its letters in either
    case. *)
Theorem X22_isAdaNoteHref (href : string) :
  isAdaNoteHref href = true
  <-> href = ""
      \/ trim href = ""
      \/ startsWith "#" (trim href) = true
      \/ namesNotesFile (asciiLower (trim href)).
Proof.
  unfold isAdaNoteHref, namesNotesFile.
  destruct (isEmpty href) eqn:Ee.
  { destruct href; [|discriminate]. split; [now left | reflexivity]. }
  assert (href <> "") as Hne by now apply isEmpty_false.
  cbv zeta. destruct (String.eqb_spec (trim href) "") as [E0|N0].
  { cbn [orb]. split; [now right; left | reflexivity]. }
  destruct (String.eqb_spec (trim href) "#") as [E1|N1].
  { cbn [orb]. split; [|reflexivity]. intros _. right. right. left. now rewrite E1. }
  cbn [orb]. destruct (startsWith "#" (trim href)) eqn:Es.
  { split; [|reflexivity]. intros _. right. right. now left. }
  destruct (matchesSomewhere annAt (asciiLower (trim href))) eqn:Em.
  - split; [|reflexivity]. intros _. right. right. right.
    apply matchesSomewhere_spec in Em as [pre [suf [E H]]].
    apply annAt_spec in H as [digits [post [-> H]]]. now exists pre, digits, post.
  - split; [discriminate|]. intros [H|[H|[H|[pre [digits [post [E H]]]]]]];
      [contradiction | contradiction | discriminate |].
    assert (matchesSomewhere annAt (asciiLower (trim href)) = true) as C.
    { apply matchesSomewhere_spec. exists pre, ("ada" ++ digits ++ "ann.htm" ++ post).
      split; [exact E|]. apply annAt_spec. now exists digits, post. }
    congruence.
Qed.

Lemma hasAnnotationPage_bounds (p ch : nat) :
  hasAnnotationPage p ch = true -> p < 4 /\ ch < 44.
Proof.
  unfold hasAnnotationPage.
  repeat match goal with
         | |- context [if ?b then _ else _] => destruct b eqn:?
         end; try discriminate; intros _;
  repeat match goal with
         | H : (_ && _) = true |- _ => apply andb_true_iff in H as [? ?]
         | H : (_ =? _) = true |- _ => apply Nat.eqb_eq in H
         | H : (_ <=? _) = true |- _ => apply Nat.leb_le in H
         end; lia.
Qed.

Lemma ruleInCatalog_holds : ruleInCatalog = true.
Proof. vm_compute. reflexivity. Qed.

Lemma descriptorOk_all (c : chapter) : In c CHAPTERS -> descriptorOk c = true.
Proof.
  assert (forallb descriptorOk CHAPTERS = true) as H by (vm_compute; reflexivity).
  rewrite forallb_forall in H. apply H.
Qed.

(** X23: the pairs of part and chapter that [hasAnnotationPage] accepts are
    exactly the chapters of the catalog that have a notes URL: the rule
    accepts no chapter that the catalog lacks. *)
Theorem X23_annotation_rule_in_catalog (p ch : nat) :
  hasAnnotationPage p ch = true
  <-> exists c, In c CHAPTERS /\ part c = p /\ chapterNo c = ch /\ notesUrl c <> None.
Proof.
  split.
  - intro H. destruct (hasAnnotationPage_bounds p ch H) as [Hp Hc].
    pose proof ruleInCatalog_holds as R. unfold ruleInCatalog in R.
    rewrite forallb_forall in R.
    assert (In p (seq 0 4)) as Ip by (apply in_seq; lia).
    assert (In ch (seq 0 44)) as Ic by (apply in_seq; lia).
    specialize (R p Ip). rewrite forallb_forall in R.
    specialize (R ch Ic). rewrite H in R. cbn [implb] in R.
    pose proof R as Ex.
    apply existsb_exists in Ex as [c [Hin Hn]]. exists c. split; [exact Hin|].
    unfold hasNotes in Hn. apply andb_true_iff in Hn as [Hn Hu].
    apply andb_true_iff in Hn as [H1 H2].
    apply Nat.eqb_eq in H1, H2. repeat split; auto.
    destruct (notesUrl c); [discriminate | discriminate].
  - intros [c [Hin [<- [<- Hn]]]]. pose proof (descriptorOk_all c Hin) as D.
    unfold descriptorOk in D. apply andb_true_iff in D as [_ D].
    destruct (notesUrl c); [|now elim Hn]. now apply andb_true_iff in D as [D _].
Qed.

End NoteFacts.

(** ** What the link wiring writes into the anchors *)

Section AnchorFacts.
Context {platform : JsString.JsPlatform}.
Import JsString Dom Server DomSpec TransformSpec Client Anchors AnchorSpec.

Variable urlPathname : string -> option string.

Let classify := classifyLink urlPathname.
Let wireText := wireTextLink urlPathname.
Let wireOverlay := wireOverlayLink urlPathname.

Lemma opensApart_new (a : list (string * string)) :
  opensApart (openInNewTab a)
  /\ forall name, name <> "target" -> name <> "rel" ->
       getAttribute name (openInNewTab a) = getAttribute name a.
Proof.
  unfold opensApart, openInNewTab. rewrite !getAttribute_set. cbn.
  split; [now split|]. intros name N1 N2. rewrite !getAttribute_set.
  destruct (String.eqb_spec "rel" name) as [<-|_]; [now elim N2|].
  destruct (String.eqb_spec "target" name) as [<-|_]; [now elim N1 | reflexivity].
Qed.

Lemma orderedSet_add (token : string) (l : list string) :
  In token (if existsb (String.eqb token) l then l else (l ++ [token])%list).
Proof.
  destruct (existsb (String.eqb token) l) eqn:E.
  - apply existsb_exists in E as [x [Hx E]]. apply String.eqb_eq in E. now subst.
  - apply in_or_app. right. now left.
Qed.

(** X24: what [wireTextLinks] writes into an anchor. A note link gets the
    class [note-link] among the tokens of its [class] attribute and keeps its
    other attributes; a chapter link is left as it is; a link to another page
    of the source site gets the absolute URL as its [href]; this link and
    every other link open in a new tab with [rel] set to
    [noopener noreferrer]; no [href] but that of a link to another page of
    the source site is changed.  [wireOverlayLinks] writes the same, except
    that it leaves a note link as it is. *)
Theorem X24_wire_anchor (m : hrefMap) (a : list (string * string)) :
  let a' := wireText m a in
  match classify m (getAttribute "href" a) with
  | NoteLink =>
      (exists tokens, getAttribute "class" a' = Some (join " " tokens)
                      /\ In "note-link" tokens)
      /\ (forall name, name <> "class" -> getAttribute name a' = getAttribute name a)
      /\ wireOverlay m a = a
  | ChapterNav _ => a' = a /\ wireOverlay m a = a
  | AdaDoc abs =>
      getAttribute "href" a' = Some abs /\ isHttpUrl abs = true
      /\ opensApart a'
      /\ (forall name, name <> "href" -> name <> "target" -> name <> "rel" ->
            getAttribute name a' = getAttribute name a)
      /\ wireOverlay m a = a'
  | GenericLink =>
      opensApart a'
      /\ (forall name, name <> "target" -> name <> "rel" ->
            getAttribute name a' = getAttribute name a)
      /\ wireOverlay m a = a'
  end.
Proof.
  intro a'. unfold a', wireText, wireOverlay, wireTextLink, wireOverlayLink, classify.
  cbv zeta.
  destruct (classifyLink urlPathname m (getAttribute "href" a)) as [|cid|abs|] eqn:Ec.
  - split; [|split; [|reflexivity]].
    + unfold classListAdd. cbv zeta. eexists. rewrite getAttribute_set. cbn.
      split; [reflexivity | apply orderedSet_add].
    + intros name N. unfold classListAdd. cbv zeta. rewrite getAttribute_set.
      destruct (String.eqb_spec "class" name) as [<-|_]; [now elim N | reflexivity].
  - now split.
  - destruct (opensApart_new (setAttribute "href" abs a)) as [A B].
    split; [|split; [|split; [exact A|split; [|reflexivity]]]].
    + rewrite B by discriminate. now rewrite getAttribute_set.
    + unfold classifyLink in Ec.
      destruct (isAdaNoteHref _); [discriminate|].
      destruct (lookupChapterIdForHref _ _ _); [discriminate|].
      destruct (isRelativeAdaDoc _); [|discriminate]. injection Ec as <-.
      apply makeAdaAbsolute_http.
    + intros name N1 N2 N3. rewrite B by assumption. rewrite getAttribute_set.
      destruct (String.eqb_spec "href" name) as [<-|_]; [now elim N1 | reflexivity].
  - match goal with |- context [openInNewTab ?x] => set (a1 := x) end.
    destruct (opensApart_new a1) as [A B].
    split; [exact A|]. split; [|reflexivity].
    intros name N1 N2. rewrite B by assumption. unfold a1.
    destruct (getAttribute "href" a) as [h|] eqn:Eh; [|reflexivity].
    destruct (negb (isEmpty h) && negb (isHttpUrl h)); [|reflexivity].
    rewrite getAttribute_set.
    destruct (String.eqb_spec "href" name) as [<-|_]; [now symmetry | reflexivity].
Qed.

(** X25: [wireTextLinks] changes nothing in the text but the attributes of
    its anchors: the nodes, their order, their tags and the text content are
    as before, and every anchor has the attributes that the wiring of one
    anchor makes of its own. *)
Theorem X25_wireTextLinks_tree (m : hrefMap) (r : node) :
  NoDup (ids r) ->
  map sigOf (descendants (wireTextLinks urlPathname m r))
  = map (fun k => sigOf (if hasTag "a" k then mapAttrs (wireText m) k else k))
        (descendants r)
  /\ sigOf (wireTextLinks urlPathname m r) = sigOf r
  /\ textContent (wireTextLinks urlPathname m r) = textContent r.
Proof.
  intro ND. unfold wireTextLinks.
  destruct (update_selected (hasTag "a") (wireText m) r ND) as [E1 [E2 _]].
  split; [exact E1|]. split; [exact E2|]. apply textContent_update_fold.
Qed.

End AnchorFacts.

Section AnchorExamples.
#[local] Existing Instance JsString.asciiText.

(** The text with three links. *)
Lemma X25_wireTextLinks_tree_witness :
  Dom.textContent (Anchors.wireTextLinks HrefSpec.sitePathname [] AnchorSpec.linksDoc)
  = Dom.textContent AnchorSpec.linksDoc.
Proof.
  refine (proj2 (proj2 (X25_wireTextLinks_tree HrefSpec.sitePathname []
                          AnchorSpec.linksDoc _))).
  vm_compute. repeat constructor; simpl; intuition lia.
Defined.

End AnchorExamples.
